(** * Case-conversion table extraction of tools/unicode_case_conversion.py

    A shallow embedding of the table-compression passes of JerryScript's
    [unicode_case_conversion.py] and the properties of its extracted
    tables.  Python values are modelled as follows:

    - an [int] is a [Z];
    - a [str] is the list of its code points, so [len], [ord] and indexing
      are list operations;
    - a [dict] with integer keys is an association list that keeps the
      insertion order of its keys, each key bound once;
    - a [list] of ints is a [list Z], indexed the Python way (negative
      indices count from the end, out-of-range indices raise);
    - an exception is the [Raise] outcome of the [result] monad. *)

From Stdlib Require Import ZArith Lia String Ascii.
From stdpp Require Import base tactics option numbers list list_numbers sorting.

Local Open Scope Z_scope.

(** ** Exceptions and results *)

Inductive exn : Type :=
  | KeyError
  | TypeError
  | IndexError
  | ValueError
  | UnboundLocalError.

Inductive result (A : Type) : Type :=
  | Ok (a : A)
  | Raise (e : exn).

Arguments Ok {A} a.
Arguments Raise {A} e.

#[global] Instance exn_eq_dec : EqDecision exn.
Proof. solve_decision. Defined.

#[global] Instance result_ret : MRet result := fun _ a => Ok a.

#[global] Instance result_bind : MBind result := fun _ _ f m =>
  match m with
  | Ok a => f a
  | Raise e => Raise e
  end.

(** [foldM f l s] runs the body [f] of a [for] loop over [l], threading the
    loop state and stopping at the first exception. *)
Fixpoint foldM {S A : Type} (f : S -> A -> result S) (l : list A) (s : S)
  : result S :=
  match l with
  | [] => Ok s
  | a :: l' => s' ← f s a; foldM f l' s'
  end.

(** ** Python strings and lists *)

Definition str : Type := list Z.

Definition len {A : Type} (l : list A) : Z := Z.of_nat (length l).

(** [ord(s)] is defined on one-character strings only. *)
Definition ord (s : str) : result Z :=
  match s with
  | [c] => Ok c
  | _ => Raise TypeError
  end.

(** The position denoted by a Python index [i] in a sequence [l]. *)
Definition py_index {A : Type} (l : list A) (i : Z) : result nat :=
  let j := if i <? 0 then i + len l else i in
  if (0 <=? j) && (j <? len l) then Ok (Z.to_nat j) else Raise IndexError.

(** [l[i]] *)
Definition list_getitem {A : Type} (l : list A) (i : Z) : result A :=
  j ← py_index l i;
  match l !! j with
  | Some x => Ok x
  | None => Raise IndexError
  end.

(** [l[i] = x] *)
Definition list_setitem {A : Type} (l : list A) (i : Z) (x : A)
  : result (list A) :=
  j ← py_index l i; Ok (<[j:=x]> l).

(** [s[i]] on a string is the one-character string at that position. *)
Definition str_getitem (s : str) (i : Z) : result str :=
  c ← list_getitem s i; Ok [c].

(** [range(start, stop, step)] for a positive [step]. *)
Definition py_range (start stop step : Z) : list Z :=
  (fun i => start + step * i) <$> seqZ 0 ((stop - start + step - 1) `div` step).

(** [sorted(l)] on ints. *)
Definition sorted (l : list Z) : list Z := merge_sort Z.le l.

(** ** Python dicts with integer keys *)

Definition dict : Type := list (Z * str).

Fixpoint dict_get (d : dict) (k : Z) : option str :=
  match d with
  | [] => None
  | (k', v) :: d' => if decide (k = k') then Some v else dict_get d' k
  end.

(** [k in d] *)
Definition dict_contains (d : dict) (k : Z) : bool :=
  match dict_get d k with
  | Some _ => true
  | None => false
  end.

(** [d[k]] *)
Definition dict_getitem (d : dict) (k : Z) : result str :=
  match dict_get d k with
  | Some v => Ok v
  | None => Raise KeyError
  end.

Fixpoint dict_remove (d : dict) (k : Z) : dict :=
  match d with
  | [] => []
  | (k', v) :: d' =>
      if decide (k = k') then dict_remove d' k else (k', v) :: dict_remove d' k
  end.

(** [del d[k]] *)
Definition dict_delitem (d : dict) (k : Z) : result dict :=
  if dict_contains d k then Ok (dict_remove d k) else Raise KeyError.

Fixpoint dict_update (d : dict) (k : Z) (v : str) : dict :=
  match d with
  | [] => []
  | (k', v') :: d' =>
      if decide (k = k') then (k', v) :: d' else (k', v') :: dict_update d' k v
  end.

(** [d[k] = v]: a bound key keeps its place, a new key goes last. *)
Definition dict_setitem (d : dict) (k : Z) (v : str) : dict :=
  if dict_contains d k then dict_update d k v else d ++ [(k, v)].

(** [d.keys()], in insertion order. *)
Definition dict_keys (d : dict) : list Z := d.*1.

(** A dict binds each key once. *)
Definition dict_wf (d : dict) : Prop := NoDup (dict_keys d).

(** The truth value of a dict in a condition: non-empty. *)
Definition dict_truth (d : dict) : bool :=
  match d with
  | [] => false
  | _ :: _ => true
  end.

(** ** The helpers of the extractors *)

(** [is_bidirectional_conversion(letter_id, letter_case, reverse_letter_case)] *)
Definition is_bidirectional_conversion
    (letter_id : Z) (letter_case reverse_letter_case : dict) : result bool :=
  if negb (dict_contains letter_case letter_id) then Ok false else
  mapped_value ← dict_getitem letter_case letter_id;
  if 1 <? len mapped_value then Ok false else
  mapped_value_id ← ord mapped_value;
  if negb (dict_contains reverse_letter_case mapped_value_id) then Ok false else
  reverse_value ← dict_getitem reverse_letter_case mapped_value_id;
  if 1 <? len reverse_value then Ok false else
  reverse_value ← dict_getitem reverse_letter_case mapped_value_id;
  reverse_id ← ord reverse_value;
  if negb (bool_decide (reverse_id = letter_id)) then Ok false else
  Ok true.

(** [calculate_conversion_distance(letter_case, letter_id)]; the inner
    [option] is Python's [None]. *)
Definition calculate_conversion_distance
    (letter_case : dict) (letter_id : Z) : result (option Z) :=
  if negb (dict_contains letter_case letter_id) then Ok None else
  mapped_value ← dict_getitem letter_case letter_id;
  if 1 <? len mapped_value then Ok None else
  mapped_value ← dict_getitem letter_case letter_id;
  mapped_value_id ← ord mapped_value;
  Ok (Some (mapped_value_id - letter_id)).

(** ** [extract_ranges]

    The loop state is [(in_range, range_position, ranges, range_lengths)];
    [reverse_letter_case] is [None] for the one-way call. *)

Definition extract_ranges_body
    (letter_case : dict) (reverse_letter_case : option dict)
    (st : bool * Z * list Z * list Z) (letter_id : Z)
  : result (bool * Z * list Z * list Z) :=
  let '(in_range, range_position, ranges, range_lengths) := st in
  let prev_letter_id := letter_id - 1 in
  let continue := Ok (false, range_position, ranges, range_lengths) in
  let rest :=
    conv_distance ← calculate_conversion_distance letter_case letter_id;
    prev_conv_distance ← calculate_conversion_distance letter_case prev_letter_id;
    if negb (bool_decide (conv_distance = prev_conv_distance)) then continue else
    if in_range then
      n ← list_getitem range_lengths range_position;
      range_lengths ← list_setitem range_lengths range_position (n + 1);
      Ok (in_range, range_position, ranges, range_lengths)
    else
      prev_mapped_value ← dict_getitem letter_case prev_letter_id;
      prev_mapped_id ← ord prev_mapped_value;
      Ok (true, range_position + 1,
          ranges ++ [prev_letter_id; prev_mapped_id], range_lengths ++ [2]) in
  match reverse_letter_case with
  | None =>
      (* One-way conversions *)
      mapped_value ← dict_getitem letter_case letter_id;
      if 1 <? len mapped_value then continue else
      if negb (dict_contains letter_case prev_letter_id) then continue else
      prev_mapped_value ← dict_getitem letter_case prev_letter_id;
      if 1 <? len prev_mapped_value then continue else
      rest
  | Some reverse_letter_case =>
      (* Two way conversions *)
      b ← is_bidirectional_conversion letter_id letter_case reverse_letter_case;
      if negb b then continue else
      b ← is_bidirectional_conversion prev_letter_id letter_case reverse_letter_case;
      if negb b then continue else
      rest
  end.

(** The body of the removal loop, for one [idx]. *)
Definition extract_ranges_remove
    (ranges range_lengths : list Z)
    (st : dict * option dict) (idx : Z) : result (dict * option dict) :=
  range_length ← list_getitem range_lengths (idx `div` 2);
  foldM (fun (st : dict * option dict) incr =>
           let '(letter_case, reverse_letter_case) := st in
           start ← list_getitem ranges idx;
           letter_case ← dict_delitem letter_case (start + incr);
           match reverse_letter_case with
           | None => Ok (letter_case, None)
           | Some reverse_letter_case =>
               mapped_start ← list_getitem ranges (idx + 1);
               reverse_letter_case ←
                 dict_delitem reverse_letter_case (mapped_start + incr);
               Ok (letter_case, Some reverse_letter_case)
           end)
        (py_range 0 range_length 1) st.

(** Returns the two tables and the two dicts as the call leaves them. *)
Definition extract_ranges
    (letter_case : dict) (reverse_letter_case : option dict)
  : result ((list Z * list Z) * dict * option dict) :=
  '(_, _, ranges, range_lengths) ←
    foldM (extract_ranges_body letter_case reverse_letter_case)
          (sorted (dict_keys letter_case)) (false, -1, [], []);
  '(letter_case, reverse_letter_case) ←
    foldM (extract_ranges_remove ranges range_lengths)
          (py_range 0 (len ranges) 2) (letter_case, reverse_letter_case);
  Ok ((ranges, range_lengths), letter_case, reverse_letter_case).

(** ** [extract_character_pair_ranges]

    The loop state is [(start_points, lengths, in_range, element_counter)]. *)

Definition extract_character_pair_ranges_body
    (letter_case reverse_letter_case : dict)
    (st : list Z * list Z * bool * Z) (letter_id : Z)
  : result (list Z * list Z * bool * Z) :=
  let '(start_points, lengths, in_range, element_counter) := st in
  b ← is_bidirectional_conversion letter_id letter_case reverse_letter_case;
  if negb b then Ok (start_points, lengths, false, element_counter) else
  mapped_value ← dict_getitem letter_case letter_id;
  mapped_id ← ord mapped_value;
  if bool_decide (mapped_id = letter_id + 1) then
    let prev_letter_id := letter_id - 2 in
    b ← is_bidirectional_conversion prev_letter_id letter_case reverse_letter_case;
    let in_range := if negb b then false else in_range in
    if in_range then
      n ← list_getitem lengths element_counter;
      lengths ← list_setitem lengths element_counter (n + 2);
      Ok (start_points, lengths, in_range, element_counter)
    else
      Ok (start_points ++ [letter_id], lengths ++ [2], true, element_counter + 1)
  else
    Ok (start_points, lengths, false, element_counter).

Definition extract_character_pair_ranges_remove
    (start_points lengths : list Z)
    (st : dict * dict) (idx : Z) : result (dict * dict) :=
  letter_id ← list_getitem start_points idx;
  conv_length ← list_getitem lengths idx;
  foldM (fun (st : dict * dict) incr =>
           let '(letter_case, reverse_letter_case) := st in
           letter_case ← dict_delitem letter_case (letter_id + incr);
           reverse_letter_case ←
             dict_delitem reverse_letter_case (letter_id + 1 + incr);
           Ok (letter_case, reverse_letter_case))
        (py_range 0 conv_length 2) st.

Definition extract_character_pair_ranges
    (letter_case reverse_letter_case : dict)
  : result ((list Z * list Z) * dict * dict) :=
  '(start_points, lengths, _, _) ←
    foldM (extract_character_pair_ranges_body letter_case reverse_letter_case)
          (sorted (dict_keys letter_case)) ([], [], false, -1);
  '(letter_case, reverse_letter_case) ←
    foldM (extract_character_pair_ranges_remove start_points lengths)
          (py_range 0 (len start_points) 1) (letter_case, reverse_letter_case);
  Ok ((start_points, lengths), letter_case, reverse_letter_case).

(** ** [extract_character_pairs]

    The dicts are changed inside the loop, so they belong to its state:
    [(character_pairs, letter_case, reverse_letter_case)]. *)

Definition extract_character_pairs_body
    (st : list Z * dict * dict) (letter_id : Z) : result (list Z * dict * dict) :=
  let '(character_pairs, letter_case, reverse_letter_case) := st in
  b ← is_bidirectional_conversion letter_id letter_case reverse_letter_case;
  if (b : bool) then
    mapped_value ← dict_getitem letter_case letter_id;
    mapped_id ← ord mapped_value;
    letter_case ← dict_delitem letter_case letter_id;
    mapped_id' ← ord mapped_value;
    reverse_letter_case ← dict_delitem reverse_letter_case mapped_id';
    Ok (character_pairs ++ [letter_id; mapped_id], letter_case, reverse_letter_case)
  else Ok st.

Definition extract_character_pairs
    (letter_case reverse_letter_case : dict) : result (list Z * dict * dict) :=
  foldM extract_character_pairs_body (sorted (dict_keys letter_case))
        ([], letter_case, reverse_letter_case).

(** ** [extract_special_ranges]

    The loop state is
    [(special_ranges, special_range_lengths, range_position, in_range)].
    The source does not assign [in_range] before the loop: it is [None]
    until its first assignment, and reading it then raises. *)

Definition extract_special_ranges_body
    (letter_case : dict)
    (st : list Z * list Z * Z * option bool) (letter_id : Z)
  : result (list Z * list Z * Z * option bool) :=
  let '(special_ranges, special_range_lengths, range_position, in_range) := st in
  mapped_value ← dict_getitem letter_case letter_id;
  if negb (bool_decide (len mapped_value = 2)) then Ok st else
  let prev_letter_id := letter_id - 1 in
  if negb (dict_contains letter_case prev_letter_id) then
    Ok (special_ranges, special_range_lengths, range_position, Some false) else
  prev_mapped_value ← dict_getitem letter_case prev_letter_id;
  if negb (bool_decide (len prev_mapped_value = 2)) then Ok st else
  prev_second ← str_getitem prev_mapped_value 1;
  second ← str_getitem mapped_value 1;
  if negb (bool_decide (prev_second = second)) then Ok st else
  prev_first ← str_getitem prev_mapped_value 0;
  prev_first_id ← ord prev_first;
  first ← str_getitem mapped_value 0;
  first_id ← ord first;
  if negb (bool_decide (prev_first_id - prev_letter_id = first_id - letter_id)) then
    Ok (special_ranges, special_range_lengths, range_position, Some false) else
  match in_range with
  | None => Raise UnboundLocalError
  | Some true =>
      n ← list_getitem special_range_lengths range_position;
      special_range_lengths ←
        list_setitem special_range_lengths range_position (n + 1);
      Ok (special_ranges, special_range_lengths, range_position, in_range)
  | Some false =>
      prev_first ← str_getitem prev_mapped_value 0;
      prev_first_id ← ord prev_first;
      prev_second ← str_getitem prev_mapped_value 1;
      prev_second_id ← ord prev_second;
      Ok (special_ranges ++ [prev_letter_id; prev_first_id; prev_second_id],
          special_range_lengths ++ [1], range_position + 1, Some true)
  end.

Definition extract_special_ranges_remove
    (special_ranges special_range_lengths : list Z)
    (letter_case : dict) (idx : Z) : result dict :=
  range_length ← list_getitem special_range_lengths (idx `div` 3);
  letter_id ← list_getitem special_ranges idx;
  foldM (fun letter_case incr =>
           start ← list_getitem special_ranges idx;
           dict_delitem letter_case (start + incr))
        (py_range 0 range_length 1) letter_case.

Definition extract_special_ranges (letter_case : dict)
  : result ((list Z * list Z) * dict) :=
  '(special_ranges, special_range_lengths, _, _) ←
    foldM (extract_special_ranges_body letter_case)
          (sorted (dict_keys letter_case)) ([], [], -1, None);
  letter_case ←
    foldM (extract_special_ranges_remove special_ranges special_range_lengths)
          (py_range 0 (len special_ranges) 3) letter_case;
  Ok ((special_ranges, special_range_lengths), letter_case).

(** ** [extract_conversions]

    [unicodes] is the list of the three buckets; each of the three loops
    takes its own snapshot of the sorted keys and deletes as it goes, so
    its state is [(unicodes, letter_case)]. *)

(* 1 to 1 byte *)
Definition extract_conversions_body1
    (st : list (list Z) * dict) (letter_id : Z) : result (list (list Z) * dict) :=
  let '(unicodes, letter_case) := st in
  mapped_value ← dict_getitem letter_case letter_id;
  if negb (bool_decide (len mapped_value = 1)) then Ok st else
  bucket ← list_getitem unicodes 0;
  mapped_id ← ord mapped_value;
  unicodes ← list_setitem unicodes 0 (bucket ++ [letter_id; mapped_id]);
  letter_case ← dict_delitem letter_case letter_id;
  Ok (unicodes, letter_case).

(* 1 to 2 bytes *)
Definition extract_conversions_body2
    (st : list (list Z) * dict) (letter_id : Z) : result (list (list Z) * dict) :=
  let '(unicodes, letter_case) := st in
  mapped_value ← dict_getitem letter_case letter_id;
  if negb (bool_decide (len mapped_value = 2)) then Ok st else
  bucket ← list_getitem unicodes 1;
  c0 ← str_getitem mapped_value 0; id0 ← ord c0;
  c1 ← str_getitem mapped_value 1; id1 ← ord c1;
  unicodes ← list_setitem unicodes 1 (bucket ++ [letter_id; id0; id1]);
  letter_case ← dict_delitem letter_case letter_id;
  Ok (unicodes, letter_case).

(* 1 to 3 bytes *)
Definition extract_conversions_body3
    (st : list (list Z) * dict) (letter_id : Z) : result (list (list Z) * dict) :=
  let '(unicodes, letter_case) := st in
  mapped_value ← dict_getitem letter_case letter_id;
  if negb (bool_decide (len mapped_value = 3)) then Ok st else
  bucket ← list_getitem unicodes 2;
  c0 ← str_getitem mapped_value 0; id0 ← ord c0;
  c1 ← str_getitem mapped_value 1; id1 ← ord c1;
  c2 ← str_getitem mapped_value 2; id2 ← ord c2;
  unicodes ← list_setitem unicodes 2 (bucket ++ [letter_id; id0; id1; id2]);
  letter_case ← dict_delitem letter_case letter_id;
  Ok (unicodes, letter_case).

(** [int(len(l) / n)]: the quotient is exact on the lengths that occur, so
    the truncation of [int] is the integer quotient. *)
Definition int_len_div (l : list Z) (n : Z) : Z := len l `quot` n.

Definition extract_conversions (letter_case : dict)
  : result ((list Z * list Z) * dict) :=
  let unicodes : list (list Z) := [[]; []; []] in
  '(unicodes, letter_case) ←
    foldM extract_conversions_body1 (sorted (dict_keys letter_case))
          (unicodes, letter_case);
  '(unicodes, letter_case) ←
    foldM extract_conversions_body2 (sorted (dict_keys letter_case))
          (unicodes, letter_case);
  '(unicodes, letter_case) ←
    foldM extract_conversions_body3 (sorted (dict_keys letter_case))
          (unicodes, letter_case);
  u0 ← list_getitem unicodes 0;
  u1 ← list_getitem unicodes 1;
  u2 ← list_getitem unicodes 2;
  let unicode_lengths := [int_len_div u0 2; int_len_div u1 3; int_len_div u2 4] in
  Ok ((concat unicodes, unicode_lengths), letter_case).

(** ** [ConversionTables.__init__] *)

Record ConversionTables : Type := {
  character_case_ranges : list Z * list Z;
  character_pair_ranges : list Z * list Z;
  character_pairs : list Z;
  upper_case_special_ranges : list Z * list Z;
  lower_case_ranges : list Z * list Z;
  lower_case_conversions : list Z * list Z;
  upper_case_conversions : list Z * list Z
}.

Definition lowercase_warning : string :=
  "Not all elements extracted from the lowercase table!".
Definition uppercase_warning : string :=
  "Not all elements extracted from the uppercase table!".

(** The constructor from line 167 on, given the [case_mappings] that
    [read_case_mappings] returned.  It yields the object, the messages
    passed to [warnings.warn], and the two dicts as it leaves them.  The
    two-way [extract_ranges] hands back the reverse dict it was given, so
    the [None] branch after the first stage is never taken
    ([extract_ranges_run]). *)
Definition ConversionTables_init (case_mappings : dict * dict)
  : result (ConversionTables * list string * dict * dict) :=
  let lower_case := case_mappings.1 in
  let upper_case := case_mappings.2 in
  '(r1, lower_case, upper_case) ← extract_ranges lower_case (Some upper_case);
  upper_case ← (match upper_case with
                | Some d => Ok d
                | None => Raise TypeError
                end);
  '(r2, lower_case, upper_case) ←
    extract_character_pair_ranges lower_case upper_case;
  '(r3, lower_case, upper_case) ← extract_character_pairs lower_case upper_case;
  '(r4, upper_case) ← extract_special_ranges upper_case;
  '(r5, lower_case, _) ← extract_ranges lower_case None;
  '(r6, lower_case) ← extract_conversions lower_case;
  '(r7, upper_case) ← extract_conversions upper_case;
  let w1 := if dict_truth lower_case then [lowercase_warning] else [] in
  let w2 := if dict_truth upper_case then [uppercase_warning] else [] in
  Ok ({| character_case_ranges := r1;
         character_pair_ranges := r2;
         character_pairs := r3;
         upper_case_special_ranges := r4;
         lower_case_ranges := r5;
         lower_case_conversions := r6;
         upper_case_conversions := r7 |},
      w1 ++ w2, lower_case, upper_case).

(** ** Reading the case mappings

    The records are the lists of fields that [csv.reader] yields for the
    two files.  [int_base16] is [int(x, 16)] on ASCII text as Python 2
    reads it: surrounding white space, a sign, a [0x] prefix and
    hexadecimal digits, and a [ValueError] for anything else.  (Python 3
    also accepts single underscores between digits and a few more
    white-space characters; no record below has them.) *)

Definition py_str (s : string) : str :=
  (fun a => Z.of_N (N_of_ascii a)) <$> list_ascii_of_string s.

Definition is_space (c : Z) : bool :=
  bool_decide (c = 32) || ((9 <=? c) && (c <=? 13)).

Fixpoint lstrip (s : str) : str :=
  match s with
  | [] => []
  | c :: s' => if is_space c then lstrip s' else s
  end.

Definition strip (s : str) : str := reverse (lstrip (reverse (lstrip s))).

Definition hex_digit (c : Z) : option Z :=
  if (48 <=? c) && (c <=? 57) then Some (c - 48)
  else if (97 <=? c) && (c <=? 102) then Some (c - 87)
  else if (65 <=? c) && (c <=? 70) then Some (c - 55)
  else None.

Fixpoint hex_value (acc : Z) (digits : str) : result Z :=
  match digits with
  | [] => Ok acc
  | c :: digits' =>
      match hex_digit c with
      | Some v => hex_value (16 * acc + v) digits'
      | None => Raise ValueError
      end
  end.

(** [int(s, 16)] *)
Definition int_base16 (s : str) : result Z :=
  let s := strip s in
  let '(sign, s) :=
    match s with
    | 43 :: s' => (1, s')
    | 45 :: s' => (-1, s')
    | _ => (1, s)
    end in
  let s :=
    match s with
    | 48 :: 120 :: s' => s'
    | 48 :: 88 :: s' => s'
    | _ => s
    end in
  match s with
  | [] => Raise ValueError
  | _ => v ← hex_value 0 s; Ok (sign * v)
  end.

(** [chr(i)] ([unichr(i)] on Python 2) *)
Definition chr (i : Z) : result str :=
  if (0 <=? i) && (i <? 0x110000) then Ok [i] else Raise ValueError.

(** [s.split(sep)] for a one-character separator *)
Fixpoint str_split (sep : Z) (s : str) : list str :=
  match s with
  | [] => [[]]
  | c :: s' =>
      if decide (c = sep) then [] :: str_split sep s'
      else match str_split sep s' with
           | w :: ws => (c :: w) :: ws
           | [] => [[c]]
           end
  end.

Fixpoint str_find_from (pos : Z) (s : str) (c : Z) : Z :=
  match s with
  | [] => -1
  | c' :: s' => if decide (c' = c) then pos else str_find_from (pos + 1) s' c
  end.

(** [s.find(c)] for a one-character [c] *)
Definition str_find (s : str) (c : Z) : Z := str_find_from 0 s c.

(** [s.startswith(c)] for a one-character [c] *)
Definition str_startswith (s : str) (c : Z) : bool :=
  match s with
  | c' :: _ => bool_decide (c' = c)
  | [] => false
  end.

(** The truth value of a string in a condition: non-empty. *)
Definition str_truth (s : str) : bool :=
  match s with
  | [] => false
  | _ :: _ => true
  end.

Definition parse_unicode_sequence (raw_data : str) : result str :=
  foldM (fun (result : str) (unicode_char : str) =>
           if bool_decide (unicode_char = []) then Ok result else
           hex_val ← int_base16 unicode_char;
           c ← chr hex_val;
           Ok (result ++ c))
        (str_split 32 raw_data) [].

(** [enumerate(l)] *)
Definition enumerate {A : Type} (l : list A) : list (Z * A) :=
  zip (seqZ 0 (len l)) l.

(** Lines 272-274: the loop reads position [idx] before it writes it and
    writes no other position, so it sees the fields of the line as they
    were when it started. *)
Definition replace_comment_fields (line : list str) : result (list str) :=
  foldM (fun (line : list str) (p : Z * str) =>
           let '(idx, i) := p in
           if 0 <=? str_find i 35 then list_setitem line idx [] else Ok line)
        (enumerate line) line.

(** One record of the unicode data file, split at [;] by [csv.reader];
    the state is [(lower_case_mapping, upper_case_mapping)]. *)
Definition read_unicode_data_line
    (st : dict * dict) (line : list str) : result (dict * dict) :=
  let '(lower_case_mapping, upper_case_mapping) := st in
  field ← list_getitem line 0;
  letter_id ← int_base16 field;
  if (0x10000 <=? letter_id) || (letter_id <? 128) then Ok st else
  capital_letter ← list_getitem line 12;
  small_letter ← list_getitem line 13;
  upper_case_mapping ←
    (if str_truth capital_letter then
       v ← parse_unicode_sequence capital_letter;
       Ok (dict_setitem upper_case_mapping letter_id v)
     else Ok upper_case_mapping);
  lower_case_mapping ←
    (if str_truth small_letter then
       v ← parse_unicode_sequence small_letter;
       Ok (dict_setitem lower_case_mapping letter_id v)
     else Ok lower_case_mapping);
  Ok (lower_case_mapping, upper_case_mapping).

(** One record of the special casing file, split at [;] by [csv.reader]. *)
Definition read_special_casing_line
    (st : dict * dict) (line : list str) : result (dict * dict) :=
  let '(lower_case_mapping, upper_case_mapping) := st in
  if bool_decide (line = []) then Ok st else
  first ← list_getitem line 0;
  if str_startswith first 35 then Ok st else
  line ← replace_comment_fields line;
  field ← list_getitem line 0;
  letter_id ← int_base16 field;
  condition_list ← list_getitem line 4;
  if (0x10000 <=? letter_id) || (letter_id <? 128) || str_truth condition_list
  then Ok st else
  field ← list_getitem line 1;
  small_letter ← parse_unicode_sequence field;
  field ← list_getitem line 3;
  capital_letter ← parse_unicode_sequence field;
  Ok (dict_setitem lower_case_mapping letter_id small_letter,
      dict_setitem upper_case_mapping letter_id capital_letter).

(** [read_case_mappings], on the records that [csv.reader] yields for the
    two files; returns [(lower_case_mapping, upper_case_mapping)]. *)
Definition read_case_mappings
    (unicode_data special_casing : list (list str)) : result (dict * dict) :=
  st ← foldM read_unicode_data_line unicode_data ([], []);
  foldM read_special_casing_line special_casing st.

(** * The vocabulary of the properties *)

(** The outcomes of two runs agree when both return related values or both
    raise the same exception. *)
Definition result_rel {A B : Type} (R : A -> B -> Prop)
    (x : result A) (y : result B) : Prop :=
  match x, y with
  | Ok a, Ok b => R a b
  | Raise e, Raise e' => e = e'
  | _, _ => False
  end.

(** Two dicts hold the same key-to-value mapping, whatever the order in
    which their keys were inserted. *)
Definition dict_equiv (d d' : dict) : Prop :=
  forall k, dict_get d k = dict_get d' k.

(** Every binding of [d] is a binding of [d0]. *)
Definition dict_sub (d d0 : dict) : Prop :=
  forall k v, dict_get d k = Some v -> dict_get d0 k = Some v.

(** The case maps of the data model: every output sequence has one to
    three code points. *)
Definition case_map (d : dict) : Prop :=
  forall k v, dict_get d k = Some v -> 1 <= len v <= 3.

(** [c] and [m] are a bidirectional conversion pair of the two maps: each
    is the single-code-point output of the other. *)
Definition bidirectional (letter_case reverse_letter_case : dict) (c m : Z)
  : Prop :=
  dict_get letter_case c = Some [m] /\ dict_get reverse_letter_case m = Some [c].

(** The bindings of [d] among the keys [ks] whose output has [n] code
    points, in the order of [ks]. *)
Definition select_arity (n : Z) (d : dict) (ks : list Z) : list (Z * str) :=
  omap (fun k => match dict_get d k with
                 | Some v => if decide (len v = n) then Some (k, v) else None
                 | None => None
                 end) ks.

(** The bindings of [d] whose output has [n] code points, by ascending
    code point. *)
Definition entries_of_arity (n : Z) (d : dict) : list (Z * str) :=
  select_arity n d (sorted (dict_keys d)).

(** The flat encoding of residual entries: each code point followed by its
    outputs. *)
Definition encode_entries (es : list (Z * str)) : list Z :=
  concat ((fun kv => kv.1 :: kv.2) <$> es).

(** Appending to bucket [i] of the three residual buckets. *)
Definition bucket_extend (i : nat) (us : list (list Z)) (x : list Z)
  : list (list Z) :=
  match us, i with
  | [u0; u1; u2], 0%nat => [u0 ++ x; u1; u2]
  | [u0; u1; u2], 1%nat => [u0; u1 ++ x; u2]
  | [u0; u1; u2], 2%nat => [u0; u1; u2 ++ x]
  | _, _ => us
  end.

(** ** Uniform ranges *)

(** The uniform ranges [(start, mapped_start, length)] that the two tables
    of [extract_ranges] encode. *)
Fixpoint uniform_ranges (ranges range_lengths : list Z) : list (Z * Z * Z) :=
  match ranges, range_lengths with
  | s :: m :: ranges', n :: range_lengths' =>
      (s, m, n) :: uniform_ranges ranges' range_lengths'
  | _, _ => []
  end.

Definition flat_ranges (rs : list (Z * Z * Z)) : list Z :=
  concat ((fun r : Z * Z * Z => [r.1.1; r.1.2]) <$> rs).

Definition range_lens (rs : list (Z * Z * Z)) : list Z :=
  (fun r : Z * Z * Z => r.2) <$> rs.

(** [c] is eligible for a uniform range, with output [m]: a single output
    code point, and a bidirectional conversion in the two-way mode. *)
Definition eligible (letter_case : dict) (reverse_letter_case : option dict)
    (c m : Z) : Prop :=
  match reverse_letter_case with
  | None => dict_get letter_case c = Some [m]
  | Some reverse_letter_case => bidirectional letter_case reverse_letter_case c m
  end.

(** The range [r] maps [start + i] to [mapped_start + i] over its length,
    which is at least 2. *)
Definition range_ok (letter_case : dict) (reverse_letter_case : option dict)
    (r : Z * Z * Z) : Prop :=
  2 <= r.2 /\
  forall i, 0 <= i < r.2 ->
            eligible letter_case reverse_letter_case (r.1.1 + i) (r.1.2 + i).

(** [c] lies in the domain of one of the ranges. *)
Definition covered (rs : list (Z * Z * Z)) (c : Z) : Prop :=
  exists r, r ∈ rs /\ r.1.1 <= c < r.1.1 + r.2.

(** [c] and its predecessor are both eligible, with the same offset. *)
Definition adjacent_match (letter_case : dict) (reverse_letter_case : option dict)
    (c : Z) : Prop :=
  exists m m', eligible letter_case reverse_letter_case c m /\
               eligible letter_case reverse_letter_case (c - 1) m' /\
               m - c = m' - (c - 1).

(** The invariant of the scanning loop of [extract_ranges], after the keys
    [pre]. *)
Definition extract_ranges_inv
    (letter_case : dict) (reverse_letter_case : option dict)
    (pre : list Z) (st : bool * Z * list Z * list Z) : Prop :=
  let '(in_range, range_position, ranges, range_lengths) := st in
  exists rs,
    ranges = flat_ranges rs /\
    range_lengths = range_lens rs /\
    range_position = len rs - 1 /\
    Forall (range_ok letter_case reverse_letter_case) rs /\
    (in_range = true ->
     exists rs' s m n k,
       rs = rs' ++ [(s, m, n)] /\ last pre = Some k /\ s + n = k + 1) /\
    (forall k, k ∈ pre -> adjacent_match letter_case reverse_letter_case k ->
               covered rs k /\ covered rs (k - 1)).

(** The code points that the ranges cover in the forward map, and in the
    reverse map. *)
Definition uniform_domain (rs : list (Z * Z * Z)) : list Z :=
  concat ((fun r : Z * Z * Z => seqZ r.1.1 r.2) <$> rs).

Definition uniform_codomain (rs : list (Z * Z * Z)) : list Z :=
  concat ((fun r : Z * Z * Z => seqZ r.1.2 r.2) <$> rs).

(** The removal of one range, with the start points read. *)
Definition delete_range (st : dict * option dict) (r : Z * Z * Z)
  : result (dict * option dict) :=
  foldM (fun (st : dict * option dict) incr =>
           let '(letter_case, reverse_letter_case) := st in
           letter_case ← dict_delitem letter_case (r.1.1 + incr);
           match reverse_letter_case with
           | None => Ok (letter_case, None)
           | Some reverse_letter_case =>
               reverse_letter_case ←
                 dict_delitem reverse_letter_case (r.1.2 + incr);
               Ok (letter_case, Some reverse_letter_case)
           end)
        (seqZ 0 r.2) st.

(** ** Sample inputs *)

Definition conversions_sample : dict :=
  [(0x1E9E, [0xDF]); (0x0130, [0x69; 0x307]); (0x0390, [0x399; 0x308; 0x301]);
   (0x00B5, [0x39C]); (0xFB00, [0x46; 0x46]); (0x2000, [1; 2; 3; 4]);
   (0x2001, [])].

(** A sample of case mappings that reaches every table: Greek capitals
    (a bidirectional range), Latin Extended-A (swap pairs), Y with
    diaeresis (a lone pair), Greek with ypogegrammeni (an uppercase
    special range and a lowercase one-way range), and multi-character
    leftovers.  The keys are not in ascending order. *)
Definition sample_lower : dict :=
  [(0x0178, [0xFF]); (0x0392, [0x3B2]); (0x0391, [0x3B1]); (0x0393, [0x3B3]);
   (0x0102, [0x103]); (0x0100, [0x101]); (0x0130, [0x69; 0x307]);
   (0x1F89, [0x1F81]); (0x1F88, [0x1F80]); (0x03F4, [0x3B8])].

Definition sample_upper : dict :=
  [(0x03B1, [0x391]); (0x03B3, [0x393]); (0x03B2, [0x392]); (0x00FF, [0x178]);
   (0x0101, [0x100]); (0x0103, [0x102]);
   (0x1F80, [0x1F08; 0x399]); (0x1F81, [0x1F09; 0x399]);
   (0x1F82, [0x1F0A; 0x399]);
   (0x00DF, [0x53; 0x53]); (0x0390, [0x399; 0x308; 0x301]); (0x00B5, [0x39C])].

(** ** Pair ranges *)

(** [c] and [c + 1] swap case with each other. *)
Definition swap_pair (letter_case reverse_letter_case : dict) (c : Z) : Prop :=
  bidirectional letter_case reverse_letter_case c (c + 1).

(** The pair ranges [(start, length)] that the two tables of
    [extract_character_pair_ranges] encode; the length counts code points,
    two for each pair. *)
Definition pair_ranges (start_points lengths : list Z) : list (Z * Z) :=
  zip start_points lengths.

(** The code points that a pair range covers in the forward map
    ([start], [start + 2], ...) and in the reverse map. *)
Definition pair_domain (p : Z * Z) : list Z :=
  (fun incr => p.1 + incr) <$> py_range 0 p.2 2.

Definition pair_codomain (p : Z * Z) : list Z :=
  (fun incr => p.1 + 1 + incr) <$> py_range 0 p.2 2.

Definition pairs_domain (ps : list (Z * Z)) : list Z :=
  concat (pair_domain <$> ps).

Definition pairs_codomain (ps : list (Z * Z)) : list Z :=
  concat (pair_codomain <$> ps).

(** No two consecutive code points both start a swap pair; this is what
    the two-way [extract_ranges] leaves, since two such code points have
    the same offset. *)
Definition no_adjacent_swap_pairs (letter_case reverse_letter_case : dict)
  : Prop :=
  forall c, swap_pair letter_case reverse_letter_case c ->
            ~ swap_pair letter_case reverse_letter_case (c + 1).

(** The invariant of the scanning loop of [extract_character_pair_ranges],
    after the keys [pre]. *)
Definition extract_character_pair_ranges_inv
    (letter_case reverse_letter_case : dict)
    (pre : list Z) (st : list Z * list Z * bool * Z) : Prop :=
  let '(start_points, lengths, in_range, element_counter) := st in
  exists ps : list (Z * Z),
    start_points = ps.*1 /\
    lengths = ps.*2 /\
    element_counter = len ps - 1 /\
    Forall (fun p : Z * Z =>
              swap_pair letter_case reverse_letter_case p.1 /\
              2 <= p.2 /\ Z.even p.2 = true) ps /\
    (in_range = true -> exists ps' p, ps = ps' ++ [p]) /\
    (forall k, k ∈ pre ->
               swap_pair letter_case reverse_letter_case k ->
               (forall m, ~ bidirectional letter_case reverse_letter_case (k - 2) m) ->
               k ∈ ps.*1) /\
    (no_adjacent_swap_pairs letter_case reverse_letter_case ->
     Forall (fun p : Z * Z =>
               forall j, 0 <= 2 * j < p.2 ->
                         swap_pair letter_case reverse_letter_case (p.1 + 2 * j)) ps /\
     (in_range = true ->
      exists ps' p k, ps = ps' ++ [p] /\ last pre = Some k /\ p.1 + p.2 = k + 2)).

(** The removal of one pair range, with its start point and length read. *)
Definition delete_pair_range (st : dict * dict) (p : Z * Z) : result (dict * dict) :=
  foldM (fun (st : dict * dict) incr =>
           let '(letter_case, reverse_letter_case) := st in
           letter_case ← dict_delitem letter_case (p.1 + incr);
           reverse_letter_case ←
             dict_delitem reverse_letter_case (p.1 + 1 + incr);
           Ok (letter_case, reverse_letter_case))
        (py_range 0 p.2 2) st.

(** Scenario B: the lone swap pair (0x0100, 0x0101). *)
Definition lone_pair_lower : dict := [(0x0100, [0x0101])].
Definition lone_pair_upper : dict := [(0x0101, [0x0100])].

(** ** Singleton pairs *)

(** The pairs [(a, b)] that the table of [extract_character_pairs]
    encodes. *)
Fixpoint singleton_pairs (character_pairs : list Z) : list (Z * Z) :=
  match character_pairs with
  | a :: b :: character_pairs' => (a, b) :: singleton_pairs character_pairs'
  | _ => []
  end.

Definition flat_pairs (qs : list (Z * Z)) : list Z :=
  concat ((fun q : Z * Z => [q.1; q.2]) <$> qs).

(** ** Special ranges *)

(** The special ranges [(start, first_out_start, second_out, length)] that
    the two tables of [extract_special_ranges] encode. *)
Fixpoint special_ranges_of (special_ranges special_range_lengths : list Z)
  : list (Z * Z * Z * Z) :=
  match special_ranges, special_range_lengths with
  | s :: f :: z :: special_ranges', n :: special_range_lengths' =>
      (s, f, z, n) :: special_ranges_of special_ranges' special_range_lengths'
  | _, _ => []
  end.

Definition flat_special (ss : list (Z * Z * Z * Z)) : list Z :=
  concat ((fun r : Z * Z * Z * Z => [r.1.1.1; r.1.1.2; r.1.2]) <$> ss).

Definition special_lens (ss : list (Z * Z * Z * Z)) : list Z :=
  (fun r : Z * Z * Z * Z => r.2) <$> ss.

(** The code points that the special ranges cover. *)
Definition special_domain (ss : list (Z * Z * Z * Z)) : list Z :=
  concat ((fun r : Z * Z * Z * Z => seqZ r.1.1.1 r.2) <$> ss).

(** The removal of one special range, with its start point read. *)
Definition delete_special_range (letter_case : dict) (r : Z * Z * Z * Z)
  : result dict :=
  foldM (fun letter_case incr => dict_delitem letter_case (r.1.1.1 + incr))
        (seqZ 0 r.2) letter_case.

(** The invariant of the scanning loop of [extract_special_ranges]: the
    two tables stay in step, and a range is open only if there is one. *)
Definition extract_special_ranges_inv (st : list Z * list Z * Z * option bool)
  : Prop :=
  let '(special_ranges, special_range_lengths, range_position, in_range) := st in
  exists ss,
    special_ranges = flat_special ss /\
    special_range_lengths = special_lens ss /\
    range_position = len ss - 1 /\
    Forall (fun r : Z * Z * Z * Z => 1 <= r.2) ss /\
    (in_range = Some true -> exists ss' r, ss = ss' ++ [r]).

(** An upper-case map on which the special range of [extract_special_ranges]
    runs over a change of the second output code point. *)
Definition special_overrun : dict :=
  [(0x1F80, [0x1F08; 0x0399]); (0x1F81, [0x1F09; 0x0399]);
   (0x1F82, [0x2000; 0x0300]); (0x1F83, [0x2001; 0x0300]);
   (0x1F84, [0x2002; 0x0300])].

(** ** Residual entries *)

(** Reads [count] entries of [arity] outputs each off the flat table;
    returns them with the rest of the table. *)
Fixpoint take_entries (arity count : nat) (flat : list Z)
  : list (Z * str) * list Z :=
  match count with
  | O => ([], flat)
  | S count' =>
      match flat with
      | k :: rest =>
          let '(es, rest') := take_entries arity count' (drop arity rest) in
          ((k, take arity rest) :: es, rest')
      | [] => ([], [])
      end
  end.

(** The residual entries [(codepoint, outputs)] that the two tables of
    [extract_conversions] encode. *)
Definition residual_entries (conversions counters : list Z) : list (Z * str) :=
  match counters with
  | [n1; n2; n3] =>
      let '(e1, r1) := take_entries 1 (Z.to_nat n1) conversions in
      let '(e2, r2) := take_entries 2 (Z.to_nat n2) r1 in
      let '(e3, _) := take_entries 3 (Z.to_nat n3) r2 in
      e1 ++ e2 ++ e3
  | _ => []
  end.

(** ** The tiers of the two maps *)

(** The code points of the lower-case map that each emitted table covers,
    table after table. *)
Definition lower_domain (t : ConversionTables) : list Z :=
  uniform_domain
    (uniform_ranges (character_case_ranges t).1 (character_case_ranges t).2) ++
  pairs_domain
    (pair_ranges (character_pair_ranges t).1 (character_pair_ranges t).2) ++
  (singleton_pairs (character_pairs t)).*1 ++
  uniform_domain
    (uniform_ranges (lower_case_ranges t).1 (lower_case_ranges t).2) ++
  (residual_entries (lower_case_conversions t).1 (lower_case_conversions t).2).*1.

(** The code points of the upper-case map that each emitted table covers. *)
Definition upper_domain (t : ConversionTables) : list Z :=
  uniform_codomain
    (uniform_ranges (character_case_ranges t).1 (character_case_ranges t).2) ++
  pairs_codomain
    (pair_ranges (character_pair_ranges t).1 (character_pair_ranges t).2) ++
  (singleton_pairs (character_pairs t)).*2 ++
  special_domain
    (special_ranges_of (upper_case_special_ranges t).1
                       (upper_case_special_ranges t).2) ++
  (residual_entries (upper_case_conversions t).1 (upper_case_conversions t).2).*1.

(** The warnings that the constructor issues for the maps it is left
    with. *)
Definition leftover_warnings (lower_case upper_case : dict) : list string :=
  (if dict_truth lower_case then [lowercase_warning] else []) ++
  (if dict_truth upper_case then [uppercase_warning] else []).

(** A lower-case map with an output of four code points. *)
Definition long_output_lower : dict := [(0x0130, [0x69; 0x307; 0x300; 0x301])].

(** The tables that the constructor extracts from the sample. *)
Definition sample_tables : ConversionTables :=
  {| character_case_ranges := ([0x0391; 0x03B1], [3]);
     character_pair_ranges := ([0x0100], [4]);
     character_pairs := [0x0178; 0x00FF];
     upper_case_special_ranges := ([0x1F80; 0x1F08; 0x0399], [2]);
     lower_case_ranges := ([0x1F88; 0x1F80], [2]);
     lower_case_conversions := ([0x03F4; 0x03B8; 0x0130; 0x69; 0x307], [1; 1; 0]);
     upper_case_conversions :=
       ([0x00B5; 0x039C; 0x00DF; 0x53; 0x53; 0x1F82; 0x1F0A; 0x0399;
         0x0390; 0x0399; 0x0308; 0x0301], [1; 2; 1]) |}.

(** The tables of a run that claims nothing. *)
Definition empty_tables : ConversionTables :=
  {| character_case_ranges := ([], []);
     character_pair_ranges := ([], []);
     character_pairs := [];
     upper_case_special_ranges := ([], []);
     lower_case_ranges := ([], []);
     lower_case_conversions := ([], [0; 0; 0]);
     upper_case_conversions := ([], [0; 0; 0]) |}.

(** ** Two runs on the same mapping *)

(** Two dicts with the same mapping, whatever their insertion orders. *)
Definition dict_same (d d' : dict) : Prop :=
  dict_wf d /\ dict_wf d' /\ dict_equiv d d'.

Definition option_same (rc rc' : option dict) : Prop :=
  match rc, rc' with
  | Some d, Some d' => dict_same d d'
  | None, None => True
  | _, _ => False
  end.

(** What two runs of the constructor have in common when they agree: the
    tables and the warnings. *)
Definition same_tables
    (x y : ConversionTables * list string * dict * dict) : Prop :=
  x.1.1.1 = y.1.1.1 /\ x.1.1.2 = y.1.1.2.

Definition pair_same (st st' : dict * dict) : Prop :=
  dict_same st.1 st'.1 /\ dict_same st.2 st'.2.

Definition pair_option_same (st st' : dict * option dict) : Prop :=
  dict_same st.1 st'.1 /\ option_same st.2 st'.2.

Definition buckets_same (st st' : list (list Z) * dict) : Prop :=
  st.1 = st'.1 /\ dict_same st.2 st'.2.

(** ** Special-casing records *)

(** What the loop of lines 272-274 makes of a field. *)
Definition blank_if_comment (i : str) : str :=
  if 0 <=? str_find i 35 then [] else i.

(** A record that [read_case_mappings] skips as a comment or an empty
    line. *)
Definition comment_record (line : list str) : bool :=
  match line with
  | [] => true
  | first :: _ => str_startswith first 35
  end.

(** A special-casing record whose upper-case field carries its data and a
    trailing comment, and the same record with the comment in a field of
    its own, as in the Unicode data files. *)
Definition record_with_inline_comment : list str :=
  py_str <$> ["0149"; " 02BC 006E"; " 02BC 004E";
              " 02BC 004E # LATIN SMALL LETTER N PRECEDED BY APOSTROPHE";
              ""]%string.

Definition record_with_comment_field : list str :=
  py_str <$> ["0149"; " 02BC 006E"; " 02BC 004E"; " 02BC 004E";
              " # LATIN SMALL LETTER N PRECEDED BY APOSTROPHE"]%string.

(** ** The scenarios of the specification *)

(** Scenario A: 0x0391..0x03A9, each mapped to the code point 32 above
    it, and back. *)
Definition greek_lower : dict := (fun i => (0x0391 + i, [0x03B1 + i])) <$> seqZ 0 25.
Definition greek_upper : dict := (fun i => (0x03B1 + i, [0x0391 + i])) <$> seqZ 0 25.

(** Scenario C: 0x1F88..0x1F8F have the upper-case outputs
    (0x1F08 + i, 0x0399). *)
Definition ypogegrammeni_upper : dict :=
  (fun i => (0x1F88 + i, [0x1F08 + i; 0x0399])) <$> seqZ 0 8.

(** Scenario D: a lower-case output of three code points. *)
Definition three_outputs_lower : dict := [(0x2000, [0x61; 0x62; 0x63])].

(** ** Vocabulary of the further properties *)

(** No code point of [d] has the empty output. *)
Definition nonempty_outputs (d : dict) : Prop :=
  forall k v, dict_get d k = Some v -> v <> [].

(** The bidirectional conversion pairs of the two maps among the keys
    [ks], in the order of [ks]. *)
Definition select_bidirectional (letter_case reverse_letter_case : dict)
    (ks : list Z) : list (Z * Z) :=
  omap (fun c => match dict_get letter_case c with
                 | Some [m] =>
                     if decide (dict_get reverse_letter_case m = Some [c])
                     then Some (c, m) else None
                 | _ => None
                 end) ks.

(** The bidirectional conversion pairs of the two maps, by ascending
    first code point. *)
Definition bidirectional_pairs (letter_case reverse_letter_case : dict)
  : list (Z * Z) :=
  select_bidirectional letter_case reverse_letter_case
                       (sorted (dict_keys letter_case)).

(** The second invariant of the scanning loop of [extract_ranges], after
    the keys [pre]: the ranges found so far are pairwise disjoint, reach
    no further than the last key visited, and do not reach it when no
    range is open. *)
Definition extract_ranges_apart
    (pre : list Z) (st : bool * Z * list Z * list Z) : Prop :=
  let '(in_range, _, ranges, range_lengths) := st in
  let rs := uniform_ranges ranges range_lengths in
  NoDup (uniform_domain rs) /\
  (forall c, covered rs c -> exists k, last pre = Some k /\ c <= k) /\
  (in_range = false -> forall k, last pre = Some k -> ~ covered rs k).

(** The reverse map of a call of [extract_ranges] has no empty output. *)
Definition nonempty_reverse (reverse_letter_case : option dict) : Prop :=
  match reverse_letter_case with
  | None => True
  | Some d => nonempty_outputs d
  end.

(** What the reverse map of [extract_ranges] is after deleting [ks]. *)
Definition reverse_without (ks : list Z) (rc rc' : option dict) : Prop :=
  match rc, rc' with
  | None, None => True
  | Some d, Some d' =>
      forall k, dict_get d' k = if decide (k ∈ ks) then None else dict_get d k
  | _, _ => False
  end.

(** The reverse map after the removal of ranges: the deletions of their
    images, one after the other. *)
Definition reverse_deleted (ks : list Z) (rc rc' : option dict) : Prop :=
  match rc, rc' with
  | None, None => True
  | Some d, Some d' => foldM dict_delitem ks d = Ok d'
  | _, _ => False
  end.

(** The head of a special range: its start and the code point after it
    have the outputs the range records, and it has one code point at
    least. *)
Definition special_head_ok (letter_case : dict) (r : Z * Z * Z * Z) : Prop :=
  1 <= r.2 /\
  dict_get letter_case r.1.1.1 = Some [r.1.1.2; r.1.2] /\
  dict_get letter_case (r.1.1.1 + 1) = Some [r.1.1.2 + 1; r.1.2].

(** ** What the tables say

    The bindings that each table stands for, as its extractor documents
    it: a uniform range [(start, mapped_start, length)] sends [start + i]
    to [mapped_start + i]; a pair range sends each code point it covers
    to the next one; a singleton pair [(a, b)] sends [a] to [b]; and the
    same tables read backwards give the bindings of the reverse map. *)

Definition uniform_bindings (rs : list (Z * Z * Z)) : list (Z * str) :=
  concat ((fun r : Z * Z * Z =>
             (fun i => (r.1.1 + i, [r.1.2 + i])) <$> seqZ 0 r.2) <$> rs).

Definition uniform_reverse_bindings (rs : list (Z * Z * Z)) : list (Z * str) :=
  concat ((fun r : Z * Z * Z =>
             (fun i => (r.1.2 + i, [r.1.1 + i])) <$> seqZ 0 r.2) <$> rs).

Definition pair_bindings (ps : list (Z * Z)) : list (Z * str) :=
  (fun c => (c, [c + 1])) <$> pairs_domain ps.

Definition pair_reverse_bindings (ps : list (Z * Z)) : list (Z * str) :=
  (fun c => (c + 1, [c])) <$> pairs_domain ps.

Definition singleton_bindings (qs : list (Z * Z)) : list (Z * str) :=
  (fun q : Z * Z => (q.1, [q.2])) <$> qs.

Definition singleton_reverse_bindings (qs : list (Z * Z)) : list (Z * str) :=
  (fun q : Z * Z => (q.2, [q.1])) <$> qs.

(** The bindings of the lower-case map that the tables stand for. *)
Definition lower_bindings (t : ConversionTables) : list (Z * str) :=
  uniform_bindings
    (uniform_ranges (character_case_ranges t).1 (character_case_ranges t).2) ++
  pair_bindings
    (pair_ranges (character_pair_ranges t).1 (character_pair_ranges t).2) ++
  singleton_bindings (singleton_pairs (character_pairs t)) ++
  uniform_bindings
    (uniform_ranges (lower_case_ranges t).1 (lower_case_ranges t).2) ++
  residual_entries (lower_case_conversions t).1 (lower_case_conversions t).2.

(** The bindings of the upper-case map that the tables stand for, the
    special ranges apart. *)
Definition upper_bindings (t : ConversionTables) : list (Z * str) :=
  uniform_reverse_bindings
    (uniform_ranges (character_case_ranges t).1 (character_case_ranges t).2) ++
  pair_reverse_bindings
    (pair_ranges (character_pair_ranges t).1 (character_pair_ranges t).2) ++
  singleton_reverse_bindings (singleton_pairs (character_pairs t)) ++
  residual_entries (upper_case_conversions t).1 (upper_case_conversions t).2.

(** The numbers of the five tables that describe the lower-case map, and
    of the two that describe the upper-case map only. *)
Definition lower_table_values (t : ConversionTables) : list Z :=
  (character_case_ranges t).1 ++ (character_pair_ranges t).1 ++
  character_pairs t ++ (lower_case_ranges t).1 ++ (lower_case_conversions t).1.

Definition upper_table_values (t : ConversionTables) : list Z :=
  (upper_case_special_ranges t).1 ++ (upper_case_conversions t).1.

(** Every code point that occurs in a dict, as a key or in an output. *)
Definition dict_code_points (d : dict) : list Z :=
  concat ((fun kv : Z * str => kv.1 :: kv.2) <$> d).

(** ** The case maps as they are read *)

(** The non-empty words of a field, split at spaces. *)
Definition tokens (raw_data : str) : list str :=
  filter (fun w : str => w <> []) (str_split 32 raw_data).

(** The keys of [d] lie in the Basic Multilingual Plane, above ASCII. *)
Definition keys_in_range (d : dict) : Prop :=
  forall k, is_Some (dict_get d k) -> 128 <= k < 0x10000.

(** Every output of [d] is a string of code points. *)
Definition valid_outputs (d : dict) : Prop :=
  forall k v, dict_get d k = Some v -> Forall (fun x => 0 <= x < 0x110000) v.

(** What holds of a map that [read_case_mappings] builds. *)
Definition read_map_ok (d : dict) : Prop :=
  dict_wf d /\ keys_in_range d /\ valid_outputs d.

(** Two records of the unicode data file: U+00E9 with its upper-case
    mapping, and U+0041, which is ASCII. *)
Definition unicode_data_sample : list (list str) :=
  [py_str <$> ["00E9"; "LATIN SMALL LETTER E WITH ACUTE"; "Ll"; "0"; "L";
               "0065 0301"; ""; ""; ""; "N"; "LATIN SMALL LETTER E ACUTE"; "";
               "00C9"; ""; "00C9"]%string;
   py_str <$> ["0041"; "LATIN CAPITAL LETTER A"; "Lu"; "0"; "L";
               ""; ""; ""; ""; "N"; ""; ""; ""; "0061"; ""]%string].

(** The second invariant of the scanning loop of
    [extract_character_pair_ranges], after the keys [pre], on maps in
    which no two consecutive code points both start a swap pair: the
    ranges found so far are disjoint, reach no further than the last key
    visited, and cover every swap pair visited. *)
Definition extract_character_pair_ranges_apart
    (letter_case reverse_letter_case : dict)
    (pre : list Z) (st : list Z * list Z * bool * Z) : Prop :=
  let '(start_points, lengths, _, _) := st in
  let ps := pair_ranges start_points lengths in
  NoDup (pairs_domain ps) /\
  (forall c, c ∈ pairs_domain ps -> exists k, last pre = Some k /\ c <= k) /\
  (forall k, k ∈ pre -> swap_pair letter_case reverse_letter_case k ->
             k ∈ pairs_domain ps).

(** The test for a swap pair, and for the absence of consecutive ones. *)
Definition swap_pairb (letter_case reverse_letter_case : dict) (c : Z) : bool :=
  bool_decide (dict_get letter_case c = Some [c + 1]) &&
  bool_decide (dict_get reverse_letter_case (c + 1) = Some [c]).

Definition no_adjacent_swap_pairsb (letter_case reverse_letter_case : dict)
  : bool :=
  forallb (fun c => negb (swap_pairb letter_case reverse_letter_case c &&
                          swap_pairb letter_case reverse_letter_case (c + 1)))
          (dict_keys letter_case).

(** What the two-way [extract_ranges] leaves of the sample. *)
Definition sample_lower_1 : dict :=
  [(376, [255]); (258, [259]); (256, [257]); (304, [105; 775]);
   (8073, [8065]); (8072, [8064]); (1012, [952])].

Definition sample_upper_1 : dict :=
  [(255, [376]); (257, [256]); (259, [258]); (8064, [7944; 921]);
   (8065, [7945; 921]); (8066, [7946; 921]); (223, [83; 83]);
   (912, [921; 776; 769]); (181, [924])].

(** An upper-case map on which [in_range] is read before it is assigned:
    the first code point with two outputs follows a code point with
    one. *)
Definition unbound_upper : dict :=
  [(0x00DE, [0x54]); (0x00DF, [0x53; 0x53]); (0x00E0, [0x54; 0x53])].

(** An upper-case map on which a special range runs over a code point
    that is no key: the range opened at 0x1F80 stays open over 0x1F90 and
    0x1F91 and is extended at 0x1F92 and 0x1F93. *)
Definition key_error_upper : dict :=
  [(0x1F80, [0x1F08; 0x0399]); (0x1F81, [0x1F09; 0x0399]);
   (0x1F90, [0x1F28]); (0x1F91, [0x1F29; 0x0399]);
   (0x1F92, [0x1F2A; 0x0399]); (0x1F93, [0x1F2B; 0x0399])].

(** Upper-case maps to go with [sample_lower] on which the special-range
    stage of the constructor raises: the one-to-one entries of
    [sample_upper], followed by [unbound_upper] and by [key_error_upper]. *)
Definition sample_upper_unbound : dict :=
  [(0x03B1, [0x391]); (0x03B3, [0x393]); (0x03B2, [0x392]); (0x00FF, [0x178]);
   (0x0101, [0x100]); (0x0103, [0x102])] ++ unbound_upper.

Definition sample_upper_key_error : dict :=
  [(0x03B1, [0x391]); (0x03B3, [0x393]); (0x03B2, [0x392]); (0x00FF, [0x178]);
   (0x0101, [0x100]); (0x0103, [0x102])] ++ key_error_upper.

(** The tables that the constructor extracts from what
    [read_case_mappings] makes of [unicode_data_sample] and
    [record_with_comment_field]. *)
Definition records_tables : ConversionTables :=
  {| character_case_ranges := ([], []);
     character_pair_ranges := ([], []);
     character_pairs := [];
     upper_case_special_ranges := ([], []);
     lower_case_ranges := ([], []);
     lower_case_conversions := ([0x0149; 0x02BC; 0x006E], [0; 1; 0]);
     upper_case_conversions :=
       ([0x00E9; 0x00C9; 0x0149; 0x02BC; 0x004E], [1; 1; 0]) |}.

(** ** Clean runs of two-code-point outputs

    A map is clean for [extract_special_ranges] when every code point
    with an output of two code points that follows a key follows one
    with an output of two code points and the same second one. *)
Definition special_clean (letter_case : dict) : Prop :=
  forall c x y pv,
    dict_get letter_case c = Some [x; y] ->
    dict_get letter_case (c - 1) = Some pv ->
    exists px, pv = [px; y].

Definition special_cleanb (letter_case : dict) : bool :=
  forallb (fun kv : Z * str =>
             match kv.2, dict_get letter_case (kv.1 - 1) with
             | [_; y], Some [_; py] => bool_decide (py = y)
             | [_; _], Some _ => false
             | _, _ => true
             end) letter_case.

(** The special range [r] is right: [start + i] has the outputs
    [(first + i, second)] for every [i] up to its length, the code point
    after its last one included. *)
Definition special_range_ok (letter_case : dict) (r : Z * Z * Z * Z) : Prop :=
  1 <= r.2 /\
  forall i, 0 <= i <= r.2 ->
            dict_get letter_case (r.1.1.1 + i) = Some [r.1.1.2 + i; r.1.2].

(** The invariant of the scanning loop of [extract_special_ranges] on a
    clean map, after the keys [pre]. *)
Definition extract_special_ranges_clean_inv
    (letter_case : dict) (pre : list Z)
    (st : list Z * list Z * Z * option bool) : Prop :=
  let '(special_ranges, special_range_lengths, range_position, in_range) := st in
  exists ss,
    special_ranges = flat_special ss /\
    special_range_lengths = special_lens ss /\
    range_position = len ss - 1 /\
    Forall (special_range_ok letter_case) ss /\
    NoDup (special_domain ss) /\
    (forall c, c ∈ special_domain ss -> exists k, last pre = Some k /\ c < k) /\
    (forall k x y,
       last pre = Some k -> dict_get letter_case k = Some [x; y] ->
       in_range <> None /\
       (in_range = Some true ->
        exists ss' s f z n, ss = ss' ++ [(s, f, z, n)] /\ k = s + n)).

(** The bindings that the special ranges stand for: [start + i] has the
    outputs [(first + i, second)] over the length of the range. *)
Definition special_bindings (ss : list (Z * Z * Z * Z)) : list (Z * str) :=
  concat ((fun r : Z * Z * Z * Z =>
             (fun i => (r.1.1.1 + i, [r.1.1.2 + i; r.1.2])) <$> seqZ 0 r.2)
          <$> ss).

(** * Results and loops *)

Lemma bind_Ok {A B : Type} (f : A -> result B) (a : A) :
  (Ok a ≫= f) = f a.
Proof. reflexivity. Qed.

Lemma foldM_app {S A : Type} (f : S -> A -> result S) (l1 l2 : list A) (s : S) :
  foldM f (l1 ++ l2) s = (s' ← foldM f l1 s; foldM f l2 s').
Proof.
  revert s. induction l1 as [|a l1 IH]; intros s; simpl; [reflexivity|].
  destruct (f s a) as [s1|e]; simpl; [apply IH | reflexivity].
Qed.

(** The invariant rule of a [for] loop: [I pre s] relates the state to the
    elements already visited. *)
Lemma foldM_inv {S A : Type} (f : S -> A -> result S)
    (I : list A -> S -> Prop) (l : list A) (s0 s' : S) :
  I [] s0 ->
  (forall pre a post s s1,
      l = pre ++ a :: post -> I pre s -> f s a = Ok s1 -> I (pre ++ [a]) s1) ->
  foldM f l s0 = Ok s' ->
  I l s'.
Proof.
  intros H0 Hstep.
  enough (forall post pre s, l = pre ++ post -> I pre s ->
                             foldM f post s = Ok s' -> I l s') as Hgen.
  { intros Hf. exact (Hgen l [] s0 eq_refl H0 Hf). }
  induction post as [|a post IH]; intros pre s Hl HI Hf; simpl in Hf.
  - injection Hf as <-. rewrite app_nil_r in Hl. subst l. exact HI.
  - destruct (f s a) as [s1|e] eqn:Ef; [|discriminate].
    rewrite bind_Ok in Hf.
    apply (IH (pre ++ [a]) s1); [|eauto|exact Hf].
    rewrite <- app_assoc. exact Hl.
Qed.

(** A loop whose bodies are related step by step has related outcomes. *)
Lemma foldM_rel {S S' A : Type} (R : S -> S' -> Prop)
    (f : S -> A -> result S) (f' : S' -> A -> result S') (l : list A) :
  (forall s s' a, R s s' -> result_rel R (f s a) (f' s' a)) ->
  forall s s', R s s' -> result_rel R (foldM f l s) (foldM f' l s').
Proof.
  intros Hf. induction l as [|a l IH]; intros s s' HR; simpl; [exact HR|].
  specialize (Hf s s' a HR).
  destruct (f s a) as [s1|e], (f' s' a) as [s1'|e']; simpl in *;
    try contradiction; [apply IH; exact Hf | exact Hf].
Qed.

(** * Python lists *)

Lemma len_app {A : Type} (l1 l2 : list A) : len (l1 ++ l2) = len l1 + len l2.
Proof. unfold len. rewrite length_app. lia. Qed.

Lemma len_nonneg {A : Type} (l : list A) : 0 <= len l.
Proof. unfold len. lia. Qed.

(** Reading the element that follows a prefix. *)
Lemma list_getitem_middle {A : Type} (l1 l2 : list A) (x : A) (i : Z) :
  i = len l1 -> list_getitem (l1 ++ x :: l2) i = Ok x.
Proof.
  intros ->. unfold list_getitem, py_index.
  pose proof (len_nonneg l1) as Hl0.
  rewrite len_app. replace (len (x :: l2)) with (1 + len l2) by (unfold len; simpl; lia).
  pose proof (len_nonneg l2).
  destruct (Z.ltb_spec (len l1) 0); [lia|].
  destruct (Z.leb_spec 0 (len l1)); [|lia].
  destruct (Z.ltb_spec (len l1) (len l1 + (1 + len l2))); [|lia].
  simpl. unfold len. rewrite Nat2Z.id.
  rewrite list_lookup_middle by reflexivity. reflexivity.
Qed.

Lemma list_getitem_snoc {A : Type} (l : list A) (x : A) (i : Z) :
  i = len (l ++ [x]) - 1 -> list_getitem (l ++ [x]) i = Ok x.
Proof.
  intros ->. apply list_getitem_middle. rewrite len_app. unfold len. simpl. lia.
Qed.

Lemma list_setitem_middle {A : Type} (l1 l2 : list A) (x y : A) (i : Z) :
  i = len l1 -> list_setitem (l1 ++ x :: l2) i y = Ok (l1 ++ y :: l2).
Proof.
  intros ->. unfold list_setitem, py_index.
  pose proof (len_nonneg l1) as Hl0.
  rewrite len_app. replace (len (x :: l2)) with (1 + len l2) by (unfold len; simpl; lia).
  pose proof (len_nonneg l2).
  destruct (Z.ltb_spec (len l1) 0); [lia|].
  destruct (Z.leb_spec 0 (len l1)); [|lia].
  destruct (Z.ltb_spec (len l1) (len l1 + (1 + len l2))); [|lia].
  simpl. unfold len. rewrite Nat2Z.id.
  replace (length l1) with (length l1 + 0)%nat at 1 by lia.
  rewrite insert_app_r. reflexivity.
Qed.

Lemma list_setitem_snoc {A : Type} (l : list A) (x y : A) (i : Z) :
  i = len (l ++ [x]) - 1 -> list_setitem (l ++ [x]) i y = Ok (l ++ [y]).
Proof.
  intros ->. apply list_setitem_middle. rewrite len_app. unfold len. simpl. lia.
Qed.

Lemma py_range_step1 (n : Z) : py_range 0 n 1 = seqZ 0 n.
Proof.
  unfold py_range. replace ((n - 0 + 1 - 1) `div` 1) with n
    by (rewrite Z.div_1_r; lia).
  rewrite <- (list_fmap_id (seqZ 0 n)) at 2.
  apply list_fmap_ext. intros _ i _. simpl. lia.
Qed.

(** * Dicts *)

Lemma dict_contains_true (d : dict) (k : Z) :
  dict_contains d k = true <-> is_Some (dict_get d k).
Proof.
  unfold dict_contains. destruct (dict_get d k); split; intros H;
    try reflexivity; try discriminate; eauto.
  destruct H as [? H]. discriminate.
Qed.

Lemma dict_contains_false (d : dict) (k : Z) :
  dict_contains d k = false <-> dict_get d k = None.
Proof.
  unfold dict_contains. destruct (dict_get d k); split; intros H;
    try reflexivity; try discriminate.
Qed.

Lemma dict_getitem_Ok (d : dict) (k : Z) (v : str) :
  dict_getitem d k = Ok v <-> dict_get d k = Some v.
Proof.
  unfold dict_getitem. destruct (dict_get d k); split; intros H;
    try discriminate; congruence.
Qed.

Lemma elem_of_dict_keys (d : dict) (k : Z) :
  k ∈ dict_keys d <-> is_Some (dict_get d k).
Proof.
  unfold dict_keys. induction d as [|[k' v] d IH]; simpl.
  - rewrite elem_of_nil. split; [tauto|]. intros [? H]. discriminate.
  - rewrite elem_of_cons, IH. destruct (decide (k = k')) as [->|Hne].
    + split; eauto.
    + tauto.
Qed.

Lemma dict_get_remove (d : dict) (k k' : Z) :
  dict_get (dict_remove d k) k' =
  if decide (k' = k) then None else dict_get d k'.
Proof.
  induction d as [|[k0 v] d IH]; simpl.
  - destruct (decide (k' = k)); reflexivity.
  - destruct (decide (k = k0)) as [->|Hne]; simpl.
    + rewrite IH. destruct (decide (k' = k0)); reflexivity.
    + rewrite IH. destruct (decide (k' = k0)) as [->|]; [|reflexivity].
      destruct (decide (k0 = k)); [congruence | reflexivity].
Qed.

Lemma dict_keys_remove (d : dict) (k : Z) :
  dict_keys (dict_remove d k) = filter (fun k' => k' ≠ k) (dict_keys d).
Proof.
  unfold dict_keys. induction d as [|[k0 v] d IH]; [reflexivity|].
  cbn [dict_remove]. rewrite fmap_cons. cbn [fst].
  destruct (decide (k = k0)) as [->|Hne].
  - rewrite filter_cons_False by tauto. exact IH.
  - rewrite filter_cons_True by congruence. rewrite fmap_cons, IH. reflexivity.
Qed.

Lemma dict_wf_remove (d : dict) (k : Z) : dict_wf d -> dict_wf (dict_remove d k).
Proof.
  unfold dict_wf. rewrite dict_keys_remove. intros H. apply NoDup_filter, H.
Qed.

(** A successful [del] takes exactly one key away. *)
Lemma dict_keys_delitem (d d' : dict) (k : Z) :
  dict_wf d -> dict_delitem d k = Ok d' -> dict_keys d ≡ₚ k :: dict_keys d'.
Proof.
  unfold dict_delitem. intros Hwf H.
  destruct (dict_contains d k) eqn:Hc; [|discriminate]. injection H as <-.
  apply dict_contains_true, elem_of_dict_keys in Hc.
  apply NoDup_Permutation; [exact Hwf| |].
  - apply NoDup_cons. split; [|apply dict_wf_remove; exact Hwf].
    rewrite dict_keys_remove, list_elem_of_filter. tauto.
  - intros x. rewrite elem_of_cons, dict_keys_remove, list_elem_of_filter.
    destruct (decide (x = k)) as [->|]; tauto.
Qed.

Lemma dict_delitem_Ok (d d' : dict) (k : Z) :
  dict_delitem d k = Ok d' <-> is_Some (dict_get d k) /\ d' = dict_remove d k.
Proof.
  unfold dict_delitem. destruct (dict_contains d k) eqn:Hc.
  - apply dict_contains_true in Hc. split; [intros [= <-]; auto|].
    intros [_ ->]. reflexivity.
  - apply dict_contains_false in Hc. split; [discriminate|].
    intros [[? H] _]. congruence.
Qed.

Lemma dict_wf_delitem (d d' : dict) (k : Z) :
  dict_wf d -> dict_delitem d k = Ok d' -> dict_wf d'.
Proof.
  intros Hwf [_ ->]%dict_delitem_Ok. apply dict_wf_remove. exact Hwf.
Qed.

Lemma dict_sub_remove (d : dict) (k : Z) : dict_sub (dict_remove d k) d.
Proof.
  intros k' v. rewrite dict_get_remove. destruct (decide (k' = k)); [discriminate|tauto].
Qed.

Lemma dict_get_None_nil (d : dict) : (forall k, dict_get d k = None) -> d = [].
Proof.
  destruct d as [|[k v] d]; [reflexivity|]. intros H. specialize (H k).
  simpl in H. destruct (decide (k = k)); [discriminate | congruence].
Qed.

(** * Sorted keys *)

Lemma elem_of_sorted (l : list Z) (x : Z) : x ∈ sorted l <-> x ∈ l.
Proof. unfold sorted. rewrite merge_sort_Permutation. reflexivity. Qed.

Lemma sorted_strict (l : list Z) : NoDup l -> StronglySorted Z.lt (sorted l).
Proof.
  intros Hnd.
  assert (NoDup (sorted l)) as Hnd'.
  { unfold sorted. rewrite merge_sort_Permutation. exact Hnd. }
  assert (StronglySorted Z.le (sorted l)) as Hs.
  { unfold sorted. apply StronglySorted_merge_sort; apply _. }
  induction Hs as [|x l' Hs IH Hx]; [constructor|].
  apply NoDup_cons in Hnd' as [Hx' Hnd']. constructor; [apply IH; exact Hnd'|].
  rewrite Forall_forall in *. intros y Hy. specialize (Hx y Hy).
  assert (x ≠ y) by (intros ->; contradiction). lia.
Qed.

Lemma sorted_keys_strict (d : dict) :
  dict_wf d -> StronglySorted Z.lt (sorted (dict_keys d)).
Proof. apply sorted_strict. Qed.

(** Equal key sets are visited in the same order. *)
Lemma sorted_keys_equiv (d d' : dict) :
  dict_wf d -> dict_wf d' -> dict_equiv d d' ->
  sorted (dict_keys d) = sorted (dict_keys d').
Proof.
  intros Hwf Hwf' Heq.
  apply (StronglySorted_unique Z.le).
  - apply StronglySorted_merge_sort; apply _.
  - apply StronglySorted_merge_sort; apply _.
  - unfold sorted. rewrite !merge_sort_Permutation.
    apply NoDup_Permutation; [exact Hwf | exact Hwf' |].
    intros k. rewrite !elem_of_dict_keys, (Heq k). reflexivity.
Qed.

(** In the strictly sorted list [pre ++ a :: post], an element below [a]
    is at most the last element of [pre], which is itself below [a]. *)
Lemma sorted_before (pre post : list Z) (a k x : Z) :
  StronglySorted Z.lt (pre ++ a :: post) ->
  last pre = Some k ->
  x ∈ pre ++ a :: post -> x < a ->
  k < a /\ x <= k.
Proof.
  intros Hs Hlast Hx Hlt.
  apply last_Some in Hlast as [pre' ->].
  apply StronglySorted_app in Hs as (Hcross & Hpre & Hpost).
  split.
  - apply Hcross; [apply elem_of_app; right; left | left].
  - apply elem_of_app in Hx as [Hx|Hx].
    + apply elem_of_app in Hx as [Hx|Hx].
      * apply StronglySorted_app in Hpre as (Hc & _ & _).
        specialize (Hc x k Hx). assert (x < k); [|lia]. apply Hc. left.
      * apply list_elem_of_singleton in Hx. lia.
    + apply elem_of_cons in Hx as [->|Hx]; [lia|].
      apply StronglySorted_cons in Hpost as [Hall _].
      rewrite Forall_forall in Hall. specialize (Hall x Hx). lia.
Qed.

(** * More on loops *)

Lemma foldM_ext {S A : Type} (f g : S -> A -> result S) (l : list A) (s : S) :
  (forall s a, a ∈ l -> f s a = g s a) -> foldM f l s = foldM g l s.
Proof.
  revert s. induction l as [|a l IH]; intros s H; [reflexivity|].
  cbn [foldM]. rewrite (H s a) by left.
  destruct (g s a) as [s1|e]; [|reflexivity]. rewrite !bind_Ok.
  apply IH. intros s' a' Ha'. apply H. right. exact Ha'.
Qed.

Lemma foldM_fmap {S A B : Type} (f : S -> B -> result S) (g : A -> B)
    (l : list A) (s : S) :
  foldM f (g <$> l) s = foldM (fun s a => f s (g a)) l s.
Proof.
  revert s. induction l as [|a l IH]; intros s; [reflexivity|].
  rewrite fmap_cons. cbn [foldM]. destruct (f s (g a)); [|reflexivity].
  rewrite !bind_Ok. apply IH.
Qed.

(** A loop over the positions of [l] that only uses the element at each
    position is a loop over [l]. *)
Lemma foldM_indexed {St A : Type} (f : St -> Z -> result St)
    (h : St -> A -> result St) (l : list A) :
  (forall i a s, l !! i = Some a -> f s (Z.of_nat i) = h s a) ->
  forall s, foldM f (seqZ 0 (len l)) s = foldM h l s.
Proof.
  induction l as [|a l IH] using rev_ind; intros H s; [reflexivity|].
  unfold len. rewrite length_app. cbn [length].
  replace (length l + 1)%nat with (S (length l)) by lia.
  rewrite seqZ_S, !foldM_app.
  fold (len l). rewrite IH.
  - destruct (foldM h l s) as [s1|e]; [|reflexivity]. rewrite !bind_Ok.
    cbn [foldM]. rewrite Z.add_0_l. unfold len.
    rewrite (H (length l) a) by (apply list_lookup_middle; reflexivity).
    reflexivity.
  - intros i a' s' Hi. apply H. apply lookup_app_l_Some. exact Hi.
Qed.

Lemma py_range_chunks (c n : Z) :
  0 < c -> 0 <= n ->
  py_range 0 (c * n) c = (fun i => c * i) <$> seqZ 0 n.
Proof.
  intros Hc Hn. unfold py_range.
  replace ((c * n - 0 + c - 1) `div` c) with n.
  - apply list_fmap_ext. intros _ i _. lia.
  - replace (c * n - 0 + c - 1) with (n * c + (c - 1)) by lia.
    rewrite Z.div_add_l by lia. rewrite (Z.div_small (c - 1) c) by lia. lia.
Qed.

Lemma len_concat_chunks {A B : Type} (chunk : A -> list B) (c : nat) (rs : list A) :
  (forall r, length (chunk r) = c) ->
  len (concat (chunk <$> rs)) = Z.of_nat c * len rs.
Proof.
  intros Hc. induction rs as [|r rs IH].
  - unfold len. simpl. lia.
  - rewrite fmap_cons. cbn [concat]. rewrite len_app, IH.
    unfold len. cbn [length]. rewrite Hc. lia.
Qed.

(** Reading position [j] of the chunk of the element at position [i]. *)
Lemma list_getitem_chunk {A B : Type} (chunk : A -> list B) (c : nat)
    (rs : list A) (i j : nat) (r : A) (x : B) :
  (forall r, length (chunk r) = c) ->
  rs !! i = Some r -> chunk r !! j = Some x ->
  list_getitem (concat (chunk <$> rs)) (Z.of_nat c * Z.of_nat i + Z.of_nat j) = Ok x.
Proof.
  intros Hc Hi Hj.
  rewrite <- (take_drop_middle rs i r Hi).
  rewrite fmap_app, fmap_cons, concat_app. cbn [concat].
  rewrite <- (take_drop_middle (chunk r) j x Hj).
  rewrite <- !app_assoc, app_assoc. cbn [app].
  apply list_getitem_middle.
  rewrite len_app, (len_concat_chunks chunk c) by exact Hc.
  unfold len. rewrite !length_take_le.
  - reflexivity.
  - apply lookup_lt_Some in Hj. lia.
  - apply lookup_lt_Some in Hi. lia.
Qed.

(** * Deleting a list of keys *)

Lemma dict_delitems_keys (ks : list Z) : forall d d' : dict,
  dict_wf d -> foldM dict_delitem ks d = Ok d' ->
  dict_wf d' /\ dict_keys d ≡ₚ ks ++ dict_keys d'.
Proof.
  induction ks as [|k ks IH]; intros d d' Hwf H; cbn [foldM] in H.
  - injection H as <-. split; [exact Hwf | reflexivity].
  - destruct (dict_delitem d k) as [d1|] eqn:Hdel; [|discriminate].
    rewrite bind_Ok in H.
    destruct (IH d1 d' (dict_wf_delitem d d1 k Hwf Hdel) H) as [Hwf' Hp].
    split; [exact Hwf'|]. rewrite (dict_keys_delitem d d1 k Hwf Hdel).
    cbn [app]. constructor. exact Hp.
Qed.

Lemma dict_delitems_get (ks : list Z) : forall (d d' : dict) (k : Z),
  foldM dict_delitem ks d = Ok d' ->
  dict_get d' k = if decide (k ∈ ks) then None else dict_get d k.
Proof.
  induction ks as [|k0 ks IH]; intros d d' k H; cbn [foldM] in H.
  - injection H as <-. rewrite decide_False by apply not_elem_of_nil. reflexivity.
  - destruct (dict_delitem d k0) as [d1|] eqn:Hdel; [|discriminate].
    rewrite bind_Ok in H. rewrite (IH d1 d' k H).
    apply dict_delitem_Ok in Hdel as [_ ->]. rewrite dict_get_remove.
    destruct (decide (k ∈ ks)) as [Hin|Hin].
    + rewrite decide_True by (right; exact Hin). reflexivity.
    + destruct (decide (k = k0)) as [->|Hne].
      * rewrite decide_True by left. reflexivity.
      * rewrite decide_False; [reflexivity|]. rewrite elem_of_cons. tauto.
Qed.

Lemma dict_delitems_sub (ks : list Z) (d d' : dict) :
  foldM dict_delitem ks d = Ok d' -> dict_sub d' d.
Proof.
  intros H k v. rewrite (dict_delitems_get ks d d' k H).
  destruct (decide (k ∈ ks)); [discriminate | tauto].
Qed.

Lemma list_getitem_fmap {A B : Type} (f : A -> B) (l : list A) (i : nat) (a : A) :
  l !! i = Some a -> list_getitem (f <$> l) (Z.of_nat i) = Ok (f a).
Proof.
  intros Hi. rewrite <- (take_drop_middle l i a Hi).
  rewrite fmap_app, fmap_cons. apply list_getitem_middle.
  unfold len. rewrite length_fmap, length_take_le; [reflexivity|].
  apply lookup_lt_Some in Hi. lia.
Qed.

(** Deciding that the keys of a concrete dict are distinct. *)
Lemma NoDup_bool_decide {A : Type} `{EqDecision A} (l : list A) :
  bool_decide (NoDup l) = true -> NoDup l.
Proof. apply bool_decide_eq_true_1. Qed.


Lemma elem_of_concat {A : Type} (ls : list (list A)) (x : A) :
  x ∈ concat ls <-> exists l, l ∈ ls /\ x ∈ l.
Proof.
  induction ls as [|l ls IH]; cbn [concat].
  - split; [intros H; apply elem_of_nil in H; contradiction|].
    intros (l & H & _). apply elem_of_nil in H. contradiction.
  - rewrite elem_of_app, IH. split.
    + intros [H|(l' & H1 & H2)]; [exists l; split; [left|exact H]|].
      exists l'. split; [right; exact H1 | exact H2].
    + intros (l' & H1 & H2). apply elem_of_cons in H1 as [->|H1]; [left; exact H2|].
      right. eauto.
Qed.

(** Deciding that a concrete dict is a case map. *)
Lemma case_map_bool_decide (d : dict) :
  bool_decide (Forall (fun kv : Z * str => 1 <= len kv.2 <= 3) d) = true ->
  case_map d.
Proof.
  intros H. apply bool_decide_eq_true_1 in H. rewrite Forall_forall in H.
  intros k v Hg. induction d as [|[k' v'] d IH]; [discriminate|].
  simpl in Hg. destruct (decide (k = k')) as [->|Hne].
  - injection Hg as ->. apply (H (k', v)). left.
  - apply IH; [|exact Hg]. intros x Hx. apply H. right. exact Hx.
Qed.

(** * The helpers *)

Lemma len_le_1 {A : Type} (l : list A) :
  (1 <? len l) = false -> l = [] \/ exists x, l = [x].
Proof.
  intros H. apply Z.ltb_ge in H. unfold len in H.
  destruct l as [|x [|y l]]; simpl in H; [auto | eauto | lia].
Qed.

Lemma len_cons_cons_gt_1 {A : Type} (x y : A) (l : list A) :
  (1 <? len (x :: y :: l)) = true.
Proof. apply Z.ltb_lt. unfold len. simpl. lia. Qed.

(** What [is_bidirectional_conversion] computes, by cases on the two
    lookups it makes. *)
Lemma is_bidirectional_conversion_spec (c : Z) (lc rc : dict) :
  is_bidirectional_conversion c lc rc =
  match dict_get lc c with
  | None => Ok false
  | Some [] => Raise TypeError
  | Some [m] =>
      match dict_get rc m with
      | None => Ok false
      | Some [] => Raise TypeError
      | Some [c'] => Ok (bool_decide (c' = c))
      | Some (_ :: _ :: _) => Ok false
      end
  | Some (_ :: _ :: _) => Ok false
  end.
Proof.
  unfold is_bidirectional_conversion, dict_contains, dict_getitem.
  destruct (dict_get lc c) as [[|m [|m' v]]|]; simpl;
    rewrite ?len_cons_cons_gt_1; try reflexivity.
  destruct (dict_get rc m) as [[|c' [|c'' v]]|]; simpl;
    rewrite ?len_cons_cons_gt_1; try reflexivity.
  destruct (bool_decide (c' = c)); reflexivity.
Qed.

Lemma is_bidirectional_conversion_true (c : Z) (lc rc : dict) :
  is_bidirectional_conversion c lc rc = Ok true <->
  exists m, bidirectional lc rc c m.
Proof.
  rewrite is_bidirectional_conversion_spec. unfold bidirectional. split.
  - destruct (dict_get lc c) as [[|m [|m' v]]|]; try discriminate.
    destruct (dict_get rc m) as [[|c' [|c'' v]]|] eqn:Hr; try discriminate.
    intros [= Hb]. apply bool_decide_eq_true in Hb. subst c'. eauto.
  - intros (m & -> & ->). rewrite bool_decide_eq_true_2; reflexivity.
Qed.

(** What [calculate_conversion_distance] computes, by cases on the
    lookup it makes. *)
Lemma calculate_conversion_distance_cases (d : dict) (c : Z) :
  calculate_conversion_distance d c =
  match dict_get d c with
  | None => Ok None
  | Some [] => Raise TypeError
  | Some [m] => Ok (Some (m - c))
  | Some (_ :: _ :: _) => Ok None
  end.
Proof.
  unfold calculate_conversion_distance, dict_contains, dict_getitem.
  destruct (dict_get d c) as [[|m [|m' v]]|]; simpl;
    rewrite ?len_cons_cons_gt_1; reflexivity.
Qed.

(** C7 (as amended): [calculate_conversion_distance] returns the signed
    difference mapped-minus-[c] when [c] is present with exactly one output
    code point, and [None] when [c] is absent or has more than one output
    code point; on an empty output sequence it raises the [TypeError] of
    [ord] instead of returning [None]. *)
Theorem calculate_conversion_distance_spec (d : dict) (c : Z) :
  (forall m, dict_get d c = Some [m] ->
             calculate_conversion_distance d c = Ok (Some (m - c))) /\
  (dict_get d c = None -> calculate_conversion_distance d c = Ok None) /\
  (forall v, dict_get d c = Some v -> 1 < len v ->
             calculate_conversion_distance d c = Ok None) /\
  (dict_get d c = Some [] -> calculate_conversion_distance d c = Raise TypeError).
Proof.
  rewrite calculate_conversion_distance_cases.
  split; [intros m ->; reflexivity|]. split; [intros ->; reflexivity|].
  split; [|intros ->; reflexivity].
  intros v -> Hlen. unfold len in Hlen.
  destruct v as [|x [|y v]]; simpl in Hlen; [lia | lia | reflexivity].
Qed.

(** * [extract_conversions] *)

Lemma len_eq_1 {A : Type} (l : list A) : len l = 1 -> exists a, l = [a].
Proof.
  unfold len. destruct l as [|a [|b l]]; simpl; intros H; [lia | eauto | lia].
Qed.

Lemma len_eq_2 {A : Type} (l : list A) : len l = 2 -> exists a b, l = [a; b].
Proof.
  unfold len. destruct l as [|a [|b [|c l]]]; simpl; intros H;
    [lia | lia | eauto | lia].
Qed.

Lemma len_eq_3 {A : Type} (l : list A) :
  len l = 3 -> exists a b c, l = [a; b; c].
Proof.
  unfold len. destruct l as [|a [|b [|c [|e l]]]]; simpl; intros H;
    [lia | lia | lia | eauto | lia].
Qed.

Lemma dict_delitem_present (d : dict) (k : Z) (v : str) :
  dict_get d k = Some v -> dict_delitem d k = Ok (dict_remove d k).
Proof.
  intros H. unfold dict_delitem, dict_contains. rewrite H. reflexivity.
Qed.

Lemma extract_conversions_body1_step u0 u1 u2 (lc : dict) (k : Z) (v : str) :
  dict_get lc k = Some v ->
  extract_conversions_body1 ([u0; u1; u2], lc) k =
  Ok (if decide (len v = 1)
      then (bucket_extend 0 [u0; u1; u2] (k :: v), dict_remove lc k)
      else ([u0; u1; u2], lc)).
Proof.
  intros Hget. unfold extract_conversions_body1.
  rewrite (proj2 (dict_getitem_Ok lc k v) Hget), bind_Ok.
  destruct (decide (len v = 1)) as [Hn|Hn].
  - rewrite bool_decide_eq_true_2 by exact Hn.
    destruct (len_eq_1 v Hn) as [a ->]. simpl.
    rewrite (dict_delitem_present lc k [a] Hget). reflexivity.
  - rewrite bool_decide_eq_false_2 by exact Hn. reflexivity.
Qed.

Lemma extract_conversions_body2_step u0 u1 u2 (lc : dict) (k : Z) (v : str) :
  dict_get lc k = Some v ->
  extract_conversions_body2 ([u0; u1; u2], lc) k =
  Ok (if decide (len v = 2)
      then (bucket_extend 1 [u0; u1; u2] (k :: v), dict_remove lc k)
      else ([u0; u1; u2], lc)).
Proof.
  intros Hget. unfold extract_conversions_body2.
  rewrite (proj2 (dict_getitem_Ok lc k v) Hget), bind_Ok.
  destruct (decide (len v = 2)) as [Hn|Hn].
  - rewrite bool_decide_eq_true_2 by exact Hn.
    destruct (len_eq_2 v Hn) as (a & b & ->). simpl.
    rewrite (dict_delitem_present lc k [a; b] Hget). reflexivity.
  - rewrite bool_decide_eq_false_2 by exact Hn. reflexivity.
Qed.

Lemma extract_conversions_body3_step u0 u1 u2 (lc : dict) (k : Z) (v : str) :
  dict_get lc k = Some v ->
  extract_conversions_body3 ([u0; u1; u2], lc) k =
  Ok (if decide (len v = 3)
      then (bucket_extend 2 [u0; u1; u2] (k :: v), dict_remove lc k)
      else ([u0; u1; u2], lc)).
Proof.
  intros Hget. unfold extract_conversions_body3.
  rewrite (proj2 (dict_getitem_Ok lc k v) Hget), bind_Ok.
  destruct (decide (len v = 3)) as [Hn|Hn].
  - rewrite bool_decide_eq_true_2 by exact Hn.
    destruct (len_eq_3 v Hn) as (a & b & c & ->). simpl.
    rewrite (dict_delitem_present lc k [a; b; c] Hget). reflexivity.
  - rewrite bool_decide_eq_false_2 by exact Hn. reflexivity.
Qed.

Lemma bucket_extend_nil (i : nat) u0 u1 u2 :
  bucket_extend i [u0; u1; u2] [] = [u0; u1; u2].
Proof.
  destruct i as [|[|[|i]]]; simpl; rewrite ?app_nil_r; reflexivity.
Qed.

Lemma bucket_extend_app (i : nat) u0 u1 u2 (x y : list Z) :
  exists u0' u1' u2',
    bucket_extend i [u0; u1; u2] x = [u0'; u1'; u2'] /\
    bucket_extend i [u0'; u1'; u2'] y = bucket_extend i [u0; u1; u2] (x ++ y).
Proof.
  destruct i as [|[|[|i]]]; simpl; do 3 eexists; split; try reflexivity;
    rewrite ?app_assoc; reflexivity.
Qed.

Lemma select_arity_cons (n : Z) (d : dict) (k : Z) (ks : list Z) :
  select_arity n d (k :: ks) =
  match dict_get d k with
  | Some v => if decide (len v = n) then (k, v) :: select_arity n d ks
              else select_arity n d ks
  | None => select_arity n d ks
  end.
Proof.
  unfold select_arity. simpl. destruct (dict_get d k) as [v|]; [|reflexivity].
  destruct (decide (len v = n)); reflexivity.
Qed.

Lemma select_arity_ext (n : Z) (d d' : dict) (ks : list Z) :
  (forall k, k ∈ ks -> dict_get d k = dict_get d' k) ->
  select_arity n d ks = select_arity n d' ks.
Proof.
  intros H. unfold select_arity. apply list_omap_ext.
  induction ks as [|k ks IH]; constructor.
  - rewrite (H k) by (left). reflexivity.
  - apply IH. intros k' Hk'. apply H. right. exact Hk'.
Qed.

Lemma elem_of_select_arity (n : Z) (d : dict) (ks : list Z) (k : Z) (v : str) :
  (k, v) ∈ select_arity n d ks <->
  k ∈ ks /\ dict_get d k = Some v /\ len v = n.
Proof.
  unfold select_arity. rewrite list_elem_of_omap. split.
  - intros (k' & Hk' & Hsel). destruct (dict_get d k') as [v'|] eqn:Hg; [|discriminate].
    destruct (decide (len v' = n)); [|discriminate]. injection Hsel as -> ->. auto.
  - intros (Hk & Hg & Hn). exists k. rewrite Hg.
    destruct (decide (len v = n)); [auto | contradiction].
Qed.

(** One loop of [extract_conversions], for the bucket [i] of the outputs
    of [n] code points. *)
Section conversions_loop.
Variables (n : Z) (i : nat).
Variable body : list (list Z) * dict -> Z -> result (list (list Z) * dict).
Hypothesis body_step : forall u0 u1 u2 lc k v,
  dict_get lc k = Some v ->
  body ([u0; u1; u2], lc) k =
  Ok (if decide (len v = n)
      then (bucket_extend i [u0; u1; u2] (k :: v), dict_remove lc k)
      else ([u0; u1; u2], lc)).

Lemma conversions_loop (ks : list Z) : forall u0 u1 u2 (lc : dict),
  NoDup ks ->
  (forall k, k ∈ ks -> is_Some (dict_get lc k)) ->
  exists lc',
    foldM body ks ([u0; u1; u2], lc) =
      Ok (bucket_extend i [u0; u1; u2] (encode_entries (select_arity n lc ks)),
          lc') /\
    (forall k, dict_get lc' k =
               match dict_get lc k with
               | Some v => if decide (k ∈ ks /\ len v = n) then None else Some v
               | None => None
               end) /\
    (dict_wf lc ->
     dict_wf lc' /\
     dict_keys lc ≡ₚ (select_arity n lc ks).*1 ++ dict_keys lc').
Proof.
  induction ks as [|k ks IH]; intros u0 u1 u2 lc Hnd Hks.
  - exists lc. change (select_arity n lc []) with (@nil (Z * str)).
    change (encode_entries []) with (@nil Z).
    rewrite bucket_extend_nil. split; [reflexivity|]. split.
    + intros k. destruct (dict_get lc k) as [v|]; [|reflexivity].
      rewrite decide_False; [reflexivity|]. rewrite elem_of_nil. tauto.
    + intros Hwf. split; [exact Hwf | reflexivity].
  - apply NoDup_cons in Hnd as [Hk Hnd].
    destruct (Hks k) as [v Hget]; [left|].
    cbn [foldM]. rewrite (body_step _ _ _ _ _ _ Hget), bind_Ok.
    rewrite select_arity_cons, Hget.
    destruct (decide (len v = n)) as [Hn|Hn].
    + destruct (bucket_extend_app i u0 u1 u2 (k :: v)
                  (encode_entries (select_arity n lc ks)))
        as (u0' & u1' & u2' & Hshape & Happ).
      rewrite Hshape.
      destruct (IH u0' u1' u2' (dict_remove lc k) Hnd) as (lc' & Hrun & Hlk & Hperm).
      { intros k' Hk'. rewrite dict_get_remove.
        rewrite decide_False by (intros ->; contradiction).
        apply Hks. right. exact Hk'. }
      assert (select_arity n (dict_remove lc k) ks = select_arity n lc ks) as Hsel.
      { apply select_arity_ext. intros k' Hk'. rewrite dict_get_remove.
        rewrite decide_False by (intros ->; contradiction). reflexivity. }
      rewrite Hsel in Hrun, Hperm.
      exists lc'. split; [|split].
      * rewrite Hrun, Happ. reflexivity.
      * intros k'. rewrite Hlk, dict_get_remove.
        destruct (decide (k' = k)) as [->|Hne].
        -- rewrite Hget. rewrite decide_True; [reflexivity|]. split; [left|exact Hn].
        -- destruct (dict_get lc k') as [v'|]; [|reflexivity].
           destruct (decide (k' ∈ ks /\ len v' = n)) as [[H1 H2]|Hno].
           ++ rewrite decide_True; [reflexivity|]. split; [right; exact H1|exact H2].
           ++ rewrite decide_False; [reflexivity|].
              rewrite elem_of_cons. tauto.
      * intros Hwf. destruct (Hperm (dict_wf_remove lc k Hwf)) as [Hwf' Hp].
        split; [exact Hwf'|].
        rewrite fmap_cons. cbn [fst app].
        rewrite (dict_keys_delitem lc (dict_remove lc k) k Hwf
                   (dict_delitem_present lc k v Hget)).
        constructor. exact Hp.
    + destruct (IH u0 u1 u2 lc Hnd) as (lc' & Hrun & Hlk & Hperm).
      { intros k' Hk'. apply Hks. right. exact Hk'. }
      exists lc'. split; [exact Hrun|]. split; [|exact Hperm].
      intros k'. rewrite Hlk.
      destruct (dict_get lc k') as [v'|] eqn:Hg'; [|reflexivity].
      destruct (decide (k' ∈ ks /\ len v' = n)) as [[H1 H2]|Hno].
      * rewrite decide_True; [reflexivity|]. split; [right; exact H1|exact H2].
      * rewrite decide_False; [reflexivity|]. rewrite elem_of_cons.
        intros [[->|H1] H2]; [congruence | tauto].
Qed.
End conversions_loop.

Lemma StronglySorted_filter {A : Type} (R : relation A) (P : A -> Prop)
    `{forall x, Decision (P x)} (l : list A) :
  StronglySorted R l -> StronglySorted R (filter P l).
Proof.
  induction 1 as [|x l Hl IH Hx]; [constructor|].
  rewrite filter_cons. destruct (decide (P x)); [|exact IH].
  constructor; [exact IH|].
  rewrite Forall_forall in *. intros y [_ Hy]%list_elem_of_filter. auto.
Qed.

(** The sorted keys of a dict that lost some bindings of [d]. *)
Lemma sorted_keys_filter (d d' : dict) (P : Z -> Prop) `{forall k, Decision (P k)} :
  dict_wf d -> dict_wf d' ->
  (forall k, k ∈ dict_keys d' <-> k ∈ dict_keys d /\ P k) ->
  sorted (dict_keys d') = filter P (sorted (dict_keys d)).
Proof.
  intros Hwf Hwf' Hkeys. apply (StronglySorted_unique Z.le).
  - apply StronglySorted_merge_sort; apply _.
  - apply StronglySorted_filter, StronglySorted_merge_sort; apply _.
  - apply NoDup_Permutation.
    + unfold sorted. rewrite merge_sort_Permutation. exact Hwf'.
    + apply NoDup_filter. unfold sorted. rewrite merge_sort_Permutation. exact Hwf.
    + intros k. rewrite list_elem_of_filter, !elem_of_sorted, Hkeys. tauto.
Qed.

Lemma select_arity_filter (n : Z) (d d' : dict) (P : Z -> Prop)
    `{forall k, Decision (P k)} (l : list Z) :
  (forall k v, k ∈ l -> dict_get d k = Some v -> len v = n ->
               P k /\ dict_get d' k = Some v) ->
  (forall k v, dict_get d' k = Some v -> dict_get d k = Some v) ->
  select_arity n d' (filter P l) = select_arity n d l.
Proof.
  intros Hkeep Hsub. induction l as [|k l IH]; [reflexivity|].
  assert (select_arity n d' (filter P l) = select_arity n d l) as IH'.
  { apply IH. intros k' v Hk'. apply Hkeep. right. exact Hk'. }
  rewrite filter_cons, (select_arity_cons n d). destruct (decide (P k)) as [HP|HP].
  - rewrite select_arity_cons, IH'.
    destruct (dict_get d k) as [v|] eqn:Hg.
    + destruct (decide (len v = n)) as [Hn|Hn].
      * destruct (Hkeep k v) as [_ ->]; [left|exact Hg|exact Hn|].
        rewrite decide_True by exact Hn. reflexivity.
      * destruct (dict_get d' k) as [v'|] eqn:Hg'; [|reflexivity].
        apply Hsub in Hg'. assert (v' = v) as -> by congruence.
        rewrite decide_False by exact Hn. reflexivity.
    + destruct (dict_get d' k) as [v'|] eqn:Hg'; [|reflexivity].
      apply Hsub in Hg'. congruence.
  - rewrite IH'. destruct (dict_get d k) as [v|] eqn:Hg; [|reflexivity].
    destruct (decide (len v = n)) as [Hn|Hn]; [|reflexivity].
    destruct (Hkeep k v) as [HP' _]; [left|exact Hg|exact Hn|contradiction].
Qed.

(** Removing bindings of other arities does not change the entries of
    arity [n]. *)
Lemma entries_of_arity_sub (n : Z) (d d' : dict) :
  dict_wf d -> dict_wf d' ->
  dict_sub d' d ->
  (forall k v, dict_get d k = Some v -> len v = n -> dict_get d' k = Some v) ->
  entries_of_arity n d' = entries_of_arity n d.
Proof.
  intros Hwf Hwf' Hsub Hkeep. unfold entries_of_arity.
  rewrite (sorted_keys_filter d d' (fun k => is_Some (dict_get d' k)) Hwf Hwf').
  - apply select_arity_filter; [|exact Hsub].
    intros k v _ Hg Hn. rewrite (Hkeep k v Hg Hn). eauto.
  - intros k. rewrite !elem_of_dict_keys. split; [|tauto].
    intros [v Hv]. split; [exists v; apply Hsub, Hv | eauto].
Qed.

Lemma len_encode_entries (n : Z) (es : list (Z * str)) :
  (forall kv, kv ∈ es -> len kv.2 = n) ->
  len (encode_entries es) = (n + 1) * len es.
Proof.
  unfold encode_entries. induction es as [|[k v] es IH]; intros H.
  - unfold len. simpl. lia.
  - rewrite fmap_cons. cbn [concat fst snd]. rewrite len_app, IH.
    + specialize (H (k, v)). cbn [snd] in H. unfold len in *. cbn [length].
      rewrite <- H by left. lia.
    + intros kv Hkv. apply H. right. exact Hkv.
Qed.

Lemma len_encode_entries_of_arity (n : Z) (d : dict) :
  len (encode_entries (entries_of_arity n d)) = (n + 1) * len (entries_of_arity n d).
Proof.
  apply len_encode_entries. intros [k v] Hkv.
  apply elem_of_select_arity in Hkv. tauto.
Qed.

Lemma select_arity_keys_sorted (n : Z) (d : dict) (ks : list Z) :
  StronglySorted Z.lt ks -> StronglySorted Z.lt (select_arity n d ks).*1.
Proof.
  induction 1 as [|k ks Hks IH Hk]; [constructor|].
  rewrite select_arity_cons. destruct (dict_get d k) as [v|]; [|exact IH].
  destruct (decide (len v = n)); [|exact IH].
  rewrite fmap_cons. constructor; [exact IH|].
  rewrite Forall_forall in *. intros k' Hk'.
  apply list_elem_of_fmap in Hk' as ([k'' v'] & -> & Hin).
  apply elem_of_select_arity in Hin. apply Hk. tauto.
Qed.

(** The run of [extract_conversions]: it always returns, with the three
    blocks of entries of [d], and leaves the bindings of other arities. *)
Lemma extract_conversions_run (d : dict) :
  dict_wf d ->
  exists d',
    extract_conversions d =
      Ok ((encode_entries (entries_of_arity 1 d) ++
           encode_entries (entries_of_arity 2 d) ++
           encode_entries (entries_of_arity 3 d),
           [len (entries_of_arity 1 d); len (entries_of_arity 2 d);
            len (entries_of_arity 3 d)]), d') /\
    (forall k, dict_get d' k =
               match dict_get d k with
               | Some v => if decide (1 <= len v <= 3) then None else Some v
               | None => None
               end) /\
    dict_wf d' /\
    dict_keys d ≡ₚ
      (entries_of_arity 1 d).*1 ++ (entries_of_arity 2 d).*1 ++
      (entries_of_arity 3 d).*1 ++ dict_keys d'.
Proof.
  intros Hwf. unfold extract_conversions.
  assert (forall d0 : dict, dict_wf d0 -> NoDup (sorted (dict_keys d0))) as Hnd.
  { intros d0 H0. unfold sorted. rewrite merge_sort_Permutation. exact H0. }
  assert (forall (d0 : dict) k, k ∈ sorted (dict_keys d0) -> is_Some (dict_get d0 k))
    as Hpres.
  { intros d0 k Hk. apply elem_of_dict_keys, elem_of_sorted, Hk. }
  destruct (conversions_loop 1 0 extract_conversions_body1
              extract_conversions_body1_step (sorted (dict_keys d)) [] [] [] d
              (Hnd d Hwf) (Hpres d)) as (d1 & Hrun1 & Hlk1 & Hp1).
  destruct (Hp1 Hwf) as [Hwf1 Hperm1]. clear Hp1.
  destruct (conversions_loop 2 1 extract_conversions_body2
              extract_conversions_body2_step (sorted (dict_keys d1))
              ([] ++ encode_entries (select_arity 1 d (sorted (dict_keys d))))
              [] [] d1 (Hnd d1 Hwf1) (Hpres d1)) as (d2 & Hrun2 & Hlk2 & Hp2).
  destruct (Hp2 Hwf1) as [Hwf2 Hperm2]. clear Hp2.
  destruct (conversions_loop 3 2 extract_conversions_body3
              extract_conversions_body3_step (sorted (dict_keys d2))
              ([] ++ encode_entries (select_arity 1 d (sorted (dict_keys d))))
              ([] ++ encode_entries (select_arity 2 d1 (sorted (dict_keys d1))))
              [] d2 (Hnd d2 Hwf2) (Hpres d2)) as (d3 & Hrun3 & Hlk3 & Hp3).
  destruct (Hp3 Hwf2) as [Hwf3 Hperm3]. clear Hp3.
  (* the lookups of the intermediate dicts, in terms of [d] *)
  assert (forall k, dict_get d1 k =
                    match dict_get d k with
                    | Some v => if decide (len v = 1) then None else Some v
                    | None => None
                    end) as Hd1.
  { intros k. rewrite Hlk1. destruct (dict_get d k) as [v|] eqn:Hg; [|reflexivity].
    assert (k ∈ sorted (dict_keys d)) as Hk.
    { apply elem_of_sorted, elem_of_dict_keys. eauto. }
    destruct (decide (len v = 1)) as [Hn|Hn].
    - rewrite decide_True by tauto. reflexivity.
    - rewrite decide_False by tauto. reflexivity. }
  assert (forall k, dict_get d2 k =
                    match dict_get d k with
                    | Some v => if decide (1 <= len v <= 2) then None else Some v
                    | None => None
                    end) as Hd2.
  { intros k. rewrite Hlk2.
    destruct (dict_get d1 k) as [v|] eqn:Hg1; rewrite Hd1 in Hg1;
      destruct (dict_get d k) as [v0|] eqn:Hg; try discriminate; try reflexivity.
    - destruct (decide (len v0 = 1)) as [Hn|Hn]; [discriminate|]. injection Hg1 as ->.
      assert (k ∈ sorted (dict_keys d1)) as Hk.
      { apply elem_of_sorted, elem_of_dict_keys. rewrite Hd1, Hg.
        rewrite decide_False by exact Hn. eauto. }
      destruct (decide (len v = 2)) as [Hn2|Hn2].
      + rewrite decide_True by tauto. rewrite decide_True by lia. reflexivity.
      + rewrite decide_False by tauto. rewrite decide_False by lia. reflexivity.
    - destruct (decide (len v0 = 1)) as [Hn|Hn]; [|discriminate].
      rewrite decide_True by lia. reflexivity. }
  assert (forall k, dict_get d3 k =
                    match dict_get d k with
                    | Some v => if decide (1 <= len v <= 3) then None else Some v
                    | None => None
                    end) as Hd3.
  { intros k. rewrite Hlk3.
    destruct (dict_get d2 k) as [v|] eqn:Hg2; rewrite Hd2 in Hg2;
      destruct (dict_get d k) as [v0|] eqn:Hg; try discriminate; try reflexivity.
    - destruct (decide (1 <= len v0 <= 2)) as [Hn|Hn]; [discriminate|]. injection Hg2 as ->.
      assert (k ∈ sorted (dict_keys d2)) as Hk.
      { apply elem_of_sorted, elem_of_dict_keys. rewrite Hd2, Hg.
        rewrite decide_False by exact Hn. eauto. }
      destruct (decide (len v = 3)) as [Hn3|Hn3].
      + rewrite decide_True by tauto. rewrite decide_True by lia. reflexivity.
      + rewrite decide_False by tauto. rewrite decide_False by lia. reflexivity.
    - destruct (decide (1 <= len v0 <= 2)) as [Hn|Hn]; [|discriminate].
      rewrite decide_True by lia. reflexivity. }
  (* the entries met by the later loops are those of [d] *)
  assert (entries_of_arity 2 d1 = entries_of_arity 2 d) as He2.
  { apply entries_of_arity_sub; [exact Hwf | exact Hwf1 | |].
    - intros k v. rewrite Hd1. destruct (dict_get d k) as [v0|]; [|discriminate].
      destruct (decide (len v0 = 1)); [discriminate | tauto].
    - intros k v Hg Hn. rewrite Hd1, Hg. rewrite decide_False by lia. reflexivity. }
  assert (entries_of_arity 3 d2 = entries_of_arity 3 d) as He3.
  { apply entries_of_arity_sub; [exact Hwf | exact Hwf2 | |].
    - intros k v. rewrite Hd2. destruct (dict_get d k) as [v0|]; [|discriminate].
      destruct (decide (1 <= len v0 <= 2)); [discriminate | tauto].
    - intros k v Hg Hn. rewrite Hd2, Hg. rewrite decide_False by lia. reflexivity. }
  fold (entries_of_arity 1 d) in Hrun1, Hrun2, Hrun3, Hperm1.
  fold (entries_of_arity 2 d1) in Hrun2, Hrun3, Hperm2.
  fold (entries_of_arity 3 d2) in Hrun3, Hperm3.
  rewrite He2 in Hrun2, Hrun3, Hperm2. rewrite He3 in Hrun3, Hperm3.
  exists d3. split; [|split; [exact Hd3|split; [exact Hwf3|]]].
  - rewrite Hrun1. cbn [bucket_extend]. rewrite bind_Ok.
    rewrite Hrun2. cbn [bucket_extend]. rewrite bind_Ok.
    rewrite Hrun3. cbn [bucket_extend]. rewrite bind_Ok.
    cbn [app]. unfold list_getitem, py_index. simpl.
    unfold int_len_div. rewrite !len_encode_entries_of_arity.
    rewrite !app_nil_r.
    rewrite !(Z.mul_comm _ (len _)), !Z.quot_mul by lia. reflexivity.
  - rewrite Hperm1, Hperm2, Hperm3. reflexivity.
Qed.

(** C10: for every map, [extract_conversions] returns [(flat, [n1; n2; n3])]
    with [len flat = 2*n1 + 3*n2 + 4*n3]; [flat] is the block of the arity-1
    entries, then the block of the arity-2 entries, then the block of the
    arity-3 entries, each block by ascending code point; exactly the
    entries whose output has 1, 2 or 3 code points are removed from the
    map, and every other entry stays as it was. *)
Theorem extract_conversions_structure (d : dict) :
  dict_wf d ->
  exists flat n1 n2 n3 d',
    extract_conversions d = Ok ((flat, [n1; n2; n3]), d') /\
    len flat = 2 * n1 + 3 * n2 + 4 * n3 /\
    flat = encode_entries (entries_of_arity 1 d) ++
           encode_entries (entries_of_arity 2 d) ++
           encode_entries (entries_of_arity 3 d) /\
    n1 = len (entries_of_arity 1 d) /\
    n2 = len (entries_of_arity 2 d) /\
    n3 = len (entries_of_arity 3 d) /\
    (forall n, StronglySorted Z.lt (entries_of_arity n d).*1) /\
    (forall k, dict_get d' k =
               match dict_get d k with
               | Some v => if decide (1 <= len v <= 3) then None else Some v
               | None => None
               end).
Proof.
  intros Hwf. destruct (extract_conversions_run d Hwf) as (d' & Hrun & Hlk & _ & _).
  do 5 eexists. split; [exact Hrun|]. repeat split; try reflexivity.
  - rewrite !len_app, !len_encode_entries_of_arity. lia.
  - intros n. apply select_arity_keys_sorted, sorted_keys_strict, Hwf.
  - exact Hlk.
Qed.

Lemma extract_conversions_structure_witness :
  exists flat n1 n2 n3 d',
    extract_conversions conversions_sample = Ok ((flat, [n1; n2; n3]), d') /\
    len flat = 2 * n1 + 3 * n2 + 4 * n3 /\
    flat = encode_entries (entries_of_arity 1 conversions_sample) ++
           encode_entries (entries_of_arity 2 conversions_sample) ++
           encode_entries (entries_of_arity 3 conversions_sample) /\
    n1 = len (entries_of_arity 1 conversions_sample) /\
    n2 = len (entries_of_arity 2 conversions_sample) /\
    n3 = len (entries_of_arity 3 conversions_sample) /\
    (forall n, StronglySorted Z.lt (entries_of_arity n conversions_sample).*1) /\
    (forall k, dict_get d' k =
               match dict_get conversions_sample k with
               | Some v => if decide (1 <= len v <= 3) then None else Some v
               | None => None
               end).
Proof.
  apply (extract_conversions_structure conversions_sample).
  apply NoDup_bool_decide. vm_compute. reflexivity.
Defined.

Example extract_conversions_sample_run :
  extract_conversions conversions_sample =
  Ok (([0xB5; 0x39C; 0x1E9E; 0xDF;
        0x130; 0x69; 0x307; 0xFB00; 0x46; 0x46;
        0x390; 0x399; 0x308; 0x301], [2; 2; 1]),
      [(0x2000, [1; 2; 3; 4]); (0x2001, [])]).
Proof. vm_compute. reflexivity. Qed.

(** * [extract_ranges] *)

Lemma eligible_get lc rc c m : eligible lc rc c m -> dict_get lc c = Some [m].
Proof. destruct rc; simpl; [intros [H _]; exact H | tauto]. Qed.

Lemma eligible_unique lc rc c m m' :
  eligible lc rc c m -> eligible lc rc c m' -> m = m'.
Proof.
  intros H H'. apply eligible_get in H, H'. congruence.
Qed.

(** The end of one turn of the scanning loop, when the code point and
    its predecessor are both eligible. *)
Lemma extract_ranges_rest_cases lc rc (ir : bool) rp ranges lengths a st1 m m' :
  eligible lc rc a m -> eligible lc rc (a - 1) m' ->
  (conv_distance ← calculate_conversion_distance lc a;
   prev_conv_distance ← calculate_conversion_distance lc (a - 1);
   if negb (bool_decide (conv_distance = prev_conv_distance))
   then Ok (false, rp, ranges, lengths)
   else if ir
        then n ← list_getitem lengths rp;
             range_lengths ← list_setitem lengths rp (n + 1);
             Ok (ir, rp, ranges, range_lengths)
        else prev_mapped_value ← dict_getitem lc (a - 1);
             prev_mapped_id ← ord prev_mapped_value;
             Ok (true, rp + 1, ranges ++ [a - 1; prev_mapped_id],
                 lengths ++ [2])) = Ok st1 ->
  (st1 = (false, rp, ranges, lengths) /\ ~ adjacent_match lc rc a) \/
  (exists m m',
     eligible lc rc a m /\ eligible lc rc (a - 1) m' /\ m - a = m' - (a - 1) /\
     if ir then
       exists n l', list_getitem lengths rp = Ok n /\
                    list_setitem lengths rp (n + 1) = Ok l' /\
                    st1 = (true, rp, ranges, l')
     else st1 = (true, rp + 1, ranges ++ [a - 1; m'], lengths ++ [2])).
Proof.
  intros He He'.
  pose proof (eligible_get _ _ _ _ He) as Hg.
  pose proof (eligible_get _ _ _ _ He') as Hg'.
  rewrite (calculate_conversion_distance_cases lc a), Hg, bind_Ok.
  rewrite (calculate_conversion_distance_cases lc (a - 1)), Hg', bind_Ok.
  destruct (decide (m - a = m' - (a - 1))) as [Hd|Hd].
  - rewrite bool_decide_eq_true_2 by congruence. cbn [negb].
    intros H. right. exists m, m'. split; [exact He|]. split; [exact He'|].
    split; [exact Hd|]. destruct ir.
    + destruct (list_getitem lengths rp) as [n|] eqn:E1; [|discriminate].
      rewrite bind_Ok in H.
      destruct (list_setitem lengths rp (n + 1)) as [l'|] eqn:E2; [|discriminate].
      rewrite bind_Ok in H. injection H as <-. eauto.
    + unfold dict_getitem in H. rewrite Hg' in H. simpl in H.
      injection H as <-. reflexivity.
  - rewrite bool_decide_eq_false_2 by congruence. cbn [negb].
    intros [= <-]. left. split; [reflexivity|].
    intros (m1 & m1' & H1 & H1' & Hd1).
    rewrite (eligible_unique _ _ _ _ _ H1 He) in Hd1.
    rewrite (eligible_unique _ _ _ _ _ H1' He') in Hd1. contradiction.
Qed.

(** The outcomes of one turn of the scanning loop. *)
Lemma extract_ranges_body_cases lc rc (ir : bool) rp ranges lengths a st1 :
  extract_ranges_body lc rc (ir, rp, ranges, lengths) a = Ok st1 ->
  (st1 = (false, rp, ranges, lengths) /\ ~ adjacent_match lc rc a) \/
  (exists m m',
     eligible lc rc a m /\ eligible lc rc (a - 1) m' /\ m - a = m' - (a - 1) /\
     if ir then
       exists n l', list_getitem lengths rp = Ok n /\
                    list_setitem lengths rp (n + 1) = Ok l' /\
                    st1 = (true, rp, ranges, l')
     else st1 = (true, rp + 1, ranges ++ [a - 1; m'], lengths ++ [2])).
Proof.
  unfold extract_ranges_body. cbv zeta.
  destruct rc as [rc|].
  - (* two-way *)
    destruct (is_bidirectional_conversion a lc rc) as [b|] eqn:Eb; [|discriminate].
    rewrite bind_Ok. destruct b; cbn [negb].
    + destruct (is_bidirectional_conversion (a - 1) lc rc) as [b'|] eqn:Eb';
        [|discriminate].
      rewrite bind_Ok. destruct b'; cbn [negb].
      * apply is_bidirectional_conversion_true in Eb as [m Hm].
        apply is_bidirectional_conversion_true in Eb' as [m' Hm'].
        intros H.
        exact (extract_ranges_rest_cases lc (Some rc) ir rp ranges lengths a st1
                 m m' Hm Hm' H).
      * intros [= <-]. left. split; [reflexivity|].
        intros (m & m' & _ & H' & _).
        assert (is_bidirectional_conversion (a - 1) lc rc = Ok true) as Ht.
        { apply is_bidirectional_conversion_true. eauto. }
        congruence.
    + intros [= <-]. left. split; [reflexivity|].
      intros (m & m' & H & _ & _).
      assert (is_bidirectional_conversion a lc rc = Ok true) as Ht.
      { apply is_bidirectional_conversion_true. eauto. }
      congruence.
  - (* one-way *)
    destruct (dict_get lc a) as [v|] eqn:Hg;
      [|unfold dict_getitem; rewrite Hg; discriminate].
    rewrite (proj2 (dict_getitem_Ok lc a v) Hg), bind_Ok.
    destruct (1 <? len v) eqn:Hlen.
    { intros [= <-]. left. split; [reflexivity|].
      intros (m & m' & H & _ & _). simpl in H. rewrite Hg in H.
      injection H as ->. discriminate. }
    destruct (dict_get lc (a - 1)) as [pv|] eqn:Hg'.
    2:{ rewrite (proj2 (dict_contains_false lc (a - 1)) Hg'). cbn [negb].
        intros [= <-]. left. split; [reflexivity|].
        intros (m & m' & _ & H & _). simpl in H. rewrite Hg' in H. discriminate. }
    rewrite (proj2 (dict_contains_true lc (a - 1))) by eauto. cbn [negb].
    rewrite (proj2 (dict_getitem_Ok lc (a - 1) pv) Hg'), bind_Ok.
    destruct (1 <? len pv) eqn:Hlen'.
    { intros [= <-]. left. split; [reflexivity|].
      intros (m & m' & _ & H & _). simpl in H. rewrite Hg' in H.
      injection H as ->. discriminate. }
    apply len_le_1 in Hlen as [->|[m ->]], Hlen' as [->|[m' ->]].
    + rewrite (calculate_conversion_distance_cases lc a), Hg. discriminate.
    + rewrite (calculate_conversion_distance_cases lc a), Hg. discriminate.
    + rewrite (calculate_conversion_distance_cases lc a), Hg, bind_Ok.
      rewrite (calculate_conversion_distance_cases lc (a - 1)), Hg'. discriminate.
    + intros H.
      rewrite <- (proj2 (dict_getitem_Ok lc (a - 1) [m']) Hg') in H.
      exact (extract_ranges_rest_cases lc None ir rp ranges lengths a st1 m m'
               Hg Hg' H).
Qed.

Lemma flat_ranges_snoc rs (r : Z * Z * Z) :
  flat_ranges (rs ++ [r]) = flat_ranges rs ++ [r.1.1; r.1.2].
Proof.
  unfold flat_ranges. rewrite fmap_app, concat_app. reflexivity.
Qed.

Lemma range_lens_snoc rs (r : Z * Z * Z) :
  range_lens (rs ++ [r]) = range_lens rs ++ [r.2].
Proof. unfold range_lens. rewrite fmap_app. reflexivity. Qed.

Lemma len_range_lens rs : len (range_lens rs) = len rs.
Proof. unfold range_lens, len. rewrite length_fmap. reflexivity. Qed.

Lemma len_flat_ranges rs : len (flat_ranges rs) = 2 * len rs.
Proof.
  induction rs as [|r rs IH]; [reflexivity|].
  unfold flat_ranges in *. rewrite fmap_cons. cbn [concat].
  rewrite len_app, IH. unfold len. simpl. lia.
Qed.

Lemma uniform_ranges_flat rs :
  uniform_ranges (flat_ranges rs) (range_lens rs) = rs.
Proof.
  induction rs as [|[[s m] n] rs IH]; [reflexivity|].
  unfold flat_ranges, range_lens in *. rewrite !fmap_cons. cbn [concat].
  simpl. rewrite IH. reflexivity.
Qed.

Lemma covered_app_l rs rs' c : covered rs c -> covered (rs ++ rs') c.
Proof.
  intros (r & Hr & Hc). exists r. split; [|exact Hc].
  apply elem_of_app. left. exact Hr.
Qed.

Lemma covered_grow rs s m n c :
  0 <= n ->
  covered (rs ++ [(s, m, n)]) c -> covered (rs ++ [(s, m, n + 1)]) c.
Proof.
  intros Hn (r & Hr & Hc). apply elem_of_app in Hr as [Hr|Hr].
  - exists r. split; [|exact Hc]. apply elem_of_app. left. exact Hr.
  - apply list_elem_of_singleton in Hr. subst r. exists (s, m, n + 1).
    split; [apply elem_of_app; right; left|]. simpl in *. lia.
Qed.

Lemma covered_last rs s m n c : s <= c < s + n -> covered (rs ++ [(s, m, n)]) c.
Proof.
  intros Hc. exists (s, m, n). split; [|exact Hc].
  apply elem_of_app. right. left.
Qed.

(** One turn of the scanning loop keeps the invariant. *)
Lemma extract_ranges_inv_step lc rc (pre post : list Z) (a : Z) st st1 :
  StronglySorted Z.lt (pre ++ a :: post) ->
  (forall k, is_Some (dict_get lc k) -> k ∈ pre ++ a :: post) ->
  extract_ranges_inv lc rc pre st ->
  extract_ranges_body lc rc st a = Ok st1 ->
  extract_ranges_inv lc rc (pre ++ [a]) st1.
Proof.
  intros Hsorted Hkeys Hinv Hbody.
  destruct st as [[[ir rp] ranges] lengths].
  destruct Hinv as (rs & -> & -> & -> & Hok & Hin & Hmax).
  apply extract_ranges_body_cases in Hbody
    as [[-> Hno]|(m & m' & He & He' & Hd & Hst)].
  - (* the turn ends in [continue] *)
    exists rs. repeat split; try reflexivity; try exact Hok.
    + discriminate.
    + apply elem_of_app in H as [H|H]; [apply Hmax; assumption|].
      apply list_elem_of_singleton in H. subst k. contradiction.
    + apply elem_of_app in H as [H|H]; [apply Hmax; assumption|].
      apply list_elem_of_singleton in H. subst k. contradiction.
  - destruct ir.
    + (* the open range grows *)
      destruct Hst as (n0 & l' & Hget & Hset & ->).
      destruct (Hin eq_refl) as (rs' & s & m0 & n & k & -> & Hlast & Hend).
      rewrite range_lens_snoc in Hget, Hset. cbn [snd] in Hget, Hset.
      rewrite list_getitem_snoc in Hget
        by (rewrite !len_app, len_range_lens; reflexivity).
      injection Hget as <-.
      rewrite (list_setitem_snoc _ n) in Hset
        by (rewrite !len_app, len_range_lens; reflexivity).
      injection Hset as <-.
      apply Forall_app in Hok as [Hok' Hlastok].
      apply Forall_singleton in Hlastok as [Hn2 Hrange]. cbn [fst snd] in Hn2, Hrange.
      assert (k = a - 1) as ->.
      { destruct (sorted_before pre post a k (a - 1) Hsorted Hlast); [|lia|lia].
        apply Hkeys. rewrite (eligible_get _ _ _ _ He'). eauto. }
      assert (m' = m0 + (n - 1)) as ->.
      { apply (eligible_unique lc rc (a - 1)); [exact He'|].
        replace (a - 1) with (s + (n - 1)) by lia. apply Hrange. lia. }
      exists (rs' ++ [(s, m0, n + 1)]). split; [|split; [|split; [|split; [|split]]]].
      * rewrite !flat_ranges_snoc. reflexivity.
      * rewrite range_lens_snoc. reflexivity.
      * rewrite !len_app. reflexivity.
      * apply Forall_app. split; [exact Hok'|]. apply Forall_singleton.
        split; cbn [fst snd]; [lia|]. intros i Hi.
        destruct (decide (i = n)) as [->|Hne]; [|apply Hrange; lia].
        replace (s + n) with a by lia. replace (m0 + n) with m by lia. exact He.
      * intros _. exists rs', s, m0, (n + 1), a. rewrite last_snoc.
        split; [reflexivity|]. split; [reflexivity|]. lia.
      * intros k Hk Hadj. apply elem_of_app in Hk as [Hk|Hk].
        -- destruct (Hmax k Hk Hadj) as [H1 H2].
           split; apply covered_grow; try assumption; lia.
        -- apply list_elem_of_singleton in Hk. subst k.
           split; apply covered_last; lia.
    + (* a new range opens at the predecessor *)
      subst st1. exists (rs ++ [(a - 1, m', 2)]).
      split; [|split; [|split; [|split; [|split]]]].
      * rewrite flat_ranges_snoc. reflexivity.
      * rewrite range_lens_snoc. reflexivity.
      * unfold len. rewrite length_app. simpl. lia.
      * apply Forall_app. split; [exact Hok|]. apply Forall_singleton.
        split; cbn [fst snd]; [lia|]. intros i Hi.
        destruct (decide (i = 0)) as [->|Hne].
        -- rewrite !Z.add_0_r. exact He'.
        -- assert (i = 1) as -> by lia.
           replace (a - 1 + 1) with a by lia. replace (m' + 1) with m by lia.
           exact He.
      * intros _. exists rs, (a - 1), m', 2, a. rewrite last_snoc.
        split; [reflexivity|]. split; [reflexivity|]. lia.
      * intros k Hk Hadj. apply elem_of_app in Hk as [Hk|Hk].
        -- destruct (Hmax k Hk Hadj) as [H1 H2].
           split; apply covered_app_l; assumption.
        -- apply list_elem_of_singleton in Hk. subst k.
           split; apply covered_last; lia.
Qed.

(** What the scanning loop of [extract_ranges] has found when it ends. *)
Lemma extract_ranges_scan lc rc st :
  dict_wf lc ->
  foldM (extract_ranges_body lc rc) (sorted (dict_keys lc)) (false, -1, [], []) =
    Ok st ->
  extract_ranges_inv lc rc (sorted (dict_keys lc)) st.
Proof.
  intros Hwf Hrun.
  apply (foldM_inv (extract_ranges_body lc rc) (extract_ranges_inv lc rc)
           (sorted (dict_keys lc)) (false, -1, [], []) st); [| |exact Hrun].
  - exists []. repeat split; try reflexivity; try discriminate.
    + constructor.
    + apply elem_of_nil in H. contradiction.
    + apply elem_of_nil in H. contradiction.
  - intros pre a post s s1 Hl Hinv Hbody.
    apply (extract_ranges_inv_step lc rc pre post a s s1); try assumption.
    + rewrite <- Hl. apply sorted_keys_strict, Hwf.
    + intros k Hk. rewrite <- Hl. apply elem_of_sorted, elem_of_dict_keys, Hk.
Qed.

Lemma extract_ranges_remove_range rs (i : nat) (r : Z * Z * Z) st :
  rs !! i = Some r ->
  extract_ranges_remove (flat_ranges rs) (range_lens rs) st (2 * Z.of_nat i) =
  delete_range st r.
Proof.
  intros Hi. unfold extract_ranges_remove, delete_range.
  replace ((2 * Z.of_nat i) `div` 2) with (Z.of_nat i)
    by (rewrite Z.mul_comm, Z.div_mul; lia).
  unfold range_lens. rewrite (list_getitem_fmap _ rs i r Hi), bind_Ok.
  assert (list_getitem (flat_ranges rs) (2 * Z.of_nat i) = Ok r.1.1) as Hs.
  { replace (2 * Z.of_nat i) with (Z.of_nat 2 * Z.of_nat i + Z.of_nat 0) by lia.
    apply (list_getitem_chunk (fun r : Z * Z * Z => [r.1.1; r.1.2]) 2 rs i 0 r);
      [reflexivity | exact Hi | reflexivity]. }
  assert (list_getitem (flat_ranges rs) (2 * Z.of_nat i + 1) = Ok r.1.2) as Hm.
  { replace (2 * Z.of_nat i + 1) with (Z.of_nat 2 * Z.of_nat i + Z.of_nat 1) by lia.
    apply (list_getitem_chunk (fun r : Z * Z * Z => [r.1.1; r.1.2]) 2 rs i 1 r);
      [reflexivity | exact Hi | reflexivity]. }
  rewrite py_range_step1. apply foldM_ext. intros [lc rc] incr _.
  rewrite Hs, bind_Ok.
  destruct (dict_delitem lc (r.1.1 + incr)); [|reflexivity]. rewrite !bind_Ok.
  destruct rc as [rc|]; [|reflexivity].
  rewrite Hm. reflexivity.
Qed.

Lemma delete_range_run (r : Z * Z * Z) (ks : list Z) :
  forall lc rc lc' rc',
  foldM (fun (st : dict * option dict) incr =>
           let '(letter_case, reverse_letter_case) := st in
           letter_case ← dict_delitem letter_case (r.1.1 + incr);
           match reverse_letter_case with
           | None => Ok (letter_case, None)
           | Some reverse_letter_case =>
               reverse_letter_case ←
                 dict_delitem reverse_letter_case (r.1.2 + incr);
               Ok (letter_case, Some reverse_letter_case)
           end) ks (lc, rc) = Ok (lc', rc') ->
  foldM dict_delitem (Z.add r.1.1 <$> ks) lc = Ok lc' /\
  match rc with
  | None => rc' = None
  | Some d => exists d', rc' = Some d' /\
                         foldM dict_delitem (Z.add r.1.2 <$> ks) d = Ok d'
  end.
Proof.
  induction ks as [|k ks IH]; intros lc rc lc' rc' H; cbn [foldM] in H.
  - injection H as <- <-. split; [reflexivity|]. destruct rc; eauto.
  - destruct (dict_delitem lc (r.1.1 + k)) as [lc1|] eqn:E1; [|discriminate].
    rewrite bind_Ok in H. rewrite fmap_cons. cbn [foldM]. rewrite E1, bind_Ok.
    destruct rc as [d|].
    + destruct (dict_delitem d (r.1.2 + k)) as [d1|] eqn:E2; [|discriminate].
      rewrite !bind_Ok in H. destruct (IH _ _ _ _ H) as [H1 (d' & -> & H2)].
      split; [exact H1|]. exists d'. split; [reflexivity|].
      rewrite fmap_cons. cbn [foldM]. rewrite E2, bind_Ok. exact H2.
    + rewrite bind_Ok in H. exact (IH _ _ _ _ H).
Qed.

Lemma delete_ranges_run (rs : list (Z * Z * Z)) :
  forall lc rc lc' rc',
  foldM delete_range rs (lc, rc) = Ok (lc', rc') ->
  foldM dict_delitem (uniform_domain rs) lc = Ok lc' /\
  match rc with
  | None => rc' = None
  | Some d => exists d', rc' = Some d' /\
                         foldM dict_delitem (uniform_codomain rs) d = Ok d'
  end.
Proof.
  induction rs as [|r rs IH]; intros lc rc lc' rc' H; cbn [foldM] in H.
  - injection H as <- <-. split; [reflexivity|]. destruct rc; eauto.
  - destruct (delete_range (lc, rc) r) as [[lc1 rc1]|] eqn:E; [|discriminate].
    rewrite bind_Ok in H. apply delete_range_run in E as [E1 E2].
    rewrite fmap_add_seqZ, Z.add_0_r in E1.
    unfold uniform_domain, uniform_codomain. rewrite !fmap_cons. cbn [concat].
    rewrite foldM_app, E1, bind_Ok.
    destruct rc as [d|].
    + destruct E2 as (d1 & -> & E2). rewrite fmap_add_seqZ, Z.add_0_r in E2.
      destruct (IH _ _ _ _ H) as [H1 (d' & -> & H2)].
      split; [exact H1|]. exists d'. split; [reflexivity|].
      rewrite foldM_app, E2, bind_Ok. exact H2.
    + subst rc1. exact (IH _ _ _ _ H).
Qed.

(** The removal loop of [extract_ranges] deletes the domain of the ranges
    from the forward map and their codomain from the reverse map. *)
Lemma extract_ranges_remove_run rs lc rc lc' rc' :
  foldM (extract_ranges_remove (flat_ranges rs) (range_lens rs))
        (py_range 0 (len (flat_ranges rs)) 2) (lc, rc) = Ok (lc', rc') ->
  foldM dict_delitem (uniform_domain rs) lc = Ok lc' /\
  match rc with
  | None => rc' = None
  | Some d => exists d', rc' = Some d' /\
                         foldM dict_delitem (uniform_codomain rs) d = Ok d'
  end.
Proof.
  rewrite len_flat_ranges, py_range_chunks by (try lia; apply len_nonneg).
  rewrite foldM_fmap.
  rewrite (foldM_indexed _ delete_range rs).
  - apply delete_ranges_run.
  - intros i r st Hi. apply extract_ranges_remove_range. exact Hi.
Qed.

(** [extract_ranges] as a whole: the ranges found by the scan, and the
    two dicts without them. *)
Lemma extract_ranges_run lc rc ranges lengths lc' rc' :
  dict_wf lc ->
  extract_ranges lc rc = Ok ((ranges, lengths), lc', rc') ->
  exists rs,
    ranges = flat_ranges rs /\ lengths = range_lens rs /\
    Forall (range_ok lc rc) rs /\
    (forall k, adjacent_match lc rc k -> covered rs k /\ covered rs (k - 1)) /\
    foldM dict_delitem (uniform_domain rs) lc = Ok lc' /\
    match rc with
    | None => rc' = None
    | Some d => exists d', rc' = Some d' /\
                           foldM dict_delitem (uniform_codomain rs) d = Ok d'
    end.
Proof.
  intros Hwf H. unfold extract_ranges in H.
  destruct (foldM (extract_ranges_body lc rc) (sorted (dict_keys lc))
              (false, -1, [], [])) as [[[[ir rp] ranges0] lengths0]|] eqn:Hscan;
    [|discriminate].
  rewrite bind_Ok in H.
  apply (extract_ranges_scan lc rc _ Hwf) in Hscan
    as (rs & -> & -> & _ & Hok & _ & Hmax).
  destruct (foldM (extract_ranges_remove (flat_ranges rs) (range_lens rs))
              (py_range 0 (len (flat_ranges rs)) 2) (lc, rc))
    as [[lc1 rc1]|] eqn:Hrem; [|discriminate].
  rewrite bind_Ok in H. injection H as <- <- <- <-.
  apply extract_ranges_remove_run in Hrem as [H1 H2].
  exists rs. repeat split; try reflexivity; try assumption.
  - apply Hmax; [|exact H].
    destruct H as (m & _ & H & _). apply eligible_get in H.
    apply elem_of_sorted, elem_of_dict_keys. eauto.
  - apply Hmax; [|exact H].
    destruct H as (m & _ & H & _). apply eligible_get in H.
    apply elem_of_sorted, elem_of_dict_keys. eauto.
Qed.

(** C5: every uniform range [(start, mapped_start, length)] that
    [extract_ranges] emits, in either mode, covers at least 2 code points,
    and the map it was called on sends [start + i] to the single code point
    [mapped_start + i] for every [i] in [[0, length)] (as a bidirectional
    conversion in the two-way mode); a lone eligible code point, with no
    eligible neighbour of the same offset, lies in no emitted range.  The
    two tables are in step: two entries of [ranges] for each length. *)
Theorem extract_ranges_sound lc rc ranges lengths lc' rc' :
  dict_wf lc ->
  extract_ranges lc rc = Ok ((ranges, lengths), lc', rc') ->
  len ranges = 2 * len lengths /\
  (forall s m n, (s, m, n) ∈ uniform_ranges ranges lengths ->
     2 <= n /\
     forall i, 0 <= i < n ->
               dict_get lc (s + i) = Some [m + i] /\
               eligible lc rc (s + i) (m + i)) /\
  (forall c m,
     eligible lc rc c m ->
     (forall c' m', c' = c - 1 \/ c' = c + 1 ->
                    eligible lc rc c' m' -> m' - c' <> m - c) ->
     ~ covered (uniform_ranges ranges lengths) c).
Proof.
  intros Hwf H.
  destruct (extract_ranges_run lc rc ranges lengths lc' rc' Hwf H)
    as (rs & -> & -> & Hok & _).
  rewrite uniform_ranges_flat, len_flat_ranges, len_range_lens.
  rewrite Forall_forall in Hok.
  split; [reflexivity|]. split.
  - intros s m n Hr. destruct (Hok _ Hr) as [Hn Hrange]. cbn [fst snd] in *.
    split; [exact Hn|]. intros i Hi. split; [|apply Hrange, Hi].
    apply (eligible_get lc rc), Hrange, Hi.
  - intros c m He Hlone ([[s m0] n] & Hr & Hc).
    destruct (Hok _ Hr) as [Hn Hrange]. cbn [fst snd] in *.
    assert (m = m0 + (c - s)) as ->.
    { apply (eligible_unique lc rc c); [exact He|].
      replace c with (s + (c - s)) at 1 by lia. apply Hrange. lia. }
    destruct (decide (c = s)) as [->|Hne].
    + apply (Hlone (s + 1) (m0 + 1)); [right; reflexivity | apply Hrange; lia | lia].
    + apply (Hlone (c - 1) (m0 + (c - 1 - s))); [left; reflexivity | | lia].
      replace (c - 1) with (s + (c - 1 - s)) at 1 by lia. apply Hrange. lia.
Qed.

Lemma extract_ranges_sound_witness :
  len [0x391; 0x3B1] = 2 * len [3] /\
  (forall s m n, (s, m, n) ∈ uniform_ranges [0x391; 0x3B1] [3] ->
     2 <= n /\
     forall i, 0 <= i < n ->
               dict_get sample_lower (s + i) = Some [m + i] /\
               eligible sample_lower (Some sample_upper) (s + i) (m + i)) /\
  (forall c m,
     eligible sample_lower (Some sample_upper) c m ->
     (forall c' m', c' = c - 1 \/ c' = c + 1 ->
                    eligible sample_lower (Some sample_upper) c' m' ->
                    m' - c' <> m - c) ->
     ~ covered (uniform_ranges [0x391; 0x3B1] [3]) c).
Proof.
  apply (extract_ranges_sound sample_lower (Some sample_upper)
           [0x391; 0x3B1] [3]
           [(376, [255]); (258, [259]); (256, [257]); (304, [105; 775]);
            (8073, [8065]); (8072, [8064]); (1012, [952])]
           (Some [(255, [376]); (257, [256]); (259, [258]);
                  (8064, [7944; 921]); (8065, [7945; 921]);
                  (8066, [7946; 921]); (223, [83; 83]);
                  (912, [921; 776; 769]); (181, [924])])).
  - apply NoDup_bool_decide. vm_compute. reflexivity.
  - vm_compute. reflexivity.
Defined.

(** The one-way call on what the two-way stages leave of the sample. *)
Example extract_ranges_one_way_sample :
  extract_ranges [(304, [105; 775]); (8073, [8065]); (8072, [8064]);
                  (1012, [952])] None =
  Ok (([0x1F88; 0x1F80], [2]), [(304, [105; 775]); (1012, [952])], None).
Proof. vm_compute. reflexivity. Qed.

(** * [extract_character_pair_ranges] *)

Lemma bidirectional_unique lc rc c m m' :
  bidirectional lc rc c m -> bidirectional lc rc c m' -> m = m'.
Proof. intros [H _] [H' _]. congruence. Qed.

Lemma is_bidirectional_conversion_false c lc rc :
  is_bidirectional_conversion c lc rc = Ok false ->
  forall m, ~ bidirectional lc rc c m.
Proof.
  intros H m Hm.
  assert (is_bidirectional_conversion c lc rc = Ok true) as Ht.
  { apply is_bidirectional_conversion_true. eauto. }
  congruence.
Qed.

(** The outcomes of one turn of the scanning loop. *)
Lemma extract_character_pair_ranges_body_cases
    lc rc sp ls (ir : bool) ec a st1 :
  extract_character_pair_ranges_body lc rc (sp, ls, ir, ec) a = Ok st1 ->
  (st1 = (sp, ls, false, ec) /\ ~ swap_pair lc rc a) \/
  (swap_pair lc rc a /\
   ((ir = true /\ (exists m, bidirectional lc rc (a - 2) m) /\
     exists n l', list_getitem ls ec = Ok n /\
                  list_setitem ls ec (n + 2) = Ok l' /\
                  st1 = (sp, l', true, ec)) \/
    ((ir = false \/ forall m, ~ bidirectional lc rc (a - 2) m) /\
     st1 = (sp ++ [a], ls ++ [2], true, ec + 1)))).
Proof.
  unfold extract_character_pair_ranges_body.
  destruct (is_bidirectional_conversion a lc rc) as [b|] eqn:Eb; [|discriminate].
  rewrite bind_Ok. destruct b; cbn [negb].
  2:{ intros [= <-]. left. split; [reflexivity|].
      apply (is_bidirectional_conversion_false a lc rc Eb). }
  apply is_bidirectional_conversion_true in Eb as [m Hm].
  rewrite (proj2 (dict_getitem_Ok lc a [m]) (proj1 Hm)), bind_Ok.
  cbn [ord]. rewrite bind_Ok.
  destruct (decide (m = a + 1)) as [->|Hne].
  2:{ rewrite bool_decide_eq_false_2 by exact Hne.
      intros [= <-]. left. split; [reflexivity|].
      intros Hsw. apply Hne. exact (bidirectional_unique lc rc a _ _ Hm Hsw). }
  rewrite bool_decide_eq_true_2 by reflexivity. cbv zeta.
  destruct (is_bidirectional_conversion (a - 2) lc rc) as [b'|] eqn:Eb';
    [|discriminate].
  rewrite bind_Ok. intros H. right. split; [exact Hm|].
  destruct b'; cbn [negb] in H.
  - destruct ir.
    + left. split; [reflexivity|].
      split; [apply is_bidirectional_conversion_true; exact Eb'|].
      destruct (list_getitem ls ec) as [n|] eqn:E1; [|discriminate].
      rewrite bind_Ok in H.
      destruct (list_setitem ls ec (n + 2)) as [l'|] eqn:E2; [|discriminate].
      rewrite bind_Ok in H. injection H as <-. eauto.
    + right. injection H as <-. split; [left|]; reflexivity.
  - right. injection H as <-. split; [|reflexivity]. right.
    apply (is_bidirectional_conversion_false _ lc rc Eb').
Qed.

Lemma len_fmap {A B : Type} (f : A -> B) (l : list A) : len (f <$> l) = len l.
Proof. unfold len. rewrite length_fmap. reflexivity. Qed.

Lemma even_add_2 (n : Z) : Z.even (n + 2) = Z.even n.
Proof. rewrite Z.even_add. destruct (Z.even n); reflexivity. Qed.

(** One turn of the scanning loop keeps the invariant. *)
Lemma extract_character_pair_ranges_inv_step
    lc rc (pre post : list Z) (a : Z) st st1 :
  StronglySorted Z.lt (pre ++ a :: post) ->
  (forall k, is_Some (dict_get lc k) -> k ∈ pre ++ a :: post) ->
  extract_character_pair_ranges_inv lc rc pre st ->
  extract_character_pair_ranges_body lc rc st a = Ok st1 ->
  extract_character_pair_ranges_inv lc rc (pre ++ [a]) st1.
Proof.
  intros Hsorted Hkeys Hinv Hbody.
  destruct st as [[[sp ls] ir] ec].
  destruct Hinv as (ps & -> & -> & -> & Hok & Hin & Hstart & Hadj).
  apply extract_character_pair_ranges_body_cases in Hbody
    as [[-> Hno]|[Hsw [(-> & Hprev & n0 & l' & Hget & Hset & ->)|[Hnew ->]]]].
  - (* not a swap pair *)
    exists ps. repeat split; try reflexivity; try exact Hok; try discriminate.
    + intros k Hk Hswk Hnoprev. apply elem_of_app in Hk as [Hk|Hk].
      * apply Hstart; assumption.
      * apply list_elem_of_singleton in Hk. subst k. contradiction.
    + apply Hadj. assumption.
  - (* the open range grows by one pair *)
    destruct (Hin eq_refl) as (ps' & [s n] & ->).
    rewrite fmap_app in Hget, Hset. cbn [fmap list_fmap snd] in Hget, Hset.
    rewrite list_getitem_snoc in Hget
      by (rewrite !len_app, len_fmap; reflexivity).
    injection Hget as <-.
    rewrite (list_setitem_snoc _ n) in Hset
      by (rewrite !len_app, len_fmap; reflexivity).
    injection Hset as <-.
    apply Forall_app in Hok as [Hok' Hlastok].
    apply Forall_singleton in Hlastok as (Hs & Hn2 & Heven). cbn [fst snd] in *.
    exists (ps' ++ [(s, n + 2)]).
    split; [|split; [|split; [|split; [|split; [|split]]]]].
    + rewrite !fmap_app. reflexivity.
    + rewrite !fmap_app. reflexivity.
    + rewrite !len_app. reflexivity.
    + apply Forall_app. split; [exact Hok'|]. apply Forall_singleton.
      cbn [fst snd]. rewrite even_add_2. repeat split; [apply Hs..|lia|exact Heven].
    + intros _. eauto.
    + intros k Hk Hswk Hnoprev. apply elem_of_app in Hk as [Hk|Hk].
      * specialize (Hstart k Hk Hswk Hnoprev).
        rewrite !fmap_app in *. exact Hstart.
      * apply list_elem_of_singleton in Hk. subst k.
        destruct Hprev as [m Hm]. destruct (Hnoprev m Hm).
    + intros Hnoadj. destruct (Hadj Hnoadj) as [Hdom Hend].
      destruct (Hend eq_refl) as (ps1 & p1 & k & Heq & Hlast & Hk).
      apply app_inj_tail in Heq as [<- <-]. cbn [fst snd] in Hk.
      apply Forall_app in Hdom as [Hdom' Hdomlast].
      rewrite Forall_singleton in Hdomlast. cbn [fst snd] in Hdomlast.
      assert (exists h, n = 2 * h) as [h ->].
      { apply Z.even_spec in Heven as [h ->]. eauto. }
      assert (swap_pair lc rc k) as Hswk.
      { replace k with (s + 2 * (h - 1)) by lia. apply Hdomlast. lia. }
      assert (k = a - 2) as ->.
      { destruct Hprev as [m Hm].
        destruct (sorted_before pre post a k (a - 2) Hsorted Hlast); [|lia|].
        { apply Hkeys. rewrite (proj1 Hm). eauto. }
        destruct (decide (k = a - 1)) as [->|]; [|lia].
        exfalso. apply (Hnoadj (a - 1) Hswk).
        replace (a - 1 + 1) with a by lia. exact Hsw. }
      split.
      * apply Forall_app. split; [exact Hdom'|]. apply Forall_singleton.
        cbn [fst snd]. intros j Hj.
        destruct (decide (j = h)) as [->|Hne]; [|apply Hdomlast; lia].
        replace (s + 2 * h) with a by lia. exact Hsw.
      * intros _. exists ps', (s, 2 * h + 2), a. rewrite last_snoc.
        split; [reflexivity|]. split; [reflexivity|]. cbn [fst snd]. lia.
  - (* a new range opens at this code point *)
    exists (ps ++ [(a, 2)]).
    split; [|split; [|split; [|split; [|split; [|split]]]]].
    + rewrite fmap_app. reflexivity.
    + rewrite fmap_app. reflexivity.
    + unfold len. rewrite length_app. simpl. lia.
    + apply Forall_app. split; [exact Hok|]. apply Forall_singleton.
      cbn [fst snd]. repeat split; [apply Hsw..|lia].
    + intros _. eauto.
    + intros k Hk Hswk Hnoprev. rewrite fmap_app. apply elem_of_app.
      apply elem_of_app in Hk as [Hk|Hk].
      * left. apply Hstart; assumption.
      * apply list_elem_of_singleton in Hk. subst k. right. left.
    + intros Hnoadj. destruct (Hadj Hnoadj) as [Hdom _]. split.
      * apply Forall_app. split; [exact Hdom|]. apply Forall_singleton.
        cbn [fst snd]. intros j Hj. assert (j = 0) as -> by lia.
        rewrite Z.mul_0_r, Z.add_0_r. exact Hsw.
      * intros _. exists ps, (a, 2), a. rewrite last_snoc.
        split; [reflexivity|]. split; [reflexivity|]. cbn [fst snd]. lia.
Qed.

(** What the scanning loop has found when it ends. *)
Lemma extract_character_pair_ranges_scan lc rc st :
  dict_wf lc ->
  foldM (extract_character_pair_ranges_body lc rc) (sorted (dict_keys lc))
        ([], [], false, -1) = Ok st ->
  extract_character_pair_ranges_inv lc rc (sorted (dict_keys lc)) st.
Proof.
  intros Hwf Hrun.
  apply (foldM_inv (extract_character_pair_ranges_body lc rc)
           (extract_character_pair_ranges_inv lc rc)
           (sorted (dict_keys lc)) ([], [], false, -1) st); [| |exact Hrun].
  - exists []. repeat split; try reflexivity; try discriminate; try constructor.
    intros k Hk. apply elem_of_nil in Hk. contradiction.
  - intros pre a post s s1 Hl Hinv Hbody.
    apply (extract_character_pair_ranges_inv_step lc rc pre post a s s1);
      try assumption.
    + rewrite <- Hl. apply sorted_keys_strict, Hwf.
    + intros k Hk. rewrite <- Hl. apply elem_of_sorted, elem_of_dict_keys, Hk.
Qed.

Lemma extract_character_pair_ranges_remove_range
    (ps : list (Z * Z)) (i : nat) (p : Z * Z) st :
  ps !! i = Some p ->
  extract_character_pair_ranges_remove ps.*1 ps.*2 st (Z.of_nat i) =
  delete_pair_range st p.
Proof.
  intros Hi. unfold extract_character_pair_ranges_remove, delete_pair_range.
  rewrite (list_getitem_fmap fst ps i p Hi), bind_Ok.
  rewrite (list_getitem_fmap snd ps i p Hi), bind_Ok. reflexivity.
Qed.

Lemma delete_pair_range_run (s : Z) (ks : list Z) :
  forall lc rc lc' rc',
  foldM (fun (st : dict * dict) incr =>
           let '(letter_case, reverse_letter_case) := st in
           letter_case ← dict_delitem letter_case (s + incr);
           reverse_letter_case ←
             dict_delitem reverse_letter_case (s + 1 + incr);
           Ok (letter_case, reverse_letter_case)) ks (lc, rc) = Ok (lc', rc') ->
  foldM dict_delitem ((fun incr => s + incr) <$> ks) lc = Ok lc' /\
  foldM dict_delitem ((fun incr => s + 1 + incr) <$> ks) rc = Ok rc'.
Proof.
  induction ks as [|k ks IH]; intros lc rc lc' rc' H; cbn [foldM] in H.
  - injection H as <- <-. split; reflexivity.
  - destruct (dict_delitem lc (s + k)) as [lc1|] eqn:E1; [|discriminate].
    rewrite bind_Ok in H.
    destruct (dict_delitem rc (s + 1 + k)) as [rc1|] eqn:E2; [|discriminate].
    rewrite !bind_Ok in H. destruct (IH _ _ _ _ H) as [H1 H2].
    rewrite !fmap_cons. cbn [foldM]. rewrite E1, E2, !bind_Ok. split; assumption.
Qed.

Lemma delete_pair_ranges_run (ps : list (Z * Z)) :
  forall lc rc lc' rc',
  foldM delete_pair_range ps (lc, rc) = Ok (lc', rc') ->
  foldM dict_delitem (pairs_domain ps) lc = Ok lc' /\
  foldM dict_delitem (pairs_codomain ps) rc = Ok rc'.
Proof.
  induction ps as [|p ps IH]; intros lc rc lc' rc' H; cbn [foldM] in H.
  - injection H as <- <-. split; reflexivity.
  - destruct (delete_pair_range (lc, rc) p) as [[lc1 rc1]|] eqn:E; [|discriminate].
    rewrite bind_Ok in H. apply delete_pair_range_run in E as [E1 E2].
    destruct (IH _ _ _ _ H) as [H1 H2].
    unfold pairs_domain, pairs_codomain. rewrite !fmap_cons. cbn [concat].
    rewrite !foldM_app.
    change (pair_domain p) with ((fun incr => p.1 + incr) <$> py_range 0 p.2 2).
    change (pair_codomain p)
      with ((fun incr => p.1 + 1 + incr) <$> py_range 0 p.2 2).
    rewrite E1, E2, !bind_Ok. split; assumption.
Qed.

(** [extract_character_pair_ranges] as a whole. *)
Lemma extract_character_pair_ranges_run lc rc sp ls lc' rc' :
  dict_wf lc ->
  extract_character_pair_ranges lc rc = Ok ((sp, ls), lc', rc') ->
  exists ps : list (Z * Z),
    sp = ps.*1 /\ ls = ps.*2 /\
    Forall (fun p : Z * Z =>
              swap_pair lc rc p.1 /\ 2 <= p.2 /\ Z.even p.2 = true) ps /\
    (forall k, swap_pair lc rc k ->
               (forall m, ~ bidirectional lc rc (k - 2) m) -> k ∈ ps.*1) /\
    (no_adjacent_swap_pairs lc rc ->
     Forall (fun p : Z * Z =>
               forall j, 0 <= 2 * j < p.2 -> swap_pair lc rc (p.1 + 2 * j)) ps) /\
    foldM dict_delitem (pairs_domain ps) lc = Ok lc' /\
    foldM dict_delitem (pairs_codomain ps) rc = Ok rc'.
Proof.
  intros Hwf H. unfold extract_character_pair_ranges in H.
  destruct (foldM (extract_character_pair_ranges_body lc rc)
              (sorted (dict_keys lc)) ([], [], false, -1))
    as [[[[sp0 ls0] ir] ec]|] eqn:Hscan; [|discriminate].
  rewrite bind_Ok in H.
  apply (extract_character_pair_ranges_scan lc rc _ Hwf) in Hscan
    as (ps & -> & -> & _ & Hok & _ & Hstart & Hadj).
  destruct (foldM (extract_character_pair_ranges_remove ps.*1 ps.*2)
              (py_range 0 (len ps.*1) 1) (lc, rc)) as [[lc1 rc1]|] eqn:Hrem;
    [|discriminate].
  rewrite bind_Ok in H. injection H as <- <- <- <-.
  rewrite py_range_step1, len_fmap in Hrem.
  rewrite (foldM_indexed _ delete_pair_range ps) in Hrem
    by (intros i p st Hi; apply extract_character_pair_ranges_remove_range, Hi).
  apply delete_pair_ranges_run in Hrem as [H1 H2].
  exists ps. repeat split; try assumption.
  - intros k Hsw Hnoprev. apply Hstart; try assumption.
    apply elem_of_sorted, elem_of_dict_keys. rewrite (proj1 Hsw). eauto.
  - intros Hnoadj. apply Hadj, Hnoadj.
Qed.

Lemma elem_of_pair_domain_start (p : Z * Z) : 2 <= p.2 -> p.1 ∈ pair_domain p.
Proof.
  intros Hn. unfold pair_domain. apply list_elem_of_fmap. exists 0.
  split; [lia|]. unfold py_range. apply list_elem_of_fmap. exists 0.
  split; [lia|]. apply elem_of_seqZ.
  assert (1 <= (p.2 - 0 + 2 - 1) `div` 2); [|lia].
  apply Z.div_le_lower_bound; lia.
Qed.

(** What [extract_character_pair_ranges] emits: a pair range for every
    chain of one or more swap pairs.  Each emitted range starts at a swap
    pair [(c, c+1)] and has an even length of at least 2, counted in code
    points.  A swap pair with no bidirectional member at [c-2] starts a
    range of its own and is taken out of the map; so does the only pair
    of [lone_pair_lower] and [lone_pair_upper]. *)
Theorem extract_character_pair_ranges_emits lc rc sp ls lc' rc' :
  dict_wf lc ->
  extract_character_pair_ranges lc rc = Ok ((sp, ls), lc', rc') ->
  length sp = length ls /\
  (forall s n, (s, n) ∈ pair_ranges sp ls ->
               swap_pair lc rc s /\ 2 <= n /\ Z.even n = true) /\
  (forall c, swap_pair lc rc c ->
             (forall m, ~ bidirectional lc rc (c - 2) m) ->
             c ∈ sp /\ dict_get lc' c = None) /\
  (exists t ws,
     ConversionTables_init (lone_pair_lower, lone_pair_upper) = Ok (t, ws, [], []) /\
     character_pair_ranges t = ([0x0100], [2]) /\
     character_pairs t = []).
Proof.
  intros Hwf H.
  destruct (extract_character_pair_ranges_run lc rc sp ls lc' rc' Hwf H)
    as (ps & -> & -> & Hok & Hstart & _ & Hdel & _).
  rewrite Forall_forall in Hok.
  split; [rewrite !length_fmap; reflexivity|]. split; [|split].
  - intros s n Hp. unfold pair_ranges in Hp. rewrite zip_fst_snd in Hp.
    exact (Hok _ Hp).
  - intros c Hsw Hnoprev. specialize (Hstart c Hsw Hnoprev).
    split; [exact Hstart|].
    rewrite (dict_delitems_get _ _ _ c Hdel). rewrite decide_True; [reflexivity|].
    apply list_elem_of_fmap in Hstart as (p & -> & Hp).
    unfold pairs_domain. apply elem_of_concat. exists (pair_domain p).
    split; [apply list_elem_of_fmap; eauto|].
    apply elem_of_pair_domain_start. apply (Hok _ Hp).
  - do 2 eexists. split; [vm_compute; reflexivity|]. split; reflexivity.
Qed.

Lemma extract_character_pair_ranges_emits_witness :
  length [0x0100] = length [4] /\
  (forall s n, (s, n) ∈ pair_ranges [0x0100] [4] ->
               swap_pair sample_lower sample_upper s /\ 2 <= n /\ Z.even n = true) /\
  (forall c, swap_pair sample_lower sample_upper c ->
             (forall m, ~ bidirectional sample_lower sample_upper (c - 2) m) ->
             c ∈ [0x0100] /\
             dict_get [(376, [255]); (914, [946]); (913, [945]); (915, [947]);
                       (304, [105; 775]); (8073, [8065]); (8072, [8064]);
                       (1012, [952])] c = None) /\
  (exists t ws,
     ConversionTables_init (lone_pair_lower, lone_pair_upper) = Ok (t, ws, [], []) /\
     character_pair_ranges t = ([0x0100], [2]) /\
     character_pairs t = []).
Proof.
  apply (extract_character_pair_ranges_emits sample_lower sample_upper
           [0x0100] [4] _
           [(945, [913]); (947, [915]); (946, [914]); (255, [376]);
            (8064, [7944; 921]); (8065, [7945; 921]); (8066, [7946; 921]);
            (223, [83; 83]); (912, [921; 776; 769]); (181, [924])]).
  - apply NoDup_bool_decide. vm_compute. reflexivity.
  - vm_compute. reflexivity.
Defined.

(** C1, the code misses the claim: [lone_pair_lower] and
    [lone_pair_upper] are case maps that hold only the isolated
    bidirectional pair (0x0100, 0x0101), with nothing at 0x00FE or 0x0102.
    [extract_character_pair_ranges] emits it as the pair range with start
    0x0100 and length 2, which covers the one pair at 0x0100, and deletes
    it from both maps, although a pair range is to hold two or more
    character pairs.  [extract_character_pairs] then finds nothing, and
    the constructor returns tables whose [character_pairs] is empty and
    not (0x0100, 0x0101). *)
Theorem lone_pair_is_a_pair_range :
  case_map lone_pair_lower /\ case_map lone_pair_upper /\
  dict_get lone_pair_lower 0x00FE = None /\
  dict_get lone_pair_lower 0x0102 = None /\
  swap_pair lone_pair_lower lone_pair_upper 0x0100 /\
  extract_character_pair_ranges lone_pair_lower lone_pair_upper =
    Ok (([0x0100], [2]), [], []) /\
  pair_ranges [0x0100] [2] = [(0x0100, 2)] /\
  pair_domain (0x0100, 2) = [0x0100] /\
  extract_character_pairs [] [] = Ok ([], [], []) /\
  exists t ws,
    ConversionTables_init (lone_pair_lower, lone_pair_upper) = Ok (t, ws, [], []) /\
    character_pair_ranges t = ([0x0100], [2]) /\
    character_pairs t = [] /\
    character_pairs t <> [0x0100; 0x0101].
Proof.
  split; [apply case_map_bool_decide; vm_compute; reflexivity|].
  split; [apply case_map_bool_decide; vm_compute; reflexivity|].
  split; [reflexivity|]. split; [reflexivity|].
  split; [split; reflexivity|].
  split; [vm_compute; reflexivity|].
  split; [reflexivity|]. split; [vm_compute; reflexivity|].
  split; [vm_compute; reflexivity|].
  do 2 eexists. split; [vm_compute; reflexivity|].
  repeat split; try reflexivity. discriminate.
Qed.

(** * [extract_character_pairs] *)

Lemma singleton_pairs_flat (qs : list (Z * Z)) :
  singleton_pairs (flat_pairs qs) = qs.
Proof.
  induction qs as [|[a b] qs IH]; [reflexivity|].
  unfold flat_pairs in *. rewrite fmap_cons. cbn [concat]. simpl.
  rewrite IH. reflexivity.
Qed.

Lemma bidirectional_sub lc rc lc0 rc0 c m :
  dict_sub lc lc0 -> dict_sub rc rc0 ->
  bidirectional lc rc c m -> bidirectional lc0 rc0 c m.
Proof. intros Hl Hr [H1 H2]. split; [apply Hl, H1 | apply Hr, H2]. Qed.

(** The loop of [extract_character_pairs] over the keys [ks]: it claims
    bidirectional pairs of the two maps and deletes what it claims. *)
Lemma extract_character_pairs_loop (ks : list Z) :
  forall pairs lc rc pairs' lc' rc',
  foldM extract_character_pairs_body ks (pairs, lc, rc) = Ok (pairs', lc', rc') ->
  exists qs : list (Z * Z),
    pairs' = pairs ++ flat_pairs qs /\
    Forall (fun q : Z * Z => bidirectional lc rc q.1 q.2) qs /\
    foldM dict_delitem qs.*1 lc = Ok lc' /\
    foldM dict_delitem qs.*2 rc = Ok rc'.
Proof.
  induction ks as [|a ks IH]; intros pairs lc rc pairs' lc' rc' H; cbn [foldM] in H.
  - injection H as <- <- <-. exists []. rewrite app_nil_r.
    repeat split; try reflexivity. constructor.
  - destruct (extract_character_pairs_body (pairs, lc, rc) a)
      as [[[pairs1 lc1] rc1]|] eqn:Hb; [|discriminate H].
    rewrite bind_Ok in H.
    destruct (IH _ _ _ _ _ _ H) as (qs & -> & Hqs & H1 & H2).
    unfold extract_character_pairs_body in Hb.
    destruct (is_bidirectional_conversion a lc rc) as [b|] eqn:Eb;
      [|discriminate Hb].
    rewrite bind_Ok in Hb. destruct b.
    + apply is_bidirectional_conversion_true in Eb as [m Hm].
      rewrite (proj2 (dict_getitem_Ok lc a [m]) (proj1 Hm)), bind_Ok in Hb.
      cbn [ord] in Hb. rewrite bind_Ok in Hb.
      rewrite (dict_delitem_present lc a [m] (proj1 Hm)), !bind_Ok in Hb.
      rewrite (dict_delitem_present rc m [a] (proj2 Hm)), !bind_Ok in Hb.
      injection Hb as <- <- <-.
      exists ((a, m) :: qs). split; [|split; [|split]].
      * rewrite <- app_assoc. reflexivity.
      * constructor; [exact Hm|].
        eapply Forall_impl; [exact Hqs|]. intros q Hq.
        eapply bidirectional_sub; [apply dict_sub_remove..|exact Hq].
      * rewrite fmap_cons. cbn [foldM fst].
        rewrite (dict_delitem_present lc a [m] (proj1 Hm)), bind_Ok. exact H1.
      * rewrite fmap_cons. cbn [foldM snd].
        rewrite (dict_delitem_present rc m [a] (proj2 Hm)), bind_Ok. exact H2.
    + injection Hb as <- <- <-. exists qs. repeat split; assumption.
Qed.

Lemma extract_character_pairs_run lc rc pairs lc' rc' :
  extract_character_pairs lc rc = Ok (pairs, lc', rc') ->
  exists qs : list (Z * Z),
    pairs = flat_pairs qs /\
    Forall (fun q : Z * Z => bidirectional lc rc q.1 q.2) qs /\
    foldM dict_delitem qs.*1 lc = Ok lc' /\
    foldM dict_delitem qs.*2 rc = Ok rc'.
Proof.
  intros H. apply extract_character_pairs_loop in H. exact H.
Qed.

(** * [extract_special_ranges] *)

Lemma flat_special_snoc ss (r : Z * Z * Z * Z) :
  flat_special (ss ++ [r]) = flat_special ss ++ [r.1.1.1; r.1.1.2; r.1.2].
Proof. unfold flat_special. rewrite fmap_app, concat_app. reflexivity. Qed.

Lemma special_lens_snoc ss (r : Z * Z * Z * Z) :
  special_lens (ss ++ [r]) = special_lens ss ++ [r.2].
Proof. unfold special_lens. rewrite fmap_app. reflexivity. Qed.

Lemma len_flat_special ss : len (flat_special ss) = 3 * len ss.
Proof.
  apply (len_concat_chunks (fun r : Z * Z * Z * Z => [r.1.1.1; r.1.1.2; r.1.2]) 3).
  reflexivity.
Qed.

Lemma special_ranges_of_flat ss :
  special_ranges_of (flat_special ss) (special_lens ss) = ss.
Proof.
  induction ss as [|[[[s f] z] n] ss IH]; [reflexivity|].
  unfold flat_special, special_lens in *. rewrite !fmap_cons. cbn [concat].
  simpl. rewrite IH. reflexivity.
Qed.

(** Splits the hypothesis [H] of a successful run along the binds and the
    tests of the code. *)
Ltac res_cases H :=
  repeat (lazymatch type of H with
          | mbind _ ?m = Ok _ =>
              let E := fresh "E" in
              destruct m eqn:E; [rewrite bind_Ok in H | discriminate H]
          | (if ?b then _ else _) = Ok _ =>
              let E := fresh "E" in destruct b eqn:E
          | match ?x with _ => _ end = Ok _ =>
              let E := fresh "E" in destruct x eqn:E
          | Raise _ = Ok _ => discriminate H
          end).

(** One turn of the scanning loop keeps the invariant. *)
Lemma extract_special_ranges_inv_step lc st a st1 :
  extract_special_ranges_inv st ->
  extract_special_ranges_body lc st a = Ok st1 ->
  extract_special_ranges_inv st1.
Proof.
  destruct st as [[[ranges lengths] rp] ir].
  intros (ss & -> & -> & -> & Hok & Hin) H.
  unfold extract_special_ranges_body in H. res_cases H;
    try (injection H as <-; exists ss; repeat split;
         solve [reflexivity | assumption | discriminate]).
  - (* the open range grows *)
    injection H as <-. destruct (Hin eq_refl) as (ss' & [[[s f] z] n] & ->).
    match goal with
    | Hg : list_getitem _ _ = Ok ?x, Hs : list_setitem _ _ _ = Ok ?y |- _ =>
        rewrite special_lens_snoc in Hg, Hs;
        rewrite list_getitem_snoc in Hg
          by (rewrite !len_app; unfold special_lens; rewrite len_fmap; reflexivity);
        injection Hg as <-;
        rewrite (list_setitem_snoc _ n) in Hs
          by (rewrite !len_app; unfold special_lens; rewrite len_fmap; reflexivity);
        injection Hs as <-
    end.
    apply Forall_app in Hok as [Hok' Hlast]. rewrite Forall_singleton in Hlast.
    cbn [snd] in *.
    exists (ss' ++ [(s, f, z, n + 1)]). split; [|split; [|split; [|split]]].
    + rewrite !flat_special_snoc. reflexivity.
    + rewrite special_lens_snoc. reflexivity.
    + rewrite !len_app. reflexivity.
    + apply Forall_app. split; [exact Hok'|]. rewrite Forall_singleton. cbn [snd]. lia.
    + intros _. eauto.
  - (* a new range opens at the predecessor *)
    injection H as <-.
    match goal with
    | |- extract_special_ranges_inv (_ ++ [?s; ?f; ?z], _, _, _) =>
        exists (ss ++ [(s, f, z, 1)])
    end.
    split; [|split; [|split; [|split]]].
    + rewrite flat_special_snoc. reflexivity.
    + rewrite special_lens_snoc. reflexivity.
    + unfold len. rewrite length_app. simpl. lia.
    + apply Forall_app. split; [exact Hok|]. rewrite Forall_singleton. cbn [snd]. lia.
    + intros _. eauto.
Qed.

Lemma extract_special_ranges_scan lc st :
  foldM (extract_special_ranges_body lc) (sorted (dict_keys lc)) ([], [], -1, None) =
    Ok st ->
  extract_special_ranges_inv st.
Proof.
  intros Hrun.
  apply (foldM_inv (extract_special_ranges_body lc)
           (fun _ => extract_special_ranges_inv)
           (sorted (dict_keys lc)) ([], [], -1, None) st); [| |exact Hrun].
  - exists []. repeat split; try reflexivity; try discriminate. constructor.
  - intros pre a post s s1 _ Hinv Hbody.
    exact (extract_special_ranges_inv_step lc s a s1 Hinv Hbody).
Qed.

Lemma extract_special_ranges_remove_range ss (i : nat) (r : Z * Z * Z * Z) lc :
  ss !! i = Some r ->
  extract_special_ranges_remove (flat_special ss) (special_lens ss) lc
    (3 * Z.of_nat i) =
  delete_special_range lc r.
Proof.
  intros Hi. unfold extract_special_ranges_remove, delete_special_range.
  replace ((3 * Z.of_nat i) `div` 3) with (Z.of_nat i)
    by (rewrite Z.mul_comm, Z.div_mul; lia).
  unfold special_lens. rewrite (list_getitem_fmap _ ss i r Hi), bind_Ok.
  assert (list_getitem (flat_special ss) (3 * Z.of_nat i) = Ok r.1.1.1) as Hs.
  { replace (3 * Z.of_nat i) with (Z.of_nat 3 * Z.of_nat i + Z.of_nat 0) by lia.
    apply (list_getitem_chunk
             (fun r : Z * Z * Z * Z => [r.1.1.1; r.1.1.2; r.1.2]) 3 ss i 0 r);
      [reflexivity | exact Hi | reflexivity]. }
  rewrite Hs, bind_Ok, py_range_step1. apply foldM_ext. intros d incr _.
  reflexivity.
Qed.

Lemma delete_special_ranges_run (ss : list (Z * Z * Z * Z)) :
  forall lc lc',
  foldM delete_special_range ss lc = Ok lc' ->
  foldM dict_delitem (special_domain ss) lc = Ok lc'.
Proof.
  induction ss as [|r ss IH]; intros lc lc' H; cbn [foldM] in H.
  - injection H as <-. reflexivity.
  - destruct (delete_special_range lc r) as [lc1|] eqn:E; [|discriminate H].
    rewrite bind_Ok in H. unfold delete_special_range in E.
    rewrite <- (foldM_fmap dict_delitem (fun incr => r.1.1.1 + incr)) in E.
    change (fun incr => r.1.1.1 + incr) with (Z.add r.1.1.1) in E.
    rewrite fmap_add_seqZ, Z.add_0_r in E.
    unfold special_domain. rewrite fmap_cons. cbn [concat].
    rewrite foldM_app, E, bind_Ok. exact (IH _ _ H).
Qed.

(** [extract_special_ranges] as a whole: the two tables are in step, every
    length is at least 1, and the domain of the ranges is deleted. *)
Lemma extract_special_ranges_run lc ranges lengths lc' :
  extract_special_ranges lc = Ok ((ranges, lengths), lc') ->
  exists ss,
    ranges = flat_special ss /\ lengths = special_lens ss /\
    Forall (fun r : Z * Z * Z * Z => 1 <= r.2) ss /\
    foldM dict_delitem (special_domain ss) lc = Ok lc'.
Proof.
  intros H. unfold extract_special_ranges in H.
  destruct (foldM (extract_special_ranges_body lc) (sorted (dict_keys lc))
              ([], [], -1, None)) as [[[[ranges0 lengths0] rp] ir]|] eqn:Hscan;
    [|discriminate H].
  rewrite bind_Ok in H.
  apply extract_special_ranges_scan in Hscan as (ss & -> & -> & _ & Hok & _).
  destruct (foldM (extract_special_ranges_remove (flat_special ss) (special_lens ss))
              (py_range 0 (len (flat_special ss)) 3) lc) as [lc1|] eqn:Hrem;
    [|discriminate H].
  rewrite bind_Ok in H. injection H as <- <- <-.
  rewrite len_flat_special, py_range_chunks in Hrem by (try lia; apply len_nonneg).
  rewrite foldM_fmap in Hrem.
  rewrite (foldM_indexed _ delete_special_range ss) in Hrem
    by (intros i r st Hi; apply extract_special_ranges_remove_range, Hi).
  apply delete_special_ranges_run in Hrem.
  exists ss. repeat split; try assumption.
Qed.

(** C2, the code misses the claim: on [special_overrun] the run that
    starts at 0x1F80 with second output 0x0399 is extended at 0x1F83 and
    0x1F84, whose predecessors have the second output 0x0300.  The emitted
    range (0x1F80, 0x1F08, 0x0399, 3) covers 0x1F82, which the map sends to
    (0x2000, 0x0300) and not to (0x1F0A, 0x0399). *)
Theorem extract_special_ranges_overrun :
  case_map special_overrun /\
  extract_special_ranges special_overrun =
    Ok (([0x1F80; 0x1F08; 0x0399], [3]),
        [(0x1F83, [0x2001; 0x0300]); (0x1F84, [0x2002; 0x0300])]) /\
  special_ranges_of [0x1F80; 0x1F08; 0x0399] [3] = [(0x1F80, 0x1F08, 0x0399, 3)] /\
  dict_get special_overrun (0x1F80 + 2) = Some [0x2000; 0x0300] /\
  dict_get special_overrun (0x1F80 + 2) <> Some [0x1F08 + 2; 0x0399] /\
  exists t,
    ConversionTables_init ([], special_overrun) = Ok (t, [], [], []) /\
    upper_case_special_ranges t = ([0x1F80; 0x1F08; 0x0399], [3]).
Proof.
  split; [apply case_map_bool_decide; vm_compute; reflexivity|].
  split; [vm_compute; reflexivity|]. split; [reflexivity|].
  split; [reflexivity|]. split; [discriminate|].
  eexists. split; [vm_compute; reflexivity | reflexivity].
Qed.

(** The same defect leaves [in_range] unassigned when the first code point
    with a two-code-point output follows a code point with another
    output length: the next match reads it and the call raises. *)
Example extract_special_ranges_unbound :
  extract_special_ranges [(0x00DE, [0x54]); (0x00DF, [0x53; 0x53]);
                          (0x00E0, [0x54; 0x53])] =
  Raise UnboundLocalError.
Proof. vm_compute. reflexivity. Qed.

(** * The pipeline of [ConversionTables.__init__] *)

Lemma take_entries_encode (arity : nat) (es : list (Z * str)) (rest : list Z) :
  Forall (fun kv : Z * str => length kv.2 = arity) es ->
  take_entries arity (length es) (encode_entries es ++ rest) = (es, rest).
Proof.
  induction 1 as [|[k v] es Hv _ IH]; [reflexivity|].
  unfold encode_entries in *. rewrite fmap_cons. cbn [concat fst snd length].
  cbn [snd] in Hv. cbn [app take_entries]. rewrite <- app_assoc.
  rewrite drop_app_length' by (symmetry; exact Hv). rewrite IH.
  rewrite take_app_length' by (symmetry; exact Hv). reflexivity.
Qed.

Lemma entries_of_arity_length (n : nat) (d : dict) :
  Forall (fun kv : Z * str => length kv.2 = n) (entries_of_arity (Z.of_nat n) d).
Proof.
  apply Forall_forall. intros [k v] Hkv.
  apply elem_of_select_arity in Hkv as (_ & _ & Hl). unfold len in Hl.
  cbn [snd]. lia.
Qed.

(** Decoding the tables of [extract_conversions] gives the entries back. *)
Lemma residual_entries_encode (d : dict) :
  residual_entries
    (encode_entries (entries_of_arity 1 d) ++
     encode_entries (entries_of_arity 2 d) ++
     encode_entries (entries_of_arity 3 d))
    [len (entries_of_arity 1 d); len (entries_of_arity 2 d);
     len (entries_of_arity 3 d)] =
  entries_of_arity 1 d ++ entries_of_arity 2 d ++ entries_of_arity 3 d.
Proof.
  unfold residual_entries, len. rewrite !Nat2Z.id.
  rewrite (take_entries_encode 1) by apply (entries_of_arity_length 1).
  rewrite (take_entries_encode 2) by apply (entries_of_arity_length 2).
  rewrite <- (app_nil_r (encode_entries (entries_of_arity 3 d))).
  rewrite (take_entries_encode 3) by apply (entries_of_arity_length 3).
  reflexivity.
Qed.

(** The seven stages behind a run of the constructor. *)
Lemma ConversionTables_init_stages lower upper t ws l u :
  ConversionTables_init (lower, upper) = Ok (t, ws, l, u) ->
  exists l1 u1 l2 u2 l3 u3 u4 l5 rc5,
    extract_ranges lower (Some upper) = Ok (character_case_ranges t, l1, Some u1) /\
    extract_character_pair_ranges l1 u1 = Ok (character_pair_ranges t, l2, u2) /\
    extract_character_pairs l2 u2 = Ok (character_pairs t, l3, u3) /\
    extract_special_ranges u3 = Ok (upper_case_special_ranges t, u4) /\
    extract_ranges l3 None = Ok (lower_case_ranges t, l5, rc5) /\
    extract_conversions l5 = Ok (lower_case_conversions t, l) /\
    extract_conversions u4 = Ok (upper_case_conversions t, u) /\
    ws = leftover_warnings l u.
Proof.
  unfold ConversionTables_init. cbn [fst snd]. intros H.
  destruct (extract_ranges lower (Some upper)) as [[[r1 l1] [u1|]]|] eqn:E1;
    try discriminate H.
  rewrite !bind_Ok in H.
  destruct (extract_character_pair_ranges l1 u1) as [[[r2 l2] u2]|] eqn:E2;
    [|discriminate H].
  rewrite bind_Ok in H.
  destruct (extract_character_pairs l2 u2) as [[[r3 l3] u3]|] eqn:E3;
    [|discriminate H].
  rewrite bind_Ok in H.
  destruct (extract_special_ranges u3) as [[r4 u4]|] eqn:E4; [|discriminate H].
  rewrite bind_Ok in H.
  destruct (extract_ranges l3 None) as [[[r5 l5] rc5]|] eqn:E5; [|discriminate H].
  rewrite bind_Ok in H.
  destruct (extract_conversions l5) as [[r6 l6]|] eqn:E6; [|discriminate H].
  rewrite bind_Ok in H.
  destruct (extract_conversions u4) as [[r7 u7]|] eqn:E7; [|discriminate H].
  rewrite bind_Ok in H. injection H as <- <- <- <-. cbn.
  exists l1, u1, l2, u2, l3, u3, u4, l5, rc5. repeat split; assumption.
Qed.

(** What a run of the constructor deletes: each map loses exactly the
    code points that the emitted tables cover, and keeps only bindings
    whose output has neither 1, 2 nor 3 code points. *)
Lemma ConversionTables_init_deletes lower upper t ws l u :
  dict_wf lower -> dict_wf upper ->
  ConversionTables_init (lower, upper) = Ok (t, ws, l, u) ->
  dict_wf l /\ dict_wf u /\
  dict_keys lower ≡ₚ lower_domain t ++ dict_keys l /\
  dict_keys upper ≡ₚ upper_domain t ++ dict_keys u /\
  (forall k v, dict_get l k = Some v ->
               dict_get lower k = Some v /\ ~ 1 <= len v <= 3) /\
  (forall k v, dict_get u k = Some v ->
               dict_get upper k = Some v /\ ~ 1 <= len v <= 3).
Proof.
  intros Hwl Hwu H.
  apply ConversionTables_init_stages in H
    as (l1 & u1 & l2 & u2 & l3 & u3 & u4 & l5 & rc5 &
        E1 & E2 & E3 & E4 & E5 & E6 & E7 & _).
  unfold lower_domain, upper_domain.
  destruct t as [[a1 b1] [a2 b2] a3 [a4 b4] [a5 b5] [a6 b6] [a7 b7]].
  cbn [character_case_ranges character_pair_ranges character_pairs
       upper_case_special_ranges lower_case_ranges lower_case_conversions
       upper_case_conversions fst snd] in *.
  (* stage 1 *)
  apply (extract_ranges_run _ _ _ _ _ _ Hwl) in E1
    as (rs1 & -> & -> & _ & _ & Hl1 & (u1' & [= <-] & Hu1)).
  destruct (dict_delitems_keys _ _ _ Hwl Hl1) as [Hwl1 Hpl1].
  destruct (dict_delitems_keys _ _ _ Hwu Hu1) as [Hwu1 Hpu1].
  (* stage 2 *)
  apply (extract_character_pair_ranges_run _ _ _ _ _ _ Hwl1) in E2
    as (ps & -> & -> & _ & _ & _ & Hl2 & Hu2).
  destruct (dict_delitems_keys _ _ _ Hwl1 Hl2) as [Hwl2 Hpl2].
  destruct (dict_delitems_keys _ _ _ Hwu1 Hu2) as [Hwu2 Hpu2].
  (* stage 3 *)
  apply extract_character_pairs_run in E3 as (qs & -> & _ & Hl3 & Hu3).
  destruct (dict_delitems_keys _ _ _ Hwl2 Hl3) as [Hwl3 Hpl3].
  destruct (dict_delitems_keys _ _ _ Hwu2 Hu3) as [Hwu3 Hpu3].
  (* stage 4 *)
  apply extract_special_ranges_run in E4 as (ss & -> & -> & _ & Hu4).
  destruct (dict_delitems_keys _ _ _ Hwu3 Hu4) as [Hwu4 Hpu4].
  (* stage 5 *)
  apply (extract_ranges_run _ _ _ _ _ _ Hwl3) in E5
    as (rs5 & -> & -> & _ & _ & Hl5 & _).
  destruct (dict_delitems_keys _ _ _ Hwl3 Hl5) as [Hwl5 Hpl5].
  (* stages 6 and 7 *)
  destruct (extract_conversions_run l5 Hwl5) as (l6 & Hrun6 & Hlk6 & Hwl6 & Hpl6).
  rewrite Hrun6 in E6. injection E6 as <- <- <-.
  destruct (extract_conversions_run u4 Hwu4) as (u7 & Hrun7 & Hlk7 & Hwu7 & Hpu7).
  rewrite Hrun7 in E7. injection E7 as <- <- <-.
  rewrite !uniform_ranges_flat, special_ranges_of_flat, !singleton_pairs_flat,
    !residual_entries_encode.
  unfold pair_ranges. rewrite zip_fst_snd.
  split; [exact Hwl6|]. split; [exact Hwu7|]. split; [|split; [|split]].
  - rewrite Hpl1, Hpl2, Hpl3, Hpl5, Hpl6. rewrite !fmap_app, <- !app_assoc.
    reflexivity.
  - rewrite Hpu1, Hpu2, Hpu3, Hpu4, Hpu7. rewrite !fmap_app, <- !app_assoc.
    reflexivity.
  - intros k v Hk. rewrite Hlk6 in Hk.
    destruct (dict_get l5 k) as [v'|] eqn:Hg; [|discriminate].
    destruct (decide (1 <= len v' <= 3)) as [|Hn]; [discriminate|].
    injection Hk as ->. split; [|exact Hn].
    apply (dict_delitems_sub _ _ _ Hl1), (dict_delitems_sub _ _ _ Hl2),
      (dict_delitems_sub _ _ _ Hl3), (dict_delitems_sub _ _ _ Hl5), Hg.
  - intros k v Hk. rewrite Hlk7 in Hk.
    destruct (dict_get u4 k) as [v'|] eqn:Hg; [|discriminate].
    destruct (decide (1 <= len v' <= 3)) as [|Hn]; [discriminate|].
    injection Hk as ->. split; [|exact Hn].
    apply (dict_delitems_sub _ _ _ Hu1), (dict_delitems_sub _ _ _ Hu2),
      (dict_delitems_sub _ _ _ Hu3), (dict_delitems_sub _ _ _ Hu4), Hg.
Qed.

Lemma ConversionTables_init_warnings lower upper t ws l u :
  ConversionTables_init (lower, upper) = Ok (t, ws, l, u) ->
  ws = leftover_warnings l u.
Proof.
  intros H. apply ConversionTables_init_stages in H
    as (l1 & u1 & l2 & u2 & l3 & u3 & u4 & l5 & rc5 & H).
  apply H.
Qed.

Lemma case_map_leftover_nil (d d0 : dict) :
  case_map d0 ->
  (forall k v, dict_get d k = Some v ->
               dict_get d0 k = Some v /\ ~ 1 <= len v <= 3) ->
  d = [].
Proof.
  intros Hcm H. apply dict_get_None_nil. intros k.
  destruct (dict_get d k) as [v|] eqn:Hg; [|reflexivity].
  destruct (H k v Hg) as [Hg0 Hn]. destruct Hn. exact (Hcm k v Hg0).
Qed.

(** C3: for case maps (every output of one to three code points), when
    the seven-stage pipeline has run, the code points that the emitted
    tables cover are exactly the keys of each original map, each covered
    once: the concatenation of the domains of the tiers is a
    duplicate-free rearrangement of the key set, so no code point is
    dropped, and none lies in two tiers or twice in one. *)
Theorem tiers_partition lower upper t ws l u :
  dict_wf lower -> dict_wf upper ->
  case_map lower -> case_map upper ->
  ConversionTables_init (lower, upper) = Ok (t, ws, l, u) ->
  dict_keys lower ≡ₚ lower_domain t /\
  dict_keys upper ≡ₚ upper_domain t /\
  NoDup (lower_domain t) /\
  NoDup (upper_domain t).
Proof.
  intros Hwl Hwu Hcl Hcu H.
  destruct (ConversionTables_init_deletes lower upper t ws l u Hwl Hwu H)
    as (_ & _ & Hpl & Hpu & Hl & Hu).
  rewrite (case_map_leftover_nil l lower Hcl Hl) in Hpl.
  rewrite (case_map_leftover_nil u upper Hcu Hu) in Hpu.
  cbn [dict_keys fmap list_fmap] in Hpl, Hpu. rewrite app_nil_r in Hpl, Hpu.
  split; [exact Hpl|]. split; [exact Hpu|]. split.
  - rewrite <- Hpl. exact Hwl.
  - rewrite <- Hpu. exact Hwu.
Qed.

(** C4 (as amended): for well-formed input (case maps) on which the
    pipeline completes, both maps are empty afterwards and no warning is
    issued.  A map that is left non-empty is reported through
    [warnings.warn] only: the constructor still completes and returns its
    tables, with one warning for each non-empty map. *)
Theorem leftover_maps_only_warn lower upper t ws l u :
  dict_wf lower -> dict_wf upper ->
  ConversionTables_init (lower, upper) = Ok (t, ws, l, u) ->
  (case_map lower -> l = []) /\
  (case_map upper -> u = []) /\
  (case_map lower -> case_map upper -> ws = []) /\
  ws = leftover_warnings l u /\
  (l <> [] -> lowercase_warning ∈ ws) /\
  (u <> [] -> uppercase_warning ∈ ws).
Proof.
  intros Hwl Hwu H.
  destruct (ConversionTables_init_deletes lower upper t ws l u Hwl Hwu H)
    as (_ & _ & _ & _ & Hl & Hu).
  pose proof (ConversionTables_init_warnings lower upper t ws l u H) as Hws.
  split; [intros Hc; exact (case_map_leftover_nil l lower Hc Hl)|].
  split; [intros Hc; exact (case_map_leftover_nil u upper Hc Hu)|].
  split; [|split; [exact Hws|split]].
  - intros Hcl Hcu. rewrite Hws.
    rewrite (case_map_leftover_nil l lower Hcl Hl).
    rewrite (case_map_leftover_nil u upper Hcu Hu). reflexivity.
  - intros Hne. rewrite Hws. unfold leftover_warnings.
    destruct l; [contradiction|]. apply elem_of_app. left. left.
  - intros Hne. rewrite Hws. unfold leftover_warnings.
    destruct u; [contradiction|]. apply elem_of_app. right. left.
Qed.

Example sample_run :
  ConversionTables_init (sample_lower, sample_upper) = Ok (sample_tables, [], [], []).
Proof. vm_compute. reflexivity. Qed.

Lemma tiers_partition_witness :
  dict_keys sample_lower ≡ₚ lower_domain sample_tables /\
  dict_keys sample_upper ≡ₚ upper_domain sample_tables /\
  NoDup (lower_domain sample_tables) /\
  NoDup (upper_domain sample_tables).
Proof.
  apply (tiers_partition sample_lower sample_upper sample_tables [] [] []).
  - apply NoDup_bool_decide. vm_compute. reflexivity.
  - apply NoDup_bool_decide. vm_compute. reflexivity.
  - apply case_map_bool_decide. vm_compute. reflexivity.
  - apply case_map_bool_decide. vm_compute. reflexivity.
  - vm_compute. reflexivity.
Defined.

Lemma leftover_maps_only_warn_witness :
  (case_map long_output_lower -> long_output_lower = []) /\
  (case_map [] -> ([] : dict) = []) /\
  (case_map long_output_lower -> case_map [] -> [lowercase_warning] = []) /\
  [lowercase_warning] = leftover_warnings long_output_lower [] /\
  (long_output_lower <> [] -> lowercase_warning ∈ [lowercase_warning]) /\
  (([] : dict) <> [] -> uppercase_warning ∈ [lowercase_warning]).
Proof.
  apply (leftover_maps_only_warn long_output_lower [] empty_tables
           [lowercase_warning] long_output_lower []).
  - apply NoDup_bool_decide. vm_compute. reflexivity.
  - apply NoDup_bool_decide. vm_compute. reflexivity.
  - vm_compute. reflexivity.
Defined.

(** C4, the claim as stated fails: the constructor is left with a
    non-empty lower-case map, and it completes normally with its tables;
    the only trace is the warning. *)
Lemma long_output_only_warns :
  exists t,
    ConversionTables_init (long_output_lower, []) =
      Ok (t, [lowercase_warning], long_output_lower, []) /\
    long_output_lower <> [] /\
    forall e, ConversionTables_init (long_output_lower, []) <> Raise e.
Proof.
  eexists. split; [vm_compute; reflexivity|]. split; [discriminate|].
  intros e. vm_compute. discriminate.
Qed.

(** ** Bidirectional soundness *)

Lemma elem_of_uniform_domain rs c : c ∈ uniform_domain rs <-> covered rs c.
Proof.
  unfold uniform_domain, covered. rewrite elem_of_concat. split.
  - intros (l & Hl & Hc). apply list_elem_of_fmap in Hl as (r & -> & Hr).
    apply elem_of_seqZ in Hc. eauto.
  - intros (r & Hr & Hc). exists (seqZ r.1.1 r.2). split.
    + apply list_elem_of_fmap. eauto.
    + apply elem_of_seqZ. exact Hc.
Qed.

(** After the two-way [extract_ranges], no two consecutive code points
    both start a swap pair: they would have the same offset, and the
    ranges would have taken them. *)
Lemma extract_ranges_no_adjacent_swap_pairs lower upper r l1 u1 :
  dict_wf lower ->
  extract_ranges lower (Some upper) = Ok (r, l1, Some u1) ->
  dict_sub l1 lower /\ dict_sub u1 upper /\ dict_wf l1 /\
  no_adjacent_swap_pairs l1 u1.
Proof.
  intros Hwf H. destruct r as [ranges lengths].
  apply (extract_ranges_run _ _ _ _ _ _ Hwf) in H
    as (rs & _ & _ & _ & Hmax & Hl1 & (u1' & [= <-] & Hu1)).
  pose proof (dict_delitems_sub _ _ _ Hl1) as Hsl.
  pose proof (dict_delitems_sub _ _ _ Hu1) as Hsu.
  split; [exact Hsl|]. split; [exact Hsu|].
  split; [apply (dict_delitems_keys _ _ _ Hwf Hl1)|].
  intros c Hc Hc'.
  assert (adjacent_match lower (Some upper) (c + 1)) as Hadj.
  { exists (c + 1 + 1), (c + 1). split; [|split].
    - exact (bidirectional_sub _ _ _ _ _ _ Hsl Hsu Hc').
    - replace (c + 1 - 1) with c by lia.
      exact (bidirectional_sub _ _ _ _ _ _ Hsl Hsu Hc).
    - lia. }
  destruct (Hmax _ Hadj) as [Hcov _]. apply elem_of_uniform_domain in Hcov.
  destruct Hc' as [Hg _]. rewrite (dict_delitems_get _ _ _ (c + 1) Hl1) in Hg.
  rewrite decide_True in Hg by exact Hcov. discriminate.
Qed.

Lemma elem_of_pair_domain (p : Z * Z) (c : Z) :
  Z.even p.2 = true ->
  c ∈ pair_domain p -> exists j, c = p.1 + 2 * j /\ 0 <= 2 * j < p.2.
Proof.
  intros Heven Hc. unfold pair_domain, py_range in Hc.
  apply list_elem_of_fmap in Hc as (incr & -> & Hincr).
  apply list_elem_of_fmap in Hincr as (j & -> & Hj).
  apply elem_of_seqZ in Hj. exists j. split; [lia|].
  apply Z.even_spec in Heven as [h Hh]. rewrite Hh in *.
  replace (2 * h - 0 + 2 - 1) with (h * 2 + 1) in Hj by lia.
  rewrite Z.div_add_l in Hj by lia. rewrite (Z.div_small 1 2) in Hj by lia. lia.
Qed.

(** C6: every entry claimed by a bidirectional-aware extractor of the
    pipeline is a bidirectional conversion of the two maps as they are
    when that extractor runs (and so of the original maps): for a uniform
    range, [start + i] maps to the single code point [mapped_start + i]
    and back; for a pair range, each covered code point [c] maps to
    [c + 1] and back; for a singleton pair [(a, b)], [a] maps to [b] and
    back.  [is_bidirectional_conversion] returns true exactly when the
    forward map sends the code point to a single code point [m] and the
    reverse map sends [m] back to it. *)
Theorem bidirectional_tiers_round_trip lower upper t ws l u :
  dict_wf lower ->
  ConversionTables_init (lower, upper) = Ok (t, ws, l, u) ->
  (exists l1 u1 l2 u2 l3 u3,
     extract_ranges lower (Some upper) = Ok (character_case_ranges t, l1, Some u1) /\
     extract_character_pair_ranges l1 u1 = Ok (character_pair_ranges t, l2, u2) /\
     extract_character_pairs l2 u2 = Ok (character_pairs t, l3, u3) /\
     (forall s m n i,
        (s, m, n) ∈ uniform_ranges (character_case_ranges t).1
                                   (character_case_ranges t).2 ->
        0 <= i < n -> bidirectional lower upper (s + i) (m + i)) /\
     (forall p c,
        p ∈ pair_ranges (character_pair_ranges t).1 (character_pair_ranges t).2 ->
        c ∈ pair_domain p ->
        bidirectional l1 u1 c (c + 1) /\ bidirectional lower upper c (c + 1)) /\
     (forall a b,
        (a, b) ∈ singleton_pairs (character_pairs t) ->
        bidirectional l2 u2 a b /\ bidirectional lower upper a b)) /\
  (forall c lc rc,
     is_bidirectional_conversion c lc rc = Ok true <->
     exists m, dict_get lc c = Some [m] /\ dict_get rc m = Some [c]).
Proof.
  intros Hwf H. split; [|intros c lc rc; apply is_bidirectional_conversion_true].
  apply ConversionTables_init_stages in H
    as (l1 & u1 & l2 & u2 & l3 & u3 & u4 & l5 & rc5 & E1 & E2 & E3 & _).
  exists l1, u1, l2, u2, l3, u3.
  split; [exact E1|]. split; [exact E2|]. split; [exact E3|].
  destruct (extract_ranges_no_adjacent_swap_pairs _ _ _ _ _ Hwf E1)
    as (Hsl1 & Hsu1 & Hwl1 & Hnoadj).
  destruct (character_case_ranges t) as [a1 b1].
  destruct (character_pair_ranges t) as [a2 b2]. cbn [fst snd].
  apply (extract_ranges_run _ _ _ _ _ _ Hwf) in E1
    as (rs & -> & -> & Hok1 & _).
  apply (extract_character_pair_ranges_run _ _ _ _ _ _ Hwl1) in E2
    as (ps & -> & -> & Hok2 & _ & Hdom & Hl2 & Hu2).
  apply extract_character_pairs_run in E3 as (qs & -> & Hok3 & _).
  rewrite uniform_ranges_flat, singleton_pairs_flat.
  unfold pair_ranges. rewrite zip_fst_snd.
  rewrite Forall_forall in Hok1. rewrite Forall_forall in Hok2.
  rewrite Forall_forall in Hok3.
  specialize (Hdom Hnoadj). rewrite Forall_forall in Hdom.
  split; [|split].
  - intros s m n i Hr Hi. destruct (Hok1 _ Hr) as [_ Hrange]. exact (Hrange i Hi).
  - intros p c Hp Hc.
    destruct (elem_of_pair_domain p c) as (j & -> & Hj);
      [apply (Hok2 _ Hp) | exact Hc |].
    pose proof (Hdom p Hp j Hj) as Hsw. split; [exact Hsw|].
    exact (bidirectional_sub _ _ _ _ _ _ Hsl1 Hsu1 Hsw).
  - intros a b Hq. pose proof (Hok3 _ Hq) as Hb. cbn [fst snd] in Hb.
    split; [exact Hb|].
    apply (bidirectional_sub l1 u1); [exact Hsl1 | exact Hsu1 |].
    exact (bidirectional_sub _ _ _ _ _ _ (dict_delitems_sub _ _ _ Hl2)
             (dict_delitems_sub _ _ _ Hu2) Hb).
Qed.

Lemma bidirectional_tiers_round_trip_witness :
  (exists l1 u1 l2 u2 l3 u3,
     extract_ranges sample_lower (Some sample_upper) =
       Ok (character_case_ranges sample_tables, l1, Some u1) /\
     extract_character_pair_ranges l1 u1 =
       Ok (character_pair_ranges sample_tables, l2, u2) /\
     extract_character_pairs l2 u2 = Ok (character_pairs sample_tables, l3, u3) /\
     (forall s m n i,
        (s, m, n) ∈ uniform_ranges (character_case_ranges sample_tables).1
                                   (character_case_ranges sample_tables).2 ->
        0 <= i < n -> bidirectional sample_lower sample_upper (s + i) (m + i)) /\
     (forall p c,
        p ∈ pair_ranges (character_pair_ranges sample_tables).1
                        (character_pair_ranges sample_tables).2 ->
        c ∈ pair_domain p ->
        bidirectional l1 u1 c (c + 1) /\
        bidirectional sample_lower sample_upper c (c + 1)) /\
     (forall a b,
        (a, b) ∈ singleton_pairs (character_pairs sample_tables) ->
        bidirectional l2 u2 a b /\ bidirectional sample_lower sample_upper a b)) /\
  (forall c lc rc,
     is_bidirectional_conversion c lc rc = Ok true <->
     exists m, dict_get lc c = Some [m] /\ dict_get rc m = Some [c]).
Proof.
  apply (bidirectional_tiers_round_trip sample_lower sample_upper sample_tables
           [] [] []).
  - apply NoDup_bool_decide. vm_compute. reflexivity.
  - vm_compute. reflexivity.
Defined.

(** Outside the pipeline, on maps in which consecutive code points both
    start a swap pair, [extract_character_pair_ranges] extends the range
    opened at 10 when it meets 11: the range (10, 4) then covers 12, which
    maps to two code points.  The two-way [extract_ranges] that runs first
    in the pipeline takes such code points away. *)
Example extract_character_pair_ranges_adjacent :
  extract_character_pair_ranges
    [(9, [10]); (10, [11]); (11, [12]); (12, [1; 2])]
    [(10, [9]); (11, [10]); (12, [11]); (13, [5])] =
  Ok (([9; 10], [2; 4]), [(11, [12])], [(12, [11])]).
Proof. vm_compute. reflexivity. Qed.

(** * Determinism: the insertion order of the maps does not matter *)

Lemma result_rel_bind {A A' B B' : Type}
    (R : A -> A' -> Prop) (R' : B -> B' -> Prop)
    (m : result A) (m' : result A') (f : A -> result B) (f' : A' -> result B') :
  result_rel R m m' ->
  (forall a a', R a a' -> result_rel R' (f a) (f' a')) ->
  result_rel R' (m ≫= f) (m' ≫= f').
Proof.
  intros Hm Hf. destruct m as [a|e], m' as [a'|e']; simpl in *;
    try contradiction; [apply Hf, Hm | exact Hm].
Qed.

Lemma result_rel_eq_bind {A B B' : Type} (R' : B -> B' -> Prop)
    (m : result A) (f : A -> result B) (f' : A -> result B') :
  (forall a, m = Ok a -> result_rel R' (f a) (f' a)) ->
  result_rel R' (m ≫= f) (m ≫= f').
Proof.
  intros Hf. destruct m as [a|e]; simpl; [apply Hf; reflexivity | reflexivity].
Qed.

Lemma dict_same_Permutation (d d' : dict) :
  dict_wf d -> d ≡ₚ d' -> dict_same d d'.
Proof.
  intros Hwf Hp.
  assert (dict_wf d') as Hwf'.
  { unfold dict_wf, dict_keys in *. rewrite <- Hp. exact Hwf. }
  split; [exact Hwf|]. split; [exact Hwf'|].
  assert (forall (d : dict) k v, dict_wf d ->
            (dict_get d k = Some v <-> (k, v) ∈ d)) as Hget.
  { clear. intros d k v. induction d as [|[k' v'] d IH]; intros Hwf.
    - simpl. rewrite elem_of_nil. split; [discriminate | tauto].
    - unfold dict_wf, dict_keys in Hwf. rewrite fmap_cons in Hwf.
      apply NoDup_cons in Hwf as [Hk' Hwf]. cbn [fst] in Hk'.
      simpl. rewrite elem_of_cons. destruct (decide (k = k')) as [->|Hne].
      + split; [intros [= ->]; left; reflexivity|].
        intros [[= ->]|Hin]; [reflexivity|].
        destruct Hk'. apply list_elem_of_fmap. exists (k', v). split; auto.
      + rewrite (IH Hwf). split; [tauto|]. intros [[= -> _]|H]; [contradiction|exact H]. }
  intros k. destruct (dict_get d k) as [v|] eqn:Hg.
  - symmetry. apply (Hget d' k v Hwf'). rewrite <- Hp. apply (Hget d k v Hwf), Hg.
  - destruct (dict_get d' k) as [v|] eqn:Hg'; [|reflexivity].
    apply (Hget d' k v Hwf') in Hg'. rewrite <- Hp in Hg'.
    apply (Hget d k v Hwf) in Hg'. congruence.
Qed.

Lemma dict_contains_equiv (d d' : dict) (k : Z) :
  dict_equiv d d' -> dict_contains d k = dict_contains d' k.
Proof. intros H. unfold dict_contains. rewrite (H k). reflexivity. Qed.

Lemma dict_getitem_equiv (d d' : dict) (k : Z) :
  dict_equiv d d' -> dict_getitem d k = dict_getitem d' k.
Proof. intros H. unfold dict_getitem. rewrite (H k). reflexivity. Qed.

Lemma dict_delitem_same (d d' : dict) (k : Z) :
  dict_same d d' -> result_rel dict_same (dict_delitem d k) (dict_delitem d' k).
Proof.
  intros (Hwf & Hwf' & Heq). unfold dict_delitem.
  rewrite (dict_contains_equiv d d' k Heq).
  destruct (dict_contains d' k); simpl; [|reflexivity].
  split; [apply dict_wf_remove, Hwf|]. split; [apply dict_wf_remove, Hwf'|].
  intros k'. rewrite !dict_get_remove, (Heq k'). reflexivity.
Qed.

Lemma dict_truth_same (d d' : dict) :
  dict_same d d' -> dict_truth d = dict_truth d'.
Proof.
  intros (_ & _ & Heq). destruct d as [|[k v] d], d' as [|[k' v'] d'];
    try reflexivity.
  - specialize (Heq k'). simpl in Heq.
    destruct (decide (k' = k')); [discriminate | contradiction].
  - specialize (Heq k). simpl in Heq.
    destruct (decide (k = k)); [discriminate | contradiction].
Qed.

Lemma is_bidirectional_conversion_equiv c lc rc lc' rc' :
  dict_equiv lc lc' -> dict_equiv rc rc' ->
  is_bidirectional_conversion c lc rc = is_bidirectional_conversion c lc' rc'.
Proof.
  intros Hl Hr. rewrite !is_bidirectional_conversion_spec, (Hl c).
  destruct (dict_get lc' c) as [[|m [|m' v]]|]; try reflexivity.
  rewrite (Hr m). reflexivity.
Qed.

Lemma calculate_conversion_distance_equiv lc lc' c :
  dict_equiv lc lc' ->
  calculate_conversion_distance lc c = calculate_conversion_distance lc' c.
Proof.
  intros Hl. rewrite !calculate_conversion_distance_cases, (Hl c). reflexivity.
Qed.

(** ** The scanning loops read the maps only *)

Lemma extract_ranges_body_equiv lc rc lc' rc' st a :
  dict_equiv lc lc' ->
  match rc, rc' with
  | Some d, Some d' => dict_equiv d d'
  | None, None => True
  | _, _ => False
  end ->
  extract_ranges_body lc rc st a = extract_ranges_body lc' rc' st a.
Proof.
  intros Hl Hr. destruct st as [[[ir rp] ranges] lengths].
  unfold extract_ranges_body.
  rewrite !(calculate_conversion_distance_equiv lc lc' _ Hl).
  rewrite !(dict_getitem_equiv lc lc' _ Hl).
  rewrite !(dict_contains_equiv lc lc' _ Hl).
  destruct rc as [d|], rc' as [d'|]; try contradiction; [|reflexivity].
  rewrite !(is_bidirectional_conversion_equiv _ lc d lc' d' Hl Hr). reflexivity.
Qed.

Lemma extract_character_pair_ranges_body_equiv lc rc lc' rc' st a :
  dict_equiv lc lc' -> dict_equiv rc rc' ->
  extract_character_pair_ranges_body lc rc st a =
  extract_character_pair_ranges_body lc' rc' st a.
Proof.
  intros Hl Hr. destruct st as [[[sp ls] ir] ec].
  unfold extract_character_pair_ranges_body.
  rewrite !(is_bidirectional_conversion_equiv _ lc rc lc' rc' Hl Hr).
  rewrite !(dict_getitem_equiv lc lc' _ Hl). reflexivity.
Qed.

Lemma extract_special_ranges_body_equiv lc lc' st a :
  dict_equiv lc lc' ->
  extract_special_ranges_body lc st a = extract_special_ranges_body lc' st a.
Proof.
  intros Hl. destruct st as [[[ranges lengths] rp] ir].
  unfold extract_special_ranges_body.
  rewrite !(dict_getitem_equiv lc lc' _ Hl).
  rewrite !(dict_contains_equiv lc lc' _ Hl). reflexivity.
Qed.

(** ** The removal loops delete the same keys *)

Lemma extract_ranges_remove_same ranges lengths st st' idx :
  pair_option_same st st' ->
  result_rel pair_option_same
    (extract_ranges_remove ranges lengths st idx)
    (extract_ranges_remove ranges lengths st' idx).
Proof.
  intros Hst. unfold extract_ranges_remove.
  apply result_rel_eq_bind. intros n _.
  apply foldM_rel; [|exact Hst]. clear st st' Hst.
  intros [lc rc] [lc' rc'] incr [Hl Hr]. cbn [fst snd] in Hl, Hr.
  apply result_rel_eq_bind. intros s _.
  apply (result_rel_bind dict_same); [apply dict_delitem_same, Hl|].
  intros d d' Hd. destruct rc as [r|], rc' as [r'|]; try contradiction.
  - apply result_rel_eq_bind. intros m _.
    apply (result_rel_bind dict_same); [apply dict_delitem_same, Hr|].
    intros e e' He. split; assumption.
  - split; [exact Hd | exact I].
Qed.

Lemma extract_character_pair_ranges_remove_same sp ls st st' idx :
  pair_same st st' ->
  result_rel pair_same
    (extract_character_pair_ranges_remove sp ls st idx)
    (extract_character_pair_ranges_remove sp ls st' idx).
Proof.
  intros Hst. unfold extract_character_pair_ranges_remove.
  apply result_rel_eq_bind. intros s _.
  apply result_rel_eq_bind. intros n _.
  apply foldM_rel; [|exact Hst]. clear st st' Hst.
  intros [lc rc] [lc' rc'] incr [Hl Hr]. cbn [fst snd] in Hl, Hr.
  apply (result_rel_bind dict_same); [apply dict_delitem_same, Hl|].
  intros d d' Hd.
  apply (result_rel_bind dict_same); [apply dict_delitem_same, Hr|].
  intros e e' He. split; assumption.
Qed.

Lemma extract_special_ranges_remove_same ranges lengths lc lc' idx :
  dict_same lc lc' ->
  result_rel dict_same
    (extract_special_ranges_remove ranges lengths lc idx)
    (extract_special_ranges_remove ranges lengths lc' idx).
Proof.
  intros Hst. unfold extract_special_ranges_remove.
  apply result_rel_eq_bind. intros n _.
  apply result_rel_eq_bind. intros s _.
  apply foldM_rel; [|exact Hst]. clear lc lc' Hst.
  intros lc lc' incr Hl.
  apply result_rel_eq_bind. intros s' _. apply dict_delitem_same, Hl.
Qed.

(** ** The extractors *)

Lemma extract_ranges_same lc rc lc' rc' :
  dict_same lc lc' -> option_same rc rc' ->
  result_rel (fun x y => x.1.1 = y.1.1 /\ dict_same x.1.2 y.1.2 /\
                         option_same x.2 y.2)
    (extract_ranges lc rc) (extract_ranges lc' rc').
Proof.
  intros Hl Hr. unfold extract_ranges.
  destruct Hl as (Hwf & Hwf' & Heq).
  rewrite <- (sorted_keys_equiv lc lc' Hwf Hwf' Heq).
  rewrite (foldM_ext (extract_ranges_body lc' rc') (extract_ranges_body lc rc)).
  2:{ intros st a _. symmetry. apply extract_ranges_body_equiv; [exact Heq|].
      destruct rc, rc'; try contradiction; [apply Hr | exact I]. }
  apply result_rel_eq_bind. intros [[[ir rp] ranges] lengths] _.
  apply (result_rel_bind pair_option_same).
  - apply foldM_rel.
    + intros st st' idx Hst. apply extract_ranges_remove_same, Hst.
    + split; [repeat split; assumption | exact Hr].
  - intros [d r] [d' r'] [Hd Hr']. cbn [result_rel fst snd].
    split; [reflexivity|]. split; assumption.
Qed.

Lemma extract_character_pair_ranges_same lc rc lc' rc' :
  dict_same lc lc' -> dict_same rc rc' ->
  result_rel (fun x y => x.1.1 = y.1.1 /\ dict_same x.1.2 y.1.2 /\
                         dict_same x.2 y.2)
    (extract_character_pair_ranges lc rc) (extract_character_pair_ranges lc' rc').
Proof.
  intros Hl Hr. unfold extract_character_pair_ranges.
  destruct Hl as (Hwf & Hwf' & Heq).
  rewrite <- (sorted_keys_equiv lc lc' Hwf Hwf' Heq).
  rewrite (foldM_ext (extract_character_pair_ranges_body lc' rc')
             (extract_character_pair_ranges_body lc rc)).
  2:{ intros st a _. symmetry.
      apply extract_character_pair_ranges_body_equiv; [exact Heq | apply Hr]. }
  apply result_rel_eq_bind. intros [[[sp ls] ir] ec] _.
  apply (result_rel_bind pair_same).
  - apply foldM_rel.
    + intros st st' idx Hst. apply extract_character_pair_ranges_remove_same, Hst.
    + split; [repeat split; assumption | exact Hr].
  - intros [d r] [d' r'] [Hd Hr']. cbn [result_rel fst snd].
    split; [reflexivity|]. split; assumption.
Qed.

Lemma extract_special_ranges_same lc lc' :
  dict_same lc lc' ->
  result_rel (fun x y => x.1 = y.1 /\ dict_same x.2 y.2)
    (extract_special_ranges lc) (extract_special_ranges lc').
Proof.
  intros Hl. unfold extract_special_ranges.
  pose proof Hl as (Hwf & Hwf' & Heq).
  rewrite <- (sorted_keys_equiv lc lc' Hwf Hwf' Heq).
  rewrite (foldM_ext (extract_special_ranges_body lc')
             (extract_special_ranges_body lc)).
  2:{ intros st a _. symmetry.
      apply extract_special_ranges_body_equiv; exact Heq. }
  apply result_rel_eq_bind. intros [[[ranges lengths] rp] ir] _.
  apply (result_rel_bind dict_same).
  - apply foldM_rel; [|exact Hl].
    intros st st' idx Hst. apply extract_special_ranges_remove_same, Hst.
  - intros d d' Hd. split; [reflexivity | exact Hd].
Qed.

Lemma extract_character_pairs_body_same st st' a :
  st.1.1 = st'.1.1 /\ dict_same st.1.2 st'.1.2 /\ dict_same st.2 st'.2 ->
  result_rel (fun x y => x.1.1 = y.1.1 /\ dict_same x.1.2 y.1.2 /\
                         dict_same x.2 y.2)
    (extract_character_pairs_body st a) (extract_character_pairs_body st' a).
Proof.
  destruct st as [[pairs lc] rc], st' as [[pairs' lc'] rc'].
  cbn [fst snd]. intros (<- & Hl & Hr). unfold extract_character_pairs_body.
  rewrite (is_bidirectional_conversion_equiv a lc rc lc' rc')
    by (apply Hl || apply Hr).
  apply result_rel_eq_bind. intros b _. destruct b.
  2:{ cbn [result_rel fst snd]. split; [reflexivity|]. split; assumption. }
  rewrite (dict_getitem_equiv lc lc' a) by apply Hl.
  apply result_rel_eq_bind. intros v _.
  apply result_rel_eq_bind. intros m _.
  apply (result_rel_bind dict_same); [apply dict_delitem_same, Hl|].
  intros d d' Hd.
  apply result_rel_eq_bind. intros m' _.
  apply (result_rel_bind dict_same); [apply dict_delitem_same, Hr|].
  intros e e' He. cbn [result_rel fst snd].
  split; [reflexivity|]. split; assumption.
Qed.

Lemma extract_character_pairs_same lc rc lc' rc' :
  dict_same lc lc' -> dict_same rc rc' ->
  result_rel (fun x y => x.1.1 = y.1.1 /\ dict_same x.1.2 y.1.2 /\
                         dict_same x.2 y.2)
    (extract_character_pairs lc rc) (extract_character_pairs lc' rc').
Proof.
  intros Hl Hr. unfold extract_character_pairs.
  destruct Hl as (Hwf & Hwf' & Heq).
  rewrite <- (sorted_keys_equiv lc lc' Hwf Hwf' Heq).
  apply foldM_rel.
  - intros st st' a Hst. apply extract_character_pairs_body_same, Hst.
  - cbn [fst snd]. split; [reflexivity|]. split; [|exact Hr].
    split; [exact Hwf|]. split; [exact Hwf' | exact Heq].
Qed.

Lemma extract_conversions_body1_same st st' a :
  buckets_same st st' ->
  result_rel buckets_same
    (extract_conversions_body1 st a) (extract_conversions_body1 st' a).
Proof.
  destruct st as [us lc], st' as [us' lc']. intros [Hus Hl].
  cbn [fst snd] in Hus, Hl. subst us'. unfold extract_conversions_body1.
  rewrite (dict_getitem_equiv lc lc' a) by apply Hl.
  apply result_rel_eq_bind. intros v _.
  destruct (negb (bool_decide (len v = 1))); [split; [reflexivity | exact Hl]|].
  repeat (apply result_rel_eq_bind; intros ? _).
  apply (result_rel_bind dict_same); [apply dict_delitem_same, Hl|].
  intros d d' Hd. split; [reflexivity | exact Hd].
Qed.

Lemma extract_conversions_body2_same st st' a :
  buckets_same st st' ->
  result_rel buckets_same
    (extract_conversions_body2 st a) (extract_conversions_body2 st' a).
Proof.
  destruct st as [us lc], st' as [us' lc']. intros [Hus Hl].
  cbn [fst snd] in Hus, Hl. subst us'. unfold extract_conversions_body2.
  rewrite (dict_getitem_equiv lc lc' a) by apply Hl.
  apply result_rel_eq_bind. intros v _.
  destruct (negb (bool_decide (len v = 2))); [split; [reflexivity | exact Hl]|].
  repeat (apply result_rel_eq_bind; intros ? _).
  apply (result_rel_bind dict_same); [apply dict_delitem_same, Hl|].
  intros d d' Hd. split; [reflexivity | exact Hd].
Qed.

Lemma extract_conversions_body3_same st st' a :
  buckets_same st st' ->
  result_rel buckets_same
    (extract_conversions_body3 st a) (extract_conversions_body3 st' a).
Proof.
  destruct st as [us lc], st' as [us' lc']. intros [Hus Hl].
  cbn [fst snd] in Hus, Hl. subst us'. unfold extract_conversions_body3.
  rewrite (dict_getitem_equiv lc lc' a) by apply Hl.
  apply result_rel_eq_bind. intros v _.
  destruct (negb (bool_decide (len v = 3))); [split; [reflexivity | exact Hl]|].
  repeat (apply result_rel_eq_bind; intros ? _).
  apply (result_rel_bind dict_same); [apply dict_delitem_same, Hl|].
  intros d d' Hd. split; [reflexivity | exact Hd].
Qed.

Lemma conversions_loop_same
    (body : list (list Z) * dict -> Z -> result (list (list Z) * dict))
    (us : list (list Z)) (lc lc' : dict) :
  (forall st st' a, buckets_same st st' ->
                    result_rel buckets_same (body st a) (body st' a)) ->
  dict_same lc lc' ->
  result_rel buckets_same
    (foldM body (sorted (dict_keys lc)) (us, lc))
    (foldM body (sorted (dict_keys lc')) (us, lc')).
Proof.
  intros Hbody Hl. pose proof Hl as (Hwf & Hwf' & Heq).
  rewrite <- (sorted_keys_equiv lc lc' Hwf Hwf' Heq).
  apply foldM_rel; [exact Hbody|]. split; [reflexivity | exact Hl].
Qed.

Lemma extract_conversions_same lc lc' :
  dict_same lc lc' ->
  result_rel (fun x y => x.1 = y.1 /\ dict_same x.2 y.2)
    (extract_conversions lc) (extract_conversions lc').
Proof.
  intros Hl. unfold extract_conversions. cbv zeta.
  apply (result_rel_bind buckets_same).
  { apply conversions_loop_same; [apply extract_conversions_body1_same | exact Hl]. }
  intros [us1 d1] [us1' d1'] [Hus1 Hd1]. cbn [fst snd] in Hus1, Hd1. subst us1'.
  apply (result_rel_bind buckets_same).
  { apply conversions_loop_same; [apply extract_conversions_body2_same | exact Hd1]. }
  intros [us2 d2] [us2' d2'] [Hus2 Hd2]. cbn [fst snd] in Hus2, Hd2. subst us2'.
  apply (result_rel_bind buckets_same).
  { apply conversions_loop_same; [apply extract_conversions_body3_same | exact Hd2]. }
  intros [us3 d3] [us3' d3'] [Hus3 Hd3]. cbn [fst snd] in Hus3, Hd3. subst us3'.
  repeat (apply result_rel_eq_bind; intros ? _).
  split; [reflexivity | exact Hd3].
Qed.

(** ** The constructor *)

Lemma ConversionTables_init_same lower upper lower' upper' :
  dict_same lower lower' -> dict_same upper upper' ->
  result_rel same_tables
    (ConversionTables_init (lower, upper)) (ConversionTables_init (lower', upper')).
Proof.
  intros Hl Hu. unfold ConversionTables_init. cbn [fst snd].
  eapply result_rel_bind; [apply (extract_ranges_same _ (Some upper) _ (Some upper'));
                           [exact Hl | exact Hu]|].
  intros [[r1 l1] u1] [[r1' l1'] u1'] (Hr1 & Hl1 & Hu1).
  cbn [fst snd] in Hr1, Hl1, Hu1. subst r1'.
  destruct u1 as [u1|], u1' as [u1'|]; try contradiction; [|reflexivity].
  rewrite !bind_Ok.
  eapply result_rel_bind; [apply extract_character_pair_ranges_same;
                           [exact Hl1 | exact Hu1]|].
  intros [[r2 l2] u2] [[r2' l2'] u2'] (Hr2 & Hl2 & Hu2).
  cbn [fst snd] in Hr2, Hl2, Hu2. subst r2'.
  eapply result_rel_bind; [apply extract_character_pairs_same;
                           [exact Hl2 | exact Hu2]|].
  intros [[r3 l3] u3] [[r3' l3'] u3'] (Hr3 & Hl3 & Hu3).
  cbn [fst snd] in Hr3, Hl3, Hu3. subst r3'.
  eapply result_rel_bind; [apply extract_special_ranges_same; exact Hu3|].
  intros [r4 u4] [r4' u4'] (Hr4 & Hu4). cbn [fst snd] in Hr4, Hu4. subst r4'.
  eapply result_rel_bind; [apply (extract_ranges_same _ None _ None);
                           [exact Hl3 | exact I]|].
  intros [[r5 l5] rc5] [[r5' l5'] rc5'] (Hr5 & Hl5 & _).
  cbn [fst snd] in Hr5, Hl5. subst r5'.
  eapply result_rel_bind; [apply extract_conversions_same; exact Hl5|].
  intros [r6 l6] [r6' l6'] (Hr6 & Hl6). cbn [fst snd] in Hr6, Hl6. subst r6'.
  eapply result_rel_bind; [apply extract_conversions_same; exact Hu4|].
  intros [r7 u7] [r7' u7'] (Hr7 & Hu7). cbn [fst snd] in Hr7, Hu7. subst r7'.
  cbn [result_rel]. unfold same_tables. cbn [fst snd].
  rewrite (dict_truth_same l6 l6' Hl6), (dict_truth_same u7 u7' Hu7).
  split; reflexivity.
Qed.

(** C9: the pipeline is deterministic in the mapping alone.  Two case
    maps that hold the same key-to-value mapping, whatever the insertion
    order of their keys, are visited in the same strictly ascending order
    of code points, and the two runs of the constructor either raise the
    same exception or return identical tables and identical warnings. *)
Theorem pipeline_deterministic lower upper lower' upper' :
  dict_wf lower -> dict_wf upper -> dict_wf lower' -> dict_wf upper' ->
  dict_equiv lower lower' -> dict_equiv upper upper' ->
  sorted (dict_keys lower) = sorted (dict_keys lower') /\
  sorted (dict_keys upper) = sorted (dict_keys upper') /\
  StronglySorted Z.lt (sorted (dict_keys lower)) /\
  StronglySorted Z.lt (sorted (dict_keys upper)) /\
  result_rel same_tables
    (ConversionTables_init (lower, upper)) (ConversionTables_init (lower', upper')).
Proof.
  intros Hwl Hwu Hwl' Hwu' Hl Hu.
  split; [apply sorted_keys_equiv; assumption|].
  split; [apply sorted_keys_equiv; assumption|].
  split; [apply sorted_keys_strict, Hwl|].
  split; [apply sorted_keys_strict, Hwu|].
  apply ConversionTables_init_same; repeat split; assumption.
Qed.

Lemma pipeline_deterministic_witness :
  sorted (dict_keys sample_lower) = sorted (dict_keys (reverse sample_lower)) /\
  sorted (dict_keys sample_upper) = sorted (dict_keys (reverse sample_upper)) /\
  StronglySorted Z.lt (sorted (dict_keys sample_lower)) /\
  StronglySorted Z.lt (sorted (dict_keys sample_upper)) /\
  result_rel same_tables
    (ConversionTables_init (sample_lower, sample_upper))
    (ConversionTables_init (reverse sample_lower, reverse sample_upper)).
Proof.
  assert (dict_wf sample_lower) as Hwl
    by (apply NoDup_bool_decide; vm_compute; reflexivity).
  assert (dict_wf sample_upper) as Hwu
    by (apply NoDup_bool_decide; vm_compute; reflexivity).
  apply (pipeline_deterministic sample_lower sample_upper
           (reverse sample_lower) (reverse sample_upper)).
  - exact Hwl.
  - exact Hwu.
  - apply NoDup_bool_decide. vm_compute. reflexivity.
  - apply NoDup_bool_decide. vm_compute. reflexivity.
  - apply (dict_same_Permutation sample_lower (reverse sample_lower) Hwl).
    symmetry. apply reverse_Permutation.
  - apply (dict_same_Permutation sample_upper (reverse sample_upper) Hwu).
    symmetry. apply reverse_Permutation.
Defined.

Example reversed_sample_run :
  ConversionTables_init (reverse sample_lower, reverse sample_upper) =
  Ok (sample_tables, [], [], []).
Proof. vm_compute. reflexivity. Qed.

(** * Reading the special-casing records *)

Lemma str_find_from_spec (s : str) (c : Z) : forall pos,
  0 <= pos ->
  (c ∈ s -> pos <= str_find_from pos s c) /\
  (c ∉ s -> str_find_from pos s c = -1).
Proof.
  induction s as [|c' s IH]; intros pos Hpos; simpl.
  - split; [intros H; apply elem_of_nil in H; contradiction | reflexivity].
  - destruct (decide (c' = c)) as [->|Hne].
    + split; [lia|]. intros H. destruct H. left.
    + destruct (IH (pos + 1)) as [H1 H2]; [lia|]. split.
      * intros H. apply elem_of_cons in H as [->|H]; [contradiction|].
        specialize (H1 H). lia.
      * intros H. apply H2. intros Hin. apply H. right. exact Hin.
Qed.

Lemma blank_if_comment_spec (i : str) :
  (35 ∈ i -> blank_if_comment i = []) /\
  (35 ∉ i -> blank_if_comment i = i).
Proof.
  unfold blank_if_comment, str_find.
  destruct (str_find_from_spec i 35 0) as [H1 H2]; [lia|]. split; intros H.
  - specialize (H1 H). destruct (Z.leb_spec 0 (str_find_from 0 i 35)); [reflexivity|lia].
  - rewrite (H2 H). reflexivity.
Qed.

Lemma len_cons {A : Type} (x : A) (l : list A) : len (x :: l) = 1 + len l.
Proof. unfold len. cbn [length]. lia. Qed.

Lemma replace_comment_fields_loop (post : list str) : forall done : list str,
  foldM (fun (line : list str) (p : Z * str) =>
           let '(idx, i) := p in
           if 0 <=? str_find i 35 then list_setitem line idx [] else Ok line)
        (zip (seqZ (len done) (len post)) post) (done ++ post) =
  Ok (done ++ (blank_if_comment <$> post)).
Proof.
  induction post as [|i post IH]; intros done; [reflexivity|].
  rewrite seqZ_cons by (rewrite len_cons; pose proof (len_nonneg post); lia).
  replace (Z.pred (len (i :: post))) with (len post) by (rewrite len_cons; lia).
  replace (Z.succ (len done)) with (len (done ++ [blank_if_comment i]))
    by (rewrite len_app, len_cons; unfold len; simpl; lia).
  cbn [zip zip_with foldM]. rewrite fmap_cons.
  replace (done ++ blank_if_comment i :: (blank_if_comment <$> post))
    with ((done ++ [blank_if_comment i]) ++ (blank_if_comment <$> post))
    by (rewrite <- app_assoc; reflexivity).
  rewrite <- IH. unfold blank_if_comment at 3.
  destruct (0 <=? str_find i 35).
  - rewrite (list_setitem_middle done post i []) by reflexivity.
    rewrite bind_Ok, <- app_assoc. reflexivity.
  - rewrite bind_Ok, <- app_assoc. reflexivity.
Qed.

(** Lines 272-274 replace every field in which [#] occurs by the empty
    string and leave the others. *)
Lemma replace_comment_fields_spec (line : list str) :
  replace_comment_fields line = Ok (blank_if_comment <$> line).
Proof.
  unfold replace_comment_fields, enumerate.
  exact (replace_comment_fields_loop line []).
Qed.

(** C8 (as amended): when the special-casing source is parsed, every
    field in which [#] occurs is replaced as a whole by the empty string,
    the text before the [#] included; the fields without [#] and the
    number of fields are preserved.  What a record contributes to the case
    maps depends on the fields so blanked only: the data of a field that
    carries a trailing comment does not reach the case maps. *)
Theorem comment_fields_are_blanked (line : list str) :
  replace_comment_fields line = Ok (blank_if_comment <$> line) /\
  length (blank_if_comment <$> line) = length line /\
  (forall i, (35 ∈ i -> blank_if_comment i = []) /\
             (35 ∉ i -> blank_if_comment i = i)) /\
  (forall st line',
     comment_record line = false -> comment_record line' = false ->
     blank_if_comment <$> line = blank_if_comment <$> line' ->
     read_special_casing_line st line = read_special_casing_line st line').
Proof.
  split; [apply replace_comment_fields_spec|].
  split; [apply length_fmap|]. split; [apply blank_if_comment_spec|].
  intros [lower upper] line' Hc Hc' Hblank.
  destruct line as [|first fields]; [discriminate Hc|].
  destruct line' as [|first' fields']; [discriminate Hc'|].
  cbn [comment_record] in Hc, Hc'.
  unfold read_special_casing_line.
  rewrite !bool_decide_eq_false_2 by discriminate.
  change (list_getitem (first :: fields) 0) with (Ok first).
  change (list_getitem (first' :: fields') 0) with (Ok first').
  rewrite !bind_Ok, Hc, Hc', !replace_comment_fields_spec, Hblank. reflexivity.
Qed.

(** C8, the claim as stated fails: the upper-case field of this record
    carries the data [02BC 004E] before its trailing comment, and the
    record binds 0x0149 to the empty string in the upper-case map; the
    data reaches the map only when the comment is a field of its own. *)
Lemma inline_comment_loses_data :
  parse_unicode_sequence (py_str " 02BC 004E ") = Ok [0x02BC; 0x004E] /\
  read_special_casing_line ([], []) record_with_inline_comment =
    Ok ([(0x0149, [0x02BC; 0x006E])], [(0x0149, [])]) /\
  read_special_casing_line ([], []) record_with_comment_field =
    Ok ([(0x0149, [0x02BC; 0x006E])], [(0x0149, [0x02BC; 0x004E])]).
Proof. repeat split; vm_compute; reflexivity. Qed.

(** C7, the claim as stated fails: the upper-case map read from the record
    above binds 0x0149 to an output sequence whose length is not exactly 1
    (it is empty), and [calculate_conversion_distance] does not return
    [None] there: [ord] raises. *)
Lemma calculate_conversion_distance_empty_output :
  exists lower upper,
    read_case_mappings [] [record_with_inline_comment] = Ok (lower, upper) /\
    dict_get upper 0x0149 = Some [] /\
    len ([] : str) <> 1 /\
    calculate_conversion_distance upper 0x0149 = Raise TypeError /\
    calculate_conversion_distance upper 0x0149 <> Ok None.
Proof.
  do 2 eexists. split; [vm_compute; reflexivity|].
  repeat split; try reflexivity; discriminate.
Qed.

(** * The scenarios of the specification, run *)

(** Scenario A: one bidirectional range, and nothing in any other table. *)
Example scenario_A :
  ConversionTables_init (greek_lower, greek_upper) =
  Ok ({| character_case_ranges := ([0x0391; 0x03B1], [25]);
         character_pair_ranges := ([], []);
         character_pairs := [];
         upper_case_special_ranges := ([], []);
         lower_case_ranges := ([], []);
         lower_case_conversions := ([], [0; 0; 0]);
         upper_case_conversions := ([], [0; 0; 0]) |}, [], [], []).
Proof. vm_compute. reflexivity. Qed.

(** Scenario C: one special range with the shared second code point
    0x0399.  Its length is 7 for the 8 code points: the count starts at 1
    for the first two, and the last code point, 0x1F8F, is left for the
    residual table. *)
Example scenario_C :
  ConversionTables_init ([], ypogegrammeni_upper) =
  Ok ({| character_case_ranges := ([], []);
         character_pair_ranges := ([], []);
         character_pairs := [];
         upper_case_special_ranges := ([0x1F88; 0x1F08; 0x0399], [7]);
         lower_case_ranges := ([], []);
         lower_case_conversions := ([], [0; 0; 0]);
         upper_case_conversions := ([0x1F8F; 0x1F0F; 0x0399], [0; 1; 0]) |},
      [], [], []).
Proof. vm_compute. reflexivity. Qed.

(** Scenario D: the entry is in the arity-3 block of the lower-case
    residual table, counted in the third counter. *)
Example scenario_D :
  ConversionTables_init (three_outputs_lower, []) =
  Ok ({| character_case_ranges := ([], []);
         character_pair_ranges := ([], []);
         character_pairs := [];
         upper_case_special_ranges := ([], []);
         lower_case_ranges := ([], []);
         lower_case_conversions := ([0x2000; 0x61; 0x62; 0x63], [0; 0; 1]);
         upper_case_conversions := ([], [0; 0; 0]) |}, [], [], []).
Proof. vm_compute. reflexivity. Qed.
(** * Further properties: the bidirectional test and the singleton pairs *)

Lemma nonempty_outputs_bool_decide (d : dict) :
  bool_decide (Forall (fun kv : Z * str => kv.2 <> []) d) = true ->
  nonempty_outputs d.
Proof.
  intros H. apply bool_decide_eq_true_1 in H. rewrite Forall_forall in H.
  intros k v Hg. induction d as [|[k' v'] d IH]; [discriminate|].
  simpl in Hg. destruct (decide (k = k')) as [->|Hne].
  - injection Hg as ->. apply (H (k', v)). left.
  - apply IH; [|exact Hg]. intros x Hx. apply H. right. exact Hx.
Qed.

Lemma nonempty_outputs_sub (d d0 : dict) :
  dict_sub d d0 -> nonempty_outputs d0 -> nonempty_outputs d.
Proof. intros Hs H k v Hg. apply (H k v), Hs, Hg. Qed.

Lemma case_map_nonempty_outputs (d : dict) : case_map d -> nonempty_outputs d.
Proof.
  intros H k v Hg ->. apply H in Hg. unfold len in Hg. simpl in Hg. lia.
Qed.

(** X1: a bidirectional conversion is symmetric: when the test accepts
    [c], whose output is [m], against the maps [(lc, rc)], it accepts [m]
    against the swapped maps [(rc, lc)]. *)
Theorem is_bidirectional_conversion_symmetric (c m : Z) (lc rc : dict) :
  dict_get lc c = Some [m] ->
  is_bidirectional_conversion c lc rc = Ok true ->
  is_bidirectional_conversion m rc lc = Ok true.
Proof.
  intros Hc H. apply is_bidirectional_conversion_true in H as (m' & H1 & H2).
  assert (m' = m) as -> by congruence.
  apply is_bidirectional_conversion_true. exists c. split; assumption.
Qed.

Lemma is_bidirectional_conversion_symmetric_witness :
  is_bidirectional_conversion 0x03B1 greek_upper greek_lower = Ok true.
Proof.
  apply (is_bidirectional_conversion_symmetric 0x0391 0x03B1 greek_lower greek_upper).
  - vm_compute. reflexivity.
  - vm_compute. reflexivity.
Defined.

(** The exceptions of the bidirectional test. *)
Lemma is_bidirectional_conversion_error (c : Z) (lc rc : dict) (e : exn) :
  is_bidirectional_conversion c lc rc = Raise e ->
  e = TypeError /\
  (dict_get lc c = Some [] \/
   exists m, dict_get lc c = Some [m] /\ dict_get rc m = Some []).
Proof.
  rewrite is_bidirectional_conversion_spec.
  destruct (dict_get lc c) as [[|m [|m' v]]|] eqn:Hc; try discriminate.
  - intros [= <-]. auto.
  - destruct (dict_get rc m) as [[|c' [|c'' v]]|] eqn:Hr; try discriminate.
    intros [= <-]. split; [reflexivity|]. right. eauto.
Qed.

(** X2: the bidirectional test never raises [KeyError] or [IndexError]:
    a code point that is absent from the forward map, or whose output is
    absent from the reverse map, is answered with [False].  The only
    exception is the [TypeError] of [ord] on an empty string, raised
    exactly when the output of the code point is empty, or is a single
    code point whose reverse output is empty. *)
Theorem is_bidirectional_conversion_raises (c : Z) (lc rc : dict) (e : exn) :
  is_bidirectional_conversion c lc rc = Raise e <->
  e = TypeError /\
  (dict_get lc c = Some [] \/
   exists m, dict_get lc c = Some [m] /\ dict_get rc m = Some []).
Proof.
  split; [apply is_bidirectional_conversion_error|].
  rewrite is_bidirectional_conversion_spec.
  intros [-> [H|(m & H1 & H2)]].
  - rewrite H. reflexivity.
  - rewrite H1, H2. reflexivity.
Qed.

(** ** [extract_character_pairs], exactly *)

Lemma select_bidirectional_remove lc rc (a m : Z) (ks : list Z) :
  a ∉ ks -> dict_get rc m = Some [a] ->
  select_bidirectional (dict_remove lc a) (dict_remove rc m) ks =
  select_bidirectional lc rc ks.
Proof.
  intros Ha Hm. unfold select_bidirectional.
  induction ks as [|k ks IH]; [reflexivity|].
  apply not_elem_of_cons in Ha as [Hne Ha].
  cbn [omap list_omap]. rewrite (IH Ha). rewrite dict_get_remove.
  rewrite decide_False by congruence.
  destruct (dict_get lc k) as [[|m' [|m'' v]]|]; try reflexivity.
  rewrite dict_get_remove. destruct (decide (m' = m)) as [->|Hm'].
  - rewrite Hm. rewrite !decide_False; [reflexivity| |discriminate].
    intros [= H]. congruence.
  - reflexivity.
Qed.

Lemma elem_of_select_bidirectional lc rc (ks : list Z) (c m : Z) :
  (c, m) ∈ select_bidirectional lc rc ks <-> c ∈ ks /\ bidirectional lc rc c m.
Proof.
  unfold select_bidirectional, bidirectional. rewrite list_elem_of_omap. split.
  - intros (k & Hk & H).
    destruct (dict_get lc k) as [[|m' [|m'' v]]|] eqn:Hg; try discriminate.
    destruct (decide (dict_get rc m' = Some [k])) as [Hr|]; [|discriminate].
    injection H as <- <-. auto.
  - intros (Hk & H1 & H2). exists c. split; [exact Hk|].
    rewrite H1. rewrite decide_True by exact H2. reflexivity.
Qed.

(** The loop of [extract_character_pairs] over distinct keys returns,
    with exactly the bidirectional pairs among them. *)
Lemma extract_character_pairs_loop_exact (ks : list Z) :
  forall pairs lc rc,
  NoDup ks -> nonempty_outputs lc -> nonempty_outputs rc ->
  exists lc' rc',
    foldM extract_character_pairs_body ks (pairs, lc, rc) =
    Ok (pairs ++ flat_pairs (select_bidirectional lc rc ks), lc', rc').
Proof.
  induction ks as [|a ks IH]; intros pairs lc rc Hnd Hlc Hrc.
  - exists lc, rc. cbn [foldM]. unfold select_bidirectional, flat_pairs. simpl.
    rewrite app_nil_r. reflexivity.
  - apply NoDup_cons in Hnd as [Ha Hnd]. cbn [foldM].
    unfold extract_character_pairs_body at 2.
    destruct (is_bidirectional_conversion a lc rc) as [[|]|e] eqn:Eb.
    + apply is_bidirectional_conversion_true in Eb as [m [H1 H2]].
      rewrite bind_Ok.
      rewrite (proj2 (dict_getitem_Ok lc a [m]) H1), bind_Ok.
      cbn [ord]. rewrite bind_Ok.
      rewrite (dict_delitem_present lc a [m] H1), !bind_Ok.
      rewrite (dict_delitem_present rc m [a] H2), !bind_Ok.
      destruct (IH (pairs ++ [a; m]) (dict_remove lc a) (dict_remove rc m) Hnd)
        as (lc' & rc' & ->).
      * eapply nonempty_outputs_sub; [apply dict_sub_remove | exact Hlc].
      * eapply nonempty_outputs_sub; [apply dict_sub_remove | exact Hrc].
      * exists lc', rc'. rewrite (select_bidirectional_remove lc rc a m ks Ha H2).
        unfold select_bidirectional at 2. cbn [omap list_omap].
        rewrite H1, decide_True by exact H2.
        fold (select_bidirectional lc rc ks).
        unfold flat_pairs. rewrite fmap_cons. cbn [concat fst snd].
        rewrite <- app_assoc. reflexivity.
    + rewrite bind_Ok. cbv beta iota. rewrite bind_Ok.
      destruct (IH pairs lc rc Hnd Hlc Hrc) as (lc' & rc' & ->).
      exists lc', rc'. unfold select_bidirectional at 2. cbn [omap list_omap].
      fold (select_bidirectional lc rc ks).
      assert (forall m, ~ bidirectional lc rc a m) as Hno
        by (apply is_bidirectional_conversion_false, Eb).
      destruct (dict_get lc a) as [[|m [|m' v]]|] eqn:Hg; try reflexivity.
      destruct (decide (dict_get rc m = Some [a])) as [Hr|]; [|reflexivity].
      exfalso. apply (Hno m). split; assumption.
    + exfalso. apply is_bidirectional_conversion_error in Eb as [_ [H|(m & H1 & H2)]].
      * apply (Hlc a [] H). reflexivity.
      * apply (Hrc m [] H2). reflexivity.
Qed.

(** X3: on maps without empty outputs [extract_character_pairs] returns,
    and what it emits is exactly the list of the bidirectional pairs of
    the two maps it received, each once and by ascending first code
    point.  It deletes these pairs from both maps and leaves everything
    else, so that no bidirectional pair remains. *)
Theorem extract_character_pairs_exact (lc rc : dict) :
  dict_wf lc -> nonempty_outputs lc -> nonempty_outputs rc ->
  exists lc' rc',
    extract_character_pairs lc rc =
    Ok (flat_pairs (bidirectional_pairs lc rc), lc', rc') /\
    (forall k, dict_get lc' k =
               if decide (k ∈ (bidirectional_pairs lc rc).*1) then None
               else dict_get lc k) /\
    (forall k, dict_get rc' k =
               if decide (k ∈ (bidirectional_pairs lc rc).*2) then None
               else dict_get rc k) /\
    (forall c m, ~ bidirectional lc' rc' c m).
Proof.
  intros Hwf Hlc Hrc.
  assert (NoDup (sorted (dict_keys lc))) as Hnd.
  { unfold sorted. rewrite merge_sort_Permutation. exact Hwf. }
  destruct (extract_character_pairs_loop_exact _ [] lc rc Hnd Hlc Hrc)
    as (lc' & rc' & H).
  exists lc', rc'. unfold extract_character_pairs. rewrite H. cbn [app].
  fold (bidirectional_pairs lc rc).
  destruct (extract_character_pairs_loop _ _ _ _ _ _ _ H)
    as (qs & Hq & _ & Hd1 & Hd2).
  cbn [app] in Hq. apply (f_equal singleton_pairs) in Hq.
  rewrite !singleton_pairs_flat in Hq. subst qs.
  assert (forall k, dict_get lc' k =
                    if decide (k ∈ (bidirectional_pairs lc rc).*1) then None
                    else dict_get lc k) as Hg
    by (intros k; apply dict_delitems_get, Hd1).
  split; [reflexivity|]. split; [exact Hg|].
  split; [intros k; apply dict_delitems_get, Hd2|].
  intros c m Hb.
  assert (bidirectional lc rc c m) as Hb0.
  { eapply bidirectional_sub; [| |exact Hb]; eapply dict_delitems_sub; eassumption. }
  destruct Hb as [Hb _]. rewrite Hg in Hb.
  rewrite decide_True in Hb; [discriminate|].
  apply list_elem_of_fmap. exists (c, m). split; [reflexivity|].
  apply elem_of_select_bidirectional. split; [|exact Hb0].
  apply elem_of_sorted, elem_of_dict_keys. destruct Hb0 as [-> _]. eauto.
Qed.

Lemma extract_character_pairs_exact_witness :
  exists lc' rc',
    extract_character_pairs sample_lower sample_upper =
    Ok (flat_pairs (bidirectional_pairs sample_lower sample_upper), lc', rc') /\
    (forall k, dict_get lc' k =
               if decide (k ∈ (bidirectional_pairs sample_lower sample_upper).*1)
               then None else dict_get sample_lower k) /\
    (forall k, dict_get rc' k =
               if decide (k ∈ (bidirectional_pairs sample_lower sample_upper).*2)
               then None else dict_get sample_upper k) /\
    (forall c m, ~ bidirectional lc' rc' c m).
Proof.
  apply (extract_character_pairs_exact sample_lower sample_upper).
  - apply NoDup_bool_decide. vm_compute. reflexivity.
  - apply nonempty_outputs_bool_decide. vm_compute. reflexivity.
  - apply nonempty_outputs_bool_decide. vm_compute. reflexivity.
Defined.
(** * Further properties of [extract_ranges] *)

Lemma eligible_sub lc rc lc' rc' ks c m :
  dict_sub lc' lc -> reverse_without ks rc rc' ->
  eligible lc' rc' c m -> eligible lc rc c m.
Proof.
  intros Hl Hr. destruct rc as [d|], rc' as [d'|]; simpl in *; try contradiction.
  - intros [H1 H2]. split; [apply Hl, H1|].
    rewrite Hr in H2. destruct (decide (m ∈ ks)); [discriminate | exact H2].
  - apply Hl.
Qed.

Lemma uniform_domain_snoc rs (r : Z * Z * Z) :
  uniform_domain (rs ++ [r]) = uniform_domain rs ++ seqZ r.1.1 r.2.
Proof.
  unfold uniform_domain. rewrite fmap_app, concat_app. cbn [fmap list_fmap concat].
  rewrite app_nil_r. reflexivity.
Qed.

(** X4: [extract_ranges] is maximal, and consumes what it emits: every
    code point that is eligible together with its predecessor at the same
    offset lies in an emitted range, and so does the predecessor; the
    emitted ranges are pairwise disjoint; the call deletes exactly their
    code points from the forward map (and exactly their images from the
    reverse map in the two-way mode) and leaves every other binding; and
    in the maps it leaves, no code point is eligible together with its
    predecessor at the same offset. *)
Theorem extract_ranges_maximal lc rc ranges lengths lc' rc' :
  dict_wf lc ->
  extract_ranges lc rc = Ok ((ranges, lengths), lc', rc') ->
  (forall k, adjacent_match lc rc k ->
             covered (uniform_ranges ranges lengths) k /\
             covered (uniform_ranges ranges lengths) (k - 1)) /\
  NoDup (uniform_domain (uniform_ranges ranges lengths)) /\
  (forall k, dict_get lc' k =
             if decide (k ∈ uniform_domain (uniform_ranges ranges lengths))
             then None else dict_get lc k) /\
  reverse_without (uniform_codomain (uniform_ranges ranges lengths)) rc rc' /\
  (forall k, ~ adjacent_match lc' rc' k).
Proof.
  intros Hwf H.
  destruct (extract_ranges_run lc rc ranges lengths lc' rc' Hwf H)
    as (rs & -> & -> & Hok & Hmax & Hl & Hr).
  rewrite uniform_ranges_flat.
  assert (forall k, dict_get lc' k =
                    if decide (k ∈ uniform_domain rs) then None
                    else dict_get lc k) as Hg
    by (intros k; apply dict_delitems_get, Hl).
  assert (reverse_without (uniform_codomain rs) rc rc') as Hrw.
  { destruct rc as [d|]; [|subst rc'; exact I].
    destruct Hr as (d' & -> & Hd). intros k. apply dict_delitems_get, Hd. }
  split; [exact Hmax|]. split; [|split; [exact Hg|split; [exact Hrw|]]].
  - destruct (dict_delitems_keys _ _ _ Hwf Hl) as [_ Hp].
    unfold dict_wf in Hwf. rewrite Hp in Hwf. apply NoDup_app in Hwf. tauto.
  - intros k (m & m' & He & He' & Hd).
    pose proof (eligible_get _ _ _ _ He) as Hk.
    assert (adjacent_match lc rc k) as Hadj.
    { exists m, m'. split; [|split; [|exact Hd]].
      - eapply eligible_sub; [eapply dict_delitems_sub, Hl | exact Hrw | exact He].
      - eapply eligible_sub; [eapply dict_delitems_sub, Hl | exact Hrw | exact He']. }
    destruct (Hmax k Hadj) as [Hcov _]. apply elem_of_uniform_domain in Hcov.
    rewrite Hg, decide_True in Hk by exact Hcov. discriminate.
Qed.

Lemma extract_ranges_maximal_witness :
  (forall k, adjacent_match sample_lower (Some sample_upper) k ->
             covered (uniform_ranges [0x391; 0x3B1] [3]) k /\
             covered (uniform_ranges [0x391; 0x3B1] [3]) (k - 1)) /\
  NoDup (uniform_domain (uniform_ranges [0x391; 0x3B1] [3])) /\
  (forall k, dict_get
               [(376, [255]); (258, [259]); (256, [257]); (304, [105; 775]);
                (8073, [8065]); (8072, [8064]); (1012, [952])] k =
             if decide (k ∈ uniform_domain (uniform_ranges [0x391; 0x3B1] [3]))
             then None else dict_get sample_lower k) /\
  reverse_without (uniform_codomain (uniform_ranges [0x391; 0x3B1] [3]))
    (Some sample_upper)
    (Some [(255, [376]); (257, [256]); (259, [258]);
           (8064, [7944; 921]); (8065, [7945; 921]);
           (8066, [7946; 921]); (223, [83; 83]);
           (912, [921; 776; 769]); (181, [924])]) /\
  (forall k, ~ adjacent_match
               [(376, [255]); (258, [259]); (256, [257]); (304, [105; 775]);
                (8073, [8065]); (8072, [8064]); (1012, [952])]
               (Some [(255, [376]); (257, [256]); (259, [258]);
                      (8064, [7944; 921]); (8065, [7945; 921]);
                      (8066, [7946; 921]); (223, [83; 83]);
                      (912, [921; 776; 769]); (181, [924])]) k).
Proof.
  apply (extract_ranges_maximal sample_lower (Some sample_upper)).
  - apply NoDup_bool_decide. vm_compute. reflexivity.
  - vm_compute. reflexivity.
Defined.

(** ** The call returns *)

(** A [for] loop returns when each turn does, under an invariant. *)
Lemma foldM_total {S A : Type} (f : S -> A -> result S)
    (I : list A -> S -> Prop) (l : list A) (s0 : S) :
  I [] s0 ->
  (forall pre a post s,
      l = pre ++ a :: post -> I pre s ->
      exists s1, f s a = Ok s1 /\ I (pre ++ [a]) s1) ->
  exists s', foldM f l s0 = Ok s' /\ I l s'.
Proof.
  intros H0 Hstep.
  enough (forall post pre s, l = pre ++ post -> I pre s ->
                             exists s', foldM f post s = Ok s' /\ I l s') as Hgen.
  { exact (Hgen l [] s0 eq_refl H0). }
  induction post as [|a post IH]; intros pre s Hl HI; cbn [foldM].
  - exists s. rewrite app_nil_r in Hl. subst l. split; [reflexivity | exact HI].
  - destruct (Hstep pre a post s Hl HI) as (s1 & -> & HI1). rewrite bind_Ok.
    apply (IH (pre ++ [a]) s1); [|exact HI1].
    rewrite <- app_assoc. exact Hl.
Qed.

(** Deleting distinct keys that are all bound does not raise. *)
Lemma dict_delitems_total (ks : list Z) : forall d : dict,
  NoDup ks -> (forall k, k ∈ ks -> is_Some (dict_get d k)) ->
  exists d', foldM dict_delitem ks d = Ok d'.
Proof.
  induction ks as [|k ks IH]; intros d Hnd Hin; cbn [foldM].
  - eauto.
  - apply NoDup_cons in Hnd as [Hk Hnd].
    destruct (Hin k) as [v Hv]; [left|].
    rewrite (dict_delitem_present d k v Hv), bind_Ok.
    apply IH; [exact Hnd|]. intros k' Hk'. rewrite dict_get_remove.
    rewrite decide_False by (intros ->; contradiction).
    apply Hin. right. exact Hk'.
Qed.

Lemma delete_range_total (r : Z * Z * Z) (ks : list Z) :
  forall lc rc lc' rc',
  foldM dict_delitem (Z.add r.1.1 <$> ks) lc = Ok lc' ->
  reverse_deleted (Z.add r.1.2 <$> ks) rc rc' ->
  foldM (fun (st : dict * option dict) incr =>
           let '(letter_case, reverse_letter_case) := st in
           letter_case ← dict_delitem letter_case (r.1.1 + incr);
           match reverse_letter_case with
           | None => Ok (letter_case, None)
           | Some reverse_letter_case =>
               reverse_letter_case ←
                 dict_delitem reverse_letter_case (r.1.2 + incr);
               Ok (letter_case, Some reverse_letter_case)
           end) ks (lc, rc) = Ok (lc', rc').
Proof.
  induction ks as [|k ks IH]; intros lc rc lc' rc' H1 H2.
  - cbn [foldM fmap list_fmap] in *. injection H1 as <-.
    destruct rc as [d|], rc' as [d'|]; simpl in H2; try contradiction;
      [injection H2 as <-|]; reflexivity.
  - rewrite fmap_cons in H1, H2. cbn [foldM] in H1 |- *.
    destruct (dict_delitem lc (r.1.1 + k)) as [lc1|]; [|discriminate].
    rewrite bind_Ok in H1. rewrite bind_Ok.
    destruct rc as [d|], rc' as [d'|]; simpl in H2; try contradiction.
    + destruct (dict_delitem d (r.1.2 + k)) as [d1|]; [|discriminate].
      rewrite bind_Ok in H2. rewrite !bind_Ok. apply IH; [exact H1 | exact H2].
    + rewrite bind_Ok. apply IH; [exact H1 | exact I].
Qed.

Lemma delete_ranges_total (rs : list (Z * Z * Z)) :
  forall lc rc lc' rc',
  foldM dict_delitem (uniform_domain rs) lc = Ok lc' ->
  reverse_deleted (uniform_codomain rs) rc rc' ->
  foldM delete_range rs (lc, rc) = Ok (lc', rc').
Proof.
  induction rs as [|r rs IH]; intros lc rc lc' rc' H1 H2.
  - cbn [foldM] in *. injection H1 as <-.
    destruct rc as [d|], rc' as [d'|]; simpl in H2; try contradiction;
      [injection H2 as <-|]; reflexivity.
  - unfold uniform_domain, uniform_codomain in H1, H2.
    rewrite fmap_cons in H1, H2. cbn [concat] in H1, H2.
    fold (uniform_domain rs) in H1. fold (uniform_codomain rs) in H2.
    rewrite foldM_app in H1.
    destruct (foldM dict_delitem (seqZ r.1.1 r.2) lc) as [lc1|] eqn:E1;
      [|discriminate].
    rewrite bind_Ok in H1. cbn [foldM].
    assert (exists rc1, reverse_deleted (seqZ r.1.2 r.2) rc rc1 /\
                        reverse_deleted (uniform_codomain rs) rc1 rc')
      as (rc1 & E2 & H2').
    { destruct rc as [d|], rc' as [d'|]; simpl in H2; try contradiction.
      - rewrite foldM_app in H2.
        destruct (foldM dict_delitem (seqZ r.1.2 r.2) d) as [d1|] eqn:E2;
          [|discriminate].
        rewrite bind_Ok in H2. exists (Some d1). split; [exact E2 | exact H2].
      - exists None. split; exact I. }
    unfold delete_range at 2.
    rewrite (delete_range_total r (seqZ 0 r.2) lc rc lc1 rc1).
    + rewrite bind_Ok. apply IH; assumption.
    + rewrite fmap_add_seqZ, Z.add_0_r. exact E1.
    + rewrite fmap_add_seqZ, Z.add_0_r. exact E2.
Qed.

Lemma extract_ranges_remove_total rs lc rc lc' rc' :
  foldM dict_delitem (uniform_domain rs) lc = Ok lc' ->
  reverse_deleted (uniform_codomain rs) rc rc' ->
  foldM (extract_ranges_remove (flat_ranges rs) (range_lens rs))
        (py_range 0 (len (flat_ranges rs)) 2) (lc, rc) = Ok (lc', rc').
Proof.
  rewrite len_flat_ranges, py_range_chunks by (try lia; apply len_nonneg).
  rewrite foldM_fmap.
  rewrite (foldM_indexed _ delete_range rs).
  - apply delete_ranges_total.
  - intros i r st Hi. apply extract_ranges_remove_range. exact Hi.
Qed.

(** The end of one turn of the scanning loop returns, when the code
    point and its predecessor are both eligible. *)
Lemma extract_ranges_rest_total lc rc (ir : bool) rp ranges lengths a m m' :
  eligible lc rc a m -> eligible lc rc (a - 1) m' ->
  (ir = true -> exists n l', list_getitem lengths rp = Ok n /\
                             list_setitem lengths rp (n + 1) = Ok l') ->
  exists st1,
  (conv_distance ← calculate_conversion_distance lc a;
   prev_conv_distance ← calculate_conversion_distance lc (a - 1);
   if negb (bool_decide (conv_distance = prev_conv_distance))
   then Ok (false, rp, ranges, lengths)
   else if ir
        then n ← list_getitem lengths rp;
             range_lengths ← list_setitem lengths rp (n + 1);
             Ok (ir, rp, ranges, range_lengths)
        else prev_mapped_value ← dict_getitem lc (a - 1);
             prev_mapped_id ← ord prev_mapped_value;
             Ok (true, rp + 1, ranges ++ [a - 1; prev_mapped_id],
                 lengths ++ [2])) = Ok st1.
Proof.
  intros He He' Hlist.
  pose proof (eligible_get _ _ _ _ He) as Hg.
  pose proof (eligible_get _ _ _ _ He') as Hg'.
  rewrite (calculate_conversion_distance_cases lc a), Hg, bind_Ok.
  rewrite (calculate_conversion_distance_cases lc (a - 1)), Hg', bind_Ok.
  destruct (negb (bool_decide (Some (m - a) = Some (m' - (a - 1))))); [eauto|].
  destruct ir.
  - destruct (Hlist eq_refl) as (n & l' & -> & Hset).
    rewrite bind_Ok, Hset, bind_Ok. eauto.
  - rewrite (proj2 (dict_getitem_Ok lc (a - 1) [m']) Hg'), bind_Ok.
    cbn [ord]. rewrite bind_Ok. eauto.
Qed.

(** One turn of the scanning loop returns, on maps without empty
    outputs. *)
Lemma extract_ranges_body_total lc rc pre st a :
  is_Some (dict_get lc a) ->
  nonempty_outputs lc -> nonempty_reverse rc ->
  extract_ranges_inv lc rc pre st ->
  exists st1, extract_ranges_body lc rc st a = Ok st1.
Proof.
  intros [v Hv] Hlc Hrc Hinv. destruct st as [[[ir rp] ranges] lengths].
  destruct Hinv as (rs & -> & -> & -> & _ & Hin & _).
  assert (ir = true ->
          exists n l', list_getitem (range_lens rs) (len rs - 1) = Ok n /\
                       list_setitem (range_lens rs) (len rs - 1) (n + 1) = Ok l')
    as Hlist.
  { intros Hir. destruct (Hin Hir) as (rs' & s & m0 & n & k & -> & _).
    exists n, (range_lens rs' ++ [n + 1]). rewrite range_lens_snoc. cbn [snd].
    split.
    - apply list_getitem_snoc. rewrite !len_app, len_range_lens. reflexivity.
    - apply list_setitem_snoc. rewrite !len_app, len_range_lens. reflexivity. }
  unfold extract_ranges_body. cbv zeta. destruct rc as [rc|].
  - (* two-way *)
    simpl in Hrc.
    destruct (is_bidirectional_conversion a lc rc) as [[|]|e] eqn:Eb.
    + rewrite bind_Ok. cbn [negb].
      destruct (is_bidirectional_conversion (a - 1) lc rc) as [[|]|e] eqn:Eb'.
      * rewrite bind_Ok. cbn [negb].
        apply is_bidirectional_conversion_true in Eb as [m Hm].
        apply is_bidirectional_conversion_true in Eb' as [m' Hm'].
        exact (extract_ranges_rest_total lc (Some rc) ir _ _ _ a m m' Hm Hm' Hlist).
      * rewrite bind_Ok. cbn [negb]. eauto.
      * exfalso.
        apply is_bidirectional_conversion_error in Eb' as [_ [H|(m & H1 & H2)]].
        -- apply (Hlc _ _ H). reflexivity.
        -- apply (Hrc _ _ H2). reflexivity.
    + rewrite bind_Ok. cbn [negb]. eauto.
    + exfalso.
      apply is_bidirectional_conversion_error in Eb as [_ [H|(m & H1 & H2)]].
      * apply (Hlc _ _ H). reflexivity.
      * apply (Hrc _ _ H2). reflexivity.
  - (* one-way *)
    rewrite (proj2 (dict_getitem_Ok lc a v) Hv), bind_Ok.
    destruct (1 <? len v) eqn:Hlen; [eauto|].
    destruct (dict_get lc (a - 1)) as [pv|] eqn:Hg'.
    2:{ rewrite (proj2 (dict_contains_false lc (a - 1)) Hg'). cbn [negb]. eauto. }
    rewrite (proj2 (dict_contains_true lc (a - 1))) by eauto. cbn [negb].
    rewrite (proj2 (dict_getitem_Ok lc (a - 1) pv) Hg'), bind_Ok.
    destruct (1 <? len pv) eqn:Hlen'; [eauto|].
    apply len_le_1 in Hlen as [->|[m ->]]; [destruct (Hlc _ _ Hv eq_refl)|].
    apply len_le_1 in Hlen' as [->|[m' ->]]; [destruct (Hlc _ _ Hg' eq_refl)|].
    rewrite <- (proj2 (dict_getitem_Ok lc (a - 1) [m']) Hg').
    exact (extract_ranges_rest_total lc None ir _ _ _ a m m' Hv Hg' Hlist).
Qed.

Lemma sorted_last_below (pre post : list Z) (a k : Z) :
  StronglySorted Z.lt (pre ++ a :: post) -> last pre = Some k -> k < a.
Proof.
  intros Hs Hlast. apply last_Some in Hlast as [pre' ->].
  apply (StronglySorted_app_1_elem_of Z.lt (pre' ++ [k]) (a :: post) k a Hs);
    [apply elem_of_app; right; left | left].
Qed.

Lemma sorted_below_elem_of (pre post : list Z) (a x : Z) :
  StronglySorted Z.lt (pre ++ a :: post) ->
  x ∈ pre ++ a :: post -> x < a -> x ∈ pre.
Proof.
  intros Hs Hx Hlt. apply elem_of_app in Hx as [Hx|Hx]; [exact Hx|].
  apply StronglySorted_app_1_r, StronglySorted_cons in Hs as [Hall _].
  apply elem_of_cons in Hx as [->|Hx]; [lia|].
  rewrite Forall_forall in Hall. specialize (Hall x Hx). lia.
Qed.

(** One turn of the scanning loop keeps the ranges apart. *)
Lemma extract_ranges_apart_step lc rc (pre post : list Z) (a : Z) st st1 :
  StronglySorted Z.lt (pre ++ a :: post) ->
  (forall k, is_Some (dict_get lc k) -> k ∈ pre ++ a :: post) ->
  extract_ranges_inv lc rc pre st ->
  extract_ranges_apart pre st ->
  extract_ranges_body lc rc st a = Ok st1 ->
  extract_ranges_apart (pre ++ [a]) st1.
Proof.
  intros Hsorted Hkeys Hinv Hap Hbody.
  destruct st as [[[ir rp] ranges] lengths].
  destruct Hinv as (rs & -> & -> & -> & Hok & Hin & _).
  unfold extract_ranges_apart in Hap. rewrite uniform_ranges_flat in Hap.
  cbv zeta in Hap. destruct Hap as (Hnd & Hreach & Hclosed).
  assert (forall c, covered rs c -> c < a) as Hbelow.
  { intros c Hc. destruct (Hreach c Hc) as (k & Hlast & Hle).
    pose proof (sorted_last_below pre post a k Hsorted Hlast). lia. }
  apply extract_ranges_body_cases in Hbody
    as [[-> Hno]|(m & m' & He & He' & Hd & Hst)].
  - (* the turn ends in [continue] *)
    unfold extract_ranges_apart. rewrite uniform_ranges_flat. cbv zeta.
    split; [exact Hnd|]. split.
    + intros c Hc. exists a. rewrite last_snoc. split; [reflexivity|].
      apply Hbelow in Hc. lia.
    + intros _ k Hk Hc. rewrite last_snoc in Hk. injection Hk as <-.
      apply Hbelow in Hc. lia.
  - destruct ir.
    + (* the open range grows *)
      destruct Hst as (n0 & l' & Hget & Hset & ->).
      destruct (Hin eq_refl) as (rs' & s & m0 & n & k & -> & Hlast & Hend).
      rewrite range_lens_snoc in Hget, Hset. cbn [snd] in Hget, Hset.
      rewrite list_getitem_snoc in Hget
        by (rewrite !len_app, len_range_lens; reflexivity).
      injection Hget as <-.
      rewrite (list_setitem_snoc _ n) in Hset
        by (rewrite !len_app, len_range_lens; reflexivity).
      injection Hset as <-.
      assert (k = a - 1) as ->.
      { destruct (sorted_before pre post a k (a - 1) Hsorted Hlast); [|lia|lia].
        apply Hkeys. rewrite (eligible_get _ _ _ _ He'). eauto. }
      apply Forall_app in Hok as [_ Hlastok].
      apply Forall_singleton in Hlastok as [Hn2 _]. cbn [snd] in Hn2.
      unfold extract_ranges_apart.
      replace (flat_ranges (rs' ++ [(s, m0, n)]))
        with (flat_ranges (rs' ++ [(s, m0, n + 1)]))
        by (rewrite !flat_ranges_snoc; reflexivity).
      replace (range_lens rs' ++ [n + 1])
        with (range_lens (rs' ++ [(s, m0, n + 1)]))
        by (rewrite range_lens_snoc; reflexivity).
      rewrite uniform_ranges_flat.
      cbv zeta. split; [|split; [|discriminate]].
      * rewrite uniform_domain_snoc in Hnd |- *. cbn [fst snd] in Hnd |- *.
        rewrite (seqZ_app s n 1), app_assoc by lia.
        apply NoDup_app. split; [exact Hnd|]. split; [|apply NoDup_seqZ].
        intros c Hc Hc'. apply elem_of_seqZ in Hc'.
        assert (c ∈ uniform_domain (rs' ++ [(s, m0, n)])) as Hc0
          by (rewrite uniform_domain_snoc; exact Hc).
        apply elem_of_uniform_domain, Hbelow in Hc0. lia.
      * intros c Hc. exists a. rewrite last_snoc. split; [reflexivity|].
        destruct Hc as (r & Hr & Hc). apply elem_of_app in Hr as [Hr|Hr].
        -- assert (c < a); [|lia]. apply Hbelow. exists r. split; [|exact Hc].
           apply elem_of_app. left. exact Hr.
        -- apply list_elem_of_singleton in Hr. subst r. cbn [fst snd] in Hc. lia.
    + (* a new range opens at the predecessor *)
      subst st1.
      assert (last pre = Some (a - 1)) as Hlast.
      { assert (a - 1 ∈ pre ++ a :: post) as Hin1
          by (apply Hkeys; rewrite (eligible_get _ _ _ _ He'); eauto).
        assert (a - 1 ∈ pre) as Hin2
          by (apply (sorted_below_elem_of pre post a); [assumption..|lia]).
        destruct (last pre) as [k|] eqn:Hl.
        - destruct (sorted_before pre post a k (a - 1) Hsorted Hl); [|lia|].
          + apply elem_of_app. left. exact Hin2.
          + f_equal. lia.
        - apply last_None in Hl. subst pre. apply elem_of_nil in Hin2.
          contradiction. }
      unfold extract_ranges_apart.
      replace (flat_ranges rs ++ [a - 1; m'])
        with (flat_ranges (rs ++ [(a - 1, m', 2)]))
        by (rewrite flat_ranges_snoc; reflexivity).
      replace (range_lens rs ++ [2])
        with (range_lens (rs ++ [(a - 1, m', 2)]))
        by (rewrite range_lens_snoc; reflexivity).
      rewrite uniform_ranges_flat.
      cbv zeta. split; [|split; [|discriminate]].
      * rewrite uniform_domain_snoc. cbn [fst snd].
        apply NoDup_app. split; [exact Hnd|]. split; [|apply NoDup_seqZ].
        intros c Hc Hc'. apply elem_of_seqZ in Hc'.
        apply elem_of_uniform_domain in Hc.
        destruct (decide (c = a - 1)) as [->|Hne].
        -- exact (Hclosed eq_refl (a - 1) Hlast Hc).
        -- apply Hbelow in Hc. lia.
      * intros c Hc. exists a. rewrite last_snoc. split; [reflexivity|].
        destruct Hc as (r & Hr & Hc). apply elem_of_app in Hr as [Hr|Hr].
        -- assert (c < a); [|lia]. apply Hbelow. exists r. split; assumption.
        -- apply list_elem_of_singleton in Hr. subst r. cbn [fst snd] in Hc. lia.
Qed.

(** The images of disjoint two-way ranges are distinct and bound in the
    reverse map. *)
Lemma uniform_codomain_bound rs lc (d : dict) :
  Forall (range_ok lc (Some d)) rs ->
  NoDup (uniform_domain rs) ->
  NoDup (uniform_codomain rs) /\
  forall k, k ∈ uniform_codomain rs -> is_Some (dict_get d k).
Proof.
  intros Hok Hnd. rewrite Forall_forall in Hok. split.
  - set (g := fun m : Z => match dict_get d m with Some [c] => c | _ => 0 end).
    apply (NoDup_fmap_1 g).
    replace (g <$> uniform_codomain rs) with (uniform_domain rs); [exact Hnd|].
    clear Hnd. unfold uniform_domain, uniform_codomain.
    induction rs as [|r rs IH]; [reflexivity|].
    rewrite !fmap_cons. cbn [concat]. rewrite fmap_app.
    rewrite <- IH by (intros x Hx; apply Hok; right; exact Hx). f_equal.
    destruct (Hok r) as [_ Hr]; [left|].
    rewrite <- (Z.add_0_r r.1.1), <- (Z.add_0_r r.1.2), <- !fmap_add_seqZ.
    rewrite <- list_fmap_compose. apply list_fmap_ext.
    intros _ i Hi%list_elem_of_lookup_2%elem_of_seqZ. simpl.
    destruct (Hr i) as [_ H]; [lia|]. unfold g. rewrite H. reflexivity.
  - intros k Hk. unfold uniform_codomain in Hk.
    apply elem_of_concat in Hk as (l & Hl & Hk).
    apply list_elem_of_fmap in Hl as (r & -> & Hr).
    apply elem_of_seqZ in Hk. destruct (Hok r Hr) as [_ H].
    destruct (H (k - r.1.2)) as [_ H2]; [lia|].
    replace (r.1.2 + (k - r.1.2)) with k in H2 by lia. eauto.
Qed.

(** The scanning loop returns, with both invariants. *)
Lemma extract_ranges_scan_total lc rc :
  dict_wf lc -> nonempty_outputs lc -> nonempty_reverse rc ->
  exists st,
    foldM (extract_ranges_body lc rc) (sorted (dict_keys lc)) (false, -1, [], []) =
      Ok st /\
    extract_ranges_inv lc rc (sorted (dict_keys lc)) st /\
    extract_ranges_apart (sorted (dict_keys lc)) st.
Proof.
  intros Hwf Hlc Hrc.
  apply (foldM_total (extract_ranges_body lc rc)
           (fun pre st => extract_ranges_inv lc rc pre st /\
                          extract_ranges_apart pre st)).
  - split.
    + exists []. repeat split; try reflexivity; try discriminate.
      * constructor.
      * apply elem_of_nil in H. contradiction.
      * apply elem_of_nil in H. contradiction.
    + split; [constructor|]. split.
      * intros c (r & Hr & _). apply elem_of_nil in Hr. contradiction.
      * intros _ k Hk. discriminate.
  - intros pre a post s Hl [Hinv Hap].
    assert (StronglySorted Z.lt (pre ++ a :: post)) as Hs
      by (rewrite <- Hl; apply sorted_keys_strict, Hwf).
    assert (forall k, is_Some (dict_get lc k) -> k ∈ pre ++ a :: post) as Hk
      by (intros k Hk; rewrite <- Hl; apply elem_of_sorted, elem_of_dict_keys, Hk).
    destruct (extract_ranges_body_total lc rc pre s a) as [s1 Hb]; try assumption.
    { apply elem_of_dict_keys, elem_of_sorted. rewrite Hl.
      apply elem_of_app. right. left. }
    exists s1. split; [exact Hb|]. split.
    + exact (extract_ranges_inv_step lc rc pre post a s s1 Hs Hk Hinv Hb).
    + exact (extract_ranges_apart_step lc rc pre post a s s1 Hs Hk Hinv Hap Hb).
Qed.

(** On maps without empty outputs [extract_ranges] returns. *)
Lemma extract_ranges_total lc rc :
  dict_wf lc -> nonempty_outputs lc -> nonempty_reverse rc ->
  exists rs lc' rc',
    extract_ranges lc rc = Ok ((flat_ranges rs, range_lens rs), lc', rc') /\
    reverse_deleted (uniform_codomain rs) rc rc'.
Proof.
  intros Hwf Hlc Hrc.
  destruct (extract_ranges_scan_total lc rc Hwf Hlc Hrc)
    as ([[[ir rp] ranges] lengths] & Hscan & Hinv & Hap).
  destruct Hinv as (rs & -> & -> & -> & Hok & _).
  unfold extract_ranges_apart in Hap. rewrite uniform_ranges_flat in Hap.
  destruct Hap as (Hnd & _).
  assert (forall k, k ∈ uniform_domain rs -> is_Some (dict_get lc k)) as Hin.
  { intros k ([[s m] n] & Hr & Hk)%elem_of_uniform_domain.
    rewrite Forall_forall in Hok. destruct (Hok _ Hr) as [_ H].
    cbn [fst snd] in *. specialize (H (k - s)).
    replace (s + (k - s)) with k in H by lia.
    rewrite (eligible_get lc rc k (m + (k - s))) by (apply H; lia). eauto. }
  destruct (dict_delitems_total _ lc Hnd Hin) as [lc' Hl].
  assert (exists rc', reverse_deleted (uniform_codomain rs) rc rc') as [rc' Hr].
  { destruct rc as [d|]; [|exists None; exact I].
    destruct (uniform_codomain_bound rs lc d Hok Hnd) as [Hnd' Hin'].
    destruct (dict_delitems_total _ d Hnd' Hin') as [d' Hd].
    exists (Some d'). exact Hd. }
  exists rs, lc', rc'. split; [|exact Hr].
  unfold extract_ranges. rewrite Hscan, bind_Ok.
  rewrite (extract_ranges_remove_total rs lc rc lc' rc' Hl Hr). reflexivity.
Qed.

(** X5: on maps without empty outputs [extract_ranges] returns, in
    either mode: it raises no [KeyError], [IndexError] or [TypeError].
    (An empty output makes [ord] raise [TypeError].)  The reverse map
    comes back as a dict in the two-way mode, and as [None] in the
    one-way mode. *)
Theorem extract_ranges_returns lc rc :
  dict_wf lc -> nonempty_outputs lc -> nonempty_reverse rc ->
  exists ranges lengths lc' rc',
    extract_ranges lc rc = Ok ((ranges, lengths), lc', rc') /\
    (is_Some rc <-> is_Some rc').
Proof.
  intros Hwf Hlc Hrc.
  destruct (extract_ranges_total lc rc Hwf Hlc Hrc) as (rs & lc' & rc' & H & Hr).
  exists (flat_ranges rs), (range_lens rs), lc', rc'. split; [exact H|].
  destruct rc as [d|], rc' as [d'|]; simpl in Hr; try contradiction.
  - split; eauto.
  - split; intros [? Hn]; discriminate Hn.
Qed.

Lemma extract_ranges_returns_witness :
  exists ranges lengths lc' rc',
    extract_ranges sample_lower (Some sample_upper) =
    Ok ((ranges, lengths), lc', rc') /\
    (is_Some (Some sample_upper) <-> is_Some rc').
Proof.
  apply (extract_ranges_returns sample_lower (Some sample_upper)).
  - apply NoDup_bool_decide. vm_compute. reflexivity.
  - apply nonempty_outputs_bool_decide. vm_compute. reflexivity.
  - apply nonempty_outputs_bool_decide. vm_compute. reflexivity.
Defined.
(** * Further properties of [extract_special_ranges] *)

(** The outcomes of one turn of the scanning loop. *)
Lemma extract_special_ranges_body_cases lc ranges lengths rp ir a st1 :
  extract_special_ranges_body lc (ranges, lengths, rp, ir) a = Ok st1 ->
  st1 = (ranges, lengths, rp, ir) \/
  st1 = (ranges, lengths, rp, Some false) \/
  exists f z,
    dict_get lc (a - 1) = Some [f; z] /\ dict_get lc a = Some [f + 1; z] /\
    ((ir = Some true /\
      exists n l', list_getitem lengths rp = Ok n /\
                   list_setitem lengths rp (n + 1) = Ok l' /\
                   st1 = (ranges, l', rp, Some true)) \/
     (ir = Some false /\
      st1 = (ranges ++ [a - 1; f; z], lengths ++ [1], rp + 1, Some true))).
Proof.
  unfold extract_special_ranges_body.
  destruct (dict_get lc a) as [v|] eqn:Hv;
    [|unfold dict_getitem; rewrite Hv; discriminate].
  rewrite (proj2 (dict_getitem_Ok lc a v) Hv), bind_Ok.
  destruct (decide (len v = 2)) as [Hlen|Hlen].
  2:{ rewrite bool_decide_eq_false_2 by exact Hlen. intros [= <-]. auto. }
  rewrite bool_decide_eq_true_2 by exact Hlen. cbn [negb]. cbv zeta.
  apply len_eq_2 in Hlen as (x & y & ->).
  destruct (dict_get lc (a - 1)) as [pv|] eqn:Hpv.
  2:{ rewrite (proj2 (dict_contains_false lc (a - 1)) Hpv). cbn [negb].
      intros [= <-]. auto. }
  rewrite (proj2 (dict_contains_true lc (a - 1))) by eauto. cbn [negb].
  rewrite (proj2 (dict_getitem_Ok lc (a - 1) pv) Hpv), bind_Ok.
  destruct (decide (len pv = 2)) as [Hlen|Hlen].
  2:{ rewrite bool_decide_eq_false_2 by exact Hlen. intros [= <-]. auto. }
  rewrite bool_decide_eq_true_2 by exact Hlen. cbn [negb].
  apply len_eq_2 in Hlen as (px & py & ->).
  change (str_getitem [px; py] 1) with (Ok [py] : result str).
  change (str_getitem [px; py] 0) with (Ok [px] : result str).
  change (str_getitem [x; y] 1) with (Ok [y] : result str).
  change (str_getitem [x; y] 0) with (Ok [x] : result str).
  rewrite !bind_Ok.
  destruct (decide (py = y)) as [->|Hne].
  2:{ rewrite bool_decide_eq_false_2 by congruence. intros [= <-]. auto. }
  rewrite bool_decide_eq_true_2 by reflexivity.
  repeat (progress (cbn [negb ord]; rewrite ?bind_Ok)).
  destruct (decide (px - (a - 1) = x - a)) as [Hd|Hd].
  2:{ rewrite bool_decide_eq_false_2 by exact Hd. intros [= <-]. auto. }
  rewrite bool_decide_eq_true_2 by exact Hd. cbn [negb].
  assert (x = px + 1) as -> by lia.
  intros H. right. right. exists px, y. split; [reflexivity|].
  split; [reflexivity|]. destruct ir as [[|]|]; [left|right|discriminate H].
  - split; [reflexivity|].
    destruct (list_getitem lengths rp) as [n|] eqn:E1; [|discriminate H].
    rewrite bind_Ok in H.
    destruct (list_setitem lengths rp (n + 1)) as [l'|] eqn:E2; [|discriminate H].
    rewrite bind_Ok in H. injection H as <-. eauto.
  - split; [reflexivity|].
    repeat (progress (cbn [ord] in H; rewrite ?bind_Ok in H)).
    injection H as <-. reflexivity.
Qed.

(** One turn of the scanning loop keeps the heads of the ranges right. *)
Lemma extract_special_ranges_heads_step lc st a st1 :
  extract_special_ranges_inv st ->
  Forall (special_head_ok lc) (special_ranges_of st.1.1.1 st.1.1.2) ->
  extract_special_ranges_body lc st a = Ok st1 ->
  Forall (special_head_ok lc) (special_ranges_of st1.1.1.1 st1.1.1.2).
Proof.
  destruct st as [[[ranges lengths] rp] ir].
  intros (ss & -> & -> & -> & _ & Hin) Hok H. cbn [fst snd] in *.
  rewrite special_ranges_of_flat in Hok.
  apply extract_special_ranges_body_cases in H
    as [->|[->|(f & z & Hp & Ha & [(-> & n0 & l' & Hg & Hs & ->)|[-> ->]])]];
    cbn [fst snd]; try (rewrite special_ranges_of_flat; exact Hok).
  - destruct (Hin eq_refl) as (ss' & [[[s f0] z0] n] & ->).
    rewrite special_lens_snoc in Hg, Hs. cbn [snd] in Hg, Hs.
    rewrite list_getitem_snoc in Hg
      by (rewrite !len_app; unfold special_lens; rewrite len_fmap; reflexivity).
    injection Hg as <-.
    rewrite (list_setitem_snoc _ n) in Hs
      by (rewrite !len_app; unfold special_lens; rewrite len_fmap; reflexivity).
    injection Hs as <-.
    replace (flat_special (ss' ++ [(s, f0, z0, n)]))
      with (flat_special (ss' ++ [(s, f0, z0, n + 1)]))
      by (rewrite !flat_special_snoc; reflexivity).
    replace (special_lens ss' ++ [n + 1])
      with (special_lens (ss' ++ [(s, f0, z0, n + 1)]))
      by (rewrite special_lens_snoc; reflexivity).
    rewrite special_ranges_of_flat.
    apply Forall_app in Hok as [Hok' Hlast]. rewrite Forall_singleton in Hlast.
    apply Forall_app. split; [exact Hok'|]. rewrite Forall_singleton.
    destruct Hlast as (Hn & H1 & H2). cbn [fst snd] in *.
    split; [cbn [snd]; lia|]. split; assumption.
  - replace (flat_special ss ++ [a - 1; f; z])
      with (flat_special (ss ++ [(a - 1, f, z, 1)]))
      by (rewrite flat_special_snoc; reflexivity).
    replace (special_lens ss ++ [1])
      with (special_lens (ss ++ [(a - 1, f, z, 1)]))
      by (rewrite special_lens_snoc; reflexivity).
    rewrite special_ranges_of_flat.
    apply Forall_app. split; [exact Hok|]. rewrite Forall_singleton.
    split; [cbn [snd]; lia|]. cbn [fst snd].
    replace (a - 1 + 1) with a by lia. split; assumption.
Qed.

Lemma elem_of_special_domain ss (c : Z) :
  c ∈ special_domain ss <->
  exists r, r ∈ ss /\ r.1.1.1 <= c < r.1.1.1 + r.2.
Proof.
  unfold special_domain. rewrite elem_of_concat. split.
  - intros (l & Hl & Hc). apply list_elem_of_fmap in Hl as (r & -> & Hr).
    apply elem_of_seqZ in Hc. eauto.
  - intros (r & Hr & Hc). exists (seqZ r.1.1.1 r.2). split.
    + apply list_elem_of_fmap. eauto.
    + apply elem_of_seqZ. exact Hc.
Qed.

(** The heads of the ranges that [extract_special_ranges] emits. *)
Lemma extract_special_ranges_run_heads lc ranges lengths lc' :
  extract_special_ranges lc = Ok ((ranges, lengths), lc') ->
  Forall (special_head_ok lc) (special_ranges_of ranges lengths).
Proof.
  intros H. unfold extract_special_ranges in H.
  destruct (foldM (extract_special_ranges_body lc) (sorted (dict_keys lc))
              ([], [], -1, None)) as [st|] eqn:Hscan; [|discriminate H].
  assert (extract_special_ranges_inv st /\
          Forall (special_head_ok lc) (special_ranges_of st.1.1.1 st.1.1.2))
    as [_ Hheads].
  { apply (foldM_inv (extract_special_ranges_body lc)
             (fun _ st => extract_special_ranges_inv st /\
                          Forall (special_head_ok lc)
                                 (special_ranges_of st.1.1.1 st.1.1.2))
             (sorted (dict_keys lc)) ([], [], -1, None) st); [| |exact Hscan].
    - split; [|constructor].
      exists []. repeat split; try reflexivity; try discriminate. constructor.
    - intros pre a post s s1 _ [Hinv Hh] Hbody. split.
      + exact (extract_special_ranges_inv_step lc s a s1 Hinv Hbody).
      + exact (extract_special_ranges_heads_step lc s a s1 Hinv Hh Hbody). }
  rewrite bind_Ok in H. destruct st as [[[ranges0 lengths0] rp] ir].
  destruct (foldM (extract_special_ranges_remove ranges0 lengths0)
              (py_range 0 (len ranges0) 3) lc) as [lc1|]; [|discriminate H].
  rewrite bind_Ok in H. injection H as -> -> ->. exact Hheads.
Qed.

(** X6: what holds of every special range [(start, first, second,
    length)] that [extract_special_ranges] emits, whatever the map: the
    tables are in step (three entries for each length); the length is at
    least 1; [start] has the outputs [(first, second)] and [start + 1] has
    [(first + 1, second)]; every code point in
    [[start, start + length)] is a key of the map; the ranges are pairwise
    disjoint; and the call deletes exactly these code points and leaves
    every other binding. *)
Theorem extract_special_ranges_heads lc ranges lengths lc' :
  dict_wf lc ->
  extract_special_ranges lc = Ok ((ranges, lengths), lc') ->
  len ranges = 3 * len lengths /\
  (forall s f z n, (s, f, z, n) ∈ special_ranges_of ranges lengths ->
     1 <= n /\
     dict_get lc s = Some [f; z] /\ dict_get lc (s + 1) = Some [f + 1; z] /\
     forall i, 0 <= i < n -> is_Some (dict_get lc (s + i))) /\
  NoDup (special_domain (special_ranges_of ranges lengths)) /\
  (forall k, dict_get lc' k =
             if decide (k ∈ special_domain (special_ranges_of ranges lengths))
             then None else dict_get lc k).
Proof.
  intros Hwf H.
  pose proof (extract_special_ranges_run_heads lc ranges lengths lc' H) as Hheads.
  destruct (extract_special_ranges_run lc ranges lengths lc' H)
    as (ss & -> & -> & _ & Hdel).
  rewrite special_ranges_of_flat in Hheads. rewrite special_ranges_of_flat.
  rewrite Forall_forall in Hheads.
  destruct (dict_delitems_keys _ _ _ Hwf Hdel) as [_ Hp].
  split; [|split; [|split]].
  - rewrite len_flat_special. unfold special_lens. rewrite len_fmap. reflexivity.
  - intros s f z n Hr. destruct (Hheads _ Hr) as (Hn & H1 & H2).
    cbn [fst snd] in *. split; [exact Hn|]. split; [exact H1|].
    split; [exact H2|]. intros i Hi. apply elem_of_dict_keys.
    rewrite Hp. apply elem_of_app. left. apply elem_of_special_domain.
    exists (s, f, z, n). split; [exact Hr|]. cbn [fst snd]. lia.
  - unfold dict_wf in Hwf. rewrite Hp in Hwf. apply NoDup_app in Hwf. tauto.
  - intros k. apply dict_delitems_get, Hdel.
Qed.

Lemma extract_special_ranges_heads_witness :
  len [0x1F80; 0x1F08; 0x0399] = 3 * len [3] /\
  (forall s f z n,
     (s, f, z, n) ∈ special_ranges_of [0x1F80; 0x1F08; 0x0399] [3] ->
     1 <= n /\
     dict_get special_overrun s = Some [f; z] /\
     dict_get special_overrun (s + 1) = Some [f + 1; z] /\
     forall i, 0 <= i < n -> is_Some (dict_get special_overrun (s + i))) /\
  NoDup (special_domain (special_ranges_of [0x1F80; 0x1F08; 0x0399] [3])) /\
  (forall k, dict_get [(0x1F83, [0x2001; 0x0300]); (0x1F84, [0x2002; 0x0300])] k =
             if decide (k ∈ special_domain
                              (special_ranges_of [0x1F80; 0x1F08; 0x0399] [3]))
             then None else dict_get special_overrun k).
Proof.
  apply (extract_special_ranges_heads special_overrun).
  - apply NoDup_bool_decide. vm_compute. reflexivity.
  - vm_compute. reflexivity.
Defined.

(** ** Clean maps *)

Lemma special_cleanb_spec (lc : dict) :
  dict_wf lc -> special_cleanb lc = true -> special_clean lc.
Proof.
  unfold special_cleanb. rewrite forallb_forall. intros Hwf H c x y pv Hc Hp.
  assert (In (c, [x; y]) lc) as Hin.
  { clear H Hp. unfold dict_wf, dict_keys in Hwf.
    induction lc as [|[k0 v0] lc IH]; [discriminate|]. simpl in Hc.
    destruct (decide (c = k0)) as [->|Hne].
    - injection Hc as ->. left. reflexivity.
    - right. apply IH; [|exact Hc]. rewrite fmap_cons in Hwf.
      apply NoDup_cons in Hwf. tauto. }
  specialize (H _ Hin). cbn [fst snd] in H. rewrite Hp in H.
  destruct pv as [|px [|py [|pz pv]]]; try discriminate H.
  apply bool_decide_eq_true in H. subst py. eauto.
Qed.

Lemma special_clean_sub (d d0 : dict) :
  dict_sub d d0 -> special_clean d0 -> special_clean d.
Proof.
  intros Hs H c x y pv Hc Hp. exact (H c x y pv (Hs _ _ Hc) (Hs _ _ Hp)).
Qed.

Lemma special_domain_snoc ss (r : Z * Z * Z * Z) :
  special_domain (ss ++ [r]) = special_domain ss ++ seqZ r.1.1.1 r.2.
Proof.
  unfold special_domain. rewrite fmap_app, concat_app.
  cbn [fmap list_fmap concat]. rewrite app_nil_r. reflexivity.
Qed.

(** One turn of the scanning loop on a clean map, by cases on the code
    point and its predecessor. *)
Lemma extract_special_ranges_body_clean lc ranges lengths rp ir a v :
  special_clean lc -> dict_get lc a = Some v ->
  (len v <> 2 /\
   extract_special_ranges_body lc (ranges, lengths, rp, ir) a =
     Ok (ranges, lengths, rp, ir)) \/
  (len v = 2 /\
   extract_special_ranges_body lc (ranges, lengths, rp, ir) a =
     Ok (ranges, lengths, rp, Some false)) \/
  (exists px y,
     v = [px + 1; y] /\ dict_get lc (a - 1) = Some [px; y] /\
     extract_special_ranges_body lc (ranges, lengths, rp, ir) a =
       match ir with
       | None => Raise UnboundLocalError
       | Some true =>
           n ← list_getitem lengths rp;
           special_range_lengths ← list_setitem lengths rp (n + 1);
           Ok (ranges, special_range_lengths, rp, Some true)
       | Some false =>
           Ok (ranges ++ [a - 1; px; y], lengths ++ [1], rp + 1, Some true)
       end).
Proof.
  intros Hclean Hv. unfold extract_special_ranges_body.
  rewrite (proj2 (dict_getitem_Ok lc a v) Hv), bind_Ok.
  destruct (decide (len v = 2)) as [Hlen|Hlen].
  2:{ left. rewrite bool_decide_eq_false_2 by exact Hlen. auto. }
  right. rewrite bool_decide_eq_true_2 by exact Hlen. cbn [negb]. cbv zeta.
  pose proof Hlen as Hlen'. apply len_eq_2 in Hlen as (x & y & ->).
  destruct (dict_get lc (a - 1)) as [pv|] eqn:Hpv.
  2:{ left. rewrite (proj2 (dict_contains_false lc (a - 1)) Hpv). auto. }
  rewrite (proj2 (dict_contains_true lc (a - 1))) by eauto. cbn [negb].
  rewrite (proj2 (dict_getitem_Ok lc (a - 1) pv) Hpv), bind_Ok.
  destruct (Hclean a x y pv Hv Hpv) as [px ->].
  rewrite bool_decide_eq_true_2 by reflexivity. cbn [negb].
  change (str_getitem [px; y] 1) with (Ok [y] : result str).
  change (str_getitem [px; y] 0) with (Ok [px] : result str).
  change (str_getitem [x; y] 1) with (Ok [y] : result str).
  change (str_getitem [x; y] 0) with (Ok [x] : result str).
  rewrite !bind_Ok. rewrite bool_decide_eq_true_2 by reflexivity.
  repeat (progress (cbn [negb ord]; rewrite ?bind_Ok)).
  destruct (decide (px - (a - 1) = x - a)) as [Hd|Hd].
  2:{ left. rewrite bool_decide_eq_false_2 by exact Hd. auto. }
  right. rewrite bool_decide_eq_true_2 by exact Hd. cbn [negb].
  assert (x = px + 1) as -> by lia. exists px, y.
  split; [reflexivity|]. split; [reflexivity|].
  destruct ir as [[|]|]; reflexivity.
Qed.

(** One turn of the scanning loop on a clean map returns, and keeps the
    invariant. *)
Lemma extract_special_ranges_clean_step lc (pre post : list Z) (a : Z) st :
  special_clean lc ->
  StronglySorted Z.lt (pre ++ a :: post) ->
  (forall k, is_Some (dict_get lc k) <-> k ∈ pre ++ a :: post) ->
  extract_special_ranges_clean_inv lc pre st ->
  exists st1,
    extract_special_ranges_body lc st a = Ok st1 /\
    extract_special_ranges_clean_inv lc (pre ++ [a]) st1.
Proof.
  intros Hclean Hsorted Hkeys Hinv.
  destruct st as [[[ranges lengths] rp] ir].
  destruct Hinv as (ss & -> & -> & -> & Hok & Hnd & Hreach & Hlast).
  destruct (proj2 (Hkeys a)) as [v Hv]; [apply elem_of_app; right; left|].
  assert (forall c, c ∈ special_domain ss -> c < a) as Hbelow.
  { intros c Hc. destruct (Hreach c Hc) as (k & Hk & Hlt).
    pose proof (sorted_last_below pre post a k Hsorted Hk). lia. }
  destruct (extract_special_ranges_body_clean
              lc (flat_special ss) (special_lens ss) (len ss - 1) ir a v
              Hclean Hv)
    as [[Hlen ->]|[[Hlen ->]|(px & y & -> & Hp & ->)]].
  - (* another output length: nothing changes *)
    eexists. split; [reflexivity|]. exists ss.
    repeat (split; [reflexivity || assumption|]). split.
    + intros c Hc. exists a. rewrite last_snoc. split; [reflexivity|].
      apply Hbelow, Hc.
    + intros k x y Hk Hg. rewrite last_snoc in Hk. injection Hk as <-.
      rewrite Hv in Hg. injection Hg as ->. destruct Hlen. reflexivity.
  - (* no range can be open here *)
    eexists. split; [reflexivity|]. exists ss.
    repeat (split; [reflexivity || assumption|]). split.
    + intros c Hc. exists a. rewrite last_snoc. split; [reflexivity|].
      apply Hbelow, Hc.
    + intros k x y _ _. split; [discriminate|]. discriminate.
  - (* the code point continues its predecessor *)
    assert (last pre = Some (a - 1)) as Hprev.
    { assert (a - 1 ∈ pre) as Hin.
      { apply (sorted_below_elem_of pre post a); [exact Hsorted| |lia].
        apply Hkeys. eauto. }
      destruct (last pre) as [k|] eqn:Hl.
      - destruct (sorted_before pre post a k (a - 1) Hsorted Hl); [|lia|].
        + apply elem_of_app. left. exact Hin.
        + f_equal. lia.
      - apply last_None in Hl. subst pre. apply elem_of_nil in Hin.
        contradiction. }
    assert (a - 1 ∉ special_domain ss) as Hfresh.
    { intros Hc. destruct (Hreach _ Hc) as (k & Hk & Hlt).
      rewrite Hprev in Hk. injection Hk as <-. lia. }
    destruct (Hlast (a - 1) px y Hprev Hp) as [Hinit Hopen].
    destruct ir as [[|]|]; [| |contradiction].
    + (* the open range grows *)
      destruct (Hopen eq_refl) as (ss' & s & f & z & n & -> & Hend).
      rewrite special_lens_snoc. cbn [snd].
      rewrite list_getitem_snoc
        by (rewrite !len_app; unfold special_lens; rewrite len_fmap; reflexivity).
      rewrite bind_Ok.
      rewrite (list_setitem_snoc _ n)
        by (rewrite !len_app; unfold special_lens; rewrite len_fmap; reflexivity).
      rewrite bind_Ok. eexists. split; [reflexivity|].
      apply Forall_app in Hok as [Hok' Hr]. rewrite Forall_singleton in Hr.
      destruct Hr as [Hn Hr]. cbn [fst snd] in Hn, Hr.
      pose proof (Hr n ltac:(lia)) as Hg. rewrite <- Hend, Hp in Hg.
      injection Hg as -> ->.
      exists (ss' ++ [(s, f, z, n + 1)]).
      split; [rewrite !flat_special_snoc; reflexivity|].
      split; [rewrite special_lens_snoc; reflexivity|].
      split; [rewrite !len_app; reflexivity|].
      split; [|split; [|split]].
      * apply Forall_app. split; [exact Hok'|]. rewrite Forall_singleton.
        split; cbn [fst snd]; [lia|]. intros i Hi.
        destruct (decide (i = n + 1)) as [->|Hne]; [|apply Hr; lia].
        replace (s + (n + 1)) with a by lia.
        replace (f + (n + 1)) with (f + n + 1) by lia. exact Hv.
      * assert (special_domain (ss' ++ [(s, f, z, n + 1)]) =
                special_domain (ss' ++ [(s, f, z, n)]) ++ seqZ (s + n) 1) as ->.
        { rewrite !special_domain_snoc. cbn [fst snd].
          rewrite (seqZ_app s n 1), app_assoc by lia. reflexivity. }
        apply NoDup_app. split; [exact Hnd|]. split; [|apply NoDup_seqZ].
        intros c Hc Hc'. apply elem_of_seqZ in Hc'.
        apply Hfresh. replace (a - 1) with c by lia. exact Hc.
      * intros c Hc. exists a. rewrite last_snoc. split; [reflexivity|].
        rewrite special_domain_snoc in Hc. cbn [fst snd] in Hc.
        apply elem_of_app in Hc as [Hc|Hc].
        -- apply Hbelow. rewrite special_domain_snoc.
           apply elem_of_app. left. exact Hc.
        -- apply elem_of_seqZ in Hc. lia.
      * intros k x y0 Hk _. rewrite last_snoc in Hk. injection Hk as <-.
        split; [discriminate|]. intros _. exists ss', s, f, z, (n + 1).
        split; [reflexivity | lia].
    + (* a new range opens at the predecessor *)
      eexists. split; [reflexivity|]. exists (ss ++ [(a - 1, px, y, 1)]).
      split; [rewrite flat_special_snoc; reflexivity|].
      split; [rewrite special_lens_snoc; reflexivity|].
      split; [unfold len; rewrite length_app; simpl; lia|].
      split; [|split; [|split]].
      * apply Forall_app. split; [exact Hok|]. rewrite Forall_singleton.
        split; cbn [fst snd]; [lia|]. intros i Hi.
        destruct (decide (i = 0)) as [->|Hne].
        -- rewrite !Z.add_0_r. exact Hp.
        -- assert (i = 1) as -> by lia. replace (a - 1 + 1) with a by lia.
           exact Hv.
      * rewrite special_domain_snoc. cbn [fst snd].
        apply NoDup_app. split; [exact Hnd|]. split; [|apply NoDup_seqZ].
        intros c Hc Hc'. apply elem_of_seqZ in Hc'.
        apply Hfresh. replace (a - 1) with c by lia. exact Hc.
      * intros c Hc. exists a. rewrite last_snoc. split; [reflexivity|].
        rewrite special_domain_snoc in Hc. cbn [fst snd] in Hc.
        apply elem_of_app in Hc as [Hc|Hc]; [apply Hbelow, Hc|].
        apply elem_of_seqZ in Hc. lia.
      * intros k x y0 Hk _. rewrite last_snoc in Hk. injection Hk as <-.
        split; [discriminate|]. intros _. exists ss, (a - 1), px, y, 1.
        split; [reflexivity | lia].
Qed.

Lemma delete_special_ranges_total (ss : list (Z * Z * Z * Z)) :
  forall lc lc',
  foldM dict_delitem (special_domain ss) lc = Ok lc' ->
  foldM delete_special_range ss lc = Ok lc'.
Proof.
  induction ss as [|r ss IH]; intros lc lc' H.
  - exact H.
  - unfold special_domain in H. rewrite fmap_cons in H. cbn [concat] in H.
    fold (special_domain ss) in H. rewrite foldM_app in H.
    destruct (foldM dict_delitem (seqZ r.1.1.1 r.2) lc) as [lc1|] eqn:E;
      [|discriminate H].
    rewrite bind_Ok in H. cbn [foldM].
    assert (delete_special_range lc r = Ok lc1) as ->.
    { unfold delete_special_range.
      rewrite <- (foldM_fmap dict_delitem (fun incr => r.1.1.1 + incr)).
      change (fun incr => r.1.1.1 + incr) with (Z.add r.1.1.1).
      rewrite fmap_add_seqZ, Z.add_0_r. exact E. }
    rewrite bind_Ok. exact (IH _ _ H).
Qed.

(** On a clean map [extract_special_ranges] returns, with ranges that
    are right. *)
Lemma extract_special_ranges_clean_total lc :
  dict_wf lc -> special_clean lc ->
  exists ss lc',
    extract_special_ranges lc = Ok ((flat_special ss, special_lens ss), lc') /\
    Forall (special_range_ok lc) ss /\
    foldM dict_delitem (special_domain ss) lc = Ok lc'.
Proof.
  intros Hwf Hclean.
  destruct (foldM_total (extract_special_ranges_body lc)
              (extract_special_ranges_clean_inv lc)
              (sorted (dict_keys lc)) ([], [], -1, None))
    as ([[[ranges lengths] rp] ir] & Hscan & Hinv).
  - exists []. repeat split; try reflexivity; try discriminate;
      try constructor.
    intros c Hc. apply elem_of_nil in Hc. contradiction.
  - intros pre a post s Hl Hinv.
    apply (extract_special_ranges_clean_step lc pre post a s Hclean);
      [| |exact Hinv].
    + rewrite <- Hl. apply sorted_keys_strict, Hwf.
    + intros k. rewrite <- Hl, elem_of_sorted, elem_of_dict_keys. reflexivity.
  - destruct Hinv as (ss & -> & -> & _ & Hok & Hnd & _).
    destruct (dict_delitems_total (special_domain ss) lc Hnd) as [lc' Hdel].
    { intros k (r & Hr & Hk)%elem_of_special_domain.
      rewrite Forall_forall in Hok. destruct (Hok r Hr) as [_ Hg].
      specialize (Hg (k - r.1.1.1)).
      replace (r.1.1.1 + (k - r.1.1.1)) with k in Hg by lia.
      rewrite Hg by lia. eauto. }
    exists ss, lc'. split; [|split; [exact Hok | exact Hdel]].
    unfold extract_special_ranges. rewrite Hscan, bind_Ok.
    rewrite len_flat_special, py_range_chunks by (try lia; apply len_nonneg).
    rewrite foldM_fmap.
    rewrite (foldM_indexed _ delete_special_range ss)
      by (intros i r st Hi; apply extract_special_ranges_remove_range, Hi).
    rewrite (delete_special_ranges_total ss lc lc' Hdel). reflexivity.
Qed.

(** X19: on a clean map (every code point with two output code points
    that follows a key follows one with two output code points and the
    same second one) [extract_special_ranges] returns, and every range
    [(start, first, second, length)] it emits is right: [start + i] has
    the outputs [(first + i, second)] for every [i] from 0 to [length],
    that is for the [length] code points that the range covers, which
    the call deletes, and for the code point after them. *)
Theorem extract_special_ranges_clean lc :
  dict_wf lc -> special_clean lc ->
  exists ranges lengths lc',
    extract_special_ranges lc = Ok ((ranges, lengths), lc') /\
    forall s f z n,
      (s, f, z, n) ∈ special_ranges_of ranges lengths ->
      1 <= n /\
      (forall i, 0 <= i <= n -> dict_get lc (s + i) = Some [f + i; z]) /\
      (forall i, 0 <= i < n -> dict_get lc' (s + i) = None).
Proof.
  intros Hwf Hclean.
  destruct (extract_special_ranges_clean_total lc Hwf Hclean)
    as (ss & lc' & Hrun & Hok & Hdel).
  exists (flat_special ss), (special_lens ss), lc'. split; [exact Hrun|].
  rewrite special_ranges_of_flat. intros s f z n Hr.
  rewrite Forall_forall in Hok. destruct (Hok _ Hr) as [Hn Hg].
  cbn [fst snd] in Hn, Hg. split; [exact Hn|]. split; [exact Hg|].
  intros i Hi. rewrite (dict_delitems_get _ _ _ (s + i) Hdel).
  rewrite decide_True; [reflexivity|]. apply elem_of_special_domain.
  exists (s, f, z, n). split; [exact Hr|]. cbn [fst snd]. lia.
Qed.

Lemma extract_special_ranges_clean_witness :
  exists ranges lengths lc',
    extract_special_ranges ypogegrammeni_upper = Ok ((ranges, lengths), lc') /\
    forall s f z n,
      (s, f, z, n) ∈ special_ranges_of ranges lengths ->
      1 <= n /\
      (forall i, 0 <= i <= n ->
                 dict_get ypogegrammeni_upper (s + i) = Some [f + i; z]) /\
      (forall i, 0 <= i < n -> dict_get lc' (s + i) = None).
Proof.
  apply (extract_special_ranges_clean ypogegrammeni_upper).
  - apply NoDup_bool_decide. vm_compute. reflexivity.
  - apply special_cleanb_spec; [apply NoDup_bool_decide|];
      vm_compute; reflexivity.
Defined.
(** * Further properties of the pipeline: what the tables say *)

Lemma range_ok_sub lc lc0 (r : Z * Z * Z) :
  dict_sub lc lc0 -> range_ok lc None r -> range_ok lc0 None r.
Proof.
  intros Hs [Hn H]. split; [exact Hn|]. intros i Hi. apply Hs, H, Hi.
Qed.

(** The tiers behind a run of the constructor: the lists that its tables
    encode, and what each entry says of the two maps. *)
Lemma ConversionTables_init_tiers lower upper t ws l u :
  dict_wf lower -> dict_wf upper ->
  ConversionTables_init (lower, upper) = Ok (t, ws, l, u) ->
  exists rs1 ps qs ss rs5 l5 u4,
    character_case_ranges t = (flat_ranges rs1, range_lens rs1) /\
    character_pair_ranges t = (ps.*1, ps.*2) /\
    character_pairs t = flat_pairs qs /\
    upper_case_special_ranges t = (flat_special ss, special_lens ss) /\
    lower_case_ranges t = (flat_ranges rs5, range_lens rs5) /\
    lower_case_conversions t =
      (encode_entries (entries_of_arity 1 l5) ++
       encode_entries (entries_of_arity 2 l5) ++
       encode_entries (entries_of_arity 3 l5),
       [len (entries_of_arity 1 l5); len (entries_of_arity 2 l5);
        len (entries_of_arity 3 l5)]) /\
    upper_case_conversions t =
      (encode_entries (entries_of_arity 1 u4) ++
       encode_entries (entries_of_arity 2 u4) ++
       encode_entries (entries_of_arity 3 u4),
       [len (entries_of_arity 1 u4); len (entries_of_arity 2 u4);
        len (entries_of_arity 3 u4)]) /\
    Forall (range_ok lower (Some upper)) rs1 /\
    Forall (fun p : Z * Z =>
              Z.even p.2 = true /\ 2 <= p.2 /\
              forall j, 0 <= 2 * j < p.2 -> swap_pair lower upper (p.1 + 2 * j)) ps /\
    Forall (fun q : Z * Z => bidirectional lower upper q.1 q.2) qs /\
    Forall (special_head_ok upper) ss /\
    Forall (range_ok lower None) rs5 /\
    dict_sub l5 lower /\ dict_sub u4 upper.
Proof.
  intros Hwl Hwu H.
  apply ConversionTables_init_stages in H
    as (l1 & u1 & l2 & u2 & l3 & u3 & u4 & l5 & rc5 &
        E1 & E2 & E3 & E4 & E5 & E6 & E7 & _).
  destruct (extract_ranges_no_adjacent_swap_pairs _ _ _ _ _ Hwl E1)
    as (Hsl1 & Hsu1 & Hwl1 & Hnoadj).
  destruct t as [[a1 b1] [a2 b2] a3 [a4 b4] [a5 b5] [a6 b6] [a7 b7]].
  cbn [character_case_ranges character_pair_ranges character_pairs
       upper_case_special_ranges lower_case_ranges lower_case_conversions
       upper_case_conversions fst snd] in *.
  pose proof (extract_special_ranges_run_heads _ _ _ _ E4) as Hheads.
  apply (extract_ranges_run _ _ _ _ _ _ Hwl) in E1
    as (rs1 & -> & -> & Hok1 & _ & Hl1 & (u1' & [= <-] & Hu1)).
  destruct (dict_delitems_keys _ _ _ Hwu Hu1) as [Hwu1 _].
  apply (extract_character_pair_ranges_run _ _ _ _ _ _ Hwl1) in E2
    as (ps & -> & -> & Hok2 & _ & Hdom & Hl2 & Hu2).
  destruct (dict_delitems_keys _ _ _ Hwl1 Hl2) as [Hwl2 _].
  destruct (dict_delitems_keys _ _ _ Hwu1 Hu2) as [Hwu2 _].
  apply extract_character_pairs_run in E3 as (qs & -> & Hok3 & Hl3 & Hu3).
  destruct (dict_delitems_keys _ _ _ Hwl2 Hl3) as [Hwl3 _].
  destruct (dict_delitems_keys _ _ _ Hwu2 Hu3) as [Hwu3 _].
  apply extract_special_ranges_run in E4 as (ss & -> & -> & _ & Hu4).
  destruct (dict_delitems_keys _ _ _ Hwu3 Hu4) as [Hwu4 _].
  apply (extract_ranges_run _ _ _ _ _ _ Hwl3) in E5
    as (rs5 & -> & -> & Hok5 & _ & Hl5 & _).
  destruct (dict_delitems_keys _ _ _ Hwl3 Hl5) as [Hwl5 _].
  destruct (extract_conversions_run l5 Hwl5) as (l6 & Hrun6 & _).
  rewrite Hrun6 in E6. injection E6 as <- <- <-.
  destruct (extract_conversions_run u4 Hwu4) as (u7 & Hrun7 & _).
  rewrite Hrun7 in E7. injection E7 as <- <- <-.
  rewrite special_ranges_of_flat in Hheads.
  pose proof (dict_delitems_sub _ _ _ Hl2) as Hsl2.
  pose proof (dict_delitems_sub _ _ _ Hu2) as Hsu2.
  pose proof (dict_delitems_sub _ _ _ Hl3) as Hsl3.
  pose proof (dict_delitems_sub _ _ _ Hu3) as Hsu3.
  pose proof (dict_delitems_sub _ _ _ Hu4) as Hsu4.
  pose proof (dict_delitems_sub _ _ _ Hl5) as Hsl5.
  assert (dict_sub l3 lower) as Hs3
    by (intros k v Hk; apply Hsl1, Hsl2, Hsl3, Hk).
  assert (dict_sub u3 upper) as Hs3'
    by (intros k v Hk; apply Hsu1, Hsu2, Hsu3, Hk).
  exists rs1, ps, qs, ss, rs5, l5, u4.
  repeat (split; [reflexivity|]).
  split; [exact Hok1|]. split; [|split; [|split; [|split; [|split]]]].
  - specialize (Hdom Hnoadj).
    rewrite Forall_forall in Hok2. rewrite Forall_forall in Hdom.
    rewrite Forall_forall. intros p Hp.
    split; [apply (Hok2 p Hp)|]. split; [apply (Hok2 p Hp)|]. intros j Hj.
    exact (bidirectional_sub _ _ _ _ _ _ Hsl1 Hsu1 (Hdom p Hp j Hj)).
  - eapply Forall_impl; [exact Hok3|]. intros q Hq.
    apply (bidirectional_sub l1 u1); [exact Hsl1 | exact Hsu1|].
    exact (bidirectional_sub _ _ _ _ _ _ Hsl2 Hsu2 Hq).
  - eapply Forall_impl; [exact Hheads|]. intros r (Hn & H1 & H2).
    split; [exact Hn|]. split; apply Hs3'; assumption.
  - eapply Forall_impl; [exact Hok5|]. intros r. apply range_ok_sub, Hs3.
  - intros k v Hk. apply Hs3, Hsl5, Hk.
  - intros k v Hk. apply Hs3', Hsu4, Hk.
Qed.

Lemma uniform_bindings_fst rs : (uniform_bindings rs).*1 = uniform_domain rs.
Proof.
  unfold uniform_bindings, uniform_domain.
  induction rs as [|r rs IH]; [reflexivity|].
  rewrite !fmap_cons. cbn [concat]. rewrite fmap_app, IH. f_equal.
  rewrite <- list_fmap_compose.
  transitivity (Z.add r.1.1 <$> seqZ 0 r.2); [reflexivity|].
  rewrite fmap_add_seqZ, Z.add_0_r. reflexivity.
Qed.

Lemma uniform_reverse_bindings_fst rs :
  (uniform_reverse_bindings rs).*1 = uniform_codomain rs.
Proof.
  unfold uniform_reverse_bindings, uniform_codomain.
  induction rs as [|r rs IH]; [reflexivity|].
  rewrite !fmap_cons. cbn [concat]. rewrite fmap_app, IH. f_equal.
  rewrite <- list_fmap_compose.
  transitivity (Z.add r.1.2 <$> seqZ 0 r.2); [reflexivity|].
  rewrite fmap_add_seqZ, Z.add_0_r. reflexivity.
Qed.

Lemma pair_bindings_fst ps : (pair_bindings ps).*1 = pairs_domain ps.
Proof.
  unfold pair_bindings. rewrite <- list_fmap_compose. apply list_fmap_id.
Qed.

Lemma pair_reverse_bindings_fst ps :
  (pair_reverse_bindings ps).*1 = pairs_codomain ps.
Proof.
  unfold pair_reverse_bindings, pairs_domain, pairs_codomain.
  rewrite <- list_fmap_compose.
  induction ps as [|p ps IH]; [reflexivity|].
  rewrite !fmap_cons. cbn [concat]. rewrite fmap_app, IH. f_equal.
  unfold pair_domain, pair_codomain. rewrite <- list_fmap_compose.
  apply list_fmap_ext. intros _ i _. simpl. lia.
Qed.

Lemma singleton_bindings_fst qs : (singleton_bindings qs).*1 = qs.*1.
Proof.
  unfold singleton_bindings. rewrite <- list_fmap_compose. reflexivity.
Qed.

Lemma singleton_reverse_bindings_fst qs :
  (singleton_reverse_bindings qs).*1 = qs.*2.
Proof.
  unfold singleton_reverse_bindings. rewrite <- list_fmap_compose. reflexivity.
Qed.

Lemma lower_bindings_fst t : (lower_bindings t).*1 = lower_domain t.
Proof.
  unfold lower_bindings, lower_domain.
  rewrite !fmap_app, !uniform_bindings_fst, pair_bindings_fst,
    singleton_bindings_fst. reflexivity.
Qed.

Lemma elem_of_uniform_bindings rs (c : Z) (v : str) :
  (c, v) ∈ uniform_bindings rs ->
  exists r i, r ∈ rs /\ 0 <= i < r.2 /\ c = r.1.1 + i /\ v = [r.1.2 + i].
Proof.
  unfold uniform_bindings. intros (l & Hl & Hc)%elem_of_concat.
  apply list_elem_of_fmap in Hl as (r & -> & Hr).
  apply list_elem_of_fmap in Hc as (i & [= -> ->] & Hi).
  apply elem_of_seqZ in Hi. exists r, i. repeat split; try assumption; lia.
Qed.

Lemma elem_of_uniform_reverse_bindings rs (c : Z) (v : str) :
  (c, v) ∈ uniform_reverse_bindings rs ->
  exists r i, r ∈ rs /\ 0 <= i < r.2 /\ c = r.1.2 + i /\ v = [r.1.1 + i].
Proof.
  unfold uniform_reverse_bindings. intros (l & Hl & Hc)%elem_of_concat.
  apply list_elem_of_fmap in Hl as (r & -> & Hr).
  apply list_elem_of_fmap in Hc as (i & [= -> ->] & Hi).
  apply elem_of_seqZ in Hi. exists r, i. repeat split; try assumption; lia.
Qed.

Lemma elem_of_pairs_domain ps (c : Z) :
  Forall (fun p : Z * Z => Z.even p.2 = true) ps ->
  c ∈ pairs_domain ps ->
  exists p j, p ∈ ps /\ c = p.1 + 2 * j /\ 0 <= 2 * j < p.2.
Proof.
  intros Heven (l & Hl & Hc)%elem_of_concat.
  apply list_elem_of_fmap in Hl as (p & -> & Hp).
  rewrite Forall_forall in Heven.
  destruct (elem_of_pair_domain p c (Heven p Hp) Hc) as (j & Hj). eauto.
Qed.

Lemma elem_of_residual (d : dict) (n : Z) (k : Z) (v : str) :
  (k, v) ∈ entries_of_arity n d -> dict_get d k = Some v /\ len v = n.
Proof. intros H. apply elem_of_select_arity in H. tauto. Qed.

(** X7: the tables that describe the lower-case map lose nothing and
    invent nothing: the bindings they stand for (uniform ranges, pair
    ranges, singleton pairs, one-way ranges and residual entries) are
    exactly the bindings of the original lower-case map whose output has
    one to three code points; the bindings with any other output are
    exactly what the constructor leaves in the lower-case map. *)
Theorem lower_tables_lossless lower upper t ws l u (c : Z) (v : str) :
  dict_wf lower -> dict_wf upper ->
  ConversionTables_init (lower, upper) = Ok (t, ws, l, u) ->
  ((c, v) ∈ lower_bindings t <->
   dict_get lower c = Some v /\ 1 <= len v <= 3) /\
  (dict_get l c = Some v <->
   dict_get lower c = Some v /\ ~ 1 <= len v <= 3).
Proof.
  intros Hwl Hwu H. revert c v.
  destruct (ConversionTables_init_deletes lower upper t ws l u Hwl Hwu H)
    as (_ & _ & Hpl & _ & Hl & _).
  destruct (ConversionTables_init_tiers lower upper t ws l u Hwl Hwu H)
    as (rs1 & ps & qs & ss & rs5 & l5 & u4 & T1 & T2 & T3 & T4 & T5 & T6 & T7 &
        Hok1 & Hok2 & Hok3 & _ & Hok5 & Hs5 & _).
  assert (forall c v, (c, v) ∈ lower_bindings t ->
                      dict_get lower c = Some v /\ 1 <= len v <= 3) as Hsound.
  { intros c v Hc. unfold lower_bindings in Hc.
    rewrite T1, T2, T3, T5, T6 in Hc. cbn [fst snd] in Hc.
    rewrite !uniform_ranges_flat, singleton_pairs_flat, residual_entries_encode
      in Hc.
    unfold pair_ranges in Hc. rewrite zip_fst_snd in Hc.
    rewrite Forall_forall in Hok1. rewrite Forall_forall in Hok2.
    rewrite Forall_forall in Hok3. rewrite Forall_forall in Hok5.
    rewrite !elem_of_app in Hc.
    destruct Hc as [Hc|[Hc|[Hc|[Hc|[Hc|[Hc|Hc]]]]]].
    - apply elem_of_uniform_bindings in Hc as (r & i & Hr & Hi & -> & ->).
      destruct (Hok1 r Hr) as [_ Hrange].
      split; [apply (eligible_get lower (Some upper)), Hrange, Hi|].
      unfold len. simpl. lia.
    - apply list_elem_of_fmap in Hc as (c0 & [= -> ->] & Hc).
      apply elem_of_pairs_domain in Hc as (p & j & Hp & -> & Hj).
      2:{ apply Forall_forall. intros p Hp. apply (Hok2 p Hp). }
      destruct (Hok2 p Hp) as (_ & _ & Hsw).
      split; [apply (Hsw j Hj)|]. unfold len. simpl. lia.
    - apply list_elem_of_fmap in Hc as (q & [= -> ->] & Hq).
      split; [apply (Hok3 q Hq)|]. unfold len. simpl. lia.
    - apply elem_of_uniform_bindings in Hc as (r & i & Hr & Hi & -> & ->).
      destruct (Hok5 r Hr) as [_ Hrange].
      split; [apply (Hrange i Hi)|]. unfold len. simpl. lia.
    - apply elem_of_residual in Hc as [Hg Hn]. split; [apply Hs5, Hg | lia].
    - apply elem_of_residual in Hc as [Hg Hn]. split; [apply Hs5, Hg | lia].
    - apply elem_of_residual in Hc as [Hg Hn]. split; [apply Hs5, Hg | lia]. }
  assert (forall c v, dict_get lower c = Some v ->
            (c, v) ∈ lower_bindings t \/ dict_get l c = Some v) as Hcases.
  { intros c v Hg.
    assert (c ∈ dict_keys lower) as Hk by (apply elem_of_dict_keys; eauto).
    rewrite Hpl in Hk. apply elem_of_app in Hk as [Hk|Hk].
    - left. rewrite <- lower_bindings_fst in Hk.
      apply list_elem_of_fmap in Hk as ([c' v'] & -> & Hk). cbn [fst] in *.
      destruct (Hsound _ _ Hk) as [Hg' _].
      assert (v' = v) as -> by congruence. exact Hk.
    - right. apply elem_of_dict_keys in Hk as [v' Hv'].
      destruct (Hl c v' Hv') as [Hg' _]. congruence. }
  intros c v. split; (split; [auto|]); intros [Hg Hlen].
  - destruct (Hcases c v Hg) as [H1|H1]; [exact H1|].
    destruct (Hl c v H1) as [_ Hn]. contradiction.
  - destruct (Hcases c v Hg) as [H1|H1]; [|exact H1].
    destruct (Hsound c v H1) as [_ Hn]. contradiction.
Qed.

Lemma lower_tables_lossless_witness :
  ((0x0130, [0x69; 0x307]) ∈ lower_bindings sample_tables <->
   dict_get sample_lower 0x0130 = Some [0x69; 0x307] /\
   1 <= len [0x69; 0x307] <= 3) /\
  (dict_get [] 0x0130 = Some [0x69; 0x307] <->
   dict_get sample_lower 0x0130 = Some [0x69; 0x307] /\
   ~ 1 <= len [0x69; 0x307] <= 3).
Proof.
  apply (lower_tables_lossless sample_lower sample_upper sample_tables [] [] []
           0x0130 [0x69; 0x307]).
  - apply NoDup_bool_decide. vm_compute. reflexivity.
  - apply NoDup_bool_decide. vm_compute. reflexivity.
  - vm_compute. reflexivity.
Defined.

Lemma upper_domain_bindings t (c : Z) :
  c ∈ upper_domain t ->
  c ∈ (upper_bindings t).*1 \/
  c ∈ special_domain (special_ranges_of (upper_case_special_ranges t).1
                                        (upper_case_special_ranges t).2).
Proof.
  unfold upper_domain, upper_bindings.
  rewrite !fmap_app, uniform_reverse_bindings_fst, pair_reverse_bindings_fst,
    singleton_reverse_bindings_fst, !elem_of_app. tauto.
Qed.

(** The bindings that the upper-case tables stand for, the special
    ranges apart, are bindings of the upper-case map. *)
Lemma upper_bindings_sound lower upper t ws l u (c : Z) (v : str) :
  dict_wf lower -> dict_wf upper ->
  ConversionTables_init (lower, upper) = Ok (t, ws, l, u) ->
  (c, v) ∈ upper_bindings t -> dict_get upper c = Some v /\ 1 <= len v <= 3.
Proof.
  intros Hwl Hwu H.
  destruct (ConversionTables_init_tiers lower upper t ws l u Hwl Hwu H)
    as (rs1 & ps & qs & ss & rs5 & l5 & u4 & T1 & T2 & T3 & T4 & T5 & T6 & T7 &
        Hok1 & Hok2 & Hok3 & Hok4 & _ & _ & Hs4).
  intros Hc. unfold upper_bindings in Hc.
  rewrite T1, T2, T3, T7 in Hc. cbn [fst snd] in Hc.
  rewrite !uniform_ranges_flat, singleton_pairs_flat, residual_entries_encode
    in Hc.
  unfold pair_ranges in Hc. rewrite zip_fst_snd in Hc.
  rewrite Forall_forall in Hok1. rewrite Forall_forall in Hok2.
  rewrite Forall_forall in Hok3.
  rewrite !elem_of_app in Hc.
  destruct Hc as [Hc|[Hc|[Hc|[Hc|[Hc|Hc]]]]].
  - apply elem_of_uniform_reverse_bindings in Hc
      as (r & i & Hr & Hi & -> & ->).
    destruct (Hok1 r Hr) as [_ Hrange].
    split; [apply (Hrange i Hi)|]. unfold len. simpl. lia.
  - apply list_elem_of_fmap in Hc as (c0 & [= -> ->] & Hc).
    apply elem_of_pairs_domain in Hc as (p & j & Hp & -> & Hj).
    2:{ apply Forall_forall. intros p Hp. apply (Hok2 p Hp). }
    destruct (Hok2 p Hp) as (_ & _ & Hsw).
    split; [apply (Hsw j Hj)|]. unfold len. simpl. lia.
  - apply list_elem_of_fmap in Hc as (q & [= -> ->] & Hq).
    split; [apply (Hok3 q Hq)|]. unfold len. simpl. lia.
  - apply elem_of_residual in Hc as [Hg Hn]. split; [apply Hs4, Hg | lia].
  - apply elem_of_residual in Hc as [Hg Hn]. split; [apply Hs4, Hg | lia].
  - apply elem_of_residual in Hc as [Hg Hn]. split; [apply Hs4, Hg | lia].
Qed.

(** A binding of the upper-case map with one to three output code points
    is among them, or lies in a special range. *)
Lemma upper_bindings_complete lower upper t ws l u (c : Z) (v : str) :
  dict_wf lower -> dict_wf upper ->
  ConversionTables_init (lower, upper) = Ok (t, ws, l, u) ->
  dict_get upper c = Some v -> 1 <= len v <= 3 ->
  (c, v) ∈ upper_bindings t \/
  c ∈ special_domain (special_ranges_of (upper_case_special_ranges t).1
                                        (upper_case_special_ranges t).2).
Proof.
  intros Hwl Hwu H Hg Hlen.
  destruct (ConversionTables_init_deletes lower upper t ws l u Hwl Hwu H)
    as (_ & _ & _ & Hpu & _ & Hu).
  assert (c ∈ dict_keys upper) as Hk by (apply elem_of_dict_keys; eauto).
  rewrite Hpu in Hk. apply elem_of_app in Hk as [Hk|Hk].
  - apply upper_domain_bindings in Hk as [Hk|Hk]; [left|right; exact Hk].
    apply list_elem_of_fmap in Hk as ([c' v'] & -> & Hk). cbn [fst] in *.
    destruct (upper_bindings_sound lower upper t ws l u c' v' Hwl Hwu H Hk)
      as [Hg' _].
    assert (v' = v) as -> by congruence. exact Hk.
  - apply elem_of_dict_keys in Hk as [v' Hv'].
    destruct (Hu c v' Hv') as [Hg' Hn].
    assert (v' = v) as -> by congruence. contradiction.
Qed.

(** X8: the tables that describe the upper-case map, the special ranges
    apart, invent nothing: the bindings that they stand for (the two-way
    tables read backwards, and the residual entries) are bindings of the
    original upper-case map.  They lose nothing either: a binding of the
    upper-case map whose output has one to three code points is among
    them, unless its code point lies in a special range.  The start of
    every special range, and the code point after it, have the outputs
    that the range records. *)
Theorem upper_tables_sound lower upper t ws l u :
  dict_wf lower -> dict_wf upper ->
  ConversionTables_init (lower, upper) = Ok (t, ws, l, u) ->
  (forall c v, (c, v) ∈ upper_bindings t ->
               dict_get upper c = Some v /\ 1 <= len v <= 3) /\
  (forall c v, dict_get upper c = Some v -> 1 <= len v <= 3 ->
               (c, v) ∈ upper_bindings t \/
               c ∈ special_domain
                     (special_ranges_of (upper_case_special_ranges t).1
                                        (upper_case_special_ranges t).2)) /\
  (forall s f z n,
     (s, f, z, n) ∈ special_ranges_of (upper_case_special_ranges t).1
                                      (upper_case_special_ranges t).2 ->
     dict_get upper s = Some [f; z] /\ dict_get upper (s + 1) = Some [f + 1; z]).
Proof.
  intros Hwl Hwu H. split; [|split].
  - intros c v. exact (upper_bindings_sound lower upper t ws l u c v Hwl Hwu H).
  - intros c v.
    exact (upper_bindings_complete lower upper t ws l u c v Hwl Hwu H).
  - destruct (ConversionTables_init_tiers lower upper t ws l u Hwl Hwu H)
      as (rs1 & ps & qs & ss & rs5 & l5 & u4 & _ & _ & _ & T4 & _ & _ & _ &
          _ & _ & _ & Hok4 & _).
    intros s f z n Hr. rewrite T4 in Hr. cbn [fst snd] in Hr.
    rewrite special_ranges_of_flat in Hr. rewrite Forall_forall in Hok4.
    destruct (Hok4 _ Hr) as (_ & H1 & H2). split; assumption.
Qed.

Lemma upper_tables_sound_witness :
  (forall c v, (c, v) ∈ upper_bindings sample_tables ->
               dict_get sample_upper c = Some v /\ 1 <= len v <= 3) /\
  (forall c v, dict_get sample_upper c = Some v -> 1 <= len v <= 3 ->
               (c, v) ∈ upper_bindings sample_tables \/
               c ∈ special_domain
                     (special_ranges_of
                        (upper_case_special_ranges sample_tables).1
                        (upper_case_special_ranges sample_tables).2)) /\
  (forall s f z n,
     (s, f, z, n) ∈ special_ranges_of
                      (upper_case_special_ranges sample_tables).1
                      (upper_case_special_ranges sample_tables).2 ->
     dict_get sample_upper s = Some [f; z] /\
     dict_get sample_upper (s + 1) = Some [f + 1; z]).
Proof.
  apply (upper_tables_sound sample_lower sample_upper sample_tables [] [] []).
  - apply NoDup_bool_decide. vm_compute. reflexivity.
  - apply NoDup_bool_decide. vm_compute. reflexivity.
  - vm_compute. reflexivity.
Defined.

(** ** The numbers in the tables *)

Lemma dict_get_elem_of (d : dict) (k : Z) (v : str) :
  dict_get d k = Some v -> (k, v) ∈ d.
Proof.
  induction d as [|[k' v'] d IH]; [discriminate|]. simpl.
  destruct (decide (k = k')) as [->|Hne].
  - intros [= ->]. left.
  - intros H. right. exact (IH H).
Qed.

Lemma elem_of_encode_entries (es : list (Z * str)) (x : Z) :
  x ∈ encode_entries es <-> exists k v, (k, v) ∈ es /\ (x = k \/ x ∈ v).
Proof.
  unfold encode_entries. rewrite elem_of_concat. split.
  - intros (l0 & Hl & Hx). apply list_elem_of_fmap in Hl as ([k v] & -> & Hkv).
    cbn [fst snd] in Hx. exists k, v. split; [exact Hkv|].
    apply elem_of_cons in Hx. exact Hx.
  - intros (k & v & Hkv & Hx). exists (k :: v). split.
    + apply list_elem_of_fmap. exists (k, v). split; [reflexivity | exact Hkv].
    + apply elem_of_cons. exact Hx.
Qed.

Lemma dict_code_points_key (d : dict) (k : Z) (v : str) :
  dict_get d k = Some v -> k ∈ dict_code_points d.
Proof.
  intros H. apply dict_get_elem_of in H.
  apply (elem_of_encode_entries d). exists k, v. auto.
Qed.

Lemma dict_code_points_output (d : dict) (k x : Z) (v : str) :
  dict_get d k = Some v -> x ∈ v -> x ∈ dict_code_points d.
Proof.
  intros H Hx. apply dict_get_elem_of in H.
  apply (elem_of_encode_entries d). exists k, v. auto.
Qed.

Lemma elem_of_flat_ranges rs (x : Z) :
  x ∈ flat_ranges rs -> exists r, r ∈ rs /\ (x = r.1.1 \/ x = r.1.2).
Proof.
  unfold flat_ranges. intros (l0 & Hl & Hx)%elem_of_concat.
  apply list_elem_of_fmap in Hl as (r & -> & Hr). exists r. split; [exact Hr|].
  apply elem_of_cons in Hx as [->|Hx]; [left; reflexivity|].
  apply list_elem_of_singleton in Hx. right. exact Hx.
Qed.

Lemma uniform_ranges_code_points lc rc rs (x : Z) :
  Forall (range_ok lc rc) rs -> x ∈ flat_ranges rs -> x ∈ dict_code_points lc.
Proof.
  intros Hok (r & Hr & Hx)%elem_of_flat_ranges.
  rewrite Forall_forall in Hok. destruct (Hok r Hr) as [Hn Hrange].
  specialize (Hrange 0). rewrite !Z.add_0_r in Hrange.
  assert (dict_get lc r.1.1 = Some [r.1.2]) as Hg
    by (apply (eligible_get lc rc), Hrange; lia).
  destruct Hx as [->| ->].
  - exact (dict_code_points_key _ _ _ Hg).
  - apply (dict_code_points_output _ _ _ _ Hg). left.
Qed.

Lemma residual_code_points (d d0 : dict) (n : Z) (x : Z) :
  dict_sub d d0 ->
  x ∈ encode_entries (entries_of_arity n d) -> x ∈ dict_code_points d0.
Proof.
  intros Hs (k & v & Hkv & Hx)%elem_of_encode_entries.
  apply elem_of_residual in Hkv as [Hg _]. apply Hs in Hg.
  destruct Hx as [->|Hx].
  - exact (dict_code_points_key _ _ _ Hg).
  - exact (dict_code_points_output _ _ _ _ Hg Hx).
Qed.

(** The numbers in the tables of the lower-case map are code points of
    that map. *)
Lemma lower_table_values_code_points lower upper t ws l u (x : Z) :
  dict_wf lower -> dict_wf upper ->
  ConversionTables_init (lower, upper) = Ok (t, ws, l, u) ->
  x ∈ lower_table_values t -> x ∈ dict_code_points lower.
Proof.
  intros Hwl Hwu H.
  destruct (ConversionTables_init_tiers lower upper t ws l u Hwl Hwu H)
    as (rs1 & ps & qs & ss & rs5 & l5 & u4 & T1 & T2 & T3 & T4 & T5 & T6 & T7 &
        Hok1 & Hok2 & Hok3 & Hok4 & Hok5 & Hs5 & Hs4).
  unfold lower_table_values. rewrite T1, T2, T3, T5, T6. cbn [fst snd].
  rewrite !elem_of_app. intros [Hx|[Hx|[Hx|[Hx|[Hx|[Hx|Hx]]]]]].
  - exact (uniform_ranges_code_points _ _ _ _ Hok1 Hx).
  - apply list_elem_of_fmap in Hx as (p & -> & Hp).
    rewrite Forall_forall in Hok2. destruct (Hok2 p Hp) as (_ & Hn & Hsw).
    specialize (Hsw 0). rewrite Z.mul_0_r, Z.add_0_r in Hsw.
    destruct Hsw as [Hg _]; [lia|]. exact (dict_code_points_key _ _ _ Hg).
  - unfold flat_pairs in Hx. apply elem_of_concat in Hx as (l0 & Hl & Hx).
    apply list_elem_of_fmap in Hl as (q & -> & Hq).
    rewrite Forall_forall in Hok3. destruct (Hok3 q Hq) as [Hg _].
    apply elem_of_cons in Hx as [->|Hx].
    + exact (dict_code_points_key _ _ _ Hg).
    + exact (dict_code_points_output _ _ _ _ Hg Hx).
  - exact (uniform_ranges_code_points _ _ _ _ Hok5 Hx).
  - exact (residual_code_points _ _ _ _ Hs5 Hx).
  - exact (residual_code_points _ _ _ _ Hs5 Hx).
  - exact (residual_code_points _ _ _ _ Hs5 Hx).
Qed.

(** The numbers in the tables of the upper-case map only are code points
    of that map. *)
Lemma upper_table_values_code_points lower upper t ws l u (x : Z) :
  dict_wf lower -> dict_wf upper ->
  ConversionTables_init (lower, upper) = Ok (t, ws, l, u) ->
  x ∈ upper_table_values t -> x ∈ dict_code_points upper.
Proof.
  intros Hwl Hwu H.
  destruct (ConversionTables_init_tiers lower upper t ws l u Hwl Hwu H)
    as (rs1 & ps & qs & ss & rs5 & l5 & u4 & T1 & T2 & T3 & T4 & T5 & T6 & T7 &
        Hok1 & Hok2 & Hok3 & Hok4 & Hok5 & Hs5 & Hs4).
  unfold upper_table_values. rewrite T4, T7. cbn [fst snd].
  rewrite !elem_of_app. intros [Hx|[Hx|[Hx|Hx]]].
  - unfold flat_special in Hx. apply elem_of_concat in Hx as (l0 & Hl & Hx).
    apply list_elem_of_fmap in Hl as (r & -> & Hr).
    rewrite Forall_forall in Hok4. destruct (Hok4 r Hr) as (_ & Hg & _).
    apply elem_of_cons in Hx as [->|Hx].
    + exact (dict_code_points_key _ _ _ Hg).
    + exact (dict_code_points_output _ _ _ _ Hg Hx).
  - exact (residual_code_points _ _ _ _ Hs4 Hx).
  - exact (residual_code_points _ _ _ _ Hs4 Hx).
  - exact (residual_code_points _ _ _ _ Hs4 Hx).
Qed.

(** X9: the constructor invents no number: every entry of the five value
    tables that describe the lower-case map (uniform ranges, pair range
    start points, singleton pairs, one-way ranges, residual lower-case
    conversions) is a key or an output code point of the original
    lower-case map, and every entry of the special-range and residual
    upper-case tables is a key or an output code point of the original
    upper-case map.  (The length tables hold counts.) *)
Theorem tables_hold_code_points lower upper t ws l u :
  dict_wf lower -> dict_wf upper ->
  ConversionTables_init (lower, upper) = Ok (t, ws, l, u) ->
  (forall x, x ∈ lower_table_values t -> x ∈ dict_code_points lower) /\
  (forall x, x ∈ upper_table_values t -> x ∈ dict_code_points upper).
Proof.
  intros Hwl Hwu H. split; intros x Hx.
  - exact (lower_table_values_code_points lower upper t ws l u x Hwl Hwu H Hx).
  - exact (upper_table_values_code_points lower upper t ws l u x Hwl Hwu H Hx).
Qed.

Lemma tables_hold_code_points_witness :
  (forall x, x ∈ lower_table_values sample_tables ->
             x ∈ dict_code_points sample_lower) /\
  (forall x, x ∈ upper_table_values sample_tables ->
             x ∈ dict_code_points sample_upper).
Proof.
  apply (tables_hold_code_points sample_lower sample_upper sample_tables
           [] [] []).
  - apply NoDup_bool_decide. vm_compute. reflexivity.
  - apply NoDup_bool_decide. vm_compute. reflexivity.
  - vm_compute. reflexivity.
Defined.
(** * Further properties of the reader *)

(** ** [parse_unicode_sequence] *)

Lemma str_split_nonempty (sep : Z) (s : str) : str_split sep s <> [].
Proof.
  destruct s as [|c s]; simpl; [discriminate|].
  destruct (decide (c = sep)); [discriminate|].
  destruct (str_split sep s); discriminate.
Qed.

(** Splitting at a separator splits the list of words. *)
Lemma str_split_app (sep : Z) (a b : str) :
  str_split sep (a ++ sep :: b) = str_split sep a ++ str_split sep b.
Proof.
  induction a as [|c a IH]; simpl.
  - rewrite decide_True by reflexivity. reflexivity.
  - destruct (decide (c = sep)) as [->|Hne].
    + rewrite IH. reflexivity.
    + rewrite IH. pose proof (str_split_nonempty sep a) as Hn.
      destruct (str_split sep a) as [|w ws]; [contradiction|]. reflexivity.
Qed.

(** The loop of [parse_unicode_sequence] appends to what it is given. *)
Lemma parse_unicode_sequence_loop (ws : list str) : forall acc' acc : str,
  foldM (fun (result : str) (unicode_char : str) =>
           if bool_decide (unicode_char = []) then Ok result else
           hex_val ← int_base16 unicode_char;
           c ← chr hex_val;
           Ok (result ++ c)) ws (acc' ++ acc) =
  (r ← foldM (fun (result : str) (unicode_char : str) =>
                if bool_decide (unicode_char = []) then Ok result else
                hex_val ← int_base16 unicode_char;
                c ← chr hex_val;
                Ok (result ++ c)) ws acc;
   Ok (acc' ++ r)).
Proof.
  induction ws as [|w ws IH]; intros acc' acc; cbn [foldM].
  - rewrite bind_Ok. reflexivity.
  - destruct (bool_decide (w = [])).
    + rewrite !bind_Ok. apply IH.
    + destruct (int_base16 w) as [h|e]; [|reflexivity]. rewrite !bind_Ok.
      destruct (chr h) as [c|e]; [|reflexivity]. rewrite !bind_Ok.
      rewrite <- app_assoc. apply IH.
Qed.

(** X10: [parse_unicode_sequence] works word by word: the parse of two
    fields joined by a space is the parse of the first followed by the
    parse of the second, and it fails where the first of them fails. *)
Theorem parse_unicode_sequence_app (a b : str) :
  parse_unicode_sequence (a ++ 32 :: b) =
  (r1 ← parse_unicode_sequence a; r2 ← parse_unicode_sequence b; Ok (r1 ++ r2)).
Proof.
  unfold parse_unicode_sequence. rewrite str_split_app, foldM_app.
  match goal with
  | |- context [foldM ?f (str_split 32 a) []] =>
      destruct (foldM f (str_split 32 a) []) as [r1|e]; [|reflexivity]
  end.
  rewrite !bind_Ok. rewrite <- (app_nil_r r1) at 1.
  apply parse_unicode_sequence_loop.
Qed.

Lemma chr_Ok (i : Z) (c : str) :
  chr i = Ok c -> c = [i] /\ 0 <= i < 0x110000.
Proof.
  unfold chr. destruct (0 <=? i) eqn:H1; [|discriminate].
  destruct (i <? 0x110000) eqn:H2; [|discriminate].
  intros [= <-]. split; [reflexivity|]. lia.
Qed.

(** What the loop of [parse_unicode_sequence] returns: one code point for
    each non-empty word, each the number that [int(word, 16)] reads. *)
Lemma parse_unicode_sequence_words (ws : list str) : forall acc r : str,
  foldM (fun (result : str) (unicode_char : str) =>
           if bool_decide (unicode_char = []) then Ok result else
           hex_val ← int_base16 unicode_char;
           c ← chr hex_val;
           Ok (result ++ c)) ws acc = Ok r ->
  exists cs, r = acc ++ cs /\
             Forall2 (fun (w : str) c => int_base16 w = Ok c /\ 0 <= c < 0x110000)
                     (filter (fun w : str => w <> []) ws) cs.
Proof.
  induction ws as [|w ws IH]; intros acc r H; cbn [foldM] in H.
  - injection H as <-. exists []. rewrite app_nil_r. split; [reflexivity|].
    constructor.
  - destruct (decide (w = [])) as [->|Hne].
    + rewrite bool_decide_eq_true_2, bind_Ok in H by reflexivity.
      rewrite filter_cons_False by (intros Hn; apply Hn; reflexivity).
      exact (IH _ _ H).
    + rewrite bool_decide_eq_false_2 in H by exact Hne.
      destruct (int_base16 w) as [h|e] eqn:Eh; [|discriminate H].
      rewrite bind_Ok in H.
      destruct (chr h) as [c|e] eqn:Ec; [|discriminate H].
      rewrite !bind_Ok in H. apply chr_Ok in Ec as [-> Hh].
      destruct (IH _ _ H) as (cs & -> & Hcs).
      exists (h :: cs). rewrite <- app_assoc. split; [reflexivity|].
      rewrite filter_cons_True by exact Hne. constructor; [auto | exact Hcs].
Qed.

(** X11: when [parse_unicode_sequence] returns, its result has exactly
    one code point for each non-empty word of the field, in order: the
    number that [int(word, 16)] reads, which lies in [[0, 0x110000)].
    Runs of spaces, and leading or trailing spaces, add nothing. *)
Theorem parse_unicode_sequence_tokens (raw_data r : str) :
  parse_unicode_sequence raw_data = Ok r ->
  Forall2 (fun (w : str) c => int_base16 w = Ok c /\ 0 <= c < 0x110000)
          (tokens raw_data) r.
Proof.
  intros H. apply parse_unicode_sequence_words in H as (cs & -> & Hcs).
  exact Hcs.
Qed.

Lemma parse_unicode_sequence_tokens_witness :
  Forall2 (fun (w : str) c => int_base16 w = Ok c /\ 0 <= c < 0x110000)
          (tokens (py_str " 02BC  006E ")) [0x02BC; 0x006E].
Proof.
  apply (parse_unicode_sequence_tokens (py_str " 02BC  006E ") [0x02BC; 0x006E]).
  vm_compute. reflexivity.
Defined.

(** ** The maps that [read_case_mappings] builds *)

Lemma dict_get_update (d : dict) (k k' : Z) (v : str) :
  dict_get (dict_update d k v) k' =
  if decide (k' = k) then (if dict_contains d k then Some v else None)
  else dict_get d k'.
Proof.
  unfold dict_contains. induction d as [|[k0 v0] d IH]; simpl.
  - destruct (decide (k' = k)); reflexivity.
  - destruct (decide (k = k0)) as [->|Hne]; simpl.
    + destruct (decide (k' = k0)); reflexivity.
    + rewrite IH. destruct (decide (k' = k0)) as [->|Hne'].
      * rewrite decide_False by congruence. reflexivity.
      * reflexivity.
Qed.

Lemma dict_get_app (d d' : dict) (k : Z) :
  dict_get (d ++ d') k =
  match dict_get d k with Some v => Some v | None => dict_get d' k end.
Proof.
  induction d as [|[k0 v0] d IH]; simpl; [reflexivity|].
  destruct (decide (k = k0)); [reflexivity | exact IH].
Qed.

(** [d[k] = v] binds [k] to [v] and leaves the other keys. *)
Lemma dict_get_setitem (d : dict) (k k' : Z) (v : str) :
  dict_get (dict_setitem d k v) k' =
  if decide (k' = k) then Some v else dict_get d k'.
Proof.
  unfold dict_setitem. destruct (dict_contains d k) eqn:Hc.
  - rewrite dict_get_update, Hc. reflexivity.
  - rewrite dict_get_app. simpl. apply dict_contains_false in Hc.
    destruct (decide (k' = k)) as [->|Hne].
    + rewrite Hc. reflexivity.
    + destruct (dict_get d k'); reflexivity.
Qed.

Lemma dict_keys_update (d : dict) (k : Z) (v : str) :
  dict_keys (dict_update d k v) = dict_keys d.
Proof.
  unfold dict_keys. induction d as [|[k0 v0] d IH]; [reflexivity|]. simpl.
  destruct (decide (k = k0)); [reflexivity|]. rewrite fmap_cons, IH. reflexivity.
Qed.

Lemma dict_wf_setitem (d : dict) (k : Z) (v : str) :
  dict_wf d -> dict_wf (dict_setitem d k v).
Proof.
  unfold dict_wf, dict_setitem. intros Hwf.
  destruct (dict_contains d k) eqn:Hc.
  - rewrite dict_keys_update. exact Hwf.
  - unfold dict_keys in *. rewrite fmap_app. apply NoDup_app.
    split; [exact Hwf|]. split; [|apply NoDup_singleton].
    intros x Hx Hx'. apply list_elem_of_singleton in Hx'. subst x.
    apply (elem_of_dict_keys d k) in Hx. apply dict_contains_true in Hx.
    congruence.
Qed.

Lemma read_map_ok_setitem (d : dict) (k : Z) (v : str) :
  128 <= k < 0x10000 -> Forall (fun x => 0 <= x < 0x110000) v ->
  read_map_ok d -> read_map_ok (dict_setitem d k v).
Proof.
  intros Hk Hv (Hwf & Hkeys & Hout). split; [|split].
  - apply dict_wf_setitem, Hwf.
  - intros k'. rewrite dict_get_setitem.
    destruct (decide (k' = k)) as [->|]; [intros _; exact Hk | apply Hkeys].
  - intros k' v'. rewrite dict_get_setitem.
    destruct (decide (k' = k)) as [->|]; [intros [= <-]; exact Hv | apply Hout].
Qed.

Lemma parse_unicode_sequence_valid (raw_data r : str) :
  parse_unicode_sequence raw_data = Ok r ->
  Forall (fun x => 0 <= x < 0x110000) r.
Proof.
  intros H. apply parse_unicode_sequence_words in H as (cs & -> & Hcs).
  cbn [app]. induction Hcs as [|w c ws cs [_ Hc] _ IH]; constructor; assumption.
Qed.

Lemma read_unicode_data_line_ok (st st' : dict * dict) (line : list str) :
  read_map_ok st.1 -> read_map_ok st.2 ->
  read_unicode_data_line st line = Ok st' ->
  read_map_ok st'.1 /\ read_map_ok st'.2.
Proof.
  destruct st as [lower upper]. cbn [fst snd]. intros Hl Hu H.
  unfold read_unicode_data_line in H.
  destruct (list_getitem line 0) as [field|]; [|discriminate H].
  rewrite bind_Ok in H.
  destruct (int_base16 field) as [letter_id|]; [|discriminate H].
  rewrite bind_Ok in H.
  destruct (0x10000 <=? letter_id) eqn:H1;
    [injection H as <-; split; assumption|].
  destruct (letter_id <? 128) eqn:H2;
    [injection H as <-; split; assumption|].
  cbn [orb] in H.
  assert (128 <= letter_id < 0x10000) as Hid by lia.
  destruct (list_getitem line 12) as [capital_letter|]; [|discriminate H].
  rewrite bind_Ok in H.
  destruct (list_getitem line 13) as [small_letter|]; [|discriminate H].
  rewrite bind_Ok in H.
  destruct (str_truth capital_letter);
    [destruct (parse_unicode_sequence capital_letter) as [v|] eqn:Ev;
       [|discriminate H]|];
    rewrite ?bind_Ok in H;
    (destruct (str_truth small_letter);
     [destruct (parse_unicode_sequence small_letter) as [v'|] eqn:Ev';
        [|discriminate H]|]);
    rewrite ?bind_Ok in H; injection H as <-; cbn [fst snd]; split;
    try assumption;
    (apply read_map_ok_setitem;
     [exact Hid | eapply parse_unicode_sequence_valid; eassumption | assumption]).
Qed.

Lemma read_special_casing_line_ok (st st' : dict * dict) (line : list str) :
  read_map_ok st.1 -> read_map_ok st.2 ->
  read_special_casing_line st line = Ok st' ->
  read_map_ok st'.1 /\ read_map_ok st'.2.
Proof.
  destruct st as [lower upper]. cbn [fst snd]. intros Hl Hu H.
  unfold read_special_casing_line in H.
  destruct (bool_decide (line = [])); [injection H as <-; split; assumption|].
  destruct (list_getitem line 0) as [first|]; [|discriminate H].
  rewrite bind_Ok in H.
  destruct (str_startswith first 35); [injection H as <-; split; assumption|].
  destruct (replace_comment_fields line) as [line'|]; [|discriminate H].
  rewrite bind_Ok in H.
  destruct (list_getitem line' 0) as [field|]; [|discriminate H].
  rewrite bind_Ok in H.
  destruct (int_base16 field) as [letter_id|]; [|discriminate H].
  rewrite bind_Ok in H.
  destruct (list_getitem line' 4) as [condition_list|]; [|discriminate H].
  rewrite bind_Ok in H.
  destruct (0x10000 <=? letter_id) eqn:H1;
    [injection H as <-; split; assumption|].
  destruct (letter_id <? 128) eqn:H2;
    [injection H as <-; split; assumption|].
  destruct (str_truth condition_list);
    [injection H as <-; split; assumption|].
  cbn [orb] in H.
  assert (128 <= letter_id < 0x10000) as Hid by lia.
  destruct (list_getitem line' 1) as [f1|]; [|discriminate H].
  rewrite bind_Ok in H.
  destruct (parse_unicode_sequence f1) as [small_letter|] eqn:E1;
    [|discriminate H].
  rewrite bind_Ok in H.
  destruct (list_getitem line' 3) as [f3|]; [|discriminate H].
  rewrite bind_Ok in H.
  destruct (parse_unicode_sequence f3) as [capital_letter|] eqn:E3;
    [|discriminate H].
  rewrite bind_Ok in H. injection H as <-. cbn [fst snd]. split.
  - apply read_map_ok_setitem; [exact Hid | | exact Hl].
    exact (parse_unicode_sequence_valid _ _ E1).
  - apply read_map_ok_setitem; [exact Hid | | exact Hu].
    exact (parse_unicode_sequence_valid _ _ E3).
Qed.

Lemma read_map_ok_nil : read_map_ok [].
Proof.
  split; [constructor|]. split.
  - intros k [v Hv]. discriminate.
  - intros k v Hv. discriminate.
Qed.

(** The loop over the unicode data records builds maps that are in
    order. *)
Lemma read_unicode_data_ok unicode_data (st : dict * dict) :
  foldM read_unicode_data_line unicode_data ([], []) = Ok st ->
  read_map_ok st.1 /\ read_map_ok st.2.
Proof.
  intros H.
  apply (foldM_inv read_unicode_data_line
           (fun _ st => read_map_ok st.1 /\ read_map_ok st.2)
           unicode_data ([], []) st); [| |exact H].
  - split; exact read_map_ok_nil.
  - intros pre a post s s1 _ [Hl Hu] Hb.
    exact (read_unicode_data_line_ok s s1 a Hl Hu Hb).
Qed.

(** The loop over the special-casing records keeps them in order. *)
Lemma read_special_casing_ok special_casing (st st' : dict * dict) :
  read_map_ok st.1 -> read_map_ok st.2 ->
  foldM read_special_casing_line special_casing st = Ok st' ->
  read_map_ok st'.1 /\ read_map_ok st'.2.
Proof.
  intros Hl Hu H.
  apply (foldM_inv read_special_casing_line
           (fun _ st => read_map_ok st.1 /\ read_map_ok st.2)
           special_casing st st'); [| |exact H].
  - split; assumption.
  - intros pre a post s s1 _ [Hl' Hu'] Hb.
    exact (read_special_casing_line_ok s s1 a Hl' Hu' Hb).
Qed.

(** X12: the two maps that [read_case_mappings] returns bind each key
    once, have all their keys in [[128, 0x10000)] (ASCII and the
    supplementary planes are skipped, in both files), and have strings of
    code points below 0x110000 as outputs. *)
Theorem read_case_mappings_ok unicode_data special_casing lower upper :
  read_case_mappings unicode_data special_casing = Ok (lower, upper) ->
  read_map_ok lower /\ read_map_ok upper.
Proof.
  unfold read_case_mappings. intros H.
  destruct (foldM read_unicode_data_line unicode_data ([], []))
    as [st|] eqn:E1; [|discriminate H].
  rewrite bind_Ok in H.
  destruct (read_unicode_data_ok unicode_data st E1) as [Hl Hu].
  exact (read_special_casing_ok special_casing st (lower, upper) Hl Hu H).
Qed.

Lemma read_case_mappings_ok_witness :
  read_map_ok [(0x0149, [0x02BC; 0x006E])] /\
  read_map_ok [(0x00E9, [0x00C9]); (0x0149, [0x02BC; 0x004E])].
Proof.
  apply (read_case_mappings_ok unicode_data_sample [record_with_comment_field]).
  vm_compute. reflexivity.
Defined.
(** * Further properties of [extract_character_pair_ranges] *)

Lemma pairs_domain_snoc ps (p : Z * Z) :
  pairs_domain (ps ++ [p]) = pairs_domain ps ++ pair_domain p.
Proof.
  unfold pairs_domain. rewrite fmap_app, concat_app.
  cbn [fmap list_fmap concat]. rewrite app_nil_r. reflexivity.
Qed.

Lemma pair_domain_grow (s n : Z) :
  Z.even n = true -> 0 <= n ->
  pair_domain (s, n + 2) = pair_domain (s, n) ++ [s + n].
Proof.
  intros [h ->]%Z.even_spec Hn. unfold pair_domain. cbn [fst snd].
  replace (2 * h + 2) with (2 * (h + 1)) by lia.
  rewrite !py_range_chunks by lia.
  rewrite (seqZ_app 0 h 1) by lia. rewrite !fmap_app. reflexivity.
Qed.

Lemma pair_domain_two (s : Z) : pair_domain (s, 2) = [s].
Proof.
  change 2 with (0 + 2).
  rewrite (pair_domain_grow s 0) by (reflexivity || lia).
  unfold pair_domain. cbn. rewrite Z.add_0_r. reflexivity.
Qed.

Lemma pairs_codomain_succ ps : pairs_codomain ps = Z.succ <$> pairs_domain ps.
Proof.
  unfold pairs_domain, pairs_codomain.
  induction ps as [|p ps IH]; [reflexivity|].
  rewrite !fmap_cons. cbn [concat]. rewrite fmap_app, IH. f_equal.
  unfold pair_domain, pair_codomain. rewrite <- list_fmap_compose.
  apply list_fmap_ext. intros _ i _. simpl. lia.
Qed.

(** One turn of the scanning loop returns, on maps without empty
    outputs. *)
Lemma extract_character_pair_ranges_body_total lc rc pre st a :
  nonempty_outputs lc -> nonempty_outputs rc ->
  extract_character_pair_ranges_inv lc rc pre st ->
  exists st1, extract_character_pair_ranges_body lc rc st a = Ok st1.
Proof.
  intros Hlc Hrc Hinv. destruct st as [[[sp ls] ir] ec].
  destruct Hinv as (ps & -> & -> & -> & _ & Hin & _).
  unfold extract_character_pair_ranges_body.
  destruct (is_bidirectional_conversion a lc rc) as [[|]|e] eqn:Eb.
  - rewrite bind_Ok. cbn [negb].
    apply is_bidirectional_conversion_true in Eb as [m Hm].
    rewrite (proj2 (dict_getitem_Ok lc a [m]) (proj1 Hm)), bind_Ok.
    cbn [ord]. rewrite bind_Ok.
    destruct (bool_decide (m = a + 1)); [|eauto]. cbv zeta.
    destruct (is_bidirectional_conversion (a - 2) lc rc) as [b'|e] eqn:Eb'.
    + rewrite bind_Ok.
      destruct (if negb b' then false else ir) eqn:Hir; [|eauto].
      assert (ir = true) as -> by (destruct b', ir; simpl in Hir; congruence).
      destruct (Hin eq_refl) as (ps' & p & ->).
      rewrite !fmap_app. cbn [fmap list_fmap].
      rewrite list_getitem_snoc by (rewrite !len_app, len_fmap; reflexivity).
      rewrite bind_Ok.
      rewrite (list_setitem_snoc _ p.2)
        by (rewrite !len_app, len_fmap; reflexivity).
      rewrite bind_Ok. eauto.
    + exfalso.
      apply is_bidirectional_conversion_error in Eb' as [_ [H|(m' & H1 & H2)]].
      * apply (Hlc _ _ H). reflexivity.
      * apply (Hrc _ _ H2). reflexivity.
  - rewrite bind_Ok. cbn [negb]. eauto.
  - exfalso.
    apply is_bidirectional_conversion_error in Eb as [_ [H|(m & H1 & H2)]].
    + apply (Hlc _ _ H). reflexivity.
    + apply (Hrc _ _ H2). reflexivity.
Qed.

(** One turn of the scanning loop keeps the ranges apart, and covers the
    swap pair it meets. *)
Lemma extract_character_pair_ranges_apart_step
    lc rc (pre post : list Z) (a : Z) st st1 :
  no_adjacent_swap_pairs lc rc ->
  StronglySorted Z.lt (pre ++ a :: post) ->
  extract_character_pair_ranges_inv lc rc pre st ->
  extract_character_pair_ranges_inv lc rc (pre ++ [a]) st1 ->
  extract_character_pair_ranges_apart lc rc pre st ->
  extract_character_pair_ranges_body lc rc st a = Ok st1 ->
  extract_character_pair_ranges_apart lc rc (pre ++ [a]) st1.
Proof.
  intros Hnoadj Hsorted Hinv Hinv1 Hap Hbody.
  destruct st as [[[sp ls] ir] ec].
  destruct Hinv as (ps & -> & -> & -> & Hok & Hin & _).
  unfold extract_character_pair_ranges_apart, pair_ranges in Hap.
  rewrite zip_fst_snd in Hap. cbv zeta in Hap.
  destruct Hap as (Hnd & Hreach & Hall).
  assert (forall c, c ∈ pairs_domain ps -> c < a) as Hbelow.
  { intros c Hc. destruct (Hreach c Hc) as (k & Hlast & Hle).
    pose proof (sorted_last_below pre post a k Hsorted Hlast). lia. }
  apply extract_character_pair_ranges_body_cases in Hbody
    as [[-> Hno]|[Hsw [(-> & Hprev & n0 & l' & Hget & Hset & ->)|[Hnew ->]]]].
  - (* not a swap pair *)
    unfold extract_character_pair_ranges_apart, pair_ranges.
    rewrite zip_fst_snd. cbv zeta. split; [exact Hnd|]. split.
    + intros c Hc. exists a. rewrite last_snoc. split; [reflexivity|].
      apply Hbelow in Hc. lia.
    + intros k Hk Hswk. apply elem_of_app in Hk as [Hk|Hk]; [auto|].
      apply list_elem_of_singleton in Hk. subst k. contradiction.
  - (* the open range grows by one pair *)
    destruct (Hin eq_refl) as (ps' & [s n] & ->).
    rewrite fmap_app in Hget, Hset. cbn [fmap list_fmap snd] in Hget, Hset.
    rewrite list_getitem_snoc in Hget
      by (rewrite !len_app, len_fmap; reflexivity).
    injection Hget as <-.
    rewrite (list_setitem_snoc _ n) in Hset
      by (rewrite !len_app, len_fmap; reflexivity).
    injection Hset as <-.
    apply Forall_app in Hok as [_ Hlastok].
    apply Forall_singleton in Hlastok as (_ & Hn2 & Heven). cbn [fst snd] in *.
    assert (s + n = a) as Hend.
    { destruct Hinv1 as (ps1 & Hsp & Hls & _ & _ & _ & _ & Hadj1).
      destruct (Hadj1 Hnoadj) as [_ Hopen].
      destruct (Hopen eq_refl) as (ps1' & [s1 n1] & k & -> & Hlast & Hk).
      rewrite last_snoc in Hlast. injection Hlast as <-.
      rewrite !fmap_app in Hsp. rewrite !fmap_app in Hls.
      cbn [fmap list_fmap fst snd] in Hsp, Hls.
      apply app_inj_tail in Hsp as [_ <-]. apply app_inj_tail in Hls as [_ <-].
      cbn [fst snd] in Hk. lia. }
    unfold extract_character_pair_ranges_apart, pair_ranges.
    replace ((ps' ++ [(s, n)]).*1) with ((ps' ++ [(s, n + 2)]).*1)
      by (rewrite !fmap_app; reflexivity).
    replace (ps'.*2 ++ [n + 2]) with ((ps' ++ [(s, n + 2)]).*2)
      by (rewrite !fmap_app; reflexivity).
    rewrite zip_fst_snd. cbv zeta.
    rewrite pairs_domain_snoc, pair_domain_grow, app_assoc, <- pairs_domain_snoc
      by (assumption || lia).
    rewrite Hend. split; [|split].
    + apply NoDup_app. split; [exact Hnd|]. split; [|apply NoDup_singleton].
      intros c Hc Hc'. apply list_elem_of_singleton in Hc'. subst c.
      apply Hbelow in Hc. lia.
    + intros c Hc. exists a. rewrite last_snoc. split; [reflexivity|].
      apply elem_of_app in Hc as [Hc|Hc]; [apply Hbelow in Hc; lia|].
      apply list_elem_of_singleton in Hc. lia.
    + intros k Hk Hswk. apply elem_of_app.
      apply elem_of_app in Hk as [Hk|Hk]; [left; auto|].
      right. exact Hk.
  - (* a new range opens at this code point *)
    unfold extract_character_pair_ranges_apart, pair_ranges.
    replace (ps.*1 ++ [a]) with ((ps ++ [(a, 2)]).*1)
      by (rewrite fmap_app; reflexivity).
    replace (ps.*2 ++ [2]) with ((ps ++ [(a, 2)]).*2)
      by (rewrite fmap_app; reflexivity).
    rewrite zip_fst_snd. cbv zeta. rewrite pairs_domain_snoc, pair_domain_two.
    split; [|split].
    + apply NoDup_app. split; [exact Hnd|]. split; [|apply NoDup_singleton].
      intros c Hc Hc'. apply list_elem_of_singleton in Hc'. subst c.
      apply Hbelow in Hc. lia.
    + intros c Hc. exists a. rewrite last_snoc. split; [reflexivity|].
      apply elem_of_app in Hc as [Hc|Hc]; [apply Hbelow in Hc; lia|].
      apply list_elem_of_singleton in Hc. lia.
    + intros k Hk Hswk. apply elem_of_app.
      apply elem_of_app in Hk as [Hk|Hk]; [left; auto|].
      right. exact Hk.
Qed.

(** The scanning loop returns, with both invariants. *)
Lemma extract_character_pair_ranges_scan_total lc rc :
  dict_wf lc -> nonempty_outputs lc -> nonempty_outputs rc ->
  no_adjacent_swap_pairs lc rc ->
  exists st,
    foldM (extract_character_pair_ranges_body lc rc) (sorted (dict_keys lc))
          ([], [], false, -1) = Ok st /\
    extract_character_pair_ranges_inv lc rc (sorted (dict_keys lc)) st /\
    extract_character_pair_ranges_apart lc rc (sorted (dict_keys lc)) st.
Proof.
  intros Hwf Hlc Hrc Hnoadj.
  apply (foldM_total (extract_character_pair_ranges_body lc rc)
           (fun pre st => extract_character_pair_ranges_inv lc rc pre st /\
                          extract_character_pair_ranges_apart lc rc pre st)).
  - split.
    + exists []. repeat split; try reflexivity; try discriminate;
        try constructor.
      intros k Hk. apply elem_of_nil in Hk. contradiction.
    + split; [constructor|]. split.
      * intros c Hc. apply elem_of_nil in Hc. contradiction.
      * intros k Hk. apply elem_of_nil in Hk. contradiction.
  - intros pre a post s Hl [Hinv Hap].
    assert (StronglySorted Z.lt (pre ++ a :: post)) as Hs
      by (rewrite <- Hl; apply sorted_keys_strict, Hwf).
    assert (forall k, is_Some (dict_get lc k) -> k ∈ pre ++ a :: post) as Hk
      by (intros k Hk; rewrite <- Hl; apply elem_of_sorted, elem_of_dict_keys, Hk).
    destruct (extract_character_pair_ranges_body_total lc rc pre s a Hlc Hrc Hinv)
      as [s1 Hb].
    pose proof (extract_character_pair_ranges_inv_step
                  lc rc pre post a s s1 Hs Hk Hinv Hb) as Hinv1.
    exists s1. split; [exact Hb|]. split; [exact Hinv1|].
    exact (extract_character_pair_ranges_apart_step
             lc rc pre post a s s1 Hnoadj Hs Hinv Hinv1 Hap Hb).
Qed.

Lemma delete_pair_range_total (s : Z) (ks : list Z) :
  forall lc rc lc' rc',
  foldM dict_delitem ((fun incr => s + incr) <$> ks) lc = Ok lc' ->
  foldM dict_delitem ((fun incr => s + 1 + incr) <$> ks) rc = Ok rc' ->
  foldM (fun (st : dict * dict) incr =>
           let '(letter_case, reverse_letter_case) := st in
           letter_case ← dict_delitem letter_case (s + incr);
           reverse_letter_case ←
             dict_delitem reverse_letter_case (s + 1 + incr);
           Ok (letter_case, reverse_letter_case)) ks (lc, rc) = Ok (lc', rc').
Proof.
  induction ks as [|k ks IH]; intros lc rc lc' rc' H1 H2.
  - cbn [foldM fmap list_fmap] in *. injection H1 as <-. injection H2 as <-.
    reflexivity.
  - rewrite fmap_cons in H1, H2. cbn [foldM] in H1, H2 |- *.
    destruct (dict_delitem lc (s + k)) as [lc1|]; [|discriminate].
    rewrite bind_Ok in H1. rewrite bind_Ok.
    destruct (dict_delitem rc (s + 1 + k)) as [rc1|]; [|discriminate].
    rewrite bind_Ok in H2. rewrite !bind_Ok. apply IH; assumption.
Qed.

Lemma delete_pair_ranges_total (ps : list (Z * Z)) :
  forall lc rc lc' rc',
  foldM dict_delitem (pairs_domain ps) lc = Ok lc' ->
  foldM dict_delitem (pairs_codomain ps) rc = Ok rc' ->
  foldM delete_pair_range ps (lc, rc) = Ok (lc', rc').
Proof.
  induction ps as [|p ps IH]; intros lc rc lc' rc' H1 H2.
  - cbn [foldM] in *. injection H1 as <-. injection H2 as <-. reflexivity.
  - unfold pairs_domain, pairs_codomain in H1, H2.
    rewrite fmap_cons in H1, H2. cbn [concat] in H1, H2.
    fold (pairs_domain ps) in H1. fold (pairs_codomain ps) in H2.
    rewrite foldM_app in H1, H2.
    destruct (foldM dict_delitem (pair_domain p) lc) as [lc1|] eqn:E1;
      [|discriminate].
    destruct (foldM dict_delitem (pair_codomain p) rc) as [rc1|] eqn:E2;
      [|discriminate].
    rewrite bind_Ok in H1, H2. cbn [foldM]. unfold delete_pair_range at 2.
    rewrite (delete_pair_range_total p.1 (py_range 0 p.2 2) lc rc lc1 rc1 E1 E2).
    rewrite bind_Ok. apply IH; assumption.
Qed.

Lemma swap_pairb_spec lc rc c : swap_pairb lc rc c = true <-> swap_pair lc rc c.
Proof.
  unfold swap_pairb, swap_pair, bidirectional.
  rewrite andb_true_iff, !bool_decide_eq_true. reflexivity.
Qed.

Lemma no_adjacent_swap_pairsb_spec lc rc :
  no_adjacent_swap_pairsb lc rc = true -> no_adjacent_swap_pairs lc rc.
Proof.
  unfold no_adjacent_swap_pairsb. rewrite forallb_forall.
  intros H c Hc Hc'.
  assert (In c (dict_keys lc)) as Hin.
  { apply list_elem_of_In, elem_of_dict_keys. destruct Hc as [-> _]. eauto. }
  specialize (H c Hin). apply negb_true_iff, andb_false_iff in H.
  apply swap_pairb_spec in Hc, Hc'. destruct H; congruence.
Qed.

(** On maps without empty outputs and without consecutive swap pairs,
    [extract_character_pair_ranges] returns, and its ranges cover the swap
    pairs exactly. *)
Lemma extract_character_pair_ranges_total lc rc :
  dict_wf lc -> nonempty_outputs lc -> nonempty_outputs rc ->
  no_adjacent_swap_pairs lc rc ->
  exists (ps : list (Z * Z)) lc' rc',
    extract_character_pair_ranges lc rc = Ok ((ps.*1, ps.*2), lc', rc') /\
    NoDup (pairs_domain ps) /\
    (forall c, c ∈ pairs_domain ps <-> swap_pair lc rc c) /\
    foldM dict_delitem (pairs_domain ps) lc = Ok lc' /\
    foldM dict_delitem (pairs_codomain ps) rc = Ok rc'.
Proof.
  intros Hwf Hlc Hrc Hnoadj.
  destruct (extract_character_pair_ranges_scan_total lc rc Hwf Hlc Hrc Hnoadj)
    as ([[[sp ls] ir] ec] & Hscan & Hinv & Hap).
  destruct Hinv as (ps & -> & -> & _ & Hok & _ & _ & Hadj).
  unfold extract_character_pair_ranges_apart, pair_ranges in Hap.
  rewrite zip_fst_snd in Hap. destruct Hap as (Hnd & _ & Hall).
  destruct (Hadj Hnoadj) as [Hdom _].
  assert (forall c, c ∈ pairs_domain ps <-> swap_pair lc rc c) as Hexact.
  { intros c. split.
    - intros Hc. apply elem_of_pairs_domain in Hc as (p & j & Hp & -> & Hj).
      + rewrite Forall_forall in Hdom. exact (Hdom p Hp j Hj).
      + eapply Forall_impl; [exact Hok|]. intros p Hp. apply Hp.
    - intros Hc. apply Hall; [|exact Hc].
      apply elem_of_sorted, elem_of_dict_keys. destruct Hc as [-> _]. eauto. }
  destruct (dict_delitems_total (pairs_domain ps) lc Hnd) as [lc' Hl].
  { intros k Hk. apply Hexact in Hk. destruct Hk as [-> _]. eauto. }
  destruct (dict_delitems_total (pairs_codomain ps) rc) as [rc' Hr].
  { rewrite pairs_codomain_succ. apply NoDup_fmap_2; [|exact Hnd].
    intros x y Hxy. lia. }
  { intros k Hk. rewrite pairs_codomain_succ in Hk.
    apply list_elem_of_fmap in Hk as (c & -> & Hc). apply Hexact in Hc.
    destruct Hc as [_ Hc]. unfold Z.succ. rewrite Hc. eauto. }
  exists ps, lc', rc'. split; [|auto].
  unfold extract_character_pair_ranges. rewrite Hscan, bind_Ok.
  rewrite py_range_step1, len_fmap.
  rewrite (foldM_indexed _ delete_pair_range ps)
    by (intros i p st Hi; apply extract_character_pair_ranges_remove_range, Hi).
  rewrite (delete_pair_ranges_total ps lc rc lc' rc' Hl Hr). reflexivity.
Qed.

(** X13: on maps without empty outputs in which no two consecutive code
    points both start a swap pair (as the two-way [extract_ranges] leaves
    them), [extract_character_pair_ranges] returns; the code points that
    its ranges cover are exactly the code points [c] that map to [c + 1]
    and back, each covered once; it deletes them, and their partners from
    the reverse map, and leaves every other binding; no swap pair is
    left. *)
Theorem extract_character_pair_ranges_exact lc rc :
  dict_wf lc -> nonempty_outputs lc -> nonempty_outputs rc ->
  no_adjacent_swap_pairs lc rc ->
  exists sp ls lc' rc',
    extract_character_pair_ranges lc rc = Ok ((sp, ls), lc', rc') /\
    NoDup (pairs_domain (pair_ranges sp ls)) /\
    (forall c, c ∈ pairs_domain (pair_ranges sp ls) <-> swap_pair lc rc c) /\
    (forall k, dict_get lc' k =
               if decide (k ∈ pairs_domain (pair_ranges sp ls)) then None
               else dict_get lc k) /\
    (forall k, dict_get rc' k =
               if decide (k ∈ pairs_codomain (pair_ranges sp ls)) then None
               else dict_get rc k) /\
    (forall c, ~ swap_pair lc' rc' c).
Proof.
  intros Hwf Hlc Hrc Hnoadj.
  destruct (extract_character_pair_ranges_total lc rc Hwf Hlc Hrc Hnoadj)
    as (ps & lc' & rc' & Hrun & Hnd & Hexact & Hl & Hr).
  exists ps.*1, ps.*2, lc', rc'. unfold pair_ranges. rewrite zip_fst_snd.
  assert (forall k, dict_get lc' k =
                    if decide (k ∈ pairs_domain ps) then None
                    else dict_get lc k) as Hg
    by (intros k; apply dict_delitems_get, Hl).
  split; [exact Hrun|]. split; [exact Hnd|]. split; [exact Hexact|].
  split; [exact Hg|]. split; [intros k; apply dict_delitems_get, Hr|].
  intros c Hc.
  assert (swap_pair lc rc c) as Hc0.
  { eapply bidirectional_sub; [| |exact Hc]; eapply dict_delitems_sub; eassumption. }
  destruct Hc as [Hc _]. rewrite Hg in Hc.
  rewrite decide_True in Hc by (apply Hexact, Hc0). discriminate.
Qed.

Lemma extract_character_pair_ranges_exact_witness :
  exists sp ls lc' rc',
    extract_character_pair_ranges sample_lower_1 sample_upper_1 =
      Ok ((sp, ls), lc', rc') /\
    NoDup (pairs_domain (pair_ranges sp ls)) /\
    (forall c, c ∈ pairs_domain (pair_ranges sp ls) <->
               swap_pair sample_lower_1 sample_upper_1 c) /\
    (forall k, dict_get lc' k =
               if decide (k ∈ pairs_domain (pair_ranges sp ls)) then None
               else dict_get sample_lower_1 k) /\
    (forall k, dict_get rc' k =
               if decide (k ∈ pairs_codomain (pair_ranges sp ls)) then None
               else dict_get sample_upper_1 k) /\
    (forall c, ~ swap_pair lc' rc' c).
Proof.
  apply (extract_character_pair_ranges_exact sample_lower_1 sample_upper_1).
  - apply NoDup_bool_decide. vm_compute. reflexivity.
  - apply nonempty_outputs_bool_decide. vm_compute. reflexivity.
  - apply nonempty_outputs_bool_decide. vm_compute. reflexivity.
  - apply no_adjacent_swap_pairsb_spec. vm_compute. reflexivity.
Defined.
(** * Further properties of the pipeline: what it raises *)

(** A [for] loop that raises does so in a turn that starts from a state
    of the invariant. *)
Lemma foldM_raise {S A : Type} (f : S -> A -> result S)
    (I : list A -> S -> Prop) (l : list A) (s0 : S) (e : exn) :
  I [] s0 ->
  (forall pre a post s s1,
      l = pre ++ a :: post -> I pre s -> f s a = Ok s1 -> I (pre ++ [a]) s1) ->
  foldM f l s0 = Raise e ->
  exists pre a post s, l = pre ++ a :: post /\ I pre s /\ f s a = Raise e.
Proof.
  intros H0 Hstep.
  enough (forall post pre s, l = pre ++ post -> I pre s ->
            foldM f post s = Raise e ->
            exists pre a post s, l = pre ++ a :: post /\ I pre s /\
                                 f s a = Raise e) as Hgen.
  { intros Hf. exact (Hgen l [] s0 eq_refl H0 Hf). }
  induction post as [|a post IH]; intros pre s Hl HI Hf; cbn [foldM] in Hf.
  - discriminate Hf.
  - destruct (f s a) as [s1|e'] eqn:Ef.
    + rewrite bind_Ok in Hf. apply (IH (pre ++ [a]) s1); [|eauto|exact Hf].
      rewrite <- app_assoc. exact Hl.
    + injection Hf as ->. exists pre, a, post, s. auto.
Qed.

(** A loop raises only what its body raises. *)
Lemma foldM_raise_only {S A : Type} (f : S -> A -> result S)
    (P : exn -> Prop) (l : list A) :
  (forall s a e, f s a = Raise e -> P e) ->
  forall s e, foldM f l s = Raise e -> P e.
Proof.
  intros Hf. induction l as [|a l IH]; intros s e H; cbn [foldM] in H.
  - discriminate H.
  - destruct (f s a) as [s1|e'] eqn:Ef.
    + rewrite bind_Ok in H. exact (IH _ _ H).
    + injection H as ->. exact (Hf _ _ _ Ef).
Qed.

Lemma dict_delitem_error (d : dict) (k : Z) (e : exn) :
  dict_delitem d k = Raise e -> e = KeyError.
Proof.
  unfold dict_delitem. destruct (dict_contains d k); [discriminate|].
  intros [= <-]. reflexivity.
Qed.

(** A turn of the scanning loop of [extract_special_ranges] raises only
    when it reads [in_range] before any assignment. *)
Lemma extract_special_ranges_body_error lc st a e :
  is_Some (dict_get lc a) ->
  extract_special_ranges_inv st ->
  extract_special_ranges_body lc st a = Raise e ->
  e = UnboundLocalError /\ st.2 = None.
Proof.
  intros [v Hv] Hinv. destruct st as [[[ranges lengths] rp] ir].
  destruct Hinv as (ss & -> & -> & -> & _ & Hin).
  unfold extract_special_ranges_body.
  rewrite (proj2 (dict_getitem_Ok lc a v) Hv), bind_Ok.
  destruct (decide (len v = 2)) as [Hlen|Hlen].
  2:{ rewrite bool_decide_eq_false_2 by exact Hlen. discriminate. }
  rewrite bool_decide_eq_true_2 by exact Hlen. cbn [negb]. cbv zeta.
  apply len_eq_2 in Hlen as (x & y & ->).
  destruct (dict_get lc (a - 1)) as [pv|] eqn:Hpv.
  2:{ rewrite (proj2 (dict_contains_false lc (a - 1)) Hpv). discriminate. }
  rewrite (proj2 (dict_contains_true lc (a - 1))) by eauto. cbn [negb].
  rewrite (proj2 (dict_getitem_Ok lc (a - 1) pv) Hpv), bind_Ok.
  destruct (decide (len pv = 2)) as [Hlen|Hlen].
  2:{ rewrite bool_decide_eq_false_2 by exact Hlen. discriminate. }
  rewrite bool_decide_eq_true_2 by exact Hlen. cbn [negb].
  apply len_eq_2 in Hlen as (px & py & ->).
  change (str_getitem [px; py] 1) with (Ok [py] : result str).
  change (str_getitem [px; py] 0) with (Ok [px] : result str).
  change (str_getitem [x; y] 1) with (Ok [y] : result str).
  change (str_getitem [x; y] 0) with (Ok [x] : result str).
  rewrite !bind_Ok.
  lazymatch goal with
  | |- (if ?b then _ else _) = _ -> _ => destruct b; [discriminate|]
  end.
  repeat (progress (cbn [ord]; rewrite ?bind_Ok)).
  lazymatch goal with
  | |- (if ?b then _ else _) = _ -> _ => destruct b; [discriminate|]
  end.
  destruct ir as [[|]|].
  - destruct (Hin eq_refl) as (ss' & r & ->).
    rewrite special_lens_snoc.
    rewrite list_getitem_snoc
      by (rewrite !len_app; unfold special_lens; rewrite len_fmap; reflexivity).
    rewrite bind_Ok.
    rewrite (list_setitem_snoc _ r.2)
      by (rewrite !len_app; unfold special_lens; rewrite len_fmap; reflexivity).
    rewrite bind_Ok. discriminate.
  - repeat (progress (cbn [ord]; rewrite ?bind_Ok)). discriminate.
  - intros [= <-]. split; reflexivity.
Qed.

(** The exceptions of [extract_special_ranges]. *)
Lemma extract_special_ranges_error lc e :
  extract_special_ranges lc = Raise e ->
  e = KeyError \/ e = UnboundLocalError.
Proof.
  unfold extract_special_ranges. intros H.
  destruct (foldM (extract_special_ranges_body lc) (sorted (dict_keys lc))
              ([], [], -1, None)) as [[[[ranges lengths] rp] ir]|e'] eqn:Hscan.
  - rewrite bind_Ok in H.
    apply extract_special_ranges_scan in Hscan as (ss & -> & -> & _ & _ & _).
    destruct (foldM (extract_special_ranges_remove (flat_special ss)
                                                   (special_lens ss))
                (py_range 0 (len (flat_special ss)) 3) lc) as [lc1|e'] eqn:Hrem;
      [discriminate H|].
    injection H as ->. left.
    rewrite len_flat_special, py_range_chunks in Hrem
      by (try lia; apply len_nonneg).
    rewrite foldM_fmap in Hrem.
    rewrite (foldM_indexed _ delete_special_range ss) in Hrem
      by (intros i r st Hi; apply extract_special_ranges_remove_range, Hi).
    apply (foldM_raise_only delete_special_range (fun e => e = KeyError) ss)
      in Hrem; [exact Hrem|].
    intros d r e0. unfold delete_special_range.
    apply (foldM_raise_only _ (fun e => e = KeyError)).
    intros d0 k e1. apply dict_delitem_error.
  - injection H as ->. right.
    apply (foldM_raise (extract_special_ranges_body lc)
             (fun _ => extract_special_ranges_inv)) in Hscan
      as (pre & a & post & s & Hl & Hinv & Hb).
    + apply (extract_special_ranges_body_error lc s a e); [|exact Hinv|exact Hb].
      apply elem_of_dict_keys, elem_of_sorted. rewrite Hl.
      apply elem_of_app. right. left.
    + exists []. repeat split; try reflexivity; try discriminate. constructor.
    + intros pre a post s s1 _ Hinv Hbody.
      exact (extract_special_ranges_inv_step lc s a s1 Hinv Hbody).
Qed.

(** The stages of the constructor up to the special ranges return, on
    maps without empty outputs. *)
Lemma ConversionTables_init_first_stages lower upper :
  dict_wf lower -> dict_wf upper ->
  nonempty_outputs lower -> nonempty_outputs upper ->
  exists r1 l1 u1 r2 l2 u2 r3 l3 u3,
    extract_ranges lower (Some upper) = Ok (r1, l1, Some u1) /\
    extract_character_pair_ranges l1 u1 = Ok (r2, l2, u2) /\
    extract_character_pairs l2 u2 = Ok (r3, l3, u3) /\
    dict_wf l3 /\ dict_wf u3 /\ dict_sub l3 lower /\ dict_sub u3 upper.
Proof.
  intros Hwl Hwu Hnl Hnu.
  destruct (extract_ranges_total lower (Some upper) Hwl Hnl Hnu)
    as (rs0 & l1 & rc1 & E1 & _).
  destruct (extract_ranges_run _ _ _ _ _ _ Hwl E1)
    as (rs & _ & _ & _ & _ & _ & (u1 & -> & Hu1)).
  destruct (extract_ranges_no_adjacent_swap_pairs _ _ _ _ _ Hwl E1)
    as (Hsl1 & Hsu1 & Hwl1 & Hnoadj).
  destruct (dict_delitems_keys _ _ _ Hwu Hu1) as [Hwu1 _].
  destruct (extract_character_pair_ranges_total l1 u1 Hwl1
              (nonempty_outputs_sub _ _ Hsl1 Hnl)
              (nonempty_outputs_sub _ _ Hsu1 Hnu) Hnoadj)
    as (ps & l2 & u2 & E2 & _ & _ & Hl2 & Hu2).
  destruct (dict_delitems_keys _ _ _ Hwl1 Hl2) as [Hwl2 _].
  destruct (dict_delitems_keys _ _ _ Hwu1 Hu2) as [Hwu2 _].
  pose proof (dict_delitems_sub _ _ _ Hl2) as Hsl2.
  pose proof (dict_delitems_sub _ _ _ Hu2) as Hsu2.
  assert (NoDup (sorted (dict_keys l2))) as Hnd
    by (unfold sorted; rewrite merge_sort_Permutation; exact Hwl2).
  destruct (extract_character_pairs_loop_exact _ [] l2 u2 Hnd)
    as (l3 & u3 & E3).
  { apply (nonempty_outputs_sub _ _ Hsl2), (nonempty_outputs_sub _ _ Hsl1), Hnl. }
  { apply (nonempty_outputs_sub _ _ Hsu2), (nonempty_outputs_sub _ _ Hsu1), Hnu. }
  destruct (extract_character_pairs_loop _ _ _ _ _ _ _ E3)
    as (qs & _ & _ & Hl3 & Hu3).
  destruct (dict_delitems_keys _ _ _ Hwl2 Hl3) as [Hwl3 _].
  destruct (dict_delitems_keys _ _ _ Hwu2 Hu3) as [Hwu3 _].
  pose proof (dict_delitems_sub _ _ _ Hl3) as Hsl3.
  pose proof (dict_delitems_sub _ _ _ Hu3) as Hsu3.
  exists (flat_ranges rs0, range_lens rs0), l1, u1, (ps.*1, ps.*2), l2, u2,
    ([] ++ flat_pairs (select_bidirectional l2 u2 (sorted (dict_keys l2)))),
    l3, u3.
  split; [exact E1|]. split; [exact E2|]. split; [exact E3|].
  split; [exact Hwl3|]. split; [exact Hwu3|]. split.
  - intros k v Hk. apply Hsl1, Hsl2, Hsl3, Hk.
  - intros k v Hk. apply Hsu1, Hsu2, Hsu3, Hk.
Qed.

(** The stages of the constructor after the special ranges return. *)
Lemma ConversionTables_init_last_stages l3 u4 :
  dict_wf l3 -> dict_wf u4 -> nonempty_outputs l3 ->
  exists r5 l5 rc5 r6 l6 r7 u7,
    extract_ranges l3 None = Ok (r5, l5, rc5) /\
    extract_conversions l5 = Ok (r6, l6) /\
    extract_conversions u4 = Ok (r7, u7).
Proof.
  intros Hwl3 Hwu4 Hnl3.
  destruct (extract_ranges_total l3 None Hwl3 Hnl3 I)
    as (rs0 & l5 & rc5 & E5 & _).
  destruct (extract_ranges_run _ _ _ _ _ _ Hwl3 E5)
    as (rs & _ & _ & _ & _ & Hl5 & _).
  destruct (dict_delitems_keys _ _ _ Hwl3 Hl5) as [Hwl5 _].
  destruct (extract_conversions_run l5 Hwl5) as (l6 & E6 & _).
  destruct (extract_conversions_run u4 Hwu4) as (u7 & E7 & _).
  do 7 eexists. split; [exact E5|]. split; [exact E6 | exact E7].
Qed.

(** X14: on maps without duplicate keys and without empty outputs, six of
    the seven stages of the constructor return, and only the special-range
    stage can raise.  The two-way [extract_ranges],
    [extract_character_pair_ranges] and [extract_character_pairs] return
    one after the other and leave the maps [l3] and [u3]; the one-way
    [extract_ranges] returns on [l3], and [extract_conversions] on what
    it leaves.  The constructor raises [e] exactly when
    [extract_special_ranges] raises [e] on [u3], and [e] is then a
    [KeyError] (a range that runs over a code point that is no key) or an
    [UnboundLocalError] ([in_range] read before its first assignment).
    When [extract_special_ranges] returns [(r4, u4)] on [u3],
    [extract_conversions] returns on [u4] and the constructor returns the
    seven tables. *)
Theorem ConversionTables_init_raises lower upper :
  dict_wf lower -> dict_wf upper ->
  nonempty_outputs lower -> nonempty_outputs upper ->
  exists r1 l1 u1 r2 l2 u2 r3 l3 u3 r5 l5 rc5 r6 l6,
    extract_ranges lower (Some upper) = Ok (r1, l1, Some u1) /\
    extract_character_pair_ranges l1 u1 = Ok (r2, l2, u2) /\
    extract_character_pairs l2 u2 = Ok (r3, l3, u3) /\
    extract_ranges l3 None = Ok (r5, l5, rc5) /\
    extract_conversions l5 = Ok (r6, l6) /\
    (forall e, ConversionTables_init (lower, upper) = Raise e <->
               extract_special_ranges u3 = Raise e) /\
    (forall e, extract_special_ranges u3 = Raise e ->
               e = KeyError \/ e = UnboundLocalError) /\
    (forall r4 u4, extract_special_ranges u3 = Ok (r4, u4) ->
       exists r7 u7,
         extract_conversions u4 = Ok (r7, u7) /\
         ConversionTables_init (lower, upper) =
           Ok ({| character_case_ranges := r1;
                  character_pair_ranges := r2;
                  character_pairs := r3;
                  upper_case_special_ranges := r4;
                  lower_case_ranges := r5;
                  lower_case_conversions := r6;
                  upper_case_conversions := r7 |},
               (if dict_truth l6 then [lowercase_warning] else []) ++
               (if dict_truth u7 then [uppercase_warning] else []),
               l6, u7)).
Proof.
  intros Hwl Hwu Hnl Hnu.
  destruct (ConversionTables_init_first_stages lower upper Hwl Hwu Hnl Hnu)
    as (r1 & l1 & u1 & r2 & l2 & u2 & r3 & l3 & u3 &
        E1 & E2 & E3 & Hwl3 & Hwu3 & Hsl3 & Hsu3).
  destruct (ConversionTables_init_last_stages l3 [] Hwl3 (NoDup_nil_2)
              (nonempty_outputs_sub _ _ Hsl3 Hnl))
    as (r5 & l5 & rc5 & r6 & l6 & _ & _ & E5 & E6 & _).
  assert (forall r4 u4, extract_special_ranges u3 = Ok (r4, u4) ->
            exists r7 u7, extract_conversions u4 = Ok (r7, u7)) as Hlast.
  { intros [ranges lengths] u4 E4.
    destruct (extract_special_ranges_run _ _ _ _ E4) as (ss & _ & _ & _ & Hu4).
    destruct (dict_delitems_keys _ _ _ Hwu3 Hu4) as [Hwu4 _].
    destruct (extract_conversions_run u4 Hwu4) as (u7 & E7 & _).
    eexists. exists u7. exact E7. }
  exists r1, l1, u1, r2, l2, u2, r3, l3, u3, r5, l5, rc5, r6, l6.
  split; [exact E1|]. split; [exact E2|]. split; [exact E3|].
  split; [exact E5|]. split; [exact E6|].
  unfold ConversionTables_init. cbn [fst snd].
  rewrite E1, !bind_Ok, E2, bind_Ok, E3, bind_Ok.
  split; [|split].
  - intros e. destruct (extract_special_ranges u3) as [[r4 u4]|e'] eqn:E4.
    + destruct (Hlast r4 u4 eq_refl) as (r7 & u7 & E7).
      rewrite bind_Ok, E5, bind_Ok, E6, bind_Ok, E7, bind_Ok.
      split; intros H; discriminate H.
    + split; intros H; injection H as ->; reflexivity.
  - intros e E4. exact (extract_special_ranges_error u3 e E4).
  - intros r4 u4 E4. destruct (Hlast r4 u4 E4) as (r7 & u7 & E7).
    exists r7, u7. split; [exact E7|].
    rewrite E4, bind_Ok, E5, bind_Ok, E6, bind_Ok, E7, bind_Ok. reflexivity.
Qed.

Lemma ConversionTables_init_raises_witness :
  ConversionTables_init (sample_lower, sample_upper_unbound) =
    Raise UnboundLocalError /\
  exists r1 l1 u1 r2 l2 u2 r3 l3 u3 r5 l5 rc5 r6 l6,
    extract_ranges sample_lower (Some sample_upper_unbound) =
      Ok (r1, l1, Some u1) /\
    extract_character_pair_ranges l1 u1 = Ok (r2, l2, u2) /\
    extract_character_pairs l2 u2 = Ok (r3, l3, u3) /\
    extract_ranges l3 None = Ok (r5, l5, rc5) /\
    extract_conversions l5 = Ok (r6, l6) /\
    (forall e, ConversionTables_init (sample_lower, sample_upper_unbound) =
                 Raise e <->
               extract_special_ranges u3 = Raise e) /\
    (forall e, extract_special_ranges u3 = Raise e ->
               e = KeyError \/ e = UnboundLocalError) /\
    (forall r4 u4, extract_special_ranges u3 = Ok (r4, u4) ->
       exists r7 u7,
         extract_conversions u4 = Ok (r7, u7) /\
         ConversionTables_init (sample_lower, sample_upper_unbound) =
           Ok ({| character_case_ranges := r1;
                  character_pair_ranges := r2;
                  character_pairs := r3;
                  upper_case_special_ranges := r4;
                  lower_case_ranges := r5;
                  lower_case_conversions := r6;
                  upper_case_conversions := r7 |},
               (if dict_truth l6 then [lowercase_warning] else []) ++
               (if dict_truth u7 then [uppercase_warning] else []),
               l6, u7)).
Proof.
  split; [vm_compute; reflexivity|].
  apply (ConversionTables_init_raises sample_lower sample_upper_unbound).
  - apply NoDup_bool_decide. vm_compute. reflexivity.
  - apply NoDup_bool_decide. vm_compute. reflexivity.
  - apply nonempty_outputs_bool_decide. vm_compute. reflexivity.
  - apply nonempty_outputs_bool_decide. vm_compute. reflexivity.
Defined.

(** The stages on [sample_lower] and [sample_upper_unbound]: the first
    three leave [unbound_upper] of the upper-case map, on which the
    special-range stage reads [in_range] before its first assignment. *)
Example ConversionTables_init_unbound_stages :
  extract_ranges sample_lower (Some sample_upper_unbound) =
    Ok (([0x0391; 0x03B1], [3]),
        [(0x0178, [0xFF]); (0x0102, [0x103]); (0x0100, [0x101]);
         (0x0130, [0x69; 0x307]); (0x1F89, [0x1F81]); (0x1F88, [0x1F80]);
         (0x03F4, [0x3B8])],
        Some ([(0x00FF, [0x178]); (0x0101, [0x100]); (0x0103, [0x102])] ++
              unbound_upper)) /\
  extract_character_pair_ranges
    [(0x0178, [0xFF]); (0x0102, [0x103]); (0x0100, [0x101]);
     (0x0130, [0x69; 0x307]); (0x1F89, [0x1F81]); (0x1F88, [0x1F80]);
     (0x03F4, [0x3B8])]
    ([(0x00FF, [0x178]); (0x0101, [0x100]); (0x0103, [0x102])] ++ unbound_upper) =
    Ok (([0x0100], [4]),
        [(0x0178, [0xFF]); (0x0130, [0x69; 0x307]); (0x1F89, [0x1F81]);
         (0x1F88, [0x1F80]); (0x03F4, [0x3B8])],
        [(0x00FF, [0x178])] ++ unbound_upper) /\
  extract_character_pairs
    [(0x0178, [0xFF]); (0x0130, [0x69; 0x307]); (0x1F89, [0x1F81]);
     (0x1F88, [0x1F80]); (0x03F4, [0x3B8])]
    ([(0x00FF, [0x178])] ++ unbound_upper) =
    Ok ([0x0178; 0xFF],
        [(0x0130, [0x69; 0x307]); (0x1F89, [0x1F81]); (0x1F88, [0x1F80]);
         (0x03F4, [0x3B8])],
        unbound_upper) /\
  extract_special_ranges unbound_upper = Raise UnboundLocalError /\
  ConversionTables_init (sample_lower, sample_upper_unbound) =
    Raise UnboundLocalError.
Proof. repeat split; vm_compute; reflexivity. Qed.

(** The [KeyError] of the special-range stage: the first three stages
    leave [key_error_upper] of [sample_upper_key_error]; the range opened
    at 0x1F80 is extended at 0x1F92 and 0x1F93, and its removal looks for
    the key 0x1F82. *)
Example ConversionTables_init_key_error :
  ConversionTables_init ([], key_error_upper) = Raise KeyError /\
  extract_special_ranges key_error_upper = Raise KeyError /\
  ConversionTables_init (sample_lower, sample_upper_key_error) = Raise KeyError.
Proof. repeat split; vm_compute; reflexivity. Qed.

(** X15: on maps without empty outputs whose upper-case map is clean
    for the special ranges (every code point with two output code points
    that follows a key follows one with two output code points and the
    same second one), the constructor returns, and every special range
    [(start, first, second, length)] of its table is right for the
    original upper-case map: [start + i] has the outputs
    [(first + i, second)] for every [i] from 0 to [length]. *)
Theorem ConversionTables_init_returns lower upper :
  dict_wf lower -> dict_wf upper ->
  nonempty_outputs lower -> nonempty_outputs upper ->
  special_clean upper ->
  exists t ws l u,
    ConversionTables_init (lower, upper) = Ok (t, ws, l, u) /\
    forall s f z n,
      (s, f, z, n) ∈ special_ranges_of (upper_case_special_ranges t).1
                                       (upper_case_special_ranges t).2 ->
      forall i, 0 <= i <= n -> dict_get upper (s + i) = Some [f + i; z].
Proof.
  intros Hwl Hwu Hnl Hnu Hclean.
  destruct (ConversionTables_init_first_stages lower upper Hwl Hwu Hnl Hnu)
    as (r1 & l1 & u1 & r2 & l2 & u2 & r3 & l3 & u3 &
        E1 & E2 & E3 & Hwl3 & Hwu3 & Hsl3 & Hsu3).
  destruct (extract_special_ranges_clean_total u3 Hwu3
              (special_clean_sub _ _ Hsu3 Hclean))
    as (ss & u4 & E4 & Hok & Hu4).
  destruct (dict_delitems_keys _ _ _ Hwu3 Hu4) as [Hwu4 _].
  destruct (ConversionTables_init_last_stages l3 u4 Hwl3 Hwu4
              (nonempty_outputs_sub _ _ Hsl3 Hnl))
    as (r5 & l5 & rc5 & r6 & l6 & r7 & u7 & E5 & E6 & E7).
  unfold ConversionTables_init. cbn [fst snd].
  rewrite E1, !bind_Ok, E2, bind_Ok, E3, bind_Ok, E4, bind_Ok, E5, bind_Ok,
    E6, bind_Ok, E7, bind_Ok.
  do 4 eexists. split; [reflexivity|]. cbn [upper_case_special_ranges fst snd].
  rewrite special_ranges_of_flat. intros s f z n Hr i Hi.
  rewrite Forall_forall in Hok. destruct (Hok _ Hr) as [_ Hg].
  apply Hsu3. exact (Hg i Hi).
Qed.

Lemma ConversionTables_init_returns_witness :
  exists t ws l u,
    ConversionTables_init (sample_lower, sample_upper) = Ok (t, ws, l, u) /\
    forall s f z n,
      (s, f, z, n) ∈ special_ranges_of (upper_case_special_ranges t).1
                                       (upper_case_special_ranges t).2 ->
      forall i, 0 <= i <= n -> dict_get sample_upper (s + i) = Some [f + i; z].
Proof.
  apply (ConversionTables_init_returns sample_lower sample_upper).
  - apply NoDup_bool_decide. vm_compute. reflexivity.
  - apply NoDup_bool_decide. vm_compute. reflexivity.
  - apply nonempty_outputs_bool_decide. vm_compute. reflexivity.
  - apply nonempty_outputs_bool_decide. vm_compute. reflexivity.
  - apply special_cleanb_spec; [apply NoDup_bool_decide|];
      vm_compute; reflexivity.
Defined.
(** * Further properties of the pipeline: where a conversion lands *)

(** X16: the conversion distance is antisymmetric on bidirectional
    conversions: when [c] and [m] are each the single output of the
    other, the distance of [m] in the reverse map is the opposite of the
    distance of [c] in the forward map. *)
Theorem calculate_conversion_distance_reverse (lc rc : dict) (c m d : Z) :
  dict_get lc c = Some [m] ->
  is_bidirectional_conversion c lc rc = Ok true ->
  calculate_conversion_distance lc c = Ok (Some d) ->
  calculate_conversion_distance rc m = Ok (Some (- d)).
Proof.
  intros Hc Hb Hd.
  apply is_bidirectional_conversion_true in Hb as (m' & H1 & H2).
  assert (m' = m) as -> by congruence.
  rewrite calculate_conversion_distance_cases, H1 in Hd. injection Hd as <-.
  rewrite calculate_conversion_distance_cases, H2. do 2 f_equal. lia.
Qed.

Lemma calculate_conversion_distance_reverse_witness :
  calculate_conversion_distance greek_upper 0x03B1 = Ok (Some (- 32)).
Proof.
  apply (calculate_conversion_distance_reverse greek_lower greek_upper
           0x0391 0x03B1 32).
  - vm_compute. reflexivity.
  - vm_compute. reflexivity.
  - vm_compute. reflexivity.
Defined.






(** * From the records to the tables *)

Lemma elem_of_dict_get (d : dict) (k : Z) (v : str) :
  dict_wf d -> (k, v) ∈ d -> dict_get d k = Some v.
Proof.
  unfold dict_wf, dict_keys. induction d as [|[k0 v0] d IH]; intros Hwf Hkv.
  - apply elem_of_nil in Hkv. contradiction.
  - rewrite fmap_cons in Hwf. apply NoDup_cons in Hwf as [Hk0 Hwf]. simpl.
    apply elem_of_cons in Hkv as [[= -> ->]|Hkv].
    + rewrite decide_True by reflexivity. reflexivity.
    + rewrite decide_False; [exact (IH Hwf Hkv)|].
      intros ->. apply Hk0. apply list_elem_of_fmap. exists (k0, v).
      split; [reflexivity | exact Hkv].
Qed.

Lemma read_map_ok_code_points (d : dict) (x : Z) :
  read_map_ok d -> x ∈ dict_code_points d -> 0 <= x < 0x110000.
Proof.
  intros (Hwf & Hkeys & Hout) (k & v & Hkv & Hx)%elem_of_encode_entries.
  apply (elem_of_dict_get d k v Hwf) in Hkv. destruct Hx as [->|Hx].
  - assert (128 <= k < 0x10000) by (apply Hkeys; eauto). lia.
  - specialize (Hout k v Hkv). rewrite Forall_forall in Hout. exact (Hout x Hx).
Qed.

(** X18: from the records of the two files to the tables: when
    [read_case_mappings] returns and the constructor completes on what it
    returns, every code point that a table covers, in either map, lies in
    [[128, 0x10000)], and every number in the seven value tables is a
    code point below 0x110000. *)
Theorem tables_from_records unicode_data special_casing lower upper t ws l u :
  read_case_mappings unicode_data special_casing = Ok (lower, upper) ->
  ConversionTables_init (lower, upper) = Ok (t, ws, l, u) ->
  (forall c, c ∈ lower_domain t \/ c ∈ upper_domain t -> 128 <= c < 0x10000) /\
  (forall x, x ∈ lower_table_values t \/ x ∈ upper_table_values t ->
             0 <= x < 0x110000).
Proof.
  intros Hread H. unfold read_case_mappings in Hread.
  destruct (foldM read_unicode_data_line unicode_data ([], []))
    as [st|] eqn:E1; [|discriminate Hread].
  rewrite bind_Ok in Hread.
  destruct (read_unicode_data_ok unicode_data st E1) as [Hl0 Hu0].
  destruct (read_special_casing_ok special_casing st (lower, upper)
              Hl0 Hu0 Hread) as [Hl Hu]. cbn [fst snd] in Hl, Hu.
  pose proof Hl as (Hwl & Hkl & _). pose proof Hu as (Hwu & Hku & _).
  destruct (ConversionTables_init_deletes lower upper t ws l u Hwl Hwu H)
    as (_ & _ & Hpl & Hpu & _).
  pose proof (fun x => lower_table_values_code_points
                         lower upper t ws l u x Hwl Hwu H) as Hcl.
  pose proof (fun x => upper_table_values_code_points
                         lower upper t ws l u x Hwl Hwu H) as Hcu.
  split.
  - intros c [Hc|Hc].
    + apply Hkl, elem_of_dict_keys. rewrite Hpl. apply elem_of_app. left.
      exact Hc.
    + apply Hku, elem_of_dict_keys. rewrite Hpu. apply elem_of_app. left.
      exact Hc.
  - intros x [Hx|Hx].
    + exact (read_map_ok_code_points lower x Hl (Hcl x Hx)).
    + exact (read_map_ok_code_points upper x Hu (Hcu x Hx)).
Qed.

Lemma tables_from_records_witness :
  (forall c, c ∈ lower_domain records_tables \/ c ∈ upper_domain records_tables ->
             128 <= c < 0x10000) /\
  (forall x, x ∈ lower_table_values records_tables \/
             x ∈ upper_table_values records_tables ->
             0 <= x < 0x110000).
Proof.
  apply (tables_from_records unicode_data_sample [record_with_comment_field]
           [(0x0149, [0x02BC; 0x006E])]
           [(0x00E9, [0x00C9]); (0x0149, [0x02BC; 0x004E])]
           records_tables [] [] []).
  - vm_compute. reflexivity.
  - vm_compute. reflexivity.
Defined.

(** * Clean maps: both maps come back from the tables *)

(** The special-range stage of a run of the constructor. *)
Lemma ConversionTables_init_special_stage lower upper t ws l u :
  dict_wf lower -> dict_wf upper ->
  ConversionTables_init (lower, upper) = Ok (t, ws, l, u) ->
  exists u3 u4,
    extract_special_ranges u3 = Ok (upper_case_special_ranges t, u4) /\
    dict_wf u3 /\ dict_sub u3 upper.
Proof.
  intros Hwl Hwu H.
  apply ConversionTables_init_stages in H
    as (l1 & u1 & l2 & u2 & l3 & u3 & u4 & l5 & rc5 &
        E1 & E2 & E3 & E4 & _).
  destruct (extract_ranges_no_adjacent_swap_pairs _ _ _ _ _ Hwl E1)
    as (_ & Hsu1 & Hwl1 & _).
  destruct (character_case_ranges t) as [a1 b1].
  destruct (character_pair_ranges t) as [a2 b2].
  destruct (extract_ranges_run _ _ _ _ _ _ Hwl E1)
    as (rs & _ & _ & _ & _ & _ & (u1' & [= <-] & Hu1)).
  destruct (dict_delitems_keys _ _ _ Hwu Hu1) as [Hwu1 _].
  destruct (extract_character_pair_ranges_run _ _ _ _ _ _ Hwl1 E2)
    as (ps & _ & _ & _ & _ & _ & _ & Hu2).
  destruct (dict_delitems_keys _ _ _ Hwu1 Hu2) as [Hwu2 _].
  destruct (extract_character_pairs_run _ _ _ _ _ E3) as (qs & _ & _ & _ & Hu3).
  destruct (dict_delitems_keys _ _ _ Hwu2 Hu3) as [Hwu3 _].
  exists u3, u4. split; [exact E4|]. split; [exact Hwu3|].
  intros k v Hk. apply Hsu1, (dict_delitems_sub _ _ _ Hu2),
    (dict_delitems_sub _ _ _ Hu3), Hk.
Qed.

Lemma elem_of_special_bindings ss (c : Z) (v : str) :
  (c, v) ∈ special_bindings ss <->
  exists r i, r ∈ ss /\ 0 <= i < r.2 /\
              c = r.1.1.1 + i /\ v = [r.1.1.2 + i; r.1.2].
Proof.
  unfold special_bindings. rewrite elem_of_concat. split.
  - intros (l0 & Hl & Hc). apply list_elem_of_fmap in Hl as (r & -> & Hr).
    apply list_elem_of_fmap in Hc as (i & [= -> ->] & Hi).
    apply elem_of_seqZ in Hi. exists r, i. repeat split; try assumption; lia.
  - intros (r & i & Hr & Hi & -> & ->).
    exists ((fun i => (r.1.1.1 + i, [r.1.1.2 + i; r.1.2])) <$> seqZ 0 r.2).
    split; [apply list_elem_of_fmap; eauto|].
    apply list_elem_of_fmap. exists i. split; [reflexivity|].
    apply elem_of_seqZ. lia.
Qed.

(** X20: when the upper-case map is clean for the special ranges, the
    tables lose nothing and invent nothing of it either: the bindings
    that the two-way tables read backwards, the special ranges and the
    residual upper-case entries stand for are exactly the bindings of the
    original upper-case map whose output has one to three code points. *)
Theorem upper_tables_lossless lower upper t ws l u (c : Z) (v : str) :
  dict_wf lower -> dict_wf upper -> special_clean upper ->
  ConversionTables_init (lower, upper) = Ok (t, ws, l, u) ->
  ((c, v) ∈ upper_bindings t \/
   (c, v) ∈ special_bindings
              (special_ranges_of (upper_case_special_ranges t).1
                                 (upper_case_special_ranges t).2)) <->
  dict_get upper c = Some v /\ 1 <= len v <= 3.
Proof.
  intros Hwl Hwu Hclean H.
  destruct (ConversionTables_init_special_stage lower upper t ws l u Hwl Hwu H)
    as (u3 & u4 & E4 & Hwu3 & Hsu3).
  destruct (extract_special_ranges_clean_total u3 Hwu3
              (special_clean_sub _ _ Hsu3 Hclean))
    as (ss & u4' & E4' & Hok & _).
  rewrite E4' in E4. injection E4 as Ht _. rewrite <- Ht. cbn [fst snd].
  rewrite special_ranges_of_flat. rewrite Forall_forall in Hok.
  assert (forall c v, (c, v) ∈ special_bindings ss ->
                      dict_get upper c = Some v /\ 1 <= len v <= 3) as Hsp.
  { intros c0 v0 (r & i & Hr & Hi & -> & ->)%elem_of_special_bindings.
    destruct (Hok r Hr) as [_ Hg].
    split; [apply Hsu3, Hg; lia|]. unfold len. simpl. lia. }
  split.
  - intros [Hc|Hc]; [|exact (Hsp c v Hc)].
    exact (upper_bindings_sound lower upper t ws l u c v Hwl Hwu H Hc).
  - intros [Hg Hlen].
    destruct (upper_bindings_complete lower upper t ws l u c v Hwl Hwu H Hg Hlen)
      as [Hc|Hc]; [left; exact Hc|].
    right. rewrite <- Ht in Hc. cbn [fst snd] in Hc.
    rewrite special_ranges_of_flat in Hc.
    apply elem_of_special_domain in Hc as (r & Hr & Hc).
    assert ((c, [r.1.1.2 + (c - r.1.1.1); r.1.2]) ∈ special_bindings ss) as Hb.
    { apply elem_of_special_bindings. exists r, (c - r.1.1.1).
      split; [exact Hr|]. split; [lia|]. split; [lia | reflexivity]. }
    destruct (Hsp _ _ Hb) as [Hg' _].
    assert (v = [r.1.1.2 + (c - r.1.1.1); r.1.2]) as -> by congruence.
    exact Hb.
Qed.

Lemma upper_tables_lossless_witness :
  ((0x1F80, [0x1F08; 0x0399]) ∈ upper_bindings sample_tables \/
   (0x1F80, [0x1F08; 0x0399]) ∈
     special_bindings
       (special_ranges_of (upper_case_special_ranges sample_tables).1
                          (upper_case_special_ranges sample_tables).2)) <->
  dict_get sample_upper 0x1F80 = Some [0x1F08; 0x0399] /\
  1 <= len [0x1F08; 0x0399] <= 3.
Proof.
  apply (upper_tables_lossless sample_lower sample_upper sample_tables [] [] []
           0x1F80 [0x1F08; 0x0399]).
  - apply NoDup_bool_decide. vm_compute. reflexivity.
  - apply NoDup_bool_decide. vm_compute. reflexivity.
  - apply special_cleanb_spec; [apply NoDup_bool_decide|];
      vm_compute; reflexivity.
  - vm_compute. reflexivity.
Defined.

